(** * The Hungarian algorithm of [hungarian.c], embedded and verified

    The solver computes a minimum-cost assignment of workers to jobs by the
    Kuhn-Munkres method with potentials.  The embedding follows the C text
    function by function and loop by loop:

    - the arithmetic of the costs ([double] in the source) is a parameter of
      the embedding, given by the class [Num]; it is instantiated with the
      binary64 numbers of [PrimFloat], which is what the program computes
      with, and with the exact rationals [Q], the idealisation in which the
      primal-dual argument is carried out; the part "Binary64" shows that
      on integers of at most 53 bits the two runs go through the same
      numbers, which carries the results over to the program;
    - the arrays [a], [u], [v], [p], [way], [minv], [used] are lists read and
      written by index;
    - the two [for] loops of a relaxation round are folds over their index
      ranges, the two [do ... while] loops take a fuel argument and return
      [None] when it runs out. *)

From Stdlib Require Import ZArith QArith Lia Lqa.
From Stdlib Require Import Floats.PrimFloat.
From Stdlib Require Import Floats.SpecFloat Floats.FloatOps Floats.FloatAxioms.
From Stdlib Require Import Numbers.Cyclic.Int63.Uint63.
From stdpp Require Import base tactics option list numbers.

Set Warnings "-inexact-float".

(** ** Numbers *)

(** What the solver needs from its cost type: the constants [0], [1e9] (the
    padding cost) and [1e18] (the macro [INF]), addition, subtraction and the
    strict comparison. *)
Class Num (R : Type) := {
  num_zero : R;
  num_pad : R;
  num_inf : R;
  num_add : R → R → R;
  num_sub : R → R → R;
  num_ltb : R → R → bool
}.

Definition Qltb (x y : Q) : bool := negb (Qle_bool y x).

#[export] Instance Q_num : Num Q := {|
  num_zero := 0%Q;
  num_pad := inject_Z (10 ^ 9);
  num_inf := inject_Z (10 ^ 18);
  num_add := Qplus;
  num_sub := Qminus;
  num_ltb := Qltb
|}.

#[export] Instance float_num : Num float := {|
  num_zero := 0%float;
  num_pad := 1e9%float;
  num_inf := 1e18%float;
  num_add := PrimFloat.add;
  num_sub := PrimFloat.sub;
  num_ltb := PrimFloat.ltb
|}.

#[export] Instance num_inhabited `{Num R} : Inhabited R := populate num_zero.

(** ** The solver *)

Section Solver.
Context {R : Type} `{NumR : Num R}.

Local Infix "⊕" := num_add (at level 50, left associativity).
Local Infix "⊖" := num_sub (at level 50, left associativity).
Local Notation "x <? y" := (num_ltb x y).
Local Abbreviation INF := num_inf.

(** The working arrays of one call, all of length [N + 1], and the job
    [j0] at the head of the search. *)
Record state := State {
  u : list R;
  v : list R;
  p : list nat;
  way : list nat;
  minv : list R;
  used : list bool;
  j0 : nat
}.

(** Lines 18-27: the padded square, with row and column 0 unused. *)
Definition pad_cell (n m : Z) (cost : list (list R)) (i j : nat) : R :=
  if bool_decide (0 < i ∧ 0 < j ∧ (Z.of_nat i ≤ n)%Z ∧ (Z.of_nat j ≤ m)%Z)
  then (cost !!! (i - 1)) !!! (j - 1)
  else num_pad.

Definition pad_matrix (N : nat) (n m : Z) (cost : list (list R)) : list (list R) :=
  (λ i, (λ j, pad_cell n m cost i j) <$> seq 0 (S N)) <$> seq 0 (S N).

(** Lines 29-32: [calloc] gives zeros. *)
Definition init_state (N : nat) : state :=
  {| u := replicate (S N) num_zero; v := replicate (S N) num_zero;
     p := replicate (S N) 0; way := replicate (S N) 0;
     minv := []; used := []; j0 := 0 |}.

(** Lines 35-40: the start of outer iteration [i]. *)
Definition enter (N i : nat) (st : state) : state :=
  {| u := u st; v := v st; p := <[0 := i]> (p st); way := way st;
     minv := replicate (S N) INF; used := replicate (S N) false; j0 := 0 |}.

(** Lines 46-50, the body for one [j]: the accumulator is
    [(minv, way, delta, j1)]. *)
Definition scan_step (a : list (list R)) (us vs : list R) (usd : list bool)
    (i0 j0 : nat) (acc : list R * list nat * R * nat) (j : nat)
    : list R * list nat * R * nat :=
  let '(mv, wy, delta, j1) := acc in
  if (usd !!! j : bool) then acc
  else
    let cur := (a !!! i0) !!! j ⊖ us !!! i0 ⊖ vs !!! j in
    let '(mv, wy) :=
      if cur <? mv !!! j then (<[j := cur]> mv, <[j := j0]> wy) else (mv, wy) in
    if mv !!! j <? delta then (mv, wy, mv !!! j, j) else (mv, wy, delta, j1).

Definition scan (N : nat) (a : list (list R)) (us vs : list R) (usd : list bool)
    (i0 j0 : nat) (mv : list R) (wy : list nat) : list R * list nat * R * nat :=
  foldl (scan_step a us vs usd i0 j0) (mv, wy, INF, 0) (seq 1 N).

(** Lines 51-54, the body for one [j]: the accumulator is [(u, v, minv)]. *)
Definition shift_step (ps : list nat) (usd : list bool) (delta : R)
    (acc : list R * list R * list R) (j : nat) : list R * list R * list R :=
  let '(us, vs, mv) := acc in
  if (usd !!! j : bool)
  then (<[ps !!! j := us !!! (ps !!! j) ⊕ delta]> us, <[j := vs !!! j ⊖ delta]> vs, mv)
  else (us, vs, <[j := mv !!! j ⊖ delta]> mv).

Definition shift (N : nat) (ps : list nat) (usd : list bool) (delta : R)
    (us vs mv : list R) : list R * list R * list R :=
  foldl (shift_step ps usd delta) (us, vs, mv) (seq 0 (S N)).

(** Lines 42-55: one pass through the body of the first [do ... while]. *)
Definition round (N : nat) (a : list (list R)) (st : state) : state :=
  let usd := <[j0 st := true]> (used st) in
  let i0 := p st !!! j0 st in
  let '(mv, wy, delta, j1) := scan N a (u st) (v st) usd i0 (j0 st) (minv st) (way st) in
  let '(us, vs, mv) := shift N (p st) usd delta (u st) (v st) mv in
  {| u := us; v := vs; p := p st; way := wy; minv := mv; used := usd; j0 := j1 |}.

(** Lines 41-56: [do { round } while (p[j0] != 0)]. *)
Fixpoint relax (fuel N : nat) (a : list (list R)) (st : state) : option state :=
  match fuel with
  | O => None
  | S fuel =>
      let st' := round N a st in
      if decide (p st' !!! j0 st' = 0) then Some st' else relax fuel N a st'
  end.

(** Lines 59-63: [do { j1 = way[j0]; p[j0] = p[j1]; j0 = j1; } while (j0)]. *)
Fixpoint augment (fuel : nat) (wy ps : list nat) (j : nat) : option (list nat) :=
  match fuel with
  | O => None
  | S fuel =>
      let j1 := wy !!! j in
      let ps' := <[j := ps !!! j1]> ps in
      if decide (j1 = 0) then Some ps' else augment fuel wy ps' j1
  end.

(** Lines 35-66: the body of the outer loop for row [i]. *)
Definition iteration (fuel N : nat) (a : list (list R)) (i : nat) (st : state)
    : option state :=
  st1 ← relax fuel N a (enter N i st);
  ps ← augment fuel (way st1) (p st1) (j0 st1);
  Some {| u := u st1; v := v st1; p := ps; way := way st1;
          minv := minv st1; used := used st1; j0 := 0 |}.

(** Lines 34-67: [for (i = 1; i <= N; i++)], here over the list of the
    rows still to enter. *)
Fixpoint outer (fuel N : nat) (a : list (list R)) (rows : list nat) (st : state)
    : option state :=
  match rows with
  | [] => Some st
  | i :: rows => st' ← iteration fuel N a i st; outer fuel N a rows st'
  end.

Definition solve (fuel N : nat) (a : list (list R)) : option state :=
  outer fuel N a (seq 1 N) (init_state N).

(** The states the run is in between two updates of the potentials: the
    state at line 34, the state after each pass through lines 42-55, and the
    state after each rewiring of [p].  These lists are not computed by the
    source; they record the run for the properties that speak of "every
    point" of it. *)
Fixpoint relax_trace (fuel N : nat) (a : list (list R)) (st : state) : list state :=
  match fuel with
  | O => []
  | S fuel =>
      let st' := round N a st in
      st' :: (if decide (p st' !!! j0 st' = 0) then [] else relax_trace fuel N a st')
  end.

Fixpoint outer_trace (fuel N : nat) (a : list (list R)) (rows : list nat) (st : state)
    : list state :=
  match rows with
  | [] => []
  | i :: rows =>
      relax_trace fuel N a (enter N i st) ++
      match iteration fuel N a i st with
      | Some st' => st' :: outer_trace fuel N a rows st'
      | None => []
      end
  end.

Definition solve_trace (fuel N : nat) (a : list (list R)) : list state :=
  init_state N :: outer_trace fuel N a (seq 1 N) (init_state N).

(** The same, with the state at line 41 of every outer iteration added:
    [p[0] = i] is set and [minv], [used] are reset, and no pass has been
    made for row [i] yet. *)
Fixpoint outer_points (fuel N : nat) (a : list (list R)) (rows : list nat) (st : state)
    : list state :=
  match rows with
  | [] => []
  | i :: rows =>
      enter N i st ::
      relax_trace fuel N a (enter N i st) ++
      match iteration fuel N a i st with
      | Some st' => st' :: outer_points fuel N a rows st'
      | None => []
      end
  end.

Definition solve_points (fuel N : nat) (a : list (list R)) : list state :=
  init_state N :: outer_points fuel N a (seq 1 N) (init_state N).

(** Lines 69-73: the sum of the costs of the matched real cells. *)
Definition total_step (n m : Z) (cost : list (list R)) (ps : list nat)
    (res : R) (j : nat) : R :=
  if bool_decide (0 < ps !!! j ∧ (Z.of_nat (ps !!! j) ≤ n)%Z ∧ (Z.of_nat j ≤ m)%Z)
  then res ⊕ (cost !!! (ps !!! j - 1)) !!! (j - 1)
  else res.

Definition total (N : nat) (n m : Z) (cost : list (list R)) (ps : list nat) : R :=
  foldl (total_step n m cost ps) num_zero (seq 1 N).

(** Lines 75-79: the answer written to the caller's array. *)
Definition clear_matches (m : Z) (match_out : list Z) : list Z :=
  foldl (λ out j, <[j := (-1)%Z]> out) match_out (seq 0 (Z.to_nat m)).

Definition write_step (n : Z) (ps : list nat) (out : list Z) (j : nat) : list Z :=
  if bool_decide (0 < ps !!! j ∧ (Z.of_nat (ps !!! j) ≤ n)%Z)
  then <[j - 1 := (Z.of_nat (ps !!! j) - 1)%Z]> out
  else out.

Definition write_matches (n m : Z) (ps : list nat) (match_out : list Z) : list Z :=
  foldl (write_step n ps) (clear_matches m match_out) (seq 1 (Z.to_nat m)).

(** Lines 16-85.  [N = MAX(n, m)]; when it is negative no loop runs and no
    array is read, so that the length the arrays have then does not
    matter.  The result is the returned total and the contents of
    [match_out] on return. *)
Definition hungarian (fuel : nat) (n m : Z) (cost : list (list R))
    (match_out : list Z) : option (R * list Z) :=
  let N := Z.to_nat (Z.max n m) in
  let a := pad_matrix N n m cost in
  st ← solve fuel N a;
  Some (total N n m cost (p st), write_matches n m (p st) match_out).

End Solver.

Arguments state : clear implicits.

Definition main_data : list (list Q) :=
  [ [ 9; 25 # 10; 71 # 10; 83 # 10 ];
    [ 62 # 10; 48 # 10; 3; 79 # 10 ];
    [ 5; 81 # 10; 15 # 10; 87 # 10 ] ]%Q.

Definition main_data_float : list (list float) :=
  [ [ 9.0; 2.5; 7.1; 8.3 ];
    [ 6.2; 4.8; 3.0; 7.9 ];
    [ 5.0; 8.1; 1.5; 8.7 ] ]%float.

(** ** Loops and arrays *)

(** The rule for a counted loop: a property of the loop index and the
    accumulator that holds at entry and is kept by the body holds at exit. *)
Lemma for_loop_ind {A : Type} (f : A → nat → A) (P : nat → A → Prop) (s n : nat) (x : A) :
  P 0 x →
  (∀ k y, k < n → P k y → P (S k) (f y (s + k))) →
  P n (foldl f x (seq s n)).
Proof.
  intros H0 Hstep. induction n as [|n IH].
  - exact H0.
  - rewrite seq_S, foldl_snoc. apply Hstep; [lia|].
    apply IH. intros k y Hk. apply Hstep. lia.
Qed.

Lemma filter_length_lt_witness {A : Type} (P : A → Prop) `{∀ x, Decision (P x)} (l : list A) :
  length (filter P l) < length l → ∃ x, x ∈ l ∧ ¬ P x.
Proof.
  induction l as [|y l IH]; simpl; [lia|].
  rewrite filter_cons. destruct (decide (P y)) as [Hy|Hy]; simpl; intros Hlt.
  - destruct IH as (x & Hx & Hnx); [lia|]. exists x. split; [by right|done].
  - exists y. split; [by left|done].
Qed.

Lemma filter_length_all {A : Type} (P : A → Prop) `{∀ x, Decision (P x)} (l : list A) :
  length (filter P l) = length l → ∀ x, x ∈ l → P x.
Proof.
  intros Hlen x Hx. destruct (decide (P x)) as [|Hn]; [done|].
  assert (length (filter P l) < length l); [|lia].
  clear Hlen. induction l as [|y l IH]; [by apply elem_of_nil in Hx|].
  rewrite filter_cons. pose proof (length_filter P l) as Hle.
  apply elem_of_cons in Hx as [->|Hx].
  - rewrite decide_False by done. simpl. lia.
  - destruct (decide (P y)); simpl; specialize (IH Hx); lia.
Qed.

Lemma filter_ext_elem {A : Type} (P Q : A → Prop)
    `{∀ x, Decision (P x)} `{∀ x, Decision (Q x)} (l : list A) :
  (∀ x, x ∈ l → P x ↔ Q x) → filter P l = filter Q l.
Proof.
  induction l as [|y l IH]; intros HPQ; [done|].
  rewrite !filter_cons.
  rewrite IH by (intros x Hx; apply HPQ; by right).
  destruct (decide (P y)) as [Hy|Hy].
  - rewrite decide_True; [done|]. apply HPQ; [by left|done].
  - rewrite decide_False; [done|]. rewrite <- HPQ by (by left). done.
Qed.

(** Removing one element that satisfies the predicate from the elements
    counted lowers the count by one. *)
Lemma filter_length_remove {A : Type} (P Q : A → Prop)
    `{∀ x, Decision (P x)} `{∀ x, Decision (Q x)} (l : list A) (y : A) :
  NoDup l → y ∈ l → P y →
  (∀ x, x ∈ l → Q x ↔ P x ∧ x ≠ y) →
  S (length (filter Q l)) = length (filter P l).
Proof.
  intros Hnd. induction Hnd as [|z l Hz Hnd IH]; intros Hy HP HQ.
  - by apply elem_of_nil in Hy.
  - rewrite !filter_cons. apply elem_of_cons in Hy as [->|Hy].
    + rewrite (decide_True (P:=P z)) by done.
      rewrite (decide_False (P:=Q z)).
      2:{ rewrite HQ by (by left). tauto. }
      simpl. f_equal. f_equal. apply filter_ext_elem.
      intros x Hx. rewrite HQ by (by right).
      split; [tauto|]. intros HPx. split; [done|]. by intros ->.
    + assert (z ≠ y) by (by intros ->).
      assert (S (length (filter Q l)) = length (filter P l)) as IH'.
      { apply IH; [done..|]. intros x Hx. apply HQ. by right. }
      destruct (decide (P z)) as [HPz|HPz].
      * rewrite decide_True; [simpl; by rewrite IH'|]. apply HQ; [by left|done].
      * rewrite decide_False; [done|]. rewrite HQ by (by left). tauto.
Qed.

(** ** What one relaxation round does to the arrays

    These facts do not depend on the arithmetic: they hold for every
    instance of [Num]. *)

Section Arrays.
Context {R : Type} `{NumR : Num R}.

Local Infix "⊕" := num_add (at level 50, left associativity).
Local Infix "⊖" := num_sub (at level 50, left associativity).

(** The reduced cost [cur] computed at line 47. *)
Definition reduced (a : list (list R)) (us vs : list R) (i j : nat) : R :=
  (a !!! i) !!! j ⊖ us !!! i ⊖ vs !!! j.

(** Job [j] is unused and line 48 lowers [minv[j]]. *)
Definition improves (a : list (list R)) (us vs : list R) (usd : list bool)
    (i0 : nat) (mv : list R) (j : nat) : Prop :=
  usd !!! j = false ∧ num_ltb (reduced a us vs i0 j) (mv !!! j) = true.

#[export] Instance improves_dec a us vs usd i0 mv j :
  Decision (improves a us vs usd i0 mv j).
Proof. unfold improves. apply _. Defined.

(** The value of [minv[j]] after the scan has passed an unused [j]. *)
Definition relaxed (a : list (list R)) (us vs : list R) (i0 : nat) (mv : list R)
    (j : nat) : R :=
  if num_ltb (reduced a us vs i0 j) (mv !!! j) then reduced a us vs i0 j else mv !!! j.

Lemma scan_S (k : nat) a us vs usd i0 j0 mv wy :
  scan (S k) a us vs usd i0 j0 mv wy
  = scan_step a us vs usd i0 j0 (scan k a us vs usd i0 j0 mv wy) (S k).
Proof. unfold scan. by rewrite seq_S, foldl_snoc. Qed.

Lemma scan_arrays (N k : nat) a us vs usd i0 j0 mv wy mv' wy' d j1 :
  length mv = S N → length wy = S N → k ≤ N →
  scan k a us vs usd i0 j0 mv wy = (mv', wy', d, j1) →
  length mv' = S N ∧ length wy' = S N ∧
  (∀ j, mv' !!! j =
        if decide (1 ≤ j ≤ k ∧ improves a us vs usd i0 mv j)
        then reduced a us vs i0 j else mv !!! j) ∧
  (∀ j, wy' !!! j =
        if decide (1 ≤ j ≤ k ∧ improves a us vs usd i0 mv j)
        then j0 else wy !!! j) ∧
  j1 ≤ k ∧ (j1 ≠ 0 → usd !!! j1 = false).
Proof.
  intros Hmv Hwy. revert mv' wy' d j1.
  induction k as [|k IH]; intros mv' wy' d j1 Hk Hscan.
  - unfold scan in Hscan. simpl in Hscan. simplify_eq.
    repeat split; try done; try lia.
    + intros j. rewrite decide_False; [done|lia].
    + intros j. rewrite decide_False; [done|lia].
  - rewrite scan_S in Hscan.
    destruct (scan k a us vs usd i0 j0 mv wy) as [[[mv1 wy1] d1] j2] eqn:Hprev.
    destruct (IH mv1 wy1 d1 j2) as (Hl1 & Hl2 & Hm & Hw & Hj & Hu); [lia|done|].
    unfold scan_step in Hscan.
    destruct (usd !!! S k) eqn:Husd.
    { simplify_eq. repeat split; try done; try lia.
      - intros j. rewrite Hm. apply decide_ext. unfold improves.
        split; [intros [? ?]; split; [lia|done]|].
        intros [? [? ?]]. split; [|done].
        destruct (decide (j = S k)) as [->|]; [congruence|lia].
      - intros j. rewrite Hw. apply decide_ext. unfold improves.
        split; [intros [? ?]; split; [lia|done]|].
        intros [? [? ?]]. split; [|done].
        destruct (decide (j = S k)) as [->|]; [congruence|lia]. }
    fold (reduced a us vs i0 (S k)) in Hscan.
    assert (mv1 !!! S k = mv !!! S k) as Hcur.
    { rewrite Hm. rewrite decide_False; [done|lia]. }
    rewrite Hcur in Hscan.
    destruct (num_ltb (reduced a us vs i0 (S k)) (mv !!! S k)) eqn:Hlt.
    + assert (∀ j, (<[S k := reduced a us vs i0 (S k)]> mv1) !!! j =
                   if decide (1 ≤ j ≤ S k ∧ improves a us vs usd i0 mv j)
                   then reduced a us vs i0 j else mv !!! j) as Hm'.
      { intros j. rewrite list_lookup_total_insert.
        destruct (decide (S k = j)) as [<-|Hne].
        - rewrite decide_True by (split; [done|lia]).
          rewrite decide_True; [done|]. split; [lia|]. by split.
        - rewrite decide_False by tauto. rewrite Hm.
          apply decide_ext. split; [intros [? ?]; split; [lia|done]|].
          intros [? ?]. split; [lia|done]. }
      assert (∀ j, (<[S k := j0]> wy1) !!! j =
                   if decide (1 ≤ j ≤ S k ∧ improves a us vs usd i0 mv j)
                   then j0 else wy !!! j) as Hw'.
      { intros j. rewrite list_lookup_total_insert.
        destruct (decide (S k = j)) as [<-|Hne].
        - rewrite decide_True by (split; [done|lia]).
          rewrite decide_True; [done|]. split; [lia|]. by split.
        - rewrite decide_False by tauto. rewrite Hw.
          apply decide_ext. split; [intros [? ?]; split; [lia|done]|].
          intros [? ?]. split; [lia|done]. }
      destruct (num_ltb _ d1); simplify_eq;
        rewrite ?length_insert; repeat split; try done; try lia.
    + assert (∀ j, mv1 !!! j =
                   if decide (1 ≤ j ≤ S k ∧ improves a us vs usd i0 mv j)
                   then reduced a us vs i0 j else mv !!! j) as Hm'.
      { intros j. rewrite Hm. apply decide_ext. unfold improves.
        split; [intros [? ?]; split; [lia|done]|].
        intros [? [? ?]]. split; [|done].
        destruct (decide (j = S k)) as [->|]; [congruence|lia]. }
      assert (∀ j, wy1 !!! j =
                   if decide (1 ≤ j ≤ S k ∧ improves a us vs usd i0 mv j)
                   then j0 else wy !!! j) as Hw'.
      { intros j. rewrite Hw. apply decide_ext. unfold improves.
        split; [intros [? ?]; split; [lia|done]|].
        intros [? [? ?]]. split; [|done].
        destruct (decide (j = S k)) as [->|]; [congruence|lia]. }
      destruct (num_ltb _ d1); simplify_eq; repeat split; try done; try lia.
Qed.

Lemma scan_relaxed (N k : nat) a us vs usd i0 j0 mv wy mv' wy' d j1 j :
  length mv = S N → length wy = S N → k ≤ N →
  scan k a us vs usd i0 j0 mv wy = (mv', wy', d, j1) →
  1 ≤ j ≤ k → usd !!! j = false →
  mv' !!! j = relaxed a us vs i0 mv j.
Proof.
  intros Hmv Hwy Hk Hscan Hj Hu.
  destruct (scan_arrays N k a us vs usd i0 j0 mv wy mv' wy' d j1)
    as (_ & _ & Hm & _); [done..|].
  rewrite Hm. unfold relaxed.
  destruct (decide _) as [[_ [_ Hlt]]|Hn].
  - by rewrite Hlt.
  - destruct (num_ltb _ _) eqn:Hlt; [|done].
    exfalso. apply Hn. split; [done|]. by split.
Qed.

Lemma shift_S (k : nat) ps usd delta (acc : list R * list R * list R) :
  foldl (shift_step ps usd delta) acc (seq 0 (S k))
  = shift_step ps usd delta (foldl (shift_step ps usd delta) acc (seq 0 k)) k.
Proof. by rewrite seq_S, foldl_snoc. Qed.

(** The second loop of a round, stopped after [k] jobs.  What it does to
    [u] is stated for a [p] that sends distinct used jobs to distinct
    rows. *)
Lemma shift_arrays (N k : nat) ps usd delta us vs mv us' vs' mv' :
  length us = S N → length vs = S N → length mv = S N → k ≤ S N →
  foldl (shift_step ps usd delta) (us, vs, mv) (seq 0 k) = (us', vs', mv') →
  length us' = S N ∧ length vs' = S N ∧ length mv' = S N ∧
  (∀ j, vs' !!! j =
        if decide (j < k ∧ usd !!! j = true) then vs !!! j ⊖ delta else vs !!! j) ∧
  (∀ j, mv' !!! j =
        if decide (j < k ∧ usd !!! j = false) then mv !!! j ⊖ delta else mv !!! j) ∧
  ((∀ j j', j ≤ N → j' ≤ N → usd !!! j = true → usd !!! j' = true →
            ps !!! j = ps !!! j' → j = j') →
   (∀ j, j ≤ N → usd !!! j = true → ps !!! j ≤ N) →
   (∀ j, j < k → usd !!! j = true → us' !!! (ps !!! j) = us !!! (ps !!! j) ⊕ delta) ∧
   (∀ i, (∀ j, j < k → usd !!! j = true → ps !!! j ≠ i) → us' !!! i = us !!! i)).
Proof.
  intros Hus Hvs Hmv. revert us' vs' mv'.
  induction k as [|k IH]; intros us' vs' mv' Hk Hfold.
  - simpl in Hfold. simplify_eq. split_and!; try done.
    intros _ _. split; [intros; lia|done].
  - rewrite shift_S in Hfold.
    destruct (foldl _ _ (seq 0 k)) as [[us1 vs1] mv1] eqn:Hprev.
    destruct (IH us1 vs1 mv1) as (Hl1 & Hl2 & Hl3 & Hv & Hm & Hu); [lia|done|].
    unfold shift_step in Hfold.
    destruct (usd !!! k) eqn:Husd; simplify_eq; rewrite ?length_insert.
    + split_and!; try done.
      * intros j. rewrite list_lookup_total_insert.
        destruct (decide (k = j)) as [<-|Hne].
        -- rewrite decide_True by (split; [done|lia]).
           rewrite decide_True by (split; [lia|done]).
           rewrite Hv. rewrite decide_False; [done|lia].
        -- rewrite decide_False by tauto. rewrite Hv.
           apply decide_ext. split; [intros [? ?]; split; [lia|done]|].
           intros [? ?]. split; [lia|done].
      * intros j. rewrite Hm. apply decide_ext.
        split; [intros [? ?]; split; [lia|done]|].
        intros [? ?]. split; [|done].
        destruct (decide (j = k)) as [->|]; [congruence|lia].
      * intros Hinj Hrng. destruct (Hu Hinj Hrng) as [Hu1 Hu2]. split.
        -- intros j Hj Hj'.
           rewrite list_lookup_total_insert.
           destruct (decide (j = k)) as [->|Hne].
           ++ rewrite decide_True.
              2:{ split; [done|]. rewrite Hl1. apply Nat.lt_succ_r.
                  apply Hrng; [lia|done]. }
              f_equal. apply Hu2. intros j' Hj'1 Hj'2 Heq.
              assert (j' = k); [|lia]. apply Hinj; [lia|lia|done|done|done].
           ++ rewrite decide_False.
              2:{ intros [Heq _]. apply Hne. symmetry.
                  apply Hinj; [lia|lia|done..]. }
              apply Hu1; [lia|done].
        -- intros i Hi.
           rewrite list_lookup_total_insert.
           rewrite decide_False.
           2:{ intros [Heq _]. apply (Hi k); [lia|done|done]. }
           apply Hu2. intros j Hj. apply Hi. lia.
    + split_and!; try done.
      * intros j. rewrite Hv. apply decide_ext.
        split; [intros [? ?]; split; [lia|done]|].
        intros [? ?]. split; [|done].
        destruct (decide (j = k)) as [->|]; [congruence|lia].
      * intros j. rewrite list_lookup_total_insert.
        destruct (decide (k = j)) as [<-|Hne].
        -- rewrite decide_True by (split; [done|lia]).
           rewrite decide_True by (split; [lia|done]).
           rewrite Hm. rewrite decide_False; [done|lia].
        -- rewrite decide_False by tauto. rewrite Hm.
           apply decide_ext. split; [intros [? ?]; split; [lia|done]|].
           intros [? ?]. split; [lia|done].
      * intros Hinj Hrng. destruct (Hu Hinj Hrng) as [Hu1 Hu2]. split.
        -- intros j Hj Hj'.
           destruct (decide (j = k)) as [->|Hne]; [congruence|].
           apply Hu1; [lia|done].
        -- intros i Hi. apply Hu2. intros j Hj. apply Hi. lia.
Qed.

End Arrays.

(** ** The matching held in [p]

    Whatever the costs are, a call that returns leaves in [p[1..N]] a
    one-to-one assignment of the rows [1..N] to the jobs [1..N].  The
    argument only looks at how [p] and [way] are written, and holds for every
    instance of [Num]. *)

Section Matching.
Context {R : Type} `{NumR : Num R}.

(** After [k] outer iterations: the rows [1..k] are matched, each to one job. *)
Record matching (N k : nat) (ps : list nat) : Prop := {
  m_len : length ps = S N;
  m_range : ∀ j, 1 ≤ j ≤ N → ps !!! j ≤ k;
  m_inj : ∀ j j', 1 ≤ j ≤ N → 1 ≤ j' ≤ N →
            ps !!! j = ps !!! j' → ps !!! j ≠ 0 → j = j';
  m_surj : ∀ r, 1 ≤ r ≤ k → ∃ j, 1 ≤ j ≤ N ∧ ps !!! j = r
}.

(** The predecessor links stay inside [0..N] and never point to the job
    itself. *)
Record way_ok (N : nat) (wy : list nat) : Prop := {
  w_len : length wy = S N;
  w_range : ∀ j, 1 ≤ j ≤ N → wy !!! j ≤ N;
  w_irrefl : ∀ j, 1 ≤ j ≤ N → wy !!! j ≠ j
}.

(** The shape of the arrays during the search of one outer iteration. *)
Record search_ok (N : nat) (st : state R) : Prop := {
  s_lenu : length (u st) = S N;
  s_lenv : length (v st) = S N;
  s_lenp : length (p st) = S N;
  s_lenm : length (minv st) = S N;
  s_lenused : length (used st) = S N;
  s_way : way_ok N (way st);
  s_j0 : j0 st ≤ N
}.

(** During the rewiring of the path the entry [p[h]] is about to be
    overwritten: the other entries, [p[0]] included, hold the rows [1..i]
    once each. *)
Record hole (N i h : nat) (ps : list nat) : Prop := {
  h_len : length ps = S N;
  h_range : ∀ j, j ≤ N → j ≠ h → ps !!! j ≤ i;
  h_inj : ∀ j j', j ≤ N → j' ≤ N → j ≠ h → j' ≠ h →
            ps !!! j = ps !!! j' → ps !!! j ≠ 0 → j = j';
  h_surj : ∀ r, 1 ≤ r ≤ i → ∃ j, j ≤ N ∧ j ≠ h ∧ ps !!! j = r
}.

Lemma round_eq N (a : list (list R)) st mv wy d j1 us vs mv2 :
  scan N a (u st) (v st) (<[j0 st := true]> (used st)) (p st !!! j0 st) (j0 st)
       (minv st) (way st) = (mv, wy, d, j1) →
  shift N (p st) (<[j0 st := true]> (used st)) d (u st) (v st) mv = (us, vs, mv2) →
  round N a st =
    {| u := us; v := vs; p := p st; way := wy; minv := mv2;
       used := <[j0 st := true]> (used st); j0 := j1 |}.
Proof. intros H1 H2. unfold round. by rewrite H1, H2. Qed.

Lemma round_p N (a : list (list R)) st : p (round N a st) = p st.
Proof.
  unfold round. destruct (scan _ _ _ _ _ _ _ _ _) as [[[mv wy] d] j1].
  by destruct (shift _ _ _ _ _ _ _) as [[us vs] mv2].
Qed.

Lemma round_used N (a : list (list R)) st :
  used (round N a st) = <[j0 st := true]> (used st).
Proof.
  unfold round. destruct (scan _ _ _ _ _ _ _ _ _) as [[[mv wy] d] j1].
  by destruct (shift _ _ _ _ _ _ _) as [[us vs] mv2].
Qed.

Lemma round_search_ok N (a : list (list R)) st :
  search_ok N st → search_ok N (round N a st).
Proof.
  intros [Hu Hv Hp Hm Hus [Hwl Hwr Hwi] Hj].
  destruct (scan N a (u st) (v st) (<[j0 st := true]> (used st)) (p st !!! j0 st)
              (j0 st) (minv st) (way st)) as [[[mv wy] d] j1] eqn:Hscan.
  destruct (shift N (p st) (<[j0 st := true]> (used st)) d (u st) (v st) mv)
    as [[us vs] mv2] eqn:Hshift.
  rewrite (round_eq _ _ _ _ _ _ _ _ _ _ Hscan Hshift).
  destruct (scan_arrays N N _ _ _ _ _ _ _ _ _ _ _ _ Hm Hwl (le_n _) Hscan)
    as (Hl1 & Hl2 & _ & Hw & Hj1 & _).
  destruct (shift_arrays N (S N) _ _ _ _ _ _ _ _ _ Hu Hv Hl1 (le_n _) Hshift)
    as (Hl3 & Hl4 & Hl5 & _).
  split; simpl; try done; [by rewrite length_insert|].
  split; [done|..].
  - intros j Hjr. rewrite Hw. case_decide; [done|by apply Hwr].
  - intros j Hjr. rewrite Hw. case_decide as Hc; [|by apply Hwi].
    destruct Hc as [_ [Hc _]]. intros Heq. rewrite <- Heq in Hc.
    rewrite list_lookup_total_insert_eq in Hc; [done|lia].
Qed.

(** The first loop does not write [p], and stops at a job without a row. *)
Lemma relax_search_ok fuel N (a : list (list R)) st st' :
  search_ok N st → relax fuel N a st = Some st' →
  search_ok N st' ∧ p st' = p st ∧ p st' !!! j0 st' = 0.
Proof.
  revert st. induction fuel as [|fuel IH]; intros st Hok Hrelax; [done|].
  simpl in Hrelax. destruct (decide _) as [Hz|Hnz].
  - simplify_eq. split_and!; [by apply round_search_ok|apply round_p|done].
  - destruct (IH _ (round_search_ok N a st Hok) Hrelax) as (? & Hp & ?).
    split_and!; [done| |done]. by rewrite Hp, round_p.
Qed.

(** One step of the rewiring moves the hole from [h] to [way[h]]. *)
Lemma hole_step N i h wy ps :
  way_ok N wy → 1 ≤ h ≤ N → hole N i h ps →
  hole N i (wy !!! h) (<[h := ps !!! (wy !!! h)]> ps).
Proof.
  intros [Hwl Hwr Hwi] Hh [Hl Hr Hi Hs].
  pose proof (Hwr h Hh) as Hj1. pose proof (Hwi h Hh) as Hne.
  assert (∀ j, (<[h := ps !!! (wy !!! h)]> ps) !!! j
               = if decide (j = h) then ps !!! (wy !!! h) else ps !!! j) as Hlk.
  { intros j. rewrite list_lookup_total_insert.
    destruct (decide (j = h)) as [->|].
    - rewrite decide_True; [done|]. split; [done|lia].
    - rewrite decide_False; [done|]. intros [? _]. congruence. }
  split.
  - by rewrite length_insert.
  - intros j Hj Hjh. rewrite Hlk. case_decide; apply Hr; done || lia.
  - intros j j' Hj Hj' Hjh Hj'h. rewrite !Hlk.
    destruct (decide (j = h)) as [->|Hn1], (decide (j' = h)) as [->|Hn2];
      intros Heq Hnz; [done| | |by apply Hi].
    + exfalso. apply Hj'h. symmetry. apply Hi; done || lia.
    + exfalso. apply Hjh. apply Hi; done || lia.
  - intros r Hr'. destruct (Hs r Hr') as (j & Hj & Hjh & Hpj).
    destruct (decide (j = wy !!! h)) as [->|Hn].
    + exists h. split_and!; [lia|done|]. rewrite Hlk. by rewrite decide_True.
    + exists j. split_and!; [done|done|]. rewrite Hlk. by rewrite decide_False.
Qed.

Lemma augment_hole fuel N i h wy ps ps' :
  way_ok N wy → 1 ≤ h ≤ N → hole N i h ps →
  augment fuel wy ps h = Some ps' → hole N i 0 ps'.
Proof.
  intros Hw. revert h ps. induction fuel as [|fuel IH]; intros h ps Hh Hhole Ha; [done|].
  simpl in Ha. pose proof (hole_step N i h wy ps Hw Hh Hhole) as Hstep.
  destruct (decide (wy !!! h = 0)) as [Hz|Hnz].
  - simplify_eq. by rewrite <- Hz at 1.
  - apply (IH _ _ (conj (proj1 (Nat.neq_0_lt_0 _) Hnz) (w_range _ _ Hw h Hh)) Hstep Ha).
Qed.

Lemma hole_closed N i ps : hole N i 0 ps → matching N i ps.
Proof.
  intros [Hl Hr Hi Hs]. split; [done|..].
  - intros j Hj. apply Hr; lia.
  - intros j j' Hj Hj'. apply Hi; lia.
  - intros r Hr'. destruct (Hs r Hr') as (j & ? & ? & ?). exists j. split; [lia|done].
Qed.

Lemma hole_open N k h ps :
  matching N k ps → 1 ≤ h ≤ N → ps !!! h = 0 →
  hole N (S k) h (<[0 := S k]> ps).
Proof.
  intros [Hl Hr Hi Hs] Hh Hz.
  assert (∀ j, (<[0 := S k]> ps) !!! j = if decide (j = 0) then S k else ps !!! j) as Hlk.
  { intros j. rewrite list_lookup_total_insert.
    destruct (decide (j = 0)) as [->|].
    - rewrite decide_True; [done|]. split; [done|lia].
    - rewrite decide_False; [done|]. intros [? _]. congruence. }
  split.
  - by rewrite length_insert.
  - intros j Hj Hjh. rewrite Hlk. case_decide; [done|].
    assert (ps !!! j ≤ k) by (apply Hr; lia). lia.
  - intros j j' Hj Hj' Hjh Hj'h. rewrite !Hlk.
    destruct (decide (j = 0)) as [->|Hn1], (decide (j' = 0)) as [->|Hn2];
      intros Heq Hnz; [done| | |apply Hi; done || lia].
    + assert (ps !!! j' ≤ k) by (apply Hr; lia). lia.
    + assert (ps !!! j ≤ k) by (apply Hr; lia). lia.
  - intros r Hr'. destruct (decide (r = S k)) as [->|Hn].
    + exists 0. split_and!; [lia|lia|]. rewrite Hlk. by rewrite decide_True.
    + destruct (Hs r) as (j & Hj & Hpj); [lia|].
      exists j. split_and!; [lia| |].
      * intros ->. lia.
      * rewrite Hlk. rewrite decide_False; [done|lia].
Qed.

Lemma matching_replace_0 N k x ps :
  matching N k ps → matching N k (<[0 := x]> ps).
Proof.
  intros [Hl Hr Hi Hs].
  assert (∀ j, 1 ≤ j → (<[0 := x]> ps) !!! j = ps !!! j) as Hlk.
  { intros j Hj. apply list_lookup_total_insert_ne. lia. }
  split.
  - by rewrite length_insert.
  - intros j Hj. rewrite Hlk by lia. by apply Hr.
  - intros j j' Hj Hj'. rewrite !Hlk by lia. by apply Hi.
  - intros r Hr'. destruct (Hs r Hr') as (j & Hj & Hpj).
    exists j. split; [done|]. rewrite Hlk by lia. done.
Qed.

(** The shape of the arrays between two outer iterations, [k] rows in. *)
Record rest_ok (N k : nat) (st : state R) : Prop := {
  r_match : matching N k (p st);
  r_way : way_ok N (way st);
  r_lenu : length (u st) = S N;
  r_lenv : length (v st) = S N
}.

Lemma init_rest_ok N : rest_ok N 0 (init_state (R:=R) N).
Proof.
  split; unfold init_state; cbn [u v p way]; try apply length_replicate.
  - split.
    + apply length_replicate.
    + intros j Hj. rewrite lookup_total_replicate_2; lia.
    + intros j j' Hj Hj' _ Hnz. rewrite lookup_total_replicate_2 in Hnz; [done|lia].
    + intros r Hr. lia.
  - split.
    + apply length_replicate.
    + intros j Hj. rewrite lookup_total_replicate_2; lia.
    + intros j Hj. rewrite lookup_total_replicate_2; lia.
Qed.

Lemma enter_search_ok N k st : rest_ok N k st → search_ok N (enter N (S k) st).
Proof.
  intros [Hm Hw Hu Hv]. split; unfold enter; cbn [u v p way minv used j0]; try done.
  - rewrite length_insert. apply Hm.
  - apply length_replicate.
  - apply length_replicate.
  - lia.
Qed.

Lemma iteration_rest_ok fuel N (a : list (list R)) k st st' :
  rest_ok N k st → iteration fuel N a (S k) st = Some st' → rest_ok N (S k) st'.
Proof.
  intros Hrest Hit. unfold iteration in Hit.
  destruct (relax fuel N a (enter N (S k) st)) as [st1|] eqn:Hrelax; [|done].
  simpl in Hit.
  destruct (augment fuel (way st1) (p st1) (j0 st1)) as [ps|] eqn:Haug; [|done].
  simpl in Hit. simplify_eq.
  destruct (relax_search_ok _ _ _ _ _ (enter_search_ok N k st Hrest) Hrelax)
    as (Hok & Hp & Hz).
  simpl in Hp.
  assert (1 ≤ j0 st1 ≤ N) as Hj0.
  { split; [|apply Hok]. destruct (decide (j0 st1 = 0)) as [He|]; [|lia].
    rewrite He, Hp in Hz. rewrite list_lookup_total_insert_eq in Hz; [done|].
    rewrite (m_len _ _ _ (r_match _ _ _ Hrest)). lia. }
  assert (hole N (S k) (j0 st1) (p st1)) as Hhole.
  { rewrite Hp. apply hole_open; [apply Hrest|done|].
    rewrite Hp in Hz. rewrite list_lookup_total_insert_ne in Hz; [done|lia]. }
  split; simpl; [|apply Hok..].
  apply hole_closed. eapply augment_hole; [apply Hok|apply Hj0|apply Hhole|apply Haug].
Qed.

Lemma outer_rest_ok fuel N (a : list (list R)) c k st st' :
  rest_ok N k st → outer fuel N a (seq (S k) c) st = Some st' → rest_ok N (k + c) st'.
Proof.
  revert k st. induction c as [|c IH]; intros k st Hrest Hout; simpl in Hout.
  - simplify_eq. by rewrite Nat.add_0_r.
  - destruct (iteration fuel N a (S k) st) as [st1|] eqn:Hit; [|done].
    simpl in Hout. replace (k + S c) with (S k + c) by lia.
    apply (IH (S k) st1); [|done]. by eapply iteration_rest_ok.
Qed.

(** A call that returns has matched every row, each to a job of its own. *)
Lemma solve_matching fuel N (a : list (list R)) st :
  solve fuel N a = Some st → matching N N (p st).
Proof.
  intros Hs. apply (outer_rest_ok fuel N a N 0 _ _ (init_rest_ok N)) in Hs.
  apply Hs.
Qed.

(** In a full matching no job is left without a row. *)
Lemma matching_full N ps j : matching N N ps → 1 ≤ j ≤ N → 1 ≤ ps !!! j ≤ N.
Proof.
  intros [Hl Hr Hi Hs] Hj. split; [|by apply Hr].
  set (P := λ x : nat, ps !!! x ≠ 0).
  assert (length (filter P (seq 1 N)) = length (seq 1 N)) as Hall.
  { apply Nat.le_antisymm; [apply length_filter|].
    rewrite <- (length_fmap (λ x, ps !!! x) (filter P (seq 1 N))).
    apply submseteq_length, NoDup_submseteq; [apply NoDup_seq|].
    intros r Hr'. apply elem_of_seq in Hr'.
    destruct (Hs r) as (x & Hx & Hpx); [lia|].
    apply list_elem_of_fmap. exists x. split; [done|].
    apply list_elem_of_filter. split; [unfold P; lia|].
    apply elem_of_seq. lia. }
  assert (P j); [|unfold P in *; lia].
  apply (filter_length_all P (seq 1 N) Hall). apply elem_of_seq. lia.
Qed.

(** Fewer rows than jobs: some job is free. *)
Lemma matching_free N k ps : matching N k ps → k < N → ∃ j, 1 ≤ j ≤ N ∧ ps !!! j = 0.
Proof.
  intros [Hl Hr Hi Hs] Hk.
  set (P := λ x : nat, ps !!! x ≠ 0).
  destruct (filter_length_lt_witness P (seq 1 N)) as (j & Hj & HPj).
  - rewrite length_seq.
    apply Nat.le_lt_trans with (length (seq 1 k)); [|by rewrite length_seq].
    rewrite <- (length_fmap (λ x, ps !!! x) (filter P (seq 1 N))).
    apply submseteq_length, NoDup_submseteq.
    + apply NoDup_fmap_2_strong; [|apply list.NoDup_filter, NoDup_seq].
      intros x y Hx Hy Heq.
      apply list_elem_of_filter in Hx as [HPx Hx], Hy as [HPy Hy].
      apply elem_of_seq in Hx, Hy. apply Hi; [lia|lia|done|done].
    + intros r Hr'. apply list_elem_of_fmap in Hr' as (x & -> & Hx).
      apply list_elem_of_filter in Hx as [HPx Hx]. apply elem_of_seq in Hx.
      apply elem_of_seq. unfold P in HPx. specialize (Hr x). lia.
  - exists j. apply elem_of_seq in Hj. split; [lia|].
    unfold P in HPj. destruct (ps !!! j); [done|]. exfalso. by apply HPj.
Qed.

(** At most [k] jobs hold a row. *)
Lemma matched_le N k ps (P : nat → Prop) `{∀ j, Decision (P j)} :
  matching N k ps → (∀ j, P j → ps !!! j ≠ 0) →
  length (filter P (seq 1 N)) ≤ k.
Proof.
  intros [Hl Hr Hi Hs] HP.
  trans (length (seq 1 k)); [|by rewrite length_seq].
  rewrite <- (length_fmap (λ x, ps !!! x) (filter P (seq 1 N))).
  apply submseteq_length, NoDup_submseteq.
  - apply NoDup_fmap_2_strong; [|apply list.NoDup_filter, NoDup_seq].
    intros x y Hx Hy Heq.
    apply list_elem_of_filter in Hx as [HPx Hx], Hy as [HPy Hy].
    apply elem_of_seq in Hx, Hy. apply Hi; [lia|lia|done|by apply HP].
  - intros r Hr'. apply list_elem_of_fmap in Hr' as (x & -> & Hx).
    apply list_elem_of_filter in Hx as [HPx Hx]. apply elem_of_seq in Hx.
    apply elem_of_seq. apply HP in HPx. specialize (Hr x). lia.
Qed.

End Matching.

(** ** Exact arithmetic

    From here on the costs are rationals and the arithmetic of the solver is
    exact. *)

Abbreviation INF := (num_inf (R:=Q)).
Abbreviation PAD := (num_pad (R:=Q)).

Lemma Qltb_lt (x y : Q) : Qltb x y = true ↔ (x < y)%Q.
Proof.
  unfold Qltb. rewrite negb_true_iff, <- not_true_iff_false, Qle_bool_iff.
  split; [apply Qnot_le_lt|apply Qlt_not_le].
Qed.

Lemma Qltb_ge (x y : Q) : Qltb x y = false ↔ (y <= x)%Q.
Proof.
  unfold Qltb. rewrite negb_false_iff, Qle_bool_iff. done.
Qed.

(** Unfolds the arithmetic of the class at [Q], keeping the two constants
    [INF] and [PAD] folded. *)
Ltac qnum :=
  unfold reduced, relaxed in *;
  cbn [num_add num_sub num_ltb num_zero Q_num] in *.

Ltac qarith := qnum; lra.

(** The natural numbers as rationals, for the bounds that grow with the
    number of rows. *)
Definition natQ (k : nat) : Q := inject_Z (Z.of_nat k).

Lemma natQ_S k : (natQ (S k) == natQ k + 1)%Q.
Proof. unfold natQ. rewrite Nat2Z.inj_succ, <- Z.add_1_r, inject_Z_plus. reflexivity. Qed.

Lemma natQ_nonneg k : (0 <= natQ k)%Q.
Proof. unfold natQ. change 0%Q with (inject_Z 0). rewrite <- Zle_Qle. lia. Qed.

Lemma natQ_le k n : k ≤ n → (natQ k <= natQ n)%Q.
Proof. intros H. unfold natQ. rewrite <- Zle_Qle. lia. Qed.

(** The room used up after [k] rows when every row may use [w]. *)
Definition room (k : nat) (w : Q) : Q := (natQ k * w)%Q.

Lemma room_0 w : (room 0 w == 0)%Q.
Proof. unfold room, natQ. simpl. ring. Qed.

Lemma room_S k w : (room (S k) w == room k w + w)%Q.
Proof. unfold room. rewrite natQ_S. ring. Qed.

Lemma room_le k n w : k ≤ n → (0 <= w)%Q → (room k w <= room n w)%Q.
Proof.
  intros Hk Hw. unfold room. apply Qmult_le_compat_r; [by apply natQ_le|done].
Qed.

Lemma room_nonneg k w : (0 <= w)%Q → (0 <= room k w)%Q.
Proof. intros Hw. unfold room. apply Qmult_le_0_compat; [apply natQ_nonneg|done]. Qed.

(** The first loop of a round leaves in [delta] the least [minv] of the
    unused jobs, capped by [INF], and in [j1] a job where it is reached. *)
Lemma scan_min (N k : nat) a us vs usd i0 j0 mv wy mv' wy' d j1 :
  length mv = S N → length wy = S N → k ≤ N →
  scan k a us vs usd i0 j0 mv wy = (mv', wy', d, j1) →
  (j1 = 0 ∧ d = INF ∧
     ∀ j, 1 ≤ j ≤ k → usd !!! j = false → (INF <= mv' !!! j)%Q) ∨
  (1 ≤ j1 ≤ k ∧ usd !!! j1 = false ∧ d = mv' !!! j1 ∧ (d < INF)%Q ∧
     ∀ j, 1 ≤ j ≤ k → usd !!! j = false → (d <= mv' !!! j)%Q).
Proof.
  intros Hmv Hwy. revert mv' wy' d j1.
  induction k as [|k IH]; intros mv' wy' d j1 Hk Hscan.
  - unfold scan in Hscan. simpl in Hscan. simplify_eq.
    left. split_and!; [done..|]. intros; lia.
  - pose proof (scan_arrays N (S k) _ _ _ _ _ _ _ _ _ _ _ _ Hmv Hwy Hk Hscan)
      as (_ & _ & Hm' & _).
    rewrite scan_S in Hscan.
    destruct (scan k a us vs usd i0 j0 mv wy) as [[[mv1 wy1] d1] j2] eqn:Hprev.
    pose proof (scan_arrays N k _ _ _ _ _ _ _ _ _ _ _ _ Hmv Hwy (Nat.lt_le_incl _ _ Hk) Hprev)
      as (_ & _ & Hm1 & _).
    assert (∀ j, j ≤ k → mv' !!! j = mv1 !!! j) as Hstable.
    { intros j Hj. rewrite Hm', Hm1. apply decide_ext.
      split; intros [? ?]; (split; [lia|done]). }
    specialize (IH mv1 wy1 d1 j2 (Nat.lt_le_incl _ _ Hk) eq_refl).
    unfold scan_step in Hscan.
    destruct (usd !!! S k) eqn:Husd.
    { simplify_eq. destruct IH as [(Hj2 & Hd & Hall)|(Hj2 & Hu2 & Hd & Hlt & Hall)].
      - left. split_and!; [done..|]. intros j Hj Hu.
        destruct (decide (j = S k)) as [->|]; [congruence|]. apply Hall; [lia|done].
      - right. split_and!; try done; try lia. intros j Hj Hu.
        destruct (decide (j = S k)) as [->|]; [congruence|]. apply Hall; [lia|done]. }
    assert (∃ mv2 wy2, (if num_ltb (mv2 !!! S k) d1
                        then (mv2, wy2, mv2 !!! S k, S k) else (mv2, wy2, d1, j2))
                       = (mv', wy', d, j1)) as (mv2 & wy2 & Hfin).
    { destruct (num_ltb _ (mv1 !!! S k)); eauto. }
    clear Hscan.
    destruct (num_ltb (mv2 !!! S k) d1) eqn:Hcmp; simplify_eq.
    + apply Qltb_lt in Hcmp. right.
      assert (mv' !!! S k < INF)%Q as HxI.
      { destruct IH as [(_ & Hd & _)|(_ & _ & _ & Hlt & _)]; [by rewrite <- Hd|lra]. }
      split_and!; try done; try lia.
      intros j Hj Hu. destruct (decide (j = S k)) as [->|]; [lra|].
      rewrite (Hstable j) by lia.
      destruct IH as [(_ & Hd & Hall)|(_ & _ & _ & _ & Hall)];
        specialize (Hall j); (assert (d1 <= mv1 !!! j)%Q; [|lra]).
      * rewrite Hd. apply Hall; [lia|done].
      * apply Hall; [lia|done].
    + apply Qltb_ge in Hcmp.
      destruct IH as [(Hj2 & Hd & Hall)|(Hj2 & Hu2 & Hd & Hlt & Hall)].
      * left. split_and!; [done..|]. intros j Hj Hu.
        destruct (decide (j = S k)) as [->|]; [by rewrite <- Hd|].
        rewrite Hstable by lia. apply Hall; [lia|done].
      * right. split_and!; try done; try lia.
        -- rewrite Hstable by lia. done.
        -- intros j Hj Hu. destruct (decide (j = S k)) as [->|]; [done|].
           rewrite Hstable by lia. apply Hall; [lia|done].
Qed.

(** ** A round in two halves

    For the proofs a round is cut after its first loop: [scanned] is the
    state at line 51 together with [delta], [shifted] applies the second
    loop to it. *)

Section Halves.
Context {R : Type} `{NumR : Num R}.

Definition scanned (N : nat) (a : list (list R)) (st : state R) : state R * R :=
  let usd := <[j0 st := true]> (used st) in
  let '(mv, wy, delta, j1) :=
    scan N a (u st) (v st) usd (p st !!! j0 st) (j0 st) (minv st) (way st) in
  ({| u := u st; v := v st; p := p st; way := wy; minv := mv; used := usd; j0 := j1 |},
   delta).

Definition shifted (N : nat) (sm : state R) (delta : R) : state R :=
  let '(us, vs, mv) := shift N (p sm) (used sm) delta (u sm) (v sm) (minv sm) in
  {| u := us; v := vs; p := p sm; way := way sm; minv := mv; used := used sm;
     j0 := j0 sm |}.

Lemma round_halves N (a : list (list R)) st :
  round N a st = shifted N (scanned N a st).1 (scanned N a st).2.
Proof.
  unfold round, scanned, shifted.
  destruct (scan _ _ _ _ _ _ _ _ _) as [[[mv wy] d] j1]. simpl.
  by destruct (shift _ _ _ _ _ _ _) as [[us vs] mv2].
Qed.

Lemma shifted_p N sm (d : R) : p (shifted N sm d) = p sm.
Proof. unfold shifted. by destruct (shift _ _ _ _ _ _ _) as [[us vs] mv2]. Qed.

Lemma shifted_way N sm (d : R) : way (shifted N sm d) = way sm.
Proof. unfold shifted. by destruct (shift _ _ _ _ _ _ _) as [[us vs] mv2]. Qed.

Lemma shifted_used N sm (d : R) : used (shifted N sm d) = used sm.
Proof. unfold shifted. by destruct (shift _ _ _ _ _ _ _) as [[us vs] mv2]. Qed.

Lemma shifted_j0 N sm (d : R) : j0 (shifted N sm d) = j0 sm.
Proof. unfold shifted. by destruct (shift _ _ _ _ _ _ _) as [[us vs] mv2]. Qed.

(** The arrays after the second loop, entry by entry. *)
Lemma shifted_arrays N sm (d : R) :
  length (u sm) = S N → length (v sm) = S N → length (minv sm) = S N →
  length (u (shifted N sm d)) = S N ∧
  length (v (shifted N sm d)) = S N ∧
  length (minv (shifted N sm d)) = S N ∧
  (∀ j, j ≤ N → used sm !!! j = true →
        v (shifted N sm d) !!! j = num_sub (v sm !!! j) d) ∧
  (∀ j, used sm !!! j = false → v (shifted N sm d) !!! j = v sm !!! j) ∧
  (∀ j, j ≤ N → used sm !!! j = false →
        minv (shifted N sm d) !!! j = num_sub (minv sm !!! j) d) ∧
  ((∀ j j', j ≤ N → j' ≤ N → used sm !!! j = true → used sm !!! j' = true →
            p sm !!! j = p sm !!! j' → j = j') →
   (∀ j, j ≤ N → used sm !!! j = true → p sm !!! j ≤ N) →
   (∀ j, j ≤ N → used sm !!! j = true →
         u (shifted N sm d) !!! (p sm !!! j) = num_add (u sm !!! (p sm !!! j)) d) ∧
   (∀ i, (∀ j, j ≤ N → used sm !!! j = true → p sm !!! j ≠ i) →
         u (shifted N sm d) !!! i = u sm !!! i)).
Proof.
  intros Hu Hv Hm. unfold shifted.
  destruct (shift N (p sm) (used sm) d (u sm) (v sm) (minv sm)) as [[us vs] mv] eqn:Hs.
  destruct (shift_arrays N (S N) _ _ _ _ _ _ _ _ _ Hu Hv Hm (le_n _) Hs)
    as (Hl1 & Hl2 & Hl3 & Hvs & Hmv & Hus).
  cbn [u v minv]. split_and!; try done.
  - intros j Hj Hused. rewrite Hvs. rewrite decide_True; [done|]. split; [lia|done].
  - intros j Hused. rewrite Hvs. rewrite decide_False; [done|].
    intros [_ ?]. congruence.
  - intros j Hj Hused. rewrite Hmv. rewrite decide_True; [done|]. split; [lia|done].
  - intros Hinj Hrng. destruct (Hus Hinj Hrng) as [Hu1 Hu2]. split.
    + intros j Hj Hused. apply Hu1; [lia|done].
    + intros i Hi. apply Hu2. intros j Hj. apply Hi. lia.
Qed.

Lemma scanned_search_ok N (a : list (list R)) st :
  search_ok N st → search_ok N (scanned N a st).1.
Proof.
  intros [Hu Hv Hp Hm Hus [Hwl Hwr Hwi] Hj]. unfold scanned.
  destruct (scan N a (u st) (v st) (<[j0 st := true]> (used st)) (p st !!! j0 st)
              (j0 st) (minv st) (way st)) as [[[mv wy] d] j1] eqn:Hscan.
  destruct (scan_arrays N N _ _ _ _ _ _ _ _ _ _ _ _ Hm Hwl (le_n _) Hscan)
    as (Hl1 & Hl2 & _ & Hw & Hj1 & _).
  split; simpl; try done; [by rewrite length_insert|].
  split; [done|..].
  - intros j Hjr. rewrite Hw. case_decide; [done|by apply Hwr].
  - intros j Hjr. rewrite Hw. case_decide as Hc; [|by apply Hwi].
    destruct Hc as [_ [Hc _]]. intros Heq. rewrite <- Heq in Hc.
    rewrite list_lookup_total_insert_eq in Hc; [done|lia].
Qed.

(** Marking [j0]: which jobs are used afterwards. *)
Lemma mark_used (N : nat) (usd : list bool) (j0 j : nat) :
  length usd = S N → j0 ≤ N →
  (<[j0 := true]> usd) !!! j = if decide (j = j0) then true else usd !!! j.
Proof.
  intros Hl Hj0. rewrite list_lookup_total_insert.
  destruct (decide (j = j0)) as [->|].
  - rewrite decide_True; [done|]. split; [done|lia].
  - rewrite decide_False; [done|]. intros [? _]. congruence.
Qed.

(** The scan, job by job: an unused job either has its [minv] lowered to the
    reduced cost and is linked to [j0], or keeps both; a used job keeps
    both. *)
Lemma scanned_cases N (a : list (list R)) st j :
  search_ok N st → 1 ≤ j ≤ N →
  let sm := (scanned N a st).1 in
  let cur := reduced a (u st) (v st) (p st !!! j0 st) j in
  (used sm !!! j = true → minv sm !!! j = minv st !!! j ∧ way sm !!! j = way st !!! j) ∧
  (used sm !!! j = false →
     (num_ltb cur (minv st !!! j) = true ∧ minv sm !!! j = cur ∧ way sm !!! j = j0 st) ∨
     (num_ltb cur (minv st !!! j) = false ∧ minv sm !!! j = minv st !!! j ∧
        way sm !!! j = way st !!! j)).
Proof.
  intros [Hu Hv Hp Hm Hus [Hwl Hwr Hwi] Hj0] Hj. unfold scanned.
  destruct (scan N a (u st) (v st) (<[j0 st := true]> (used st)) (p st !!! j0 st)
              (j0 st) (minv st) (way st)) as [[[mv wy] d] j1] eqn:Hscan.
  destruct (scan_arrays N N _ _ _ _ _ _ _ _ _ _ _ _ Hm Hwl (le_n _) Hscan)
    as (_ & _ & Hmv & Hw & _ & _).
  cbn [fst used minv way]. split; intros Hused.
  - rewrite Hmv, Hw. rewrite !decide_False; [done|..];
      intros [_ [? _]]; congruence.
  - rewrite Hmv, Hw.
    destruct (num_ltb (reduced a (u st) (v st) (p st !!! j0 st) j) (minv st !!! j))
      eqn:Hlt.
    + left. rewrite !decide_True; [done|..]; (split; [done|]); by split.
    + right. rewrite !decide_False; [done|..]; intros [_ [_ ?]]; congruence.
Qed.

Lemma scanned_u N (a : list (list R)) st : u (scanned N a st).1 = u st.
Proof. unfold scanned. by destruct (scan _ _ _ _ _ _ _ _ _) as [[[mv wy] d] j1]. Qed.

Lemma scanned_v N (a : list (list R)) st : v (scanned N a st).1 = v st.
Proof. unfold scanned. by destruct (scan _ _ _ _ _ _ _ _ _) as [[[mv wy] d] j1]. Qed.

Lemma scanned_p N (a : list (list R)) st : p (scanned N a st).1 = p st.
Proof. unfold scanned. by destruct (scan _ _ _ _ _ _ _ _ _) as [[[mv wy] d] j1]. Qed.

Lemma scanned_used N (a : list (list R)) st :
  used (scanned N a st).1 = <[j0 st := true]> (used st).
Proof. unfold scanned. by destruct (scan _ _ _ _ _ _ _ _ _) as [[[mv wy] d] j1]. Qed.

End Halves.

(** ** The invariants of the primal-dual method

    [N] is the size of the padded square and [a] the padded matrix.  All
    entries lie in [[lo, hi]], and the range is narrow enough for the
    reduced costs to stay below [INF]. *)

Section Duality.
Variable N : nat.
Variable a : list (list Q).
Variables lo hi : Q.
Hypothesis a_range :
  ∀ i j, 1 ≤ i ≤ N → 1 ≤ j ≤ N → (lo <= (a !!! i) !!! j <= hi)%Q.
Hypothesis room_inf : (hi + room N (hi - lo) < INF)%Q.
Hypothesis room_gap : (room N (hi - lo) < INF)%Q.

(** The slack of the cell [(i, j)] under the potentials of [st]. *)
Definition sl (st : state Q) (i j : nat) : Q := reduced a (u st) (v st) i j.

(** The matched jobs not yet absorbed in the tree. *)
Definition pending (st : state Q) : nat :=
  length (filter (λ j, p st !!! j ≠ 0 ∧ used st !!! j = false) (seq 1 N)).

(** [upath wy usd j d]: following [way] from the used job [j] leads to the
    virtual job 0 in [d] steps, through used jobs only. *)
Inductive upath (wy : list nat) (usd : list bool) : nat → nat → Prop :=
  | upath_root : upath wy usd 0 0
  | upath_step j d :
      1 ≤ j ≤ N → usd !!! j = true → upath wy usd (wy !!! j) d →
      upath wy usd j (S d).

(** Between two outer iterations, with the rows [1..k] in. *)
Record outer_inv (k : nat) (st : state Q) : Prop := {
  o_rest : rest_ok N k st;
  o_feas : ∀ i j, 1 ≤ i ≤ k → 1 ≤ j ≤ N → (0 <= sl st i j)%Q;
  o_tight : ∀ j, 1 ≤ j ≤ N → p st !!! j ≠ 0 → (sl st (p st !!! j) j == 0)%Q;
  o_vneg : ∀ j, 1 ≤ j ≤ N → (v st !!! j <= 0)%Q;
  o_vfree : ∀ j, 1 ≤ j ≤ N → p st !!! j = 0 → (v st !!! j == 0)%Q;
  o_ufresh : ∀ i, k < i ≤ N → (u st !!! i == 0)%Q;
  o_vroom : ∀ j, 1 ≤ j ≤ N → (- (v st !!! j) <= room k (hi - lo))%Q
}.

(** After the first loop of a round of the search for row [k + 1], with
    [delta] computed and the potentials not yet moved. *)
Record mid_inv (k : nat) (sm : state Q) (delta : Q) : Prop := {
  m_ok : search_ok N sm;
  m_match : matching N k (p sm);
  m_p0 : p sm !!! 0 = S k;
  m_used0 : used sm !!! 0 = true;
  m_usedm : ∀ j, 1 ≤ j ≤ N → used sm !!! j = true → p sm !!! j ≠ 0;
  m_j0 : 1 ≤ j0 sm ∧ used sm !!! j0 sm = false;
  m_delta : (delta == minv sm !!! j0 sm)%Q;
  m_least : ∀ j, 1 ≤ j ≤ N → used sm !!! j = false → (delta <= minv sm !!! j)%Q;
  m_sign : ∀ j, 1 ≤ j ≤ N → used sm !!! j = true → (0 <= delta)%Q;
  m_feas : ∀ i j, 1 ≤ i ≤ k → 1 ≤ j ≤ N → (0 <= sl sm i j)%Q;
  m_feas_new : ∀ j, 1 ≤ j ≤ N → used sm !!! j = true → (0 <= sl sm (S k) j)%Q;
  m_tight : ∀ j, 1 ≤ j ≤ N → p sm !!! j ≠ 0 → (sl sm (p sm !!! j) j == 0)%Q;
  m_minv_le : ∀ j j', 1 ≤ j ≤ N → used sm !!! j = false →
                j' ≤ N → used sm !!! j' = true →
                (minv sm !!! j <= sl sm (p sm !!! j') j)%Q;
  m_minv_way : ∀ j, 1 ≤ j ≤ N → used sm !!! j = false →
                 used sm !!! (way sm !!! j) = true ∧
                 (minv sm !!! j == sl sm (p sm !!! (way sm !!! j)) j)%Q;
  m_path : ∀ j, j ≤ N → used sm !!! j = true →
             ∃ d, upath (way sm) (used sm) j d ∧ d + pending sm ≤ k;
  m_ptight : ∀ j, 1 ≤ j ≤ N → used sm !!! j = true →
               (sl sm (p sm !!! (way sm !!! j)) j == 0)%Q;
  m_vneg : ∀ j, 1 ≤ j ≤ N → (v sm !!! j <= 0)%Q;
  m_vfree : ∀ j, 1 ≤ j ≤ N → p sm !!! j = 0 → (v sm !!! j == 0)%Q;
  m_ufresh : ∀ i, S k < i ≤ N → (u sm !!! i == 0)%Q;
  m_ulo : (lo <= u sm !!! S k + delta)%Q;
  m_vroom_used : ∀ j, 1 ≤ j ≤ N → used sm !!! j = true →
                   (- (v sm !!! j) <= room k (hi - lo) + (u sm !!! S k - lo))%Q;
  m_vroom_free : ∀ j, 1 ≤ j ≤ N → used sm !!! j = false →
                   (- (v sm !!! j) <= room k (hi - lo) + (u sm !!! S k + delta - lo))%Q
}.

(** Between two rounds of the search for row [k + 1]: [j0] is the job just
    reached, not yet marked. *)
Record inner_inv (k : nat) (st : state Q) : Prop := {
  i_ok : search_ok N st;
  i_match : matching N k (p st);
  i_p0 : p st !!! 0 = S k;
  i_used0 : used st !!! 0 = true;
  i_usedm : ∀ j, 1 ≤ j ≤ N → used st !!! j = true → p st !!! j ≠ 0;
  i_j0 : 1 ≤ j0 st ∧ used st !!! j0 st = false;
  i_feas : ∀ i j, 1 ≤ i ≤ S k → 1 ≤ j ≤ N → (0 <= sl st i j)%Q;
  i_tight : ∀ j, 1 ≤ j ≤ N → p st !!! j ≠ 0 → (sl st (p st !!! j) j == 0)%Q;
  i_minv0 : ∀ j, 1 ≤ j ≤ N → used st !!! j = false → (0 <= minv st !!! j)%Q;
  i_minv_le : ∀ j j', 1 ≤ j ≤ N → used st !!! j = false →
                j' ≤ N → used st !!! j' = true →
                (minv st !!! j <= sl st (p st !!! j') j)%Q;
  i_minv_way : ∀ j, 1 ≤ j ≤ N → used st !!! j = false →
                 used st !!! (way st !!! j) = true ∧
                 (minv st !!! j == sl st (p st !!! (way st !!! j)) j)%Q;
  i_j0min : (minv st !!! j0 st == 0)%Q;
  i_path : ∀ j, j ≤ N → used st !!! j = true →
             ∃ d, upath (way st) (used st) j d ∧ d + pending st ≤ k;
  i_ptight : ∀ j, 1 ≤ j ≤ N → used st !!! j = true →
               (sl st (p st !!! (way st !!! j)) j == 0)%Q;
  i_vneg : ∀ j, 1 ≤ j ≤ N → (v st !!! j <= 0)%Q;
  i_vfree : ∀ j, 1 ≤ j ≤ N → p st !!! j = 0 → (v st !!! j == 0)%Q;
  i_ufresh : ∀ i, S k < i ≤ N → (u st !!! i == 0)%Q;
  i_ulo : (lo <= u st !!! S k)%Q;
  i_vroom : ∀ j, 1 ≤ j ≤ N →
              (- (v st !!! j) <= room k (hi - lo) + (u st !!! S k - lo))%Q
}.

(** A row is in the tree when a used job holds it. *)
Lemma tree_dec (ps : list nat) (usd : list bool) (i : nat) :
  (∃ j, j ≤ N ∧ usd !!! j = true ∧ ps !!! j = i) ∨
  (∀ j, j ≤ N → usd !!! j = true → ps !!! j ≠ i).
Proof.
  assert (∀ n, (∃ j, j < n ∧ usd !!! j = true ∧ ps !!! j = i) ∨
               (∀ j, j < n → usd !!! j = true → ps !!! j ≠ i)) as H.
  { induction n as [|n [(j & Hj & Hu & Hp)|IH]].
    - right. intros; lia.
    - left. exists j. split; [lia|done].
    - destruct (decide (usd !!! n = true ∧ ps !!! n = i)) as [[Hu Hp]|Hn].
      + left. exists n. split; [lia|done].
      + right. intros j Hj Hu Hp.
        destruct (decide (j = n)) as [->|]; [tauto|].
        apply (IH j); [lia|done..]. }
  destruct (H (S N)) as [(j & Hj & Hu)|Hn].
  - left. exists j. split; [lia|done].
  - right. intros j Hj. apply Hn. lia.
Qed.

(** Distinct used jobs hold distinct rows. *)
Lemma used_rows_inj (k : nat) (ps : list nat) (usd : list bool) :
  matching N k ps → ps !!! 0 = S k →
  (∀ j, 1 ≤ j ≤ N → usd !!! j = true → ps !!! j ≠ 0) →
  ∀ j j', j ≤ N → j' ≤ N → usd !!! j = true → usd !!! j' = true →
    ps !!! j = ps !!! j' → j = j'.
Proof.
  intros Hm Hp0 Hum j j' Hj Hj' Hu Hu' Heq.
  destruct (decide (j = 0)) as [->|Hn], (decide (j' = 0)) as [->|Hn']; [done|..].
  - pose proof (m_range _ _ _ Hm j'). lia.
  - pose proof (m_range _ _ _ Hm j). lia.
  - apply (m_inj _ _ _ Hm); [lia|lia|done|]. apply Hum; [lia|done].
Qed.

Lemma used_rows_range (k : nat) (ps : list nat) (usd : list bool) :
  matching N k ps → ps !!! 0 = S k → k < N →
  ∀ j, j ≤ N → usd !!! j = true → ps !!! j ≤ N.
Proof.
  intros Hm Hp0 Hk j Hj _.
  destruct (decide (j = 0)) as [->|Hn]; [lia|].
  pose proof (m_range _ _ _ Hm j). lia.
Qed.

(** How the second loop moves the slack of a cell: not at all when row and
    job are both in the tree or both outside, down by [delta] for a tree row
    and a job outside, up by [delta] for a row outside and a tree job. *)
Lemma shifted_slack (k : nat) (sm : state Q) (delta : Q) :
  mid_inv k sm delta → k < N →
  let st := shifted N sm delta in
  (∀ j' j, j' ≤ N → used sm !!! j' = true → 1 ≤ j ≤ N →
     (used sm !!! j = true → sl st (p sm !!! j') j == sl sm (p sm !!! j') j)%Q ∧
     (used sm !!! j = false →
        sl st (p sm !!! j') j == sl sm (p sm !!! j') j - delta)%Q) ∧
  (∀ i j, (∀ j', j' ≤ N → used sm !!! j' = true → p sm !!! j' ≠ i) → 1 ≤ j ≤ N →
     (used sm !!! j = true → sl st i j == sl sm i j + delta)%Q ∧
     (used sm !!! j = false → sl st i j == sl sm i j)%Q).
Proof.
  intros Hmid Hk st. pose proof (m_ok _ _ _ Hmid) as Hok.
  destruct (shifted_arrays N sm delta) as (_ & _ & _ & Hv1 & Hv2 & _ & Hu);
    [apply Hok..|].
  destruct Hu as [Hu1 Hu2].
  { apply (used_rows_inj k);
      [apply (m_match _ _ _ Hmid)|apply (m_p0 _ _ _ Hmid)|apply (m_usedm _ _ _ Hmid)]. }
  { apply (used_rows_range k);
      [apply (m_match _ _ _ Hmid)|apply (m_p0 _ _ _ Hmid)|done]. }
  split.
  - intros j' j Hj' Hused' Hj. unfold sl, st. split; intros Hused.
    + unfold reduced. rewrite (Hu1 j' Hj' Hused'), (Hv1 j) by (lia || done). qarith.
    + unfold reduced. rewrite (Hu1 j' Hj' Hused'), (Hv2 j) by done. qarith.
  - intros i j Hi Hj. unfold sl, st. split; intros Hused.
    + unfold reduced. rewrite (Hu2 i Hi), (Hv1 j) by (lia || done). qarith.
    + unfold reduced. rewrite (Hu2 i Hi), (Hv2 j) by done. qarith.
Qed.

Lemma upath_parent wy usd j d :
  upath wy usd j d → 1 ≤ j → wy !!! j ≤ N → usd !!! 0 = true →
  usd !!! (wy !!! j) = true.
Proof.
  intros Hpath Hj Hw H0. inversion Hpath as [|j' d' _ _ Hrest]; subst; [lia|].
  inversion Hrest; subst; [congruence|done].
Qed.

(** The second loop of a round re-establishes the invariant of the search. *)
Lemma shift_inner (k : nat) (sm : state Q) (delta : Q) :
  mid_inv k sm delta → k < N → inner_inv k (shifted N sm delta).
Proof.
  intros Hmid Hk.
  pose proof (shifted_slack k sm delta Hmid Hk) as [Hin Hout]. cbv zeta in Hin, Hout.
  pose proof (m_ok _ _ _ Hmid) as Hok.
  destruct (shifted_arrays N sm delta) as (Hl1 & Hl2 & Hl3 & Hv1 & Hv2 & Hmv & Hu);
    [apply Hok..|].
  destruct Hu as [Hu1 Hu2].
  { apply (used_rows_inj k);
      [apply (m_match _ _ _ Hmid)|apply (m_p0 _ _ _ Hmid)|apply (m_usedm _ _ _ Hmid)]. }
  { apply (used_rows_range k);
      [apply (m_match _ _ _ Hmid)|apply (m_p0 _ _ _ Hmid)|done]. }
  pose proof (m_used0 _ _ _ Hmid) as Hused0.
  pose proof (m_p0 _ _ _ Hmid) as Hp0.
  assert (∀ i, S k < i → ∀ j', j' ≤ N → used sm !!! j' = true → p sm !!! j' ≠ i)
    as Hfresh.
  { intros i Hi j' Hj' _. destruct (decide (j' = 0)) as [->|]; [lia|].
    pose proof (m_range _ _ _ (m_match _ _ _ Hmid) j'). lia. }
  split; rewrite ?shifted_p, ?shifted_way, ?shifted_used, ?shifted_j0.
  - split; rewrite ?shifted_p, ?shifted_way, ?shifted_used, ?shifted_j0;
      try done; apply Hok.
  - apply Hmid.
  - done.
  - done.
  - apply Hmid.
  - apply Hmid.
  - (* feasibility *)
    intros i j Hi Hj.
    destruct (tree_dec (p sm) (used sm) i) as [(j' & Hj' & Hu' & <-)|Hni].
    + destruct (Hin j' j Hj' Hu' Hj) as [Hs1 Hs2].
      destruct (used sm !!! j) eqn:Huj.
      * rewrite Hs1 by done.
        destruct (decide (p sm !!! j' = S k)) as [->|];
          [by apply (m_feas_new _ _ _ Hmid)|apply (m_feas _ _ _ Hmid); lia].
      * rewrite Hs2 by done.
        pose proof (m_minv_le _ _ _ Hmid j j' Hj Huj Hj' Hu').
        pose proof (m_least _ _ _ Hmid j Hj Huj). lra.
    + assert (i ≤ k).
      { destruct (decide (i = S k)) as [->|]; [|lia].
        exfalso. apply (Hni 0); [lia|done|done]. }
      destruct (Hout i j Hni Hj) as [Hs1 Hs2].
      pose proof (m_feas _ _ _ Hmid i j ltac:(lia) Hj).
      destruct (used sm !!! j) eqn:Huj.
      * rewrite Hs1 by done. pose proof (m_sign _ _ _ Hmid j Hj Huj). lra.
      * rewrite Hs2 by done. lra.
  - (* matched cells stay tight *)
    intros j Hj Hpj. pose proof (m_tight _ _ _ Hmid j Hj Hpj) as Ht.
    destruct (used sm !!! j) eqn:Huj.
    + destruct (Hin j j) as [Hs1 _]; [lia|done|done|]. by rewrite Hs1.
    + destruct (Hout (p sm !!! j) j) as [_ Hs2]; [|done|by rewrite Hs2].
      intros j' Hj' Hu' Heq.
      assert (j' = j); [|congruence].
      destruct (decide (j' = 0)) as [->|].
      { pose proof (m_range _ _ _ (m_match _ _ _ Hmid) j). lia. }
      apply (m_inj _ _ _ (m_match _ _ _ Hmid)); [lia|lia|done|congruence].
  - (* minv is not negative *)
    intros j Hj Huj. rewrite Hmv by (lia || done).
    pose proof (m_least _ _ _ Hmid j Hj Huj). qarith.
  - intros j j' Hj Huj Hj' Hu'. rewrite Hmv by (lia || done).
    destruct (Hin j' j Hj' Hu' Hj) as [_ Hs2]. rewrite Hs2 by done.
    pose proof (m_minv_le _ _ _ Hmid j j' Hj Huj Hj' Hu'). qarith.
  - intros j Hj Huj. destruct (m_minv_way _ _ _ Hmid j Hj Huj) as [Hw Hm].
    split; [done|]. rewrite Hmv by (lia || done).
    destruct (Hin (way sm !!! j) j) as [_ Hs2]; [|done|done|].
    { apply Hok. done. }
    rewrite Hs2 by done. qarith.
  - destruct (m_j0 _ _ _ Hmid) as [Hj0 Huj0].
    rewrite Hmv; [|apply Hok|done].
    pose proof (m_delta _ _ _ Hmid). qarith.
  - intros j Hj Huj. destruct (m_path _ _ _ Hmid j Hj Huj) as (d & Hd & Hle).
    exists d. split; [done|]. unfold pending in *.
    by rewrite shifted_p, shifted_used.
  - intros j Hj Huj.
    destruct (m_path _ _ _ Hmid j) as (d & Hd & _); [lia|done|].
    destruct (Hin (way sm !!! j) j) as [Hs1 _]; [apply Hok; done| |done|].
    { eapply upath_parent; [done|lia|by apply Hok|done]. }
    rewrite Hs1 by done. by apply Hmid.
  - intros j Hj. pose proof (m_vneg _ _ _ Hmid j Hj).
    destruct (used sm !!! j) eqn:Huj.
    + rewrite Hv1 by (lia || done). pose proof (m_sign _ _ _ Hmid j Hj Huj). qarith.
    + by rewrite Hv2.
  - intros j Hj Hpj.
    destruct (used sm !!! j) eqn:Huj.
    + exfalso. by apply (m_usedm _ _ _ Hmid j).
    + rewrite Hv2 by done. by apply Hmid.
  - intros i Hi. rewrite Hu2; [apply Hmid; done|]. apply Hfresh. lia.
  - rewrite <- Hp0. rewrite (Hu1 0) by (lia || done). rewrite Hp0.
    pose proof (m_ulo _ _ _ Hmid). qarith.
  - intros j Hj. rewrite <- Hp0. rewrite (Hu1 0) by (lia || done). rewrite Hp0.
    destruct (used sm !!! j) eqn:Huj.
    + rewrite Hv1 by (lia || done).
      pose proof (m_vroom_used _ _ _ Hmid j Hj Huj). qarith.
    + rewrite Hv2 by done.
      pose proof (m_vroom_free _ _ _ Hmid j Hj Huj). qarith.
Qed.

Lemma gap_nonneg : 1 ≤ N → (0 <= hi - lo)%Q.
Proof. intros HN. pose proof (a_range 1 1 ltac:(lia) ltac:(lia)). lra. Qed.

Lemma gap_inf : 1 ≤ N → (hi - lo < INF)%Q.
Proof.
  intros HN. pose proof (gap_nonneg HN) as Hw.
  pose proof (room_le 1 N _ HN Hw) as Hle.
  rewrite room_S, room_0 in Hle. lra.
Qed.

(** Paths to the root survive when more jobs are marked and the links of
    the marked jobs are kept. *)
Lemma upath_mono wy usd wy' usd' j d :
  upath wy usd j d →
  (∀ x, 1 ≤ x ≤ N → usd !!! x = true → usd' !!! x = true ∧ wy' !!! x = wy !!! x) →
  upath wy' usd' j d.
Proof.
  intros Hpath Hkeep. induction Hpath as [|j d Hj Hu Hrest IH].
  - constructor.
  - destruct (Hkeep j Hj Hu) as [Hu' Hw'].
    constructor; [done|done|]. by rewrite Hw'.
Qed.

Lemma upath_depth wy usd j d d' : upath wy usd j d → upath wy usd j d' → d = d'.
Proof.
  intros H. revert d'. induction H as [|j d Hj Hu Hrest IH]; intros d' H'.
  - inversion H'; [done|lia].
  - inversion H' as [|j' d'' ? ? Hrest']; subst; [lia|].
    f_equal. by apply IH.
Qed.
Lemma scanned_sl st i j : sl (scanned N a st).1 i j = sl st i j.
Proof. unfold sl. by rewrite scanned_u, scanned_v. Qed.

Lemma scanned_min st :
  search_ok N st →
  let sm := (scanned N a st).1 in
  let delta := (scanned N a st).2 in
  (j0 sm = 0 ∧ delta = INF ∧
     ∀ j, 1 ≤ j ≤ N → used sm !!! j = false → (INF <= minv sm !!! j)%Q) ∨
  (1 ≤ j0 sm ≤ N ∧ used sm !!! j0 sm = false ∧ delta = minv sm !!! j0 sm ∧
     (delta < INF)%Q ∧
     ∀ j, 1 ≤ j ≤ N → used sm !!! j = false → (delta <= minv sm !!! j)%Q).
Proof.
  intros Hok. unfold scanned.
  destruct (scan N a (u st) (v st) (<[j0 st := true]> (used st)) (p st !!! j0 st)
              (j0 st) (minv st) (way st)) as [[[mv wy] d] j1] eqn:Hscan.
  cbn [fst snd used minv j0].
  eapply scan_min; [| |reflexivity|exact Hscan]; apply Hok.
Qed.

(** The first loop of a later round of the search. *)
Lemma scan_mid_next (k : nat) (st : state Q) :
  inner_inv k st → p st !!! j0 st ≠ 0 → k < N →
  mid_inv k (scanned N a st).1 (scanned N a st).2 ∧
  S (pending (scanned N a st).1) = pending st.
Proof.
  intros Hinv Hcont Hk.
  pose proof (i_ok _ _ Hinv) as Hok.
  pose proof (scanned_search_ok N a st Hok) as Hok'.
  pose proof (scanned_min st Hok) as Hmin. cbv zeta in Hmin.
  pose proof (λ j Hj, scanned_cases N a st j Hok Hj) as Hcases. cbv zeta in Hcases.
  set (sm := (scanned N a st).1) in *. set (delta := (scanned N a st).2) in *.
  assert (p sm = p st) as Hp by apply scanned_p.
  assert (∀ i j, sl sm i j = sl st i j) as Hsl by apply scanned_sl.
  assert (u sm = u st) as Hu by apply scanned_u.
  assert (v sm = v st) as Hv by apply scanned_v.
  destruct (i_j0 _ _ Hinv) as [Hj0 Huj0].
  assert (j0 st ≤ N) as Hj0N by apply Hok.
  assert (∀ j, used sm !!! j = if decide (j = j0 st) then true else used st !!! j)
    as Hused.
  { intros j. unfold sm. rewrite scanned_used. apply (mark_used N); [apply Hok|done]. }
  assert (∀ j, used sm !!! j = false → used st !!! j = false ∧ j ≠ j0 st) as Hfree.
  { intros j. rewrite Hused. case_decide; [done|]. tauto. }
  assert (∀ j, used st !!! j = true → used sm !!! j = true) as Hkeep.
  { intros j. rewrite Hused. case_decide; done. }
  assert (used sm !!! j0 st = true) as Hmark.
  { rewrite Hused. by rewrite decide_True. }
  assert (1 ≤ p st !!! j0 st ≤ k) as Hrow.
  { split; [lia|]. apply (m_range _ _ _ (i_match _ _ Hinv)). lia. }
  (* the scanned minv of an unused job *)
  assert (∀ j, 1 ≤ j ≤ N → used sm !!! j = false →
               (0 <= minv sm !!! j)%Q ∧
               (minv sm !!! j <= minv st !!! j)%Q ∧
               (minv sm !!! j <= sl st (p st !!! j0 st) j)%Q) as Hmv.
  { intros j Hj Hf. destruct (Hfree j Hf) as [Hf' Hne].
    pose proof (i_minv0 _ _ Hinv j Hj Hf').
    pose proof (i_feas _ _ Hinv (p st !!! j0 st) j ltac:(lia) Hj) as Hfe.
    unfold sl in *.
    destruct (Hcases j Hj) as [_ [(Hlt & -> & _)|(Hlt & -> & _)]]; [done|..].
    - apply Qltb_lt in Hlt. lra.
    - apply Qltb_ge in Hlt. lra. }
  (* a free job exists, and bounds delta *)
  destruct (matching_free N k (p st) (i_match _ _ Hinv) Hk) as (jf & Hjf & Hpf).
  assert (used sm !!! jf = false) as Hff.
  { rewrite Hused. rewrite decide_False by congruence.
    destruct (used st !!! jf) eqn:E; [|done].
    by destruct (i_usedm _ _ Hinv jf Hjf E). }
  assert (minv sm !!! jf < INF)%Q as Hcap.
  { destruct (Hmv jf Hjf Hff) as (_ & Hle & _). destruct (Hfree jf Hff) as [Hf' _].
    pose proof (i_minv_le _ _ Hinv jf 0 Hjf Hf' ltac:(lia) (i_used0 _ _ Hinv)) as Hle0.
    rewrite (i_p0 _ _ Hinv) in Hle0. unfold sl, reduced in Hle0.
    pose proof (i_vfree _ _ Hinv jf Hjf Hpf). pose proof (i_ulo _ _ Hinv).
    pose proof (a_range (S k) jf ltac:(lia) Hjf).
    pose proof (gap_inf ltac:(lia)). qarith. }
  destruct Hmin as [(_ & _ & Hall)|(Hj1 & Hu1 & Hd & Hlt & Hleast)].
  { specialize (Hall jf Hjf Hff). lra. }
  assert (0 <= delta)%Q as Hpos.
  { rewrite Hd. apply Hmv; [done|done]. }
  assert (S (pending sm) = pending st) as Hpend.
  { unfold pending. rewrite Hp.
    apply (filter_length_remove _ _ _ (j0 st)).
    - apply NoDup_seq.
    - apply elem_of_seq. lia.
    - done.
    - intros x Hx. rewrite Hused. case_decide; [|tauto].
      split; [intros [_ ?]; done|tauto]. }
  split; [|done].
  - split.
    + done.
    + rewrite Hp. apply (i_match _ _ Hinv).
    + rewrite Hp. apply (i_p0 _ _ Hinv).
    + apply Hkeep. apply (i_used0 _ _ Hinv).
    + intros j Hj. rewrite Hused, Hp. case_decide as E; [by rewrite E|].
      by apply (i_usedm _ _ Hinv).
    + split; [lia|done].
    + by rewrite Hd.
    + done.
    + done.
    + intros i j Hi Hj. rewrite Hsl. apply (i_feas _ _ Hinv); [lia|done].
    + intros j Hj _. rewrite Hsl. apply (i_feas _ _ Hinv); [lia|done].
    + intros j Hj. rewrite Hp, Hsl. by apply (i_tight _ _ Hinv).
    + intros j j' Hj Hf Hj' Hu'. rewrite Hp, Hsl.
      destruct (Hmv j Hj Hf) as (_ & Hle1 & Hle2). destruct (Hfree j Hf) as [Hf' _].
      rewrite Hused in Hu'. case_decide as E; [by rewrite E|].
      pose proof (i_minv_le _ _ Hinv j j' Hj Hf' Hj' Hu'). lra.
    + intros j Hj Hf. rewrite Hp, Hsl. destruct (Hfree j Hf) as [Hf' _].
      destruct (i_minv_way _ _ Hinv j Hj Hf') as [Hw Hm].
      destruct (Hcases j Hj) as [_ [(Hc & -> & ->)|(Hc & -> & ->)]]; [done|..].
      * split; [done|]. unfold sl. reflexivity.
      * split; [by apply Hkeep|done].
    + intros j Hj Hu'.
      assert (∀ x, 1 ≤ x ≤ N → used st !!! x = true →
                   used sm !!! x = true ∧ way sm !!! x = way st !!! x) as Hsame.
      { intros x Hx Hux. split; [by apply Hkeep|].
        by destruct (Hcases x Hx) as [[_ ->] _]; [apply Hkeep|]. }
      rewrite Hused in Hu'. destruct (decide (j = j0 st)) as [->|Hne].
      * destruct (i_minv_way _ _ Hinv (j0 st) ltac:(lia) Huj0) as [Hw _].
        destruct (i_path _ _ Hinv (way st !!! j0 st)) as (d & Hd' & Hle); [|done|].
        { by apply Hok. }
        exists (S d). split; [|lia].
        constructor; [lia|done|].
        destruct (Hcases (j0 st) ltac:(lia)) as [[_ ->] _]; [done|].
        by apply (upath_mono (way st) (used st)).
      * destruct (i_path _ _ Hinv j Hj Hu') as (d & Hd' & Hle).
        exists d. split; [|lia]. by apply (upath_mono (way st) (used st)).
    + intros j Hj Hu'. rewrite Hp, Hsl.
      destruct (Hcases j Hj) as [[_ ->] _]; [done|].
      rewrite Hused in Hu'. destruct (decide (j = j0 st)) as [->|Hne].
      * destruct (i_minv_way _ _ Hinv (j0 st) ltac:(lia) Huj0) as [_ Hm].
        rewrite <- Hm. apply (i_j0min _ _ Hinv).
      * by apply (i_ptight _ _ Hinv).
    + intros j Hj. rewrite Hv. by apply (i_vneg _ _ Hinv).
    + intros j Hj. rewrite Hp, Hv. by apply (i_vfree _ _ Hinv).
    + intros i Hi. rewrite Hu. by apply (i_ufresh _ _ Hinv).
    + rewrite Hu. pose proof (i_ulo _ _ Hinv). lra.
    + intros j Hj _. rewrite Hu, Hv. by apply (i_vroom _ _ Hinv).
    + intros j Hj _. rewrite Hu, Hv. pose proof (i_vroom _ _ Hinv j Hj). lra.
Qed.

(** The first loop of the first round of the search for row [k + 1]. *)
Lemma scan_mid_first (k : nat) (st : state Q) :
  outer_inv k st → k < N →
  mid_inv k (scanned N a (enter N (S k) st)).1 (scanned N a (enter N (S k) st)).2.
Proof.
  intros Hinv Hk.
  pose proof (o_rest _ _ Hinv) as Hrest.
  pose proof (enter_search_ok N k st Hrest) as Hok.
  pose proof (scanned_search_ok N a _ Hok) as Hok'.
  pose proof (scanned_min _ Hok) as Hmin. cbv zeta in Hmin.
  pose proof (λ j Hj, scanned_cases N a _ j Hok Hj) as Hcases. cbv zeta in Hcases.
  set (se := enter N (S k) st) in *.
  set (sm := (scanned N a se).1) in *. set (delta := (scanned N a se).2) in *.
  assert (p sm = <[0 := S k]> (p st)) as Hp by (unfold sm; by rewrite scanned_p).
  assert (∀ i j, sl sm i j = sl st i j) as Hsl
    by (intros; unfold sm; by rewrite scanned_sl).
  assert (u sm = u st) as Hu by (unfold sm; by rewrite scanned_u).
  assert (v sm = v st) as Hv by (unfold sm; by rewrite scanned_v).
  assert (p sm !!! 0 = S k) as Hp0.
  { rewrite Hp. apply list_lookup_total_insert_eq.
    rewrite (m_len _ _ _ (r_match _ _ _ Hrest)). lia. }
  assert (∀ j, 1 ≤ j → p sm !!! j = p st !!! j) as Hpj.
  { intros j Hj. rewrite Hp. apply list_lookup_total_insert_ne. lia. }
  assert (used sm !!! 0 = true) as Hused0.
  { unfold sm. rewrite scanned_used. rewrite (mark_used N); [done|apply Hok..]. }
  assert (∀ j, 1 ≤ j ≤ N → used sm !!! j = false) as Hfree.
  { intros j Hj. unfold sm. rewrite scanned_used.
    rewrite (mark_used N); [|apply Hok..]. cbn [j0 se enter used].
    rewrite decide_False by lia. apply lookup_total_replicate_2. lia. }
  assert (∀ j, 1 ≤ j ≤ N →
            minv sm !!! j = reduced a (u st) (v st) (S k) j ∧ way sm !!! j = 0 ∧
            (lo <= minv sm !!! j < INF)%Q) as Hmv.
  { intros j Hj.
    assert (lo <= reduced a (u st) (v st) (S k) j < INF)%Q as Hcur.
    { pose proof (a_range (S k) j ltac:(lia) Hj).
      pose proof (o_ufresh _ _ Hinv (S k) ltac:(lia)).
      pose proof (o_vneg _ _ Hinv j Hj). pose proof (o_vroom _ _ Hinv j Hj).
      pose proof (room_le k N (hi - lo) ltac:(lia) (gap_nonneg ltac:(lia))).
      qarith. }
    destruct (Hcases j Hj) as [_ Hc]. specialize (Hc (Hfree j Hj)).
    replace (p se !!! j0 se) with (S k) in Hc.
    2:{ cbn [j0 se enter p]. symmetry. apply list_lookup_total_insert_eq.
        rewrite (m_len _ _ _ (r_match _ _ _ Hrest)). lia. }
    replace (minv se !!! j) with INF in Hc.
    2:{ cbn [minv se enter]. symmetry. apply lookup_total_replicate_2. lia. }
    change (u se) with (u st) in Hc. change (v se) with (v st) in Hc.
    destruct Hc as [(Hlt & Hm & Hw)|(Hlt & _)].
    - rewrite Hm, Hw. split_and!; [done|done|apply Hcur..].
    - apply Qltb_ge in Hlt. lra. }
  destruct Hmin as [(_ & _ & Hall)|(Hj1 & Hu1 & Hd & Hlt & Hleast)].
  { destruct (Hmv 1 ltac:(lia)) as (_ & _ & Hb).
    specialize (Hall 1 ltac:(lia) (Hfree 1 ltac:(lia))). lra. }
  assert (∀ j, j ≤ N → used sm !!! j = true → j = 0) as Honly.
  { intros j Hj Hu'. destruct (decide (j = 0)); [done|].
    rewrite Hfree in Hu' by lia. done. }
  split.
  - done.
  - rewrite Hp. apply matching_replace_0. apply Hrest.
  - done.
  - done.
  - intros j Hj Hu'. apply Honly in Hu'; lia.
  - split; [lia|done].
  - by rewrite Hd.
  - done.
  - intros j Hj Hu'. apply Honly in Hu'; lia.
  - intros i j Hi Hj. rewrite Hsl. by apply (o_feas _ _ Hinv).
  - intros j Hj Hu'. apply Honly in Hu'; lia.
  - intros j Hj. rewrite Hpj, Hsl by lia. by apply (o_tight _ _ Hinv).
  - intros j j' Hj _ Hj' Hu'. apply Honly in Hu'; [|done]. subst j'.
    rewrite Hp0. destruct (Hmv j Hj) as (-> & _). unfold sl. rewrite Hu, Hv. lra.
  - intros j Hj _. destruct (Hmv j Hj) as (-> & -> & _). split; [done|].
    rewrite Hp0. unfold sl. by rewrite Hu, Hv.
  - intros j Hj Hu'. apply Honly in Hu'; [|done]. subst j.
    exists 0. split; [constructor|]. simpl.
    apply (matched_le N k (p sm)); [|by intros j [Hnz _]].
    rewrite Hp. apply matching_replace_0. apply Hrest.
  - intros j Hj Hu'. apply Honly in Hu'; lia.
  - intros j Hj. rewrite Hv. by apply (o_vneg _ _ Hinv).
  - intros j Hj. rewrite Hpj, Hv by lia. by apply (o_vfree _ _ Hinv).
  - intros i Hi. rewrite Hu. apply (o_ufresh _ _ Hinv). lia.
  - rewrite Hd. destruct (Hmv (j0 sm) Hj1) as (Heq & _ & _). rewrite Heq, Hu.
    pose proof (a_range (S k) (j0 sm) ltac:(lia) Hj1).
    pose proof (o_vneg _ _ Hinv (j0 sm) Hj1). qarith.
  - intros j Hj Hu'. apply Honly in Hu'; lia.
  - intros j Hj _. rewrite Hu, Hv.
    rewrite Hd. destruct (Hmv (j0 sm) Hj1) as (Heq & _ & _). rewrite Heq.
    pose proof (a_range (S k) (j0 sm) ltac:(lia) Hj1).
    pose proof (o_vneg _ _ Hinv (j0 sm) Hj1).
    pose proof (o_vroom _ _ Hinv j Hj). qarith.
Qed.

Lemma pending_shifted sm delta : pending (shifted N sm delta) = pending sm.
Proof. unfold pending. by rewrite shifted_p, shifted_used. Qed.

(** A later round keeps the invariant and absorbs one more matched job. *)
Lemma round_inner (k : nat) (st : state Q) :
  inner_inv k st → p st !!! j0 st ≠ 0 → k < N →
  inner_inv k (round N a st) ∧ S (pending (round N a st)) = pending st.
Proof.
  intros Hinv Hcont Hk.
  destruct (scan_mid_next k st Hinv Hcont Hk) as [Hmid Hpend].
  rewrite round_halves, pending_shifted. split; [|done].
  by apply shift_inner.
Qed.

(** The first round establishes it. *)
Lemma round_first (k : nat) (st : state Q) :
  outer_inv k st → k < N → inner_inv k (round N a (enter N (S k) st)).
Proof.
  intros Hinv Hk. rewrite round_halves.
  apply shift_inner; [|done]. by apply scan_mid_first.
Qed.

Lemma pending_le (k : nat) (st : state Q) : inner_inv k st → pending st ≤ k.
Proof.
  intros Hinv.
  destruct (i_path _ _ Hinv 0 ltac:(lia) (i_used0 _ _ Hinv)) as (d & _ & Hle). lia.
Qed.

(** The search ends: every round that does not stop absorbs a matched job,
    and [1 + pending] rounds are enough. *)
Lemma relax_next (fuel k : nat) (st : state Q) :
  inner_inv k st → k < N → p st !!! j0 st ≠ 0 → pending st ≤ fuel →
  ∃ st', relax fuel N a st = Some st' ∧ inner_inv k st' ∧ p st' !!! j0 st' = 0.
Proof.
  revert st. induction fuel as [|fuel IH]; intros st Hinv Hk Hcont Hfuel.
  - destruct (round_inner k st Hinv Hcont Hk) as [_ Hp]. lia.
  - destruct (round_inner k st Hinv Hcont Hk) as [Hinv' Hp].
    cbn [relax]. destruct (decide _) as [Hz|Hnz].
    + eauto.
    + apply IH; [done|done|done|lia].
Qed.

Lemma relax_first (fuel k : nat) (st : state Q) :
  outer_inv k st → k < N → k < fuel →
  ∃ st', relax fuel N a (enter N (S k) st) = Some st' ∧ inner_inv k st' ∧
         p st' !!! j0 st' = 0.
Proof.
  intros Hinv Hk Hfuel. destruct fuel as [|fuel]; [lia|].
  pose proof (round_first k st Hinv Hk) as Hinv'.
  cbn [relax]. destruct (decide _) as [Hz|Hnz].
  - eauto.
  - apply (relax_next fuel k); [done|done|done|].
    pose proof (pending_le k _ Hinv'). lia.
Qed.

(** The rewiring of the path.  [ps0] is [p] when the search stopped; the
    entry about to be overwritten is [h], [d] steps of [way] above the
    root.  Every cell it installs is tight. *)
Lemma augment_loop (st : state Q) (ps0 : list nat) :
  (∀ x, 1 ≤ x ≤ N → used st !!! x = true →
        (sl st (ps0 !!! (way st !!! x)) x == 0)%Q) →
  ps0 !!! 0 ≠ 0 →
  (∀ x, 1 ≤ x ≤ N → used st !!! x = true → ps0 !!! x ≠ 0) →
  ∀ d fuel h ps,
    1 ≤ h ≤ N → upath (way st) (used st) (way st !!! h) d → d < fuel →
    (sl st (ps0 !!! (way st !!! h)) h == 0)%Q →
    (∀ x d', upath (way st) (used st) x d' → d' ≤ d → ps !!! x = ps0 !!! x) →
    (∀ x, 1 ≤ x ≤ N → x ≠ h → ps !!! x ≠ 0 → (sl st (ps !!! x) x == 0)%Q) →
    (∀ x, 1 ≤ x ≤ N → x ≠ h → ps !!! x = 0 → ps0 !!! x = 0) →
    length ps = S N →
    ∃ ps', augment fuel (way st) ps h = Some ps' ∧
           (∀ x, 1 ≤ x ≤ N → ps' !!! x ≠ 0 → (sl st (ps' !!! x) x == 0)%Q) ∧
           (∀ x, 1 ≤ x ≤ N → ps' !!! x = 0 → ps0 !!! x = 0).
Proof.
  intros Hpt Hnz0 Hnz. induction d as [|d IH];
    intros fuel h ps Hh Hpath Hfuel Htight Hsame Hok Hzero Hlen;
    (destruct fuel as [|fuel]; [lia|]); cbn [augment].
  - assert (way st !!! h = 0) as Hw0 by (inversion Hpath; done).
    rewrite decide_True by done. eexists. split; [done|].
    assert (∀ x, (<[h := ps !!! (way st !!! h)]> ps) !!! x
                 = if decide (x = h) then ps0 !!! 0 else ps !!! x) as Hlk.
    { intros x. rewrite list_lookup_total_insert.
      destruct (decide (x = h)) as [->|].
      - rewrite decide_True by (split; [done|lia]).
        rewrite Hw0. apply (Hsame 0 0); [constructor|lia].
      - rewrite decide_False; [done|]. intros [? _]. congruence. }
    split; intros x Hx; rewrite Hlk; case_decide as E.
    + intros _. subst x. by rewrite Hw0 in Htight.
    + by apply Hok.
    + intros Hz. done.
    + by apply Hzero.
  - set (j1 := way st !!! h) in *.
    inversion Hpath as [|j d' Hj1 Hu1 Hrest]; subst j d'.
    rewrite decide_False by lia.
    assert (ps !!! j1 = ps0 !!! j1) as Hpj1 by (apply (Hsame j1 (S d)); [done|lia]).
    assert (∀ x, (<[h := ps !!! j1]> ps) !!! x
                 = if decide (x = h) then ps0 !!! j1 else ps !!! x) as Hlk.
    { intros x. rewrite list_lookup_total_insert.
      destruct (decide (x = h)) as [->|].
      - rewrite decide_True by (split; [done|lia]). done.
      - rewrite decide_False; [done|]. intros [? _]. congruence. }
    apply IH; try done.
    + lia.
    + by apply Hpt.
    + intros x d' Hx Hd'. rewrite Hlk. rewrite decide_False; [apply (Hsame x d'); [done|lia]|].
      intros ->. inversion Hx as [|j d'' _ _ Hrest']; subst; [lia|].
      fold j1 in Hrest'. pose proof (upath_depth _ _ _ _ _ Hpath Hrest'). lia.
    + intros x Hx Hne. rewrite Hlk. case_decide as E; [|by apply Hok].
      intros _. subst x. done.
    + intros x Hx Hne. rewrite Hlk. case_decide as E; [|by apply Hzero].
      intros Hz. exfalso. by apply (Hnz j1).
    + by rewrite length_insert.
Qed.

(** The rewiring after a search that has reached a free job. *)
Lemma augment_inner (fuel k : nat) (st : state Q) :
  inner_inv k st → p st !!! j0 st = 0 → k < N → N ≤ fuel →
  ∃ ps', augment fuel (way st) (p st) (j0 st) = Some ps' ∧
         matching N (S k) ps' ∧
         (∀ x, 1 ≤ x ≤ N → ps' !!! x ≠ 0 → (sl st (ps' !!! x) x == 0)%Q) ∧
         (∀ x, 1 ≤ x ≤ N → ps' !!! x = 0 → p st !!! x = 0).
Proof.
  intros Hinv Hz Hk Hfuel.
  pose proof (i_ok _ _ Hinv) as Hok.
  destruct (i_j0 _ _ Hinv) as [Hj0 Huj0].
  assert (1 ≤ j0 st ≤ N) as Hj0N by (split; [done|apply Hok]).
  destruct (i_minv_way _ _ Hinv (j0 st) Hj0N Huj0) as [Hwu Hwm].
  destruct (i_path _ _ Hinv (way st !!! j0 st)) as (d & Hd & Hdle); [|done|].
  { by apply Hok. }
  destruct (augment_loop st (p st)) with (d := d) (fuel := fuel) (h := j0 st) (ps := p st)
    as (ps' & Haug & Ht & Hzr); try done.
  - apply (i_ptight _ _ Hinv).
  - rewrite (i_p0 _ _ Hinv). done.
  - apply (i_usedm _ _ Hinv).
  - lia.
  - rewrite <- Hwm. apply (i_j0min _ _ Hinv).
  - intros x Hx _. apply (i_tight _ _ Hinv x Hx).
  - apply Hok.
  - exists ps'. split_and!; try done.
    apply hole_closed. apply (augment_hole fuel N (S k) (j0 st) (way st) (p st));
      [apply Hok|done| |done].
    replace (p st) with (<[0 := S k]> (p st)).
    2:{ apply list_insert_id. rewrite <- (i_p0 _ _ Hinv).
        apply list_lookup_lookup_total_lt. rewrite (s_lenp _ _ Hok). lia. }
    apply hole_open; [apply (i_match _ _ Hinv)|done|done].
Qed.

(** One outer iteration: it returns, and the row [k + 1] is in. *)
Lemma iteration_inv (fuel k : nat) (st : state Q) :
  outer_inv k st → k < N → N ≤ fuel →
  ∃ st', iteration fuel N a (S k) st = Some st' ∧ outer_inv (S k) st'.
Proof.
  intros Hinv Hk Hfuel. unfold iteration.
  destruct (relax_first fuel k st Hinv Hk ltac:(lia)) as (st1 & -> & Hin & Hz).
  cbn [mbind option_bind].
  destruct (augment_inner fuel k st1 Hin Hz Hk Hfuel) as (ps' & -> & Hm & Ht & Hzr).
  cbn [mbind option_bind]. eexists. split; [done|].
  pose proof (i_ok _ _ Hin) as Hok.
  destruct (i_j0 _ _ Hin) as [Hj0 Huj0].
  assert (1 ≤ j0 st1 ≤ N) as Hj0N by (split; [done|apply Hok]).
  assert (u st1 !!! S k <= hi)%Q as Hhi.
  { pose proof (i_minv_le _ _ Hin (j0 st1) 0 Hj0N Huj0 ltac:(lia) (i_used0 _ _ Hin))
      as Hle.
    rewrite (i_p0 _ _ Hin) in Hle. unfold sl, reduced in Hle.
    pose proof (i_minv0 _ _ Hin (j0 st1) Hj0N Huj0).
    pose proof (i_vfree _ _ Hin (j0 st1) Hj0N Hz).
    pose proof (a_range (S k) (j0 st1) ltac:(lia) Hj0N). qarith. }
  split; cbn [u v p way].
  - split; cbn [u v p way]; [done|apply Hok..].
  - intros i j Hi Hj. by apply (i_feas _ _ Hin).
  - intros j Hj Hnz. by apply Ht.
  - apply (i_vneg _ _ Hin).
  - intros j Hj Hpz. apply (i_vfree _ _ Hin); [done|]. by apply Hzr.
  - intros i Hi. by apply (i_ufresh _ _ Hin).
  - intros j Hj. pose proof (i_vroom _ _ Hin j Hj).
    rewrite room_S. lra.
Qed.

Lemma outer_inv_run (fuel c k : nat) (st : state Q) :
  outer_inv k st → k + c ≤ N → N ≤ fuel →
  ∃ st', outer fuel N a (seq (S k) c) st = Some st' ∧ outer_inv (k + c) st'.
Proof.
  revert k st. induction c as [|c IH]; intros k st Hinv Hkc Hfuel; cbn [seq outer].
  - exists st. split; [done|]. by rewrite Nat.add_0_r.
  - destruct (iteration_inv fuel k st Hinv ltac:(lia) Hfuel) as (st1 & -> & Hinv1).
    cbn [mbind option_bind].
    replace (k + S c) with (S k + c) by lia. apply IH; [done|lia|done].
Qed.

Lemma init_outer_inv : outer_inv 0 (init_state N).
Proof.
  assert (∀ j, j ≤ N → replicate (S N) 0%Q !!! j = 0%Q) as Hz.
  { intros j Hj. apply lookup_total_replicate_2. lia. }
  assert (∀ j, j ≤ N → replicate (S N) 0 !!! j = 0) as Hz'.
  { intros j Hj. apply lookup_total_replicate_2. lia. }
  split; [apply init_rest_ok|..];
    unfold sl, init_state; cbn [u v p way num_zero Q_num].
  - intros i j Hi. lia.
  - intros j Hj Hnz. rewrite Hz' in Hnz by lia. done.
  - intros j Hj. rewrite Hz by lia. lra.
  - intros j Hj _. by rewrite Hz by lia.
  - intros i Hi. by rewrite Hz by lia.
  - intros j Hj. rewrite Hz by lia. rewrite room_0. lra.
Qed.

(** The solver returns within the fuel [N], with potentials that are
    feasible on the whole square and tight on the matching. *)
Lemma solve_inv (fuel : nat) :
  N ≤ fuel → ∃ st, solve fuel N a = Some st ∧ outer_inv N st.
Proof.
  intros Hfuel. unfold solve.
  apply (outer_inv_run fuel N 0); [apply init_outer_inv|lia|done].
Qed.

End Duality.

(** ** Sums of costs and the optimality of the matching *)

Fixpoint Qsum (l : list Q) : Q :=
  match l with
  | [] => 0%Q
  | x :: l => (x + Qsum l)%Q
  end.

Lemma Qsum_perm (l l' : list Q) : l ≡ₚ l' → (Qsum l == Qsum l')%Q.
Proof.
  induction 1 as [|x l l' _ IH|x y l|l l' l'' _ IH1 _ IH2]; simpl.
  - reflexivity.
  - rewrite IH. reflexivity.
  - ring.
  - by rewrite IH1.
Qed.

Lemma Qsum_fmap_le {A : Type} (f g : A → Q) (l : list A) :
  (∀ x, x ∈ l → (f x <= g x)%Q) → (Qsum (f <$> l) <= Qsum (g <$> l))%Q.
Proof.
  induction l as [|x l IH]; intros Hfg; [simpl; lra|].
  rewrite !fmap_cons. cbn [Qsum].
  pose proof (Hfg x ltac:(by left)).
  specialize (IH (λ y Hy, Hfg y ltac:(by right))). lra.
Qed.

Lemma Qsum_fmap_eq {A : Type} (f g : A → Q) (l : list A) :
  (∀ x, x ∈ l → (f x == g x)%Q) → (Qsum (f <$> l) == Qsum (g <$> l))%Q.
Proof.
  induction l as [|x l IH]; intros Hfg; [simpl; lra|].
  rewrite !fmap_cons. cbn [Qsum].
  pose proof (Hfg x ltac:(by left)).
  specialize (IH (λ y Hy, Hfg y ltac:(by right))). lra.
Qed.

Lemma Qsum_fmap_plus {A : Type} (f g : A → Q) (l : list A) :
  (Qsum ((λ x, f x + g x)%Q <$> l) == Qsum (f <$> l) + Qsum (g <$> l))%Q.
Proof.
  induction l as [|x l IH]; [simpl; lra|].
  rewrite !fmap_cons. cbn [Qsum]. lra.
Qed.

Lemma Qsum_fmap_const {A : Type} (c : Q) (l : list A) :
  (Qsum ((λ _, c) <$> l) == natQ (length l) * c)%Q.
Proof.
  induction l as [|x l IH].
  - unfold natQ. simpl. ring.
  - rewrite fmap_cons. cbn [Qsum length]. rewrite IH, natQ_S. ring.
Qed.

(** A full matching lists every row once. *)
Lemma matching_perm (N : nat) (ps : list nat) :
  matching N N ps → (λ j, ps !!! j) <$> seq 1 N ≡ₚ seq 1 N.
Proof.
  intros Hm. apply NoDup_Permutation.
  - apply NoDup_fmap_2_strong; [|apply NoDup_seq].
    intros x y Hx Hy Heq. apply elem_of_seq in Hx, Hy.
    apply (m_inj _ _ _ Hm); [lia|lia|done|].
    pose proof (matching_full N ps x Hm). lia.
  - apply NoDup_seq.
  - intros r. rewrite list_elem_of_fmap, elem_of_seq. split.
    + intros (x & -> & Hx). apply elem_of_seq in Hx.
      pose proof (matching_full N ps x Hm). lia.
    + intros Hr. destruct (m_surj _ _ _ Hm r) as (j & Hj & Hpj); [lia|].
      exists j. split; [done|]. apply elem_of_seq. lia.
Qed.

(** The cost of a matching of the padded square. *)
Definition square_cost (N : nat) (a : list (list Q)) (ps : list nat) : Q :=
  Qsum ((λ j, (a !!! (ps !!! j)) !!! j) <$> seq 1 N).

Section Optimal.
Variable N : nat.
Variable a : list (list Q).
Variables lo hi : Q.
Hypothesis a_range :
  ∀ i j, 1 ≤ i ≤ N → 1 ≤ j ≤ N → (lo <= (a !!! i) !!! j <= hi)%Q.
Hypothesis room_inf : (hi + room N (hi - lo) < INF)%Q.
Hypothesis room_gap : (room N (hi - lo) < INF)%Q.

(** The value of the dual: the sum of all potentials. *)
Definition dual_value (st : state Q) : Q :=
  (Qsum ((λ i, u st !!! i) <$> seq 1 N) + Qsum ((λ j, v st !!! j) <$> seq 1 N))%Q.

Lemma dual_split (st : state Q) (ps : list nat) :
  matching N N ps →
  (Qsum ((λ j, u st !!! (ps !!! j) + v st !!! j)%Q <$> seq 1 N) == dual_value st)%Q.
Proof.
  intros Hm. rewrite Qsum_fmap_plus. unfold dual_value.
  apply Qplus_inj_r.
  change (λ j, u st !!! (ps !!! j)) with ((λ i, u st !!! i) ∘ (λ j, ps !!! j)).
  rewrite list_fmap_compose. apply Qsum_perm.
  apply fmap_Permutation. by apply matching_perm.
Qed.

(** Weak duality: no matching is cheaper than the dual value. *)
Lemma dual_below (st : state Q) (ps : list nat) :
  outer_inv N a lo hi N st → matching N N ps →
  (dual_value st <= square_cost N a ps)%Q.
Proof.
  intros Hinv Hm. rewrite <- (dual_split st ps Hm). unfold square_cost.
  apply Qsum_fmap_le. intros j Hj. apply elem_of_seq in Hj.
  pose proof (matching_full N ps j Hm ltac:(lia)).
  pose proof (o_feas _ _ _ _ _ _ Hinv (ps !!! j) j ltac:(lia) ltac:(lia)) as Hf.
  unfold sl in Hf. qarith.
Qed.

(** Strong duality: the matching found costs exactly the dual value. *)
Lemma dual_reached (st : state Q) :
  outer_inv N a lo hi N st → (square_cost N a (p st) == dual_value st)%Q.
Proof.
  intros Hinv.
  pose proof (r_match _ _ _ (o_rest _ _ _ _ _ _ Hinv)) as Hm.
  rewrite <- (dual_split st (p st) Hm). unfold square_cost.
  apply Qsum_fmap_eq. intros j Hj. apply elem_of_seq in Hj.
  pose proof (matching_full N (p st) j Hm ltac:(lia)).
  pose proof (o_tight _ _ _ _ _ _ Hinv j ltac:(lia) ltac:(lia)) as Ht.
  unfold sl in Ht. qarith.
Qed.

(** On a padded square within range the solver returns, with fuel [N], a
    full matching of least cost. *)
Lemma solve_optimal (fuel : nat) :
  N ≤ fuel →
  ∃ st, solve fuel N a = Some st ∧ outer_inv N a lo hi N st ∧
        ∀ ps, matching N N ps → (square_cost N a (p st) <= square_cost N a ps)%Q.
Proof.
  intros Hfuel.
  destruct (solve_inv N a lo hi a_range room_inf room_gap fuel Hfuel) as (st & Hs & Hinv).
  exists st. split_and!; [done..|].
  intros ps Hm. rewrite (dual_reached st Hinv). by apply dual_below.
Qed.

End Optimal.

(** ** The padded matrix and the answer written back *)

Section Answer.
Context {R : Type} `{NumR : Num R}.

Lemma pad_matrix_lookup (N : nat) (n m : Z) (cost : list (list R)) (i j : nat) :
  i ≤ N → j ≤ N → (pad_matrix N n m cost !!! i) !!! j = pad_cell n m cost i j.
Proof.
  intros Hi Hj. unfold pad_matrix.
  rewrite (list_lookup_total_alt _ i), list_lookup_fmap, lookup_seq_lt by lia.
  cbn [fmap option_fmap option_map default Nat.add]. unfold id.
  rewrite (list_lookup_total_alt _ j), list_lookup_fmap, lookup_seq_lt by lia.
  done.
Qed.

(** The entry written for the job [j], counted from 0, when [p] is [ps]. *)
Definition answer (n : Z) (ps : list nat) (j : nat) : Z :=
  if bool_decide (0 < ps !!! S j ∧ (Z.of_nat (ps !!! S j) ≤ n)%Z)
  then (Z.of_nat (ps !!! S j) - 1)%Z else (-1)%Z.

Lemma clear_matches_lookup (m : Z) (out0 : list Z) :
  length (clear_matches m out0) = length out0 ∧
  ∀ j, clear_matches m out0 !!! j =
       if decide (j < Z.to_nat m ∧ j < length out0) then (-1)%Z else out0 !!! j.
Proof.
  set (P := λ (k : nat) (out : list Z), length out = length out0 ∧
           ∀ j, out !!! j = if decide (j < k ∧ j < length out0)
                            then (-1)%Z else out0 !!! j).
  change (P (Z.to_nat m) (clear_matches m out0)).
  unfold clear_matches. apply for_loop_ind; unfold P.
  - split; [done|]. intros j. rewrite decide_False; [done|lia].
  - intros k out Hk [Hl Hout]. rewrite length_insert. split; [done|].
    intros j. rewrite list_lookup_total_insert, Hl, Hout. simpl.
    destruct (decide (k = j)) as [<-|Hne].
    + destruct (decide (k < length out0)).
      * rewrite decide_True by done. rewrite decide_True; [done|lia].
      * rewrite decide_False by tauto. rewrite !decide_False; [done|lia|lia].
    + rewrite decide_False by tauto. apply decide_ext. lia.
Qed.

Lemma write_matches_lookup (n m : Z) (ps : list nat) (out0 : list Z) :
  length (write_matches n m ps out0) = length out0 ∧
  ∀ j, write_matches n m ps out0 !!! j =
       if decide (j < Z.to_nat m ∧ j < length out0)
       then answer n ps j else out0 !!! j.
Proof.
  destruct (clear_matches_lookup m out0) as [Hcl Hc].
  set (P := λ (k : nat) (out : list Z), length out = length out0 ∧
           ∀ j, out !!! j = if decide (j < k ∧ j < length out0)
                            then answer n ps j else clear_matches m out0 !!! j).
  assert (P (Z.to_nat m) (write_matches n m ps out0)) as [HPl HP];
    [|split; [done|]; intros j; rewrite HP; destruct (decide _); [done|];
      rewrite Hc; rewrite decide_False; [done|lia]].
  unfold write_matches. apply for_loop_ind; unfold P.
  - split; [done|]. intros j. rewrite decide_False; [done|lia].
  - intros k out Hk [Hl Hout]. unfold write_step. simpl.
    replace (k - 0) with k by lia.
    destruct (bool_decide (0 < ps !!! S k ∧ (Z.of_nat (ps !!! S k) ≤ n)%Z)) eqn:Hcond.
    + rewrite length_insert. split; [done|].
      intros j. rewrite list_lookup_total_insert, Hl, Hout.
      destruct (decide (k = j)) as [<-|Hne].
      * destruct (decide (k < length out0)).
        -- rewrite decide_True by done. rewrite decide_True by lia.
           unfold answer. by rewrite Hcond.
        -- rewrite decide_False by tauto. rewrite !decide_False; [done|lia|lia].
      * rewrite decide_False by tauto. apply decide_ext. lia.
    + split; [done|]. intros j. rewrite Hout.
      destruct (decide (j = k)) as [->|Hne].
      * destruct (decide (k < length out0)).
        -- rewrite decide_False by lia. rewrite decide_True by lia.
           rewrite Hc. rewrite decide_True by lia.
           unfold answer. by rewrite Hcond.
        -- rewrite !decide_False; [done|lia|lia].
      * apply decide_ext. lia.
Qed.

(** With a buffer of exactly [m] entries, the buffer on return. *)
Lemma write_matches_eq (n m : Z) (ps : list nat) (out0 : list Z) :
  length out0 = Z.to_nat m →
  write_matches n m ps out0 = answer n ps <$> seq 0 (Z.to_nat m).
Proof.
  intros Hlen. destruct (write_matches_lookup n m ps out0) as [Hl Hout].
  apply (list_eq_same_length _ _ (Z.to_nat m)).
  - by rewrite length_fmap, length_seq.
  - by rewrite Hl.
  - intros i x y Hi Hx Hy.
    apply list_lookup_total_correct in Hx, Hy.
    rewrite Hout in Hx. rewrite decide_True in Hx by lia.
    rewrite list_lookup_total_alt, list_lookup_fmap, lookup_seq_lt in Hy by lia.
    simpl in Hy. congruence.
Qed.

Lemma total_zero (N : nat) (n m : Z) (cost : list (list R)) (ps : list nat) :
  (∀ j, 1 ≤ j ≤ N →
     ¬ (0 < ps !!! j ∧ (Z.of_nat (ps !!! j) ≤ n)%Z ∧ (Z.of_nat j ≤ m)%Z)) →
  total N n m cost ps = num_zero.
Proof.
  intros Hno. unfold total.
  apply (for_loop_ind _ (λ _ res, res = num_zero)); [done|].
  intros k res Hk ->. unfold total_step.
  rewrite bool_decide_eq_false_2; [done|]. apply Hno. lia.
Qed.

End Answer.

(** ** The solver on a cost matrix with exact arithmetic *)

(** A matrix of [n] rows and [m] columns. *)
Definition cost_wf {R : Type} (n m : nat) (cost : list (list R)) : Prop :=
  length cost = n ∧ ∀ row, row ∈ cost → length row = m.

(** All costs lie in [[lo, hi]]. *)
Definition in_range (lo hi : Q) (n m : nat) (cost : list (list Q)) : Prop :=
  ∀ i j, i < n → j < m → (lo <= (cost !!! i) !!! j <= hi)%Q.

(** The range is narrow enough for a square of size [N]: the reduced costs
    met by the solver stay below [INF]. *)
Definition narrow (N : nat) (lo hi : Q) : Prop :=
  (hi + room N (hi - lo) < INF)%Q ∧ (room N (hi - lo) < INF)%Q.

(** The contribution of job [j] to the total of lines 69-73. *)
Definition cell_value (n m : Z) (cost : list (list Q)) (ps : list nat) (j : nat) : Q :=
  if bool_decide (0 < ps !!! j ∧ (Z.of_nat (ps !!! j) ≤ n)%Z ∧ (Z.of_nat j ≤ m)%Z)
  then (cost !!! (ps !!! j - 1)) !!! (j - 1) else 0%Q.

Lemma total_sum (N : nat) (n m : Z) (cost : list (list Q)) (ps : list nat) :
  (total N n m cost ps == Qsum (cell_value n m cost ps <$> seq 1 N))%Q.
Proof.
  unfold total.
  assert (∀ l acc, (foldl (total_step n m cost ps) acc l
                    == acc + Qsum (cell_value n m cost ps <$> l))%Q) as H.
  { induction l as [|j l IH]; intros acc; [simpl; lra|].
    rewrite fmap_cons. cbn [foldl Qsum]. rewrite IH.
    unfold total_step, cell_value. destruct (bool_decide _); qarith. }
  rewrite H. qarith.
Qed.

(** The cost of the assignment [σ], which gives the job [j] to the worker
    [σ !!! j]. *)
Definition assignment_cost (cost : list (list Q)) (σ : list nat) : Q :=
  Qsum ((λ j, (cost !!! (σ !!! j)) !!! j) <$> seq 0 (length σ)).

(** The matching of the square that an assignment of the [N] jobs stands
    for: rows and jobs are counted from 1 there. *)
Definition lift (σ : list nat) : list nat := 0 :: (S <$> σ).

Lemma lift_lookup (σ : list nat) (j : nat) :
  j < length σ → lift σ !!! S j = S (σ !!! j).
Proof.
  intros Hj. unfold lift.
  destruct (lookup_lt_is_Some_2 σ j Hj) as [x Hx].
  rewrite (list_lookup_total_correct _ _ _ Hx).
  apply list_lookup_total_correct.
  change ((S <$> σ) !! j = Some (S x)).
  by rewrite list_lookup_fmap, Hx.
Qed.

Lemma perm_bound (N : nat) (σ : list nat) (j : nat) :
  σ ≡ₚ seq 0 N → j < N → σ !!! j < N.
Proof.
  intros Hp Hj.
  assert (j < length σ) as Hlt by (rewrite Hp, length_seq; done).
  destruct (lookup_lt_is_Some_2 σ j Hlt) as [x Hx].
  rewrite (list_lookup_total_correct _ _ _ Hx).
  apply list_elem_of_lookup_2 in Hx. rewrite Hp in Hx.
  apply elem_of_seq in Hx. lia.
Qed.

Lemma lift_matching (N : nat) (σ : list nat) :
  σ ≡ₚ seq 0 N → matching N N (lift σ).
Proof.
  intros Hp.
  assert (length σ = N) as Hlen by (by rewrite Hp, length_seq).
  assert (NoDup σ) as Hnd by (rewrite Hp; apply NoDup_seq).
  split.
  - unfold lift. cbn [length]. by rewrite length_fmap, Hlen.
  - intros j Hj. destruct j as [|j]; [lia|].
    rewrite lift_lookup by lia. pose proof (perm_bound N σ j Hp). lia.
  - intros j j' Hj Hj'. destruct j as [|j]; [lia|]. destruct j' as [|j']; [lia|].
    rewrite !lift_lookup by lia. intros Heq _. f_equal.
    apply (NoDup_lookup σ j j' (σ !!! j)); [done|..].
    + apply list_lookup_lookup_total_lt; lia.
    + replace (σ !!! j) with (σ !!! j') by lia.
      apply list_lookup_lookup_total_lt; lia.
  - intros r Hr. assert (r - 1 ∈ σ) as Hin.
    { rewrite Hp. apply elem_of_seq. lia. }
    apply list_elem_of_lookup_1 in Hin as [j Hj].
    pose proof (lookup_lt_Some _ _ _ Hj).
    exists (S j). split; [lia|]. rewrite lift_lookup by lia.
    rewrite (list_lookup_total_correct _ _ _ Hj). lia.
Qed.

(** The assignment, counted from 0, held in a full matching of the
    square. *)
Definition lower (N : nat) (ps : list nat) : list nat :=
  (λ j, ps !!! S j - 1) <$> seq 0 N.

Lemma lower_length N ps : length (lower N ps) = N.
Proof. unfold lower. by rewrite length_fmap, length_seq. Qed.

Lemma lower_lookup N ps j : j < N → lower N ps !!! j = ps !!! S j - 1.
Proof.
  intros Hj. unfold lower.
  rewrite list_lookup_total_alt, list_lookup_fmap, lookup_seq_lt by lia. done.
Qed.

Lemma lower_perm N ps : matching N N ps → lower N ps ≡ₚ seq 0 N.
Proof.
  intros Hm. unfold lower.
  pose proof (matching_perm N ps Hm) as Hp.
  assert ((λ j, ps !!! S j - 1) <$> seq 0 N
          = Nat.pred <$> ((λ j, ps !!! j) <$> seq 1 N)) as ->.
  { rewrite <- (fmap_S_seq 0 N), <- !list_fmap_compose.
    apply list_fmap_ext. intros i x _. simpl. lia. }
  rewrite Hp, <- (fmap_S_seq 0 N), <- list_fmap_compose.
  rewrite (list_fmap_ext _ id (seq 0 N)); [by rewrite list_fmap_id|].
  intros i x _. done.
Qed.

Lemma padded_range (n m : nat) (cost : list (list Q)) (lo hi : Q) (i j : nat) :
  in_range lo hi n m cost → (n ≠ m → (lo <= PAD <= hi)%Q) →
  1 ≤ i ≤ n `max` m → 1 ≤ j ≤ n `max` m →
  (lo <= (pad_matrix (n `max` m) (Z.of_nat n) (Z.of_nat m) cost !!! i) !!! j <= hi)%Q.
Proof.
  intros Hin Hpad Hi Hj. rewrite pad_matrix_lookup by lia.
  unfold pad_cell. case_bool_decide as Hc.
  - apply Hin; lia.
  - apply Hpad. lia.
Qed.

(** On a square matrix the matchings of the padded square are the
    assignments, at the same cost. *)
Lemma square_cost_assignment (N : nat) (cost : list (list Q)) (σ τ : list nat) :
  length σ = N → (∀ j, j < N → σ !!! j < N) →
  (∀ j, j < N → τ !!! S j = S (σ !!! j)) →
  (square_cost N (pad_matrix N (Z.of_nat N) (Z.of_nat N) cost) τ
   == assignment_cost cost σ)%Q.
Proof.
  intros Hlen Hσ Hτ. unfold square_cost, assignment_cost.
  rewrite Hlen, <- (fmap_S_seq 0 N), <- list_fmap_compose.
  apply Qsum_fmap_eq. intros j Hj. apply elem_of_seq in Hj. simpl.
  rewrite Hτ by lia. specialize (Hσ j ltac:(lia)).
  rewrite pad_matrix_lookup by lia. unfold pad_cell.
  rewrite bool_decide_eq_true_2 by lia.
  replace (S (σ !!! j) - 1) with (σ !!! j) by lia.
  replace (S j - 1) with j by lia. reflexivity.
Qed.

Lemma total_square (N : nat) (cost : list (list Q)) (ps : list nat) :
  matching N N ps →
  (total N (Z.of_nat N) (Z.of_nat N) cost ps
   == square_cost N (pad_matrix N (Z.of_nat N) (Z.of_nat N) cost) ps)%Q.
Proof.
  intros Hm. rewrite total_sum. unfold square_cost.
  apply Qsum_fmap_eq. intros j Hj. apply elem_of_seq in Hj.
  pose proof (matching_full N ps j Hm ltac:(lia)).
  unfold cell_value. rewrite bool_decide_eq_true_2 by lia.
  rewrite pad_matrix_lookup by lia. unfold pad_cell.
  rewrite bool_decide_eq_true_2 by lia. reflexivity.
Qed.

Lemma answer_lower (N : nat) (ps : list nat) :
  matching N N ps →
  answer (Z.of_nat N) ps <$> seq 0 N = Z.of_nat <$> lower N ps.
Proof.
  intros Hm. unfold lower. rewrite <- list_fmap_compose.
  apply list_fmap_ext. intros i j Hj. apply lookup_seq in Hj as [-> Hj].
  pose proof (matching_full N ps (S i) Hm ltac:(lia)).
  change (0 + i) with i. unfold answer, compose.
  rewrite bool_decide_eq_true_2 by lia. lia.
Qed.

(** The run of [hungarian] on a matrix within range: it returns with fuel
    [N = max n m], and its matching is a cheapest one of the padded
    square. *)
Lemma hungarian_run (n m : nat) (cost : list (list Q)) (lo hi : Q)
    (out0 : list Z) (fuel : nat) :
  let N := n `max` m in
  let a := pad_matrix N (Z.of_nat n) (Z.of_nat m) cost in
  in_range lo hi n m cost → (n ≠ m → (lo <= PAD <= hi)%Q) → narrow N lo hi →
  N ≤ fuel →
  ∃ st, solve fuel N a = Some st ∧ outer_inv N a lo hi N st ∧
        (∀ ps, matching N N ps → (square_cost N a (p st) <= square_cost N a ps)%Q) ∧
        hungarian fuel (Z.of_nat n) (Z.of_nat m) cost out0
        = Some (total N (Z.of_nat n) (Z.of_nat m) cost (p st),
                write_matches (Z.of_nat n) (Z.of_nat m) (p st) out0).
Proof.
  intros N a Hin Hpad [Hr1 Hr2] Hfuel.
  destruct (solve_optimal N a lo hi) with (fuel := fuel) as (st & Hs & Hinv & Hopt);
    [|done..|].
  { intros i j Hi Hj. by apply padded_range. }
  exists st. split_and!; [done..|].
  unfold hungarian.
  replace (Z.to_nat (Z.of_nat n `max` Z.of_nat m)) with N by (unfold N; lia).
  fold a. rewrite Hs. done.
Qed.

(** * Binary64

    The program computes in [double].  On integers of at most 53 bits the
    additions, subtractions and comparisons of binary64 are exact; this part
    proves it from the specification of the primitive floats, and then
    follows the solver through a run on a matrix of such integers. *)

(** ** Exact operations on integers *)

Section Binary64.
Local Open Scope Z_scope.

Lemma digits_log2 (p : positive) :
  Z.pos (digits2_pos p) = Z.log2 (Z.pos p) + 1.
Proof.
  assert (∀ q, digits2_pos q = Pos.size q) as Hsize.
  { induction q as [q IH|q IH|]; simpl; by rewrite ?IH. }
  destruct p as [p|p|]; simpl; rewrite ?Hsize; lia.
Qed.

Lemma digits_bounds (p : positive) :
  2 ^ (Z.pos (digits2_pos p) - 1) ≤ Z.pos p < 2 ^ Z.pos (digits2_pos p).
Proof.
  rewrite digits_log2.
  pose proof (Z.log2_spec (Z.pos p) ltac:(lia)) as H.
  replace (Z.log2 (Z.pos p) + 1 - 1) with (Z.log2 (Z.pos p)) by lia.
  replace (Z.log2 (Z.pos p) + 1) with (Z.succ (Z.log2 (Z.pos p))) by lia.
  exact H.
Qed.

Lemma digits_unique (p : positive) (d : Z) :
  2 ^ (d - 1) ≤ Z.pos p < 2 ^ d → Z.pos (digits2_pos p) = d.
Proof.
  intros H. rewrite digits_log2.
  assert (0 < d) as Hd.
  { destruct (Z_lt_le_dec 0 d) as [|Hn]; [done|exfalso].
    destruct (Z.eq_dec d 0) as [->|Hne]; [simpl in H; lia|].
    rewrite (Z.pow_neg_r 2 d) in H by lia. lia. }
  rewrite (Z.log2_unique (Z.pos p) (d - 1)); [lia|lia|].
  replace (Z.succ (d - 1)) with d by lia. exact H.
Qed.

Lemma pos_iter_xO (m d : positive) :
  Z.pos (Pos.iter xO m d) = Z.pos m * 2 ^ Z.pos d.
Proof.
  induction d as [|d IH] using Pos.peano_ind.
  - simpl. lia.
  - rewrite Pos.iter_succ, Pos2Z.inj_succ, Z.pow_succ_r by lia.
    rewrite Pos2Z.inj_xO, IH. lia.
Qed.

Lemma iter_pos_eq {A : Type} (f : A → A) (n : positive) (x : A) :
  SpecFloat.iter_pos f n x = Pos.iter f x n.
Proof.
  revert x. induction n as [n IH|n IH|]; intros x; simpl.
  - rewrite !IH. by rewrite <- !Pos.iter_swap.
  - by rewrite !IH.
  - done.
Qed.

Lemma shr_exact (n K : positive) :
  SpecFloat.iter_pos shr_1 n {| shr_m := Z.pos K * 2 ^ Z.pos n; shr_r := false; shr_s := false |}
  = {| shr_m := Z.pos K; shr_r := false; shr_s := false |}.
Proof.
  rewrite iter_pos_eq.
  induction n as [|n IH] using Pos.peano_ind.
  - replace (Z.pos K * 2 ^ 1) with (Z.pos (K~0)) by lia. reflexivity.
  - rewrite Pos.iter_succ_r, Pos2Z.inj_succ, Z.pow_succ_r by lia.
    rewrite <- IH. f_equal.
    assert (0 < Z.pos K * 2 ^ Z.pos n) as Hpos by (apply Z.mul_pos_pos; lia).
    destruct (Z.pos K * 2 ^ Z.pos n) as [|q|q] eqn:E; try lia.
    replace (Z.pos K * (2 * 2 ^ Z.pos n)) with (2 * (Z.pos K * 2 ^ Z.pos n)) by ring.
    rewrite E. reflexivity.
Qed.


(** Rounding a mantissa and exponent whose value fits in 53 bits changes
    nothing but the representation. *)
Lemma binary_round_exact (s : bool) (M K : positive) (e f : Z) :
  Z.pos (digits2_pos K) = 53 → -1074 ≤ f ≤ 971 →
  (f ≤ e ∧ Z.pos K = Z.pos M * 2 ^ (e - f)) ∨
  (e < f ∧ Z.pos M = Z.pos K * 2 ^ (f - e)) →
  binary_round prec emax s M e = S754_finite s K f.
Proof.
  intros HK Hf Hrel.
  assert (Z.pos (digits2_pos M) + e = 53 + f) as Hdig.
  { pose proof (digits_bounds K) as HbK. rewrite HK in HbK.
    assert (Z.pos (digits2_pos M) = 53 + f - e); [|lia].
    apply digits_unique.
    destruct Hrel as [[Hle HKM]|[Hlt HMK]].
    - set (t := e - f) in *.
      assert (0 < 2 ^ t) as HX by (apply Z.pow_pos_nonneg; lia).
      assert (t ≤ 52) as Ht.
      { destruct (Z_le_gt_dec t 52) as [|Hgt]; [done|exfalso].
        assert (2 ^ 53 ≤ 2 ^ t) by (apply Z.pow_le_mono_r; lia). nia. }
      assert (2 ^ 52 = 2 ^ (52 - t) * 2 ^ t) as E52
        by (rewrite <- Z.pow_add_r by lia; f_equal; lia).
      assert (2 ^ 53 = 2 * (2 ^ (52 - t) * 2 ^ t)) as E53
        by (rewrite <- E52; reflexivity).
      assert (0 < 2 ^ (52 - t)) as HY by (apply Z.pow_pos_nonneg; lia).
      replace (53 + f - e - 1) with (52 - t) by lia.
      replace (53 + f - e) with (Z.succ (52 - t)) by lia.
      rewrite Z.pow_succ_r by lia. nia.
    - set (t := f - e) in *.
      assert (0 < 2 ^ t) as HX by (apply Z.pow_pos_nonneg; lia).
      replace (53 + f - e - 1) with (52 + t) by lia.
      replace (53 + f - e) with (53 + t) by lia.
      rewrite !Z.pow_add_r by lia. rewrite HMK. nia. }
  assert (fexp prec emax (Z.pos (digits2_pos M) + e) = f) as Hfexp.
  { unfold fexp, SpecFloat.emin, prec, emax. rewrite Hdig. lia. }
  assert (binary_round_aux prec emax s (Z.pos K) f loc_Exact = S754_finite s K f)
    as Haux.
  { unfold binary_round_aux, shr_fexp. cbn [Zdigits2].
    assert (fexp prec emax (Z.pos (digits2_pos K) + f) - f = 0) as ->.
    { unfold fexp, SpecFloat.emin, prec, emax. rewrite HK. lia. }
    cbn [shr shr_record_of_loc shr_m loc_of_shr_record round_nearest_even Zdigits2].
    assert (fexp prec emax (Z.pos (digits2_pos K) + f) - f = 0) as ->.
    { unfold fexp, SpecFloat.emin, prec, emax. rewrite HK. lia. }
    cbn [shr shr_record_of_loc shr_m].
    unfold prec, emax. rewrite Zle_imp_le_bool by lia. done. }
  unfold binary_round. rewrite Hfexp.
  destruct Hrel as [[Hle HKM]|[Hlt HMK]].
  - unfold shl_align. destruct (f - e) as [|d|d] eqn:Hd; try lia.
    + assert (e = f) as -> by lia. rewrite Z.sub_diag, Z.mul_1_r in HKM.
      injection HKM as <-. exact Haux.
    + assert (Pos.iter xO M d = K) as ->; [|exact Haux].
      apply Pos2Z.inj. rewrite pos_iter_xO, HKM. f_equal. f_equal. lia.
  - unfold shl_align. destruct (f - e) as [|d|d] eqn:Hd; try lia.
    unfold binary_round_aux, shr_fexp. cbn [Zdigits2]. rewrite Hfexp, Hd.
    cbn [shr shr_record_of_loc]. rewrite HMK, shr_exact.
    cbn [shr_m loc_of_shr_record round_nearest_even].
    replace (e + Z.pos d) with f by lia.
    assert (fexp prec emax (Zdigits2 (Z.pos K) + f) - f = 0) as ->.
    { cbn [Zdigits2]. unfold fexp, SpecFloat.emin, prec, emax. rewrite HK. lia. }
    cbn [shr shr_record_of_loc shr_m].
    unfold prec, emax. rewrite Zle_imp_le_bool by lia. done.
Qed.


(** The canonical binary64 form of an integer of at most 53 bits:
    [mant z * 2 ^ expo z = |z|] with a mantissa of 53 bits. *)
Definition expo (z : Z) : Z := Z.log2 (Z.abs z) - 52.

Definition mant (z : Z) : positive := Z.to_pos (Z.abs z * 2 ^ (- expo z)).

Definition canon (z : Z) : spec_float :=
  if Z.eqb z 0 then S754_zero false
  else S754_finite (Z.ltb z 0) (mant z) (expo z).

Definition small (z : Z) : Prop := Z.abs z < 2 ^ 53.

Lemma expo_range (z : Z) : z ≠ 0 → small z → -52 ≤ expo z ≤ 0.
Proof.
  intros Hz Hs. unfold expo, small in *.
  pose proof (Z.log2_nonneg (Z.abs z)).
  assert (Z.log2 (Z.abs z) < 53); [|lia].
  apply Z.log2_lt_pow2; lia.
Qed.

Lemma mant_value (z : Z) :
  z ≠ 0 → small z → Z.pos (mant z) = Z.abs z * 2 ^ (- expo z).
Proof.
  intros Hz Hs. pose proof (expo_range z Hz Hs). unfold mant.
  rewrite Z2Pos.id; [done|]. apply Z.mul_pos_pos; [lia|].
  apply Z.pow_pos_nonneg; lia.
Qed.

Lemma mant_digits (z : Z) :
  z ≠ 0 → small z → Z.pos (digits2_pos (mant z)) = 53.
Proof.
  intros Hz Hs. pose proof (expo_range z Hz Hs) as He.
  apply digits_unique. rewrite (mant_value z Hz Hs).
  pose proof (Z.log2_spec (Z.abs z) ltac:(lia)) as Hl.
  unfold expo in *. set (l := Z.log2 (Z.abs z)) in *.
  replace (- (l - 52)) with (52 - l) by lia.
  assert (0 < 2 ^ (52 - l)) by (apply Z.pow_pos_nonneg; lia).
  assert (2 ^ (53 - 1) = 2 ^ l * 2 ^ (52 - l)) as ->
    by (rewrite <- Z.pow_add_r by lia; f_equal; lia).
  assert (2 ^ 53 = 2 ^ Z.succ l * 2 ^ (52 - l)) as ->
    by (rewrite <- Z.pow_add_r by lia; f_equal; lia).
  nia.
Qed.

Lemma canon_valid (z : Z) : small z → valid_binary (canon z) = true.
Proof.
  intros Hs. unfold canon. destruct (Z.eqb_spec z 0) as [|Hz]; [done|].
  pose proof (expo_range z Hz Hs).
  unfold SpecFloat.valid_binary, bounded, canonical_mantissa.
  rewrite (mant_digits z Hz Hs).
  unfold fexp, SpecFloat.emin, prec, emax.
  apply andb_true_iff. split; [apply Z.eqb_eq|apply Z.leb_le]; lia.
Qed.

(** Normalising any mantissa and exponent that stand for [z]. *)
Lemma normalize_canon (M e z : Z) :
  z ≠ 0 → small z → e ≤ 0 → M = z * 2 ^ (- e) →
  binary_normalize prec emax M e false = canon z.
Proof.
  intros Hz Hs He HM.
  pose proof (expo_range z Hz Hs) as Hf.
  pose proof (mant_value z Hz Hs) as Hm.
  pose proof (mant_digits z Hz Hs) as Hd.
  assert (0 < 2 ^ (- e)) as HX by (apply Z.pow_pos_nonneg; lia).
  assert (∀ s m, Z.pos m = Z.abs z * 2 ^ (- e) →
                 binary_round prec emax s m e = S754_finite s (mant z) (expo z))
    as Hround.
  { intros s m Hme. apply binary_round_exact; [done|lia|].
    destruct (Z_le_gt_dec (expo z) e) as [Hle|Hgt]; [left|right].
    - split; [done|]. rewrite Hm, Hme, <- Z.mul_assoc, <- Z.pow_add_r by lia.
      do 2 f_equal. lia.
    - split; [lia|]. rewrite Hm, Hme, <- Z.mul_assoc, <- Z.pow_add_r by lia.
      do 2 f_equal. lia. }
  unfold canon. rewrite (proj2 (Z.eqb_neq z 0) Hz).
  unfold binary_normalize. destruct M as [|m|m].
  - nia.
  - assert (0 < z) by nia. rewrite (proj2 (Z.ltb_ge z 0)) by lia.
    apply Hround. rewrite Z.abs_eq by lia. done.
  - assert (z < 0) by nia. rewrite (proj2 (Z.ltb_lt z 0)) by lia.
    apply Hround. rewrite Z.abs_neq by lia. lia.
Qed.


Lemma align_value (z ez : Z) :
  z ≠ 0 → small z → ez ≤ expo z →
  Z.pos (shl_align (mant z) (expo z) ez).1 = Z.abs z * 2 ^ (- ez).
Proof.
  intros Hz Hs Hez. pose proof (expo_range z Hz Hs) as Hf.
  pose proof (mant_value z Hz Hs) as Hm.
  unfold shl_align. destruct (ez - expo z) as [|d|d] eqn:Hd; try lia; cbn [fst].
  - assert (ez = expo z) as -> by lia. done.
  - rewrite pos_iter_xO, Hm, <- Z.mul_assoc, <- Z.pow_add_r by lia.
    do 2 f_equal. lia.
Qed.

Lemma signed_value (z x : Z) : z ≠ 0 → cond_Zopp (Z.ltb z 0) (Z.abs z * x) = z * x.
Proof.
  intros Hz. unfold cond_Zopp. destruct (Z.ltb_spec z 0).
  - rewrite Z.abs_neq by lia. lia.
  - rewrite Z.abs_eq by lia. done.
Qed.

Lemma canon_opp (z : Z) : z ≠ 0 → SFopp (canon z) = canon (- z).
Proof.
  intros Hz. unfold canon, mant, expo.
  rewrite (proj2 (Z.eqb_neq z 0) Hz), (proj2 (Z.eqb_neq (- z) 0)) by lia.
  cbn [SFopp]. rewrite Z.abs_opp. f_equal.
  destruct (Z.ltb_spec z 0), (Z.ltb_spec (- z) 0); simpl; try done; lia.
Qed.

(** Addition and subtraction are exact as long as the result has at most
    53 bits. *)
Lemma canon_add (a b : Z) :
  small a → small b → small (a + b) →
  SFadd prec emax (canon a) (canon b) = canon (a + b).
Proof.
  intros Ha Hb Hab.
  destruct (Z.eq_dec a 0) as [->|Hna].
  { rewrite Z.add_0_l. change (canon 0) with (S754_zero false).
    unfold canon. destruct (Z.eqb b 0); reflexivity. }
  destruct (Z.eq_dec b 0) as [->|Hnb].
  { rewrite Z.add_0_r. change (canon 0) with (S754_zero false).
    unfold canon. rewrite (proj2 (Z.eqb_neq a 0) Hna). reflexivity. }
  pose proof (expo_range a Hna Ha). pose proof (expo_range b Hnb Hb).
  unfold canon at 1 2.
  rewrite (proj2 (Z.eqb_neq a 0) Hna), (proj2 (Z.eqb_neq b 0) Hnb).
  cbn [SFadd].
  set (ez := Z.min (expo a) (expo b)).
  rewrite (align_value a ez Hna Ha) by lia.
  rewrite (align_value b ez Hnb Hb) by lia.
  rewrite !signed_value by done. rewrite <- Z.mul_add_distr_r.
  destruct (Z.eq_dec (a + b) 0) as [E|Hne].
  - rewrite E. simpl. reflexivity.
  - apply normalize_canon; [done|done|lia|done].
Qed.

Lemma canon_sub (a b : Z) :
  small a → small b → small (a - b) →
  SFsub prec emax (canon a) (canon b) = canon (a - b).
Proof.
  intros Ha Hb Hab.
  destruct (Z.eq_dec b 0) as [->|Hnb].
  { rewrite Z.sub_0_r. change (canon 0) with (S754_zero false).
    unfold canon. destruct (Z.eqb a 0); reflexivity. }
  destruct (Z.eq_dec a 0) as [->|Hna].
  { rewrite Z.sub_0_l, <- (canon_opp b Hnb). change (canon 0) with (S754_zero false).
    unfold canon. rewrite (proj2 (Z.eqb_neq b 0) Hnb). reflexivity. }
  pose proof (expo_range a Hna Ha). pose proof (expo_range b Hnb Hb).
  unfold canon at 1 2.
  rewrite (proj2 (Z.eqb_neq a 0) Hna), (proj2 (Z.eqb_neq b 0) Hnb).
  cbn [SFsub].
  set (ez := Z.min (expo a) (expo b)).
  rewrite (align_value a ez Hna Ha) by lia.
  rewrite (align_value b ez Hnb Hb) by lia.
  rewrite !signed_value by done. rewrite <- Z.mul_sub_distr_r.
  destruct (Z.eq_dec (a - b) 0) as [E|Hne].
  - rewrite E. simpl. reflexivity.
  - apply normalize_canon; [done|done|lia|done].
Qed.


Lemma expo_lt (a b : Z) : 0 < a → 0 < b → expo a < expo b → a < b.
Proof.
  intros Ha Hb He. unfold expo in He. rewrite !Z.abs_eq in He by lia.
  apply Z.log2_lt_cancel. lia.
Qed.

Lemma mant_compare (a b : Z) :
  0 < a → 0 < b → small a → small b → expo a = expo b →
  Pos.compare_cont Eq (mant a) (mant b) = (a ?= b).
Proof.
  intros Ha Hb Hsa Hsb He.
  pose proof (expo_range a ltac:(lia) Hsa).
  change (Pos.compare_cont Eq (mant a) (mant b))
    with (Z.pos (mant a) ?= Z.pos (mant b)).
  rewrite !mant_value, !Z.abs_eq, He by (done || lia).
  symmetry. apply Zmult_compare_compat_r.
  apply Z.lt_gt, Z.pow_pos_nonneg; lia.
Qed.

(** The order of the canonical forms is the order of the integers. *)
Lemma canon_compare (a b : Z) :
  small a → small b → SFcompare (canon a) (canon b) = Some (a ?= b).
Proof.
  intros Ha Hb. unfold canon.
  destruct (Z.eqb_spec a 0) as [->|Hna], (Z.eqb_spec b 0) as [->|Hnb];
    cbn [SFcompare].
  - done.
  - f_equal. destruct (Z.ltb_spec b 0); symmetry;
      [apply Z.compare_gt_iff|apply Z.compare_lt_iff]; lia.
  - f_equal. destruct (Z.ltb_spec a 0); symmetry;
      [apply Z.compare_lt_iff|apply Z.compare_gt_iff]; lia.
  - f_equal.
    destruct (Z.ltb_spec a 0) as [Hla|Hla], (Z.ltb_spec b 0) as [Hlb|Hlb].
    + assert (expo a = expo (- a)) as Ea by (unfold expo; by rewrite Z.abs_opp).
      assert (expo b = expo (- b)) as Eb by (unfold expo; by rewrite Z.abs_opp).
      assert (mant a = mant (- a)) as Ma
        by (unfold mant, expo; by rewrite Z.abs_opp).
      assert (mant b = mant (- b)) as Mb
        by (unfold mant, expo; by rewrite Z.abs_opp).
      assert (small (- a)) by (unfold small in *; by rewrite Z.abs_opp).
      assert (small (- b)) by (unfold small in *; by rewrite Z.abs_opp).
      rewrite Ea, Eb, Ma, Mb.
      destruct (Z.compare_spec (expo (- a)) (expo (- b))) as [He|He|He].
      * rewrite mant_compare by (done || lia).
        rewrite Z.compare_opp. symmetry. apply Z.compare_antisym.
      * symmetry. apply Z.compare_gt_iff.
        pose proof (expo_lt (- a) (- b) ltac:(lia) ltac:(lia) He). lia.
      * symmetry. apply Z.compare_lt_iff.
        pose proof (expo_lt (- b) (- a) ltac:(lia) ltac:(lia) He). lia.
    + symmetry. apply Z.compare_lt_iff. lia.
    + symmetry. apply Z.compare_gt_iff. lia.
    + destruct (Z.compare_spec (expo a) (expo b)) as [He|He|He].
      * apply mant_compare; (done || lia).
      * symmetry. apply Z.compare_lt_iff. apply expo_lt; lia.
      * symmetry. apply Z.compare_gt_iff. apply expo_lt; lia.
Qed.

Lemma canon_ltb (a b : Z) :
  small a → small b → SFltb (canon a) (canon b) = Z.ltb a b.
Proof.
  intros Ha Hb. unfold SFltb, Z.ltb. rewrite (canon_compare a b Ha Hb).
  by destruct (a ?= b).
Qed.

Lemma canon_leb (a b : Z) :
  small a → small b → SFleb (canon a) (canon b) = Z.leb a b.
Proof.
  intros Ha Hb. unfold SFleb, Z.leb. rewrite (canon_compare a b Ha Hb).
  by destruct (a ?= b).
Qed.

Lemma canon_eqb (a b : Z) :
  small a → small b → SFeqb (canon a) (canon b) = Z.eqb a b.
Proof.
  intros Ha Hb. unfold SFeqb. rewrite (canon_compare a b Ha Hb).
  destruct (Z.compare_spec a b) as [->|Hlt|Hgt].
  - by rewrite Z.eqb_refl.
  - symmetry. apply Z.eqb_neq. lia.
  - symmetry. apply Z.eqb_neq. lia.
Qed.

(** The number that a finite double stands for: [m 2^e], signed. *)
Definition SF2Q (x : spec_float) : option Q :=
  match x with
  | S754_zero _ => Some 0%Q
  | S754_finite s m e =>
      Some (if Z.leb 0 e
            then inject_Z (cond_Zopp s (Z.pos m) * 2 ^ e)
            else Qmake (cond_Zopp s (Z.pos m)) (Z.to_pos (2 ^ (- e))))
  | _ => None
  end.

Lemma canon_value (z : Z) :
  small z → ∃ q, SF2Q (canon z) = Some q ∧ Qeq q (inject_Z z).
Proof.
  intros Hs. unfold canon. destruct (Z.eqb_spec z 0) as [->|Hnz].
  - exists 0%Q. split; reflexivity.
  - eexists. split; [reflexivity|].
    pose proof (expo_range z Hnz Hs) as He.
    pose proof (mant_value z Hnz Hs) as Hm.
    assert (cond_Zopp (z <? 0) (Z.pos (mant z)) = z * 2 ^ (- expo z)) as Hv.
    { rewrite Hm. by apply signed_value. }
    destruct (Z.leb_spec 0 (expo z)) as [Hle|Hlt].
    + assert (expo z = 0) as E by lia. rewrite Hv, E. simpl.
      rewrite Z.mul_1_r. by rewrite Z.mul_1_r.
    + rewrite Hv. unfold Qeq, inject_Z. cbn [Qnum Qden].
      rewrite Z2Pos.id by (apply Z.pow_pos_nonneg; lia). lia.
Qed.

(** The number that the double [f] stands for; 0 for the infinities and for
    not-a-number. *)
Definition float_value (f : float) : Q := default 0%Q (SF2Q (Prim2SF f)).

(** A matrix of doubles, read as the matrix of the numbers they stand
    for. *)
Definition exact_values (c : list (list float)) : list (list Q) :=
  (λ row : list float, float_value <$> row) <$> c.

(** The double nearest to an integer of at most 53 bits is that integer. *)
Definition fz (z : Z) : float := SF2Prim (canon z).

(** [fz z] is a finite double, and the number it stands for is [z]. *)
Lemma fz_value (z : Z) :
  small z → ∃ q, SF2Q (Prim2SF (fz z)) = Some q ∧ Qeq q (inject_Z z).
Proof.
  intros Hs. unfold fz. rewrite Prim2SF_SF2Prim by (by apply canon_valid).
  by apply canon_value.
Qed.

Lemma Prim2SF_fz (z : Z) : small z → Prim2SF (fz z) = canon z.
Proof. intros Hs. apply Prim2SF_SF2Prim. by apply canon_valid. Qed.

Lemma fz_add (a b : Z) :
  small a → small b → small (a + b) → (fz a + fz b)%float = fz (a + b).
Proof.
  intros Ha Hb Hab. apply Prim2SF_inj.
  rewrite FloatAxioms.add_spec, !Prim2SF_fz by done. by apply canon_add.
Qed.

Lemma fz_sub (a b : Z) :
  small a → small b → small (a - b) → (fz a - fz b)%float = fz (a - b).
Proof.
  intros Ha Hb Hab. apply Prim2SF_inj.
  rewrite FloatAxioms.sub_spec, !Prim2SF_fz by done. by apply canon_sub.
Qed.

Lemma fz_ltb (a b : Z) :
  small a → small b → (fz a <? fz b)%float = Z.ltb a b.
Proof.
  intros Ha Hb. rewrite FloatAxioms.ltb_spec, !Prim2SF_fz by done. by apply canon_ltb.
Qed.

Lemma fz_leb (a b : Z) :
  small a → small b → (fz a <=? fz b)%float = Z.leb a b.
Proof.
  intros Ha Hb. rewrite FloatAxioms.leb_spec, !Prim2SF_fz by done. by apply canon_leb.
Qed.

Lemma fz_eqb (a b : Z) :
  small a → small b → (fz a =? fz b)%float = Z.eqb a b.
Proof.
  intros Ha Hb. rewrite FloatAxioms.eqb_spec, !Prim2SF_fz by done. by apply canon_eqb.
Qed.

Lemma fz_below_inf (a : Z) :
  small a → (fz a <? 1e18)%float = true ∧ (1e18 <? fz a)%float = false.
Proof.
  intros Ha. rewrite !FloatAxioms.ltb_spec, Prim2SF_fz by done.
  assert (Prim2SF 1e18 = S754_finite false 7812500000000000 7) as ->
    by (vm_compute; reflexivity).
  unfold canon. destruct (Z.eqb_spec a 0) as [->|Hna]; [done|].
  pose proof (expo_range a Hna Ha).
  unfold SFltb. cbn [SFcompare].
  destruct (Z.ltb a 0); [done|].
  destruct (Z.compare_spec (expo a) 7), (Z.compare_spec 7 (expo a)); try lia; done.
Qed.

Lemma inf_not_below_inf : (1e18 <? 1e18)%float = false.
Proof. vm_compute. reflexivity. Qed.

(** [fz] is the conversion of an integer to [double]: on the machine
    integers below [2^53] it is the primitive conversion. *)
Lemma fz_of_uint63 (n : int) :
  Uint63.to_Z n < 2 ^ 53 → of_uint63 n = fz (Uint63.to_Z n).
Proof.
  intros Hn. pose proof (Uint63.to_Z_bounded n) as [H0 _].
  assert (small (Uint63.to_Z n)) as Hs by (unfold small; lia).
  apply Prim2SF_inj. rewrite of_uint63_spec, Prim2SF_fz by done.
  destruct (Z.eq_dec (Uint63.to_Z n) 0) as [E|E].
  - change (Uint63Axioms.to_Z n) with (Uint63.to_Z n). rewrite E. reflexivity.
  - apply normalize_canon; [done|done|lia|].
    change (2 ^ (- 0)) with 1. change (Uint63Axioms.to_Z n) with (Uint63.to_Z n). lia.
Qed.

End Binary64.

(** ** The exact run and the binary64 run on integer costs *)

(** [f] is the double of an integer of at most 53 bits, and [q] is that
    integer. *)
Definition same_int (f : float) (q : Q) : Prop :=
  ∃ z, small z ∧ f = fz z ∧ q = inject_Z z.

(** The same, or both are [INF]. *)
Definition same_or_inf (f : float) (q : Q) : Prop :=
  same_int f q ∨ (f = num_inf ∧ q = num_inf).

(** [q] lies in [[-b, b]]. *)
Definition within (b : Z) (q : Q) : Prop :=
  (inject_Z (- b) <= q <= inject_Z b)%Q.

Lemma inject_Z_add_eq (x y : Z) : (inject_Z x + inject_Z y)%Q = inject_Z (x + y).
Proof. unfold Qplus, inject_Z. simpl. f_equal. lia. Qed.

Lemma inject_Z_sub_eq (x y : Z) : (inject_Z x - inject_Z y)%Q = inject_Z (x - y).
Proof. unfold Qminus, Qplus, Qopp, inject_Z. simpl. f_equal. lia. Qed.

Lemma inject_Z_mul_eq (x y : Z) : (inject_Z x * inject_Z y)%Q = inject_Z (x * y).
Proof. reflexivity. Qed.

Lemma within_small (b z : Z) :
  within b (inject_Z z) → (b < 2 ^ 53)%Z → small z.
Proof.
  intros [H1 H2] Hb. rewrite <- Zle_Qle in H1, H2. unfold small. lia.
Qed.

Lemma same_int_zero : same_int num_zero num_zero.
Proof. exists 0%Z. split_and!; [unfold small; simpl; lia|done|done]. Qed.

Lemma same_or_inf_inf : same_or_inf num_inf num_inf.
Proof. by right. Qed.

Lemma same_int_add (b : Z) (f1 f2 : float) (q1 q2 : Q) :
  same_int f1 q1 → same_int f2 q2 → within b (q1 + q2)%Q → (b < 2 ^ 53)%Z →
  same_int (num_add f1 f2) (num_add q1 q2).
Proof.
  intros (z1 & Hs1 & -> & ->) (z2 & Hs2 & -> & ->) Hw Hb.
  cbn [num_add Q_num float_num] in *. rewrite inject_Z_add_eq in *.
  pose proof (within_small _ _ Hw Hb) as Hs.
  exists (z1 + z2)%Z. split_and!; [done| |done]. by apply fz_add.
Qed.

Lemma same_int_sub (b : Z) (f1 f2 : float) (q1 q2 : Q) :
  same_int f1 q1 → same_int f2 q2 → within b (q1 - q2)%Q → (b < 2 ^ 53)%Z →
  same_int (num_sub f1 f2) (num_sub q1 q2).
Proof.
  intros (z1 & Hs1 & -> & ->) (z2 & Hs2 & -> & ->) Hw Hb.
  cbn [num_sub Q_num float_num] in *. rewrite inject_Z_sub_eq in *.
  pose proof (within_small _ _ Hw Hb) as Hs.
  exists (z1 - z2)%Z. split_and!; [done| |done]. by apply fz_sub.
Qed.

Lemma Qltb_inject (x y : Z) : Qltb (inject_Z x) (inject_Z y) = Z.ltb x y.
Proof.
  unfold Qltb, Qle_bool, inject_Z. simpl. rewrite !Z.mul_1_r.
  rewrite Z.ltb_antisym. done.
Qed.

Lemma same_or_inf_ltb (f1 f2 : float) (q1 q2 : Q) :
  same_or_inf f1 q1 → same_or_inf f2 q2 → num_ltb f1 f2 = num_ltb q1 q2.
Proof.
  assert (∀ z, small z → (z < 10 ^ 18)%Z) as Hlt.
  { intros z Hz. unfold small in Hz.
    assert (2 ^ 53 < 10 ^ 18)%Z by (vm_compute; reflexivity). lia. }
  intros [(z1 & Hs1 & -> & ->)|[-> ->]] [(z2 & Hs2 & -> & ->)|[-> ->]];
    cbn [num_ltb num_inf Q_num float_num].
  - rewrite Qltb_inject. by apply fz_ltb.
  - rewrite Qltb_inject, (proj1 (fz_below_inf z1 Hs1)).
    symmetry. apply Z.ltb_lt. by apply Hlt.
  - rewrite Qltb_inject, (proj2 (fz_below_inf z2 Hs2)).
    symmetry. apply Z.ltb_ge. specialize (Hlt z2 Hs2). lia.
  - rewrite Qltb_inject, inf_not_below_inf. symmetry. by apply Z.ltb_irrefl.
Qed.

Lemma same_or_inf_small (b : Z) (f : float) (q : Q) :
  same_or_inf f q → within b q → (b < 2 ^ 53)%Z → same_int f q.
Proof.
  intros [Hr|[-> ->]] [_ Hw] Hb; [done|exfalso].
  cbn [num_inf Q_num] in Hw. rewrite <- Zle_Qle in Hw.
  assert (2 ^ 53 < 10 ^ 18)%Z by (vm_compute; reflexivity). lia.
Qed.

Lemma same_int_leb (f1 f2 : float) (q1 q2 : Q) :
  same_int f1 q1 → same_int f2 q2 → (q1 <= q2)%Q → PrimFloat.leb f1 f2 = true.
Proof.
  intros (z1 & Hs1 & -> & ->) (z2 & Hs2 & -> & ->) Hle.
  rewrite <- Zle_Qle in Hle. rewrite fz_leb by done. by apply Z.leb_le.
Qed.

Lemma same_int_eqb (f1 f2 : float) (q1 q2 : Q) :
  same_int f1 q1 → same_int f2 q2 → (q1 == q2)%Q → PrimFloat.eqb f1 f2 = true.
Proof.
  intros (z1 & Hs1 & -> & ->) (z2 & Hs2 & -> & ->) Heq.
  apply (proj1 (inject_Z_injective z1 z2)) in Heq.
  rewrite fz_eqb by done. by apply Z.eqb_eq.
Qed.

(** ** How large the potentials get

    While a row is still to enter, some job is free; its potential is 0, and
    feasibility against it keeps every [u] of an entered row below [hi].
    All the numbers the search meets are then within a few multiples of the
    largest cost. *)

Section Magnitudes.
Variable N : nat.
Variable a : list (list Q).
Variables lo hi : Q.
Hypothesis a_range :
  ∀ i j, 1 ≤ i ≤ N → 1 ≤ j ≤ N → (lo <= (a !!! i) !!! j <= hi)%Q.
Hypothesis room_inf : (hi + room N (hi - lo) < INF)%Q.
Hypothesis room_gap : (room N (hi - lo) < INF)%Q.
Variable A : Q.
Hypothesis A_lo : (- A <= lo)%Q.
Hypothesis A_hi : (hi <= A)%Q.

(** The potentials of the rows and jobs [1..N] are within [A] and [2 A]. *)
Definition potentials_within (st : state Q) : Prop :=
  ∀ i, 1 ≤ i ≤ N →
    (- A <= u st !!! i <= A)%Q ∧ (- (2 * A) <= v st !!! i <= 0)%Q.

Lemma outer_potentials (k : nat) (st : state Q) :
  outer_inv N a lo hi k st → k < N → potentials_within st.
Proof.
  intros Hinv Hk.
  pose proof (r_match _ _ _ (o_rest _ _ _ _ _ _ Hinv)) as Hm.
  destruct (matching_free N k (p st) Hm Hk) as (jf & Hjf & Hpf).
  pose proof (o_vfree _ _ _ _ _ _ Hinv jf Hjf Hpf) as Hvf.
  assert (∀ i, 1 ≤ i ≤ k → (lo <= u st !!! i <= hi)%Q) as Hu.
  { intros i Hi. split.
    - destruct (m_surj _ _ _ Hm i Hi) as (j & Hj & Hpj).
      pose proof (o_tight _ _ _ _ _ _ Hinv j Hj ltac:(lia)) as Ht.
      rewrite Hpj in Ht. unfold sl in Ht.
      pose proof (o_vneg _ _ _ _ _ _ Hinv j Hj).
      pose proof (a_range i j ltac:(lia) Hj). qarith.
    - pose proof (o_feas _ _ _ _ _ _ Hinv i jf Hi Hjf) as Hf. unfold sl in Hf.
      pose proof (a_range i jf ltac:(lia) Hjf). qarith. }
  pose proof (a_range 1 1 ltac:(lia) ltac:(lia)) as H11.
  intros i Hi. split.
  - destruct (decide (i ≤ k)) as [Hik|Hik].
    + specialize (Hu i ltac:(lia)). lra.
    + pose proof (o_ufresh _ _ _ _ _ _ Hinv i ltac:(lia)). lra.
  - pose proof (o_vneg _ _ _ _ _ _ Hinv i Hi). split; [|done].
    destruct (decide (p st !!! i = 0)) as [Hz|Hnz].
    + pose proof (o_vfree _ _ _ _ _ _ Hinv i Hi Hz). lra.
    + pose proof (o_tight _ _ _ _ _ _ Hinv i Hi Hnz) as Ht. unfold sl in Ht.
      pose proof (m_range _ _ _ Hm i Hi) as Hr.
      specialize (Hu (p st !!! i) ltac:(lia)).
      pose proof (a_range (p st !!! i) i ltac:(lia) Hi). qarith.
Qed.

Lemma entered_potentials (k : nat) (st : state Q) :
  outer_inv N a lo hi k st → k < N → potentials_within (enter N (S k) st).
Proof. intros Hinv Hk. exact (outer_potentials k st Hinv Hk). Qed.

Lemma inner_potentials (k : nat) (st : state Q) :
  inner_inv N a lo hi k st → k < N → potentials_within st.
Proof.
  intros Hinv Hk.
  pose proof (i_match _ _ _ _ _ _ Hinv) as Hm.
  destruct (matching_free N k (p st) Hm Hk) as (jf & Hjf & Hpf).
  pose proof (i_vfree _ _ _ _ _ _ Hinv jf Hjf Hpf) as Hvf.
  assert (∀ i, 1 ≤ i ≤ S k → (lo <= u st !!! i <= hi)%Q) as Hu.
  { intros i Hi. split.
    - destruct (decide (i = S k)) as [->|Hne]; [apply Hinv|].
      destruct (m_surj _ _ _ Hm i ltac:(lia)) as (j & Hj & Hpj).
      pose proof (i_tight _ _ _ _ _ _ Hinv j Hj ltac:(lia)) as Ht.
      rewrite Hpj in Ht. unfold sl in Ht.
      pose proof (i_vneg _ _ _ _ _ _ Hinv j Hj).
      pose proof (a_range i j ltac:(lia) Hj). qarith.
    - pose proof (i_feas _ _ _ _ _ _ Hinv i jf Hi Hjf) as Hf. unfold sl in Hf.
      pose proof (a_range i jf ltac:(lia) Hjf). qarith. }
  pose proof (a_range 1 1 ltac:(lia) ltac:(lia)) as H11.
  intros i Hi. split.
  - destruct (decide (i ≤ S k)) as [Hik|Hik].
    + specialize (Hu i ltac:(lia)). lra.
    + pose proof (i_ufresh _ _ _ _ _ _ Hinv i ltac:(lia)). lra.
  - pose proof (i_vneg _ _ _ _ _ _ Hinv i Hi). split; [|done].
    destruct (decide (p st !!! i = 0)) as [Hz|Hnz].
    + pose proof (i_vfree _ _ _ _ _ _ Hinv i Hi Hz). lra.
    + pose proof (i_tight _ _ _ _ _ _ Hinv i Hi Hnz) as Ht. unfold sl in Ht.
      pose proof (m_range _ _ _ Hm i Hi) as Hr.
      specialize (Hu (p st !!! i) ltac:(lia)).
      pose proof (a_range (p st !!! i) i ltac:(lia) Hi). qarith.
Qed.

(** After the first loop of a round: [delta] and the [minv] of the unused
    jobs are slacks of tree rows, within [4 A]. *)
Lemma mid_magnitudes (k : nat) (sm : state Q) (delta : Q) :
  mid_inv N a lo hi k sm delta → k < N → potentials_within sm →
  (- (4 * A) <= delta <= 4 * A)%Q ∧
  ∀ j, 1 ≤ j ≤ N → used sm !!! j = false →
    (- (4 * A) <= minv sm !!! j <= 4 * A)%Q.
Proof.
  intros Hmid Hk Hpot.
  pose proof (m_ok _ _ _ _ _ _ _ Hmid) as Hok.
  assert (∀ j, 1 ≤ j ≤ N → used sm !!! j = false →
            (- (4 * A) <= minv sm !!! j <= 4 * A)%Q) as Hminv.
  { intros j Hj Hu.
    destruct (m_minv_way _ _ _ _ _ _ _ Hmid j Hj Hu) as [Hw He].
    assert (way sm !!! j ≤ N) as Hwr by (apply Hok; done).
    assert (1 ≤ p sm !!! (way sm !!! j) ≤ N) as Hrow.
    { split.
      - destruct (decide (way sm !!! j = 0)) as [Hz|Hnz].
        + rewrite Hz, (m_p0 _ _ _ _ _ _ _ Hmid). lia.
        + pose proof (m_usedm _ _ _ _ _ _ _ Hmid (way sm !!! j) ltac:(lia) Hw). lia.
      - apply (used_rows_range N k (p sm) (used sm));
          [exact (m_match _ _ _ _ _ _ _ Hmid)|exact (m_p0 _ _ _ _ _ _ _ Hmid)|
           done|done|done]. }
    unfold sl in He.
    destruct (Hpot _ Hrow) as [Hu' _]. destruct (Hpot j Hj) as [_ Hv'].
    pose proof (a_range _ j Hrow Hj). qarith. }
  split; [|done].
  destruct (m_j0 _ _ _ _ _ _ _ Hmid) as [Hj1 Hj2].
  pose proof (s_j0 _ _ Hok) as Hj3.
  pose proof (m_delta _ _ _ _ _ _ _ Hmid) as Hd.
  specialize (Hminv (j0 sm) ltac:(lia) Hj2). lra.
Qed.

End Magnitudes.

Lemma within_iff (b : Z) (q : Q) :
  within b q ↔ (- inject_Z b <= q <= inject_Z b)%Q.
Proof. unfold within. rewrite inject_Z_opp. done. Qed.

Lemma within_scaled (c b : Z) (q : Q) :
  (- (inject_Z c * inject_Z b) <= q <= inject_Z c * inject_Z b)%Q → within (c * b) q.
Proof. intros H. apply within_iff. rewrite inject_Z_mult. done. Qed.

Lemma within_add (b1 b2 : Z) (q1 q2 : Q) :
  within b1 q1 → within b2 q2 → within (b1 + b2) (q1 + q2)%Q.
Proof.
  rewrite !within_iff, inject_Z_plus. intros [? ?] [? ?]. split; lra.
Qed.

Lemma within_sub (b1 b2 : Z) (q1 q2 : Q) :
  within b1 q1 → within b2 q2 → within (b1 + b2) (q1 - q2)%Q.
Proof.
  rewrite !within_iff, inject_Z_plus. intros [? ?] [? ?]. split; lra.
Qed.

Lemma within_le (b b' : Z) (q : Q) : within b q → (b ≤ b')%Z → within b' q.
Proof.
  rewrite !within_iff. intros [? ?] Hb. rewrite Zle_Qle in Hb. split; lra.
Qed.

Lemma same_int_or_inf (f : float) (q : Q) : same_int f q → same_or_inf f q.
Proof. by left. Qed.

(** The second loop leaves the [minv] of a used job alone. *)
Lemma shifted_minv_used {R : Type} `{NumR : Num R} N (sm : state R) (d : R) (j : nat) :
  length (u sm) = S N → length (v sm) = S N → length (minv sm) = S N →
  used sm !!! j = true → minv (shifted N sm d) !!! j = minv sm !!! j.
Proof.
  intros Hu Hv Hm Hused. unfold shifted.
  destruct (shift N (p sm) (used sm) d (u sm) (v sm) (minv sm)) as [[us vs] mv] eqn:Hs.
  destruct (shift_arrays N (S N) _ _ _ _ _ _ _ _ _ Hu Hv Hm (le_n _) Hs)
    as (_ & _ & _ & _ & Hmv & _).
  cbn [minv]. rewrite Hmv. rewrite decide_False; [done|].
  intros [_ ?]. congruence.
Qed.

Section Simulation.
Variable N : nat.
Variable af : list (list float).
Variable aq : list (list Q).
Variables lo hi : Q.
Variable A : Z.
Hypothesis a_range :
  ∀ i j, 1 ≤ i ≤ N → 1 ≤ j ≤ N → (lo <= (aq !!! i) !!! j <= hi)%Q.
Hypothesis room_inf : (hi + room N (hi - lo) < INF)%Q.
Hypothesis room_gap : (room N (hi - lo) < INF)%Q.
Hypothesis A_lo : (- inject_Z A <= lo)%Q.
Hypothesis A_hi : (hi <= inject_Z A)%Q.
Hypothesis A_small : (8 * A < 2 ^ 53)%Z.
Hypothesis cells :
  ∀ i j, 1 ≤ i ≤ N → 1 ≤ j ≤ N → same_int ((af !!! i) !!! j) ((aq !!! i) !!! j).

(** The binary64 state [sf] and the exact state [sq] hold the same
    integers. *)
Record sim (sf : state float) (sq : state Q) : Prop := {
  sim_u : ∀ i, 1 ≤ i ≤ N → same_int (u sf !!! i) (u sq !!! i);
  sim_v : ∀ j, 1 ≤ j ≤ N → same_int (v sf !!! j) (v sq !!! j);
  sim_minv : ∀ j, 1 ≤ j ≤ N → same_or_inf (minv sf !!! j) (minv sq !!! j);
  sim_p : p sf = p sq;
  sim_way : way sf = way sq;
  sim_used : used sf = used sq;
  sim_j0 : j0 sf = j0 sq
}.

Lemma cell_within (i j : nat) :
  1 ≤ i ≤ N → 1 ≤ j ≤ N → within A ((aq !!! i) !!! j).
Proof.
  intros Hi Hj. apply within_iff. pose proof (a_range i j Hi Hj). lra.
Qed.

Lemma A_nonneg : 1 ≤ N → (0 ≤ A)%Z.
Proof.
  intros HN. pose proof (a_range 1 1 ltac:(lia) ltac:(lia)) as H.
  assert (- inject_Z A <= inject_Z A)%Q as H' by lra.
  rewrite <- inject_Z_opp, <- Zle_Qle in H'. lia.
Qed.

Lemma potentials_int (sq : state Q) (i : nat) :
  potentials_within N (inject_Z A) sq → 1 ≤ i ≤ N →
  within A (u sq !!! i) ∧ within (2 * A) (v sq !!! i).
Proof.
  intros Hpot Hi. destruct (Hpot i Hi) as [Hu Hv].
  pose proof (A_nonneg ltac:(lia)) as HA.
  split; [by apply within_iff|]. apply within_scaled.
  change (inject_Z 2) with 2%Q.
  assert (0 <= inject_Z A)%Q by (change 0%Q with (inject_Z 0); by rewrite <- Zle_Qle).
  split; lra.
Qed.

(** The first loop of a round, stopped after [k] jobs, in the two
    arithmetics. *)
Lemma scan_sim (k : nat) (usf vsf : list float) (usq vsq : list Q)
    (usd : list bool) (i0 j0 : nat) (mvf : list float) (mvq : list Q) (wy : list nat) :
  k ≤ N → 1 ≤ i0 ≤ N →
  same_int (usf !!! i0) (usq !!! i0) → within A (usq !!! i0) →
  (∀ j, 1 ≤ j ≤ N → same_int (vsf !!! j) (vsq !!! j) ∧ within (2 * A) (vsq !!! j)) →
  length mvf = S N → length mvq = S N →
  (∀ j, 1 ≤ j ≤ N → same_or_inf (mvf !!! j) (mvq !!! j)) →
  ∃ mvf' mvq' wy' df dq j1,
    scan k af usf vsf usd i0 j0 mvf wy = (mvf', wy', df, j1) ∧
    scan k aq usq vsq usd i0 j0 mvq wy = (mvq', wy', dq, j1) ∧
    length mvf' = S N ∧ length mvq' = S N ∧
    (∀ j, 1 ≤ j ≤ N → same_or_inf (mvf' !!! j) (mvq' !!! j)) ∧
    same_or_inf df dq.
Proof.
  intros Hk Hi0 Hu Hub Hv Hlf Hlq Hmv.
  induction k as [|k IH].
  - exists mvf, mvq, wy, num_inf, num_inf, 0. unfold scan. simpl.
    split_and!; try done. apply same_or_inf_inf.
  - destruct IH as (mvf1 & mvq1 & wy1 & df1 & dq1 & j2 & Hsf & Hsq & Hl1 & Hl2 & Hm1 & Hd1);
      [lia|].
    rewrite !scan_S, Hsf, Hsq. unfold scan_step.
    destruct (usd !!! S k) eqn:Husd.
    { exists mvf1, mvq1, wy1, df1, dq1, j2. split_and!; done. }
    assert (1 ≤ S k ≤ N) as Hj by lia.
    destruct (Hv (S k) Hj) as [Hvr Hvb].
    pose proof (cell_within i0 (S k) Hi0 Hj) as Hab.
    assert (same_int (num_sub (num_sub ((af !!! i0) !!! S k) (usf !!! i0)) (vsf !!! S k))
                (num_sub (num_sub ((aq !!! i0) !!! S k) (usq !!! i0)) (vsq !!! S k)))
      as Hcur.
    { apply (same_int_sub (A + A + 2 * A)); [|done| |lia].
      - apply (same_int_sub (A + A)); [by apply cells|done| |lia].
        by apply within_sub.
      - apply within_sub; [|done]. by apply within_sub. }
    set (curf := num_sub (num_sub ((af !!! i0) !!! S k) (usf !!! i0)) (vsf !!! S k)) in *.
    set (curq := num_sub (num_sub ((aq !!! i0) !!! S k) (usq !!! i0)) (vsq !!! S k)) in *.
    rewrite (same_or_inf_ltb curf (mvf1 !!! S k) curq (mvq1 !!! S k));
      [|by left|by apply Hm1].
    destruct (num_ltb curq (mvq1 !!! S k)) eqn:Hlt.
    + assert (∀ j, 1 ≤ j ≤ N →
                same_or_inf (<[S k := curf]> mvf1 !!! j) (<[S k := curq]> mvq1 !!! j)) as Hm2.
      { intros j Hj'. destruct (decide (j = S k)) as [->|Hne].
        - rewrite !list_lookup_total_insert_eq by lia. by left.
        - rewrite !list_lookup_total_insert_ne by done. by apply Hm1. }
      rewrite (same_or_inf_ltb (<[S k := curf]> mvf1 !!! S k) df1
                        (<[S k := curq]> mvq1 !!! S k) dq1); [|by apply Hm2|done].
      destruct (num_ltb (<[S k := curq]> mvq1 !!! S k) dq1);
        eexists _, _, _, _, _, _; (split; [reflexivity|]); (split; [reflexivity|]);
        rewrite !length_insert; split_and!; try done. by apply Hm2.
    + rewrite (same_or_inf_ltb (mvf1 !!! S k) df1 (mvq1 !!! S k) dq1); [|by apply Hm1|done].
      destruct (num_ltb (mvq1 !!! S k) dq1);
        eexists _, _, _, _, _, _; (split; [reflexivity|]); (split; [reflexivity|]);
        split_and!; try done. by apply Hm1.
Qed.

Lemma scanned_sim (sf : state float) (sq : state Q) :
  sim sf sq → search_ok N sf → search_ok N sq →
  potentials_within N (inject_Z A) sq → 1 ≤ p sq !!! j0 sq ≤ N →
  sim (scanned N af sf).1 (scanned N aq sq).1 ∧
  same_or_inf (scanned N af sf).2 (scanned N aq sq).2.
Proof.
  intros [Hu Hv Hm Hp Hw Hus Hj] Hokf Hokq Hpot Hrow.
  destruct (scan_sim N (u sf) (v sf) (u sq) (v sq) (<[j0 sq := true]> (used sq))
              (p sq !!! j0 sq) (j0 sq) (minv sf) (minv sq) (way sq))
    as (mvf' & mvq' & wy' & df & dq & j1 & Hsf & Hsq & _ & _ & Hm' & Hd);
    [done|done|by apply Hu|by apply potentials_int| |apply Hokf|apply Hokq|done|].
  { intros j Hj'. split; [by apply Hv|by apply potentials_int]. }
  unfold scanned. rewrite Hp, Hw, Hus, Hj, Hsf, Hsq. cbn [fst snd].
  split; [|done]. split; cbn [u v p way minv used j0]; done.
Qed.

(** The second loop of a round, in the two arithmetics. *)
Lemma shifted_sim (k : nat) (smf : state float) (smq : state Q) (df : float) (dq : Q) :
  mid_inv N aq lo hi k smq dq → k < N → potentials_within N (inject_Z A) smq →
  search_ok N smf → sim smf smq → same_or_inf df dq →
  sim (shifted N smf df) (shifted N smq dq).
Proof.
  intros Hmid Hk Hpot Hokf [Hu Hv Hm Hp Hw Hus Hj] Hd.
  pose proof (m_ok _ _ _ _ _ _ _ Hmid) as Hokq.
  pose proof (A_nonneg ltac:(lia)) as HA.
  destruct (mid_magnitudes N aq lo hi a_range (inject_Z A) A_lo A_hi k smq dq Hmid Hk Hpot)
    as [Hdb Hmb].
  assert (within (4 * A) dq) as Hdw by (by apply within_scaled).
  assert (same_int df dq) as Hdr by (apply (same_or_inf_small (4 * A)); [done|done|lia]).
  pose proof (used_rows_inj N k (p smq) (used smq) (m_match _ _ _ _ _ _ _ Hmid)
                (m_p0 _ _ _ _ _ _ _ Hmid) (m_usedm _ _ _ _ _ _ _ Hmid)) as Hinj.
  pose proof (used_rows_range N k (p smq) (used smq) (m_match _ _ _ _ _ _ _ Hmid)
                (m_p0 _ _ _ _ _ _ _ Hmid) Hk) as Hrng.
  destruct (shifted_arrays N smq dq) as (_ & _ & _ & Hvq1 & Hvq2 & Hmq & Huq);
    [apply Hokq..|].
  destruct (Huq Hinj Hrng) as [Huq1 Huq2].
  destruct (shifted_arrays N smf df) as (_ & _ & _ & Hvf1 & Hvf2 & Hmf & Huf);
    [apply Hokf..|].
  rewrite Hp, Hus in Huf. rewrite Hus in Hvf1, Hvf2, Hmf.
  destruct (Huf Hinj Hrng) as [Huf1 Huf2].
  split; rewrite ?shifted_p, ?shifted_way, ?shifted_used, ?shifted_j0; try done.
  - intros i Hi. destruct (tree_dec N (p smq) (used smq) i) as [(j & Hj1 & Hj2 & Hj3)|Hn].
    + rewrite <- Hj3, Huf1, Huq1 by done. rewrite Hj3.
      apply (same_int_add (A + 4 * A)); [by apply Hu|done| |lia].
      apply within_add; [|done]. by apply potentials_int.
    + rewrite Huf2, Huq2 by done. by apply Hu.
  - intros j Hj'. destruct (used smq !!! j) eqn:Hused.
    + rewrite Hvf1, Hvq1 by (done || lia).
      apply (same_int_sub (2 * A + 4 * A)); [by apply Hv|done| |lia].
      apply within_sub; [|done]. by apply potentials_int.
    + rewrite Hvf2, Hvq2 by done. by apply Hv.
  - intros j Hj'. destruct (used smq !!! j) eqn:Hused.
    + rewrite (shifted_minv_used N smq) by (done || apply Hokq).
      rewrite (shifted_minv_used N smf) by (apply Hokf || by rewrite Hus).
      by apply Hm.
    + rewrite Hmf, Hmq by (done || lia). left.
      assert (within (4 * A) (minv smq !!! j)) as Hb
        by (apply within_scaled; by apply Hmb).
      apply (same_int_sub (4 * A + 4 * A)); [|done|by apply within_sub|lia].
      apply (same_or_inf_small (4 * A)); [by apply Hm|done|lia].
Qed.

(** The exact state at the head of a pass through lines 42-55 of the search
    for row [k + 1]: just entered, or between two passes. *)
Definition ready (k : nat) (sq : state Q) : Prop :=
  (∃ st, outer_inv N aq lo hi k st ∧ sq = enter N (S k) st) ∨
  (inner_inv N aq lo hi k sq ∧ p sq !!! j0 sq ≠ 0).

Lemma ready_facts (k : nat) (sq : state Q) :
  ready k sq → k < N →
  search_ok N sq ∧ potentials_within N (inject_Z A) sq ∧ 1 ≤ p sq !!! j0 sq ≤ N ∧
  mid_inv N aq lo hi k (scanned N aq sq).1 (scanned N aq sq).2 ∧
  inner_inv N aq lo hi k (round N aq sq).
Proof.
  intros [(st & Hinv & ->)|[Hinv Hnz]] Hk.
  - pose proof (o_rest _ _ _ _ _ _ Hinv) as Hrest.
    split_and!.
    + by apply (enter_search_ok N k).
    + by apply (entered_potentials N aq lo hi a_range (inject_Z A) A_lo A_hi k).
    + cbn [enter p j0]. rewrite list_lookup_total_insert_eq; [lia|].
      rewrite (m_len _ _ _ (r_match _ _ _ Hrest)). lia.
    + cbn [enter p j0]. rewrite list_lookup_total_insert_eq; [lia|].
      rewrite (m_len _ _ _ (r_match _ _ _ Hrest)). lia.
    + by apply scan_mid_first.
    + by apply round_first.
  - pose proof (i_ok _ _ _ _ _ _ Hinv) as Hok.
    destruct (i_j0 _ _ _ _ _ _ Hinv) as [Hj1 Hj2].
    pose proof (s_j0 _ _ Hok) as Hj3.
    pose proof (m_range _ _ _ (i_match _ _ _ _ _ _ Hinv) (j0 sq) ltac:(lia)).
    split_and!; [done| |lia|lia| |].
    + by apply (inner_potentials N aq lo hi a_range (inject_Z A) A_lo A_hi k).
    + by apply scan_mid_next.
    + by apply round_inner.
Qed.

(** One pass through lines 42-55 computes the same integers in binary64 as
    in exact arithmetic. *)
Lemma round_sim (k : nat) (sf : state float) (sq : state Q) :
  ready k sq → k < N → sim sf sq → search_ok N sf →
  sim (round N af sf) (round N aq sq).
Proof.
  intros Hready Hk Hsim Hokf.
  destruct (ready_facts k sq Hready Hk) as (Hokq & Hpot & Hrow & Hmid & _).
  destruct (scanned_sim sf sq Hsim Hokf Hokq Hpot Hrow) as [Hsm Hd].
  rewrite !round_halves.
  apply (shifted_sim k); [done|done| |by apply scanned_search_ok|done|done].
  intros i Hi. rewrite scanned_u, scanned_v. by apply Hpot.
Qed.

Definition sim_opt (rf : option (state float)) (rq : option (state Q)) : Prop :=
  match rf, rq with
  | Some sf, Some sq => sim sf sq ∧ search_ok N sf
  | None, None => True
  | _, _ => False
  end.

Lemma ready_next (k : nat) (sq : state Q) :
  ready k sq → k < N → p (round N aq sq) !!! j0 (round N aq sq) ≠ 0 →
  ready k (round N aq sq).
Proof.
  intros Hready Hk Hnz. right. split; [|done].
  by destruct (ready_facts k sq Hready Hk) as (_ & _ & _ & _ & Hin).
Qed.

(** The loop of lines 41-56 makes the same passes in the two arithmetics. *)
Lemma relax_sim (fuel k : nat) (sf : state float) (sq : state Q) :
  ready k sq → k < N → sim sf sq → search_ok N sf →
  sim_opt (relax fuel N af sf) (relax fuel N aq sq).
Proof.
  revert sf sq. induction fuel as [|fuel IH]; intros sf sq Hready Hk Hsim Hokf; [done|].
  pose proof (round_sim k sf sq Hready Hk Hsim Hokf) as Hsim'.
  pose proof (round_search_ok N af sf Hokf) as Hokf'.
  cbn [relax]. rewrite (sim_p _ _ Hsim'), (sim_j0 _ _ Hsim').
  destruct (decide (p (round N aq sq) !!! j0 (round N aq sq) = 0)) as [Hz|Hnz].
  - done.
  - apply (IH _ _ (ready_next k sq Hready Hk Hnz) Hk Hsim' Hokf').
Qed.

(** The two states hold the same integers, and the potentials are within
    a few multiples of the largest cost. *)
Definition sim_within (sf : state float) (sq : state Q) : Prop :=
  sim sf sq ∧ potentials_within N (inject_Z A) sq.

Lemma relax_trace_sim (fuel k : nat) (sf : state float) (sq : state Q) :
  ready k sq → k < N → sim sf sq → search_ok N sf →
  Forall2 sim_within (relax_trace fuel N af sf) (relax_trace fuel N aq sq).
Proof.
  revert sf sq. induction fuel as [|fuel IH]; intros sf sq Hready Hk Hsim Hokf;
    [constructor|].
  pose proof (round_sim k sf sq Hready Hk Hsim Hokf) as Hsim'.
  pose proof (round_search_ok N af sf Hokf) as Hokf'.
  destruct (ready_facts k sq Hready Hk) as (_ & _ & _ & _ & Hin).
  cbn [relax_trace]. rewrite (sim_p _ _ Hsim'), (sim_j0 _ _ Hsim').
  constructor.
  { split; [done|].
    by apply (inner_potentials N aq lo hi a_range (inject_Z A) A_lo A_hi k). }
  destruct (decide (p (round N aq sq) !!! j0 (round N aq sq) = 0)) as [Hz|Hnz].
  - constructor.
  - apply (IH _ _ (ready_next k sq Hready Hk Hnz) Hk Hsim' Hokf').
Qed.

Lemma enter_sim (i : nat) (sf : state float) (sq : state Q) :
  sim sf sq → sim (enter N i sf) (enter N i sq).
Proof.
  intros [Hu Hv Hm Hp Hw Hus Hj]. split; cbn [enter u v p way minv used j0]; try done.
  - intros j Hj'. rewrite !lookup_total_replicate_2 by lia. apply same_or_inf_inf.
  - by rewrite Hp.
Qed.

(** The body of the outer loop for row [k + 1], in the two arithmetics. *)
Lemma iteration_sim (fuel k : nat) (sf : state float) (sq : state Q) :
  outer_inv N aq lo hi k sq → k < N → sim sf sq → rest_ok N k sf →
  match iteration fuel N af (S k) sf, iteration fuel N aq (S k) sq with
  | Some sf', Some sq' => sim sf' sq'
  | None, None => True
  | _, _ => False
  end.
Proof.
  intros Hinv Hk Hsim Hrest. unfold iteration.
  assert (ready k (enter N (S k) sq)) as Hready by (left; by exists sq).
  pose proof (relax_sim fuel k (enter N (S k) sf) (enter N (S k) sq) Hready Hk
                (enter_sim (S k) sf sq Hsim) (enter_search_ok N k sf Hrest)) as Hrel.
  unfold sim_opt in Hrel.
  destruct (relax fuel N af (enter N (S k) sf)) as [sf1|],
           (relax fuel N aq (enter N (S k) sq)) as [sq1|]; try done.
  cbn [mbind option_bind]. destruct Hrel as [Hs1 _].
  rewrite (sim_way _ _ Hs1), (sim_p _ _ Hs1), (sim_j0 _ _ Hs1).
  destruct (augment fuel (way sq1) (p sq1) (j0 sq1)) as [ps|]; [|done].
  cbn [mbind option_bind].
  destruct Hs1 as [Hu Hv Hm Hp Hw Hus Hj]. split; cbn [u v p way minv used j0]; done.
Qed.

Lemma iteration_potentials (fuel k : nat) (sq sq' : state Q) :
  outer_inv N aq lo hi k sq → k < N →
  iteration fuel N aq (S k) sq = Some sq' → potentials_within N (inject_Z A) sq'.
Proof.
  intros Hinv Hk Hit. unfold iteration in Hit.
  destruct (relax fuel N aq (enter N (S k) sq)) as [sq1|] eqn:Hrelax; [|done].
  cbn [mbind option_bind] in Hit.
  destruct (augment fuel (way sq1) (p sq1) (j0 sq1)) as [ps|]; [|done].
  cbn [mbind option_bind] in Hit. simplify_eq.
  assert (potentials_within N (inject_Z A) sq1) as Hpot; [|exact Hpot].
  assert (∀ fuel st, ready k st → relax fuel N aq st = Some sq1 →
            inner_inv N aq lo hi k sq1) as Hloop.
  { clear Hrelax. intros fuel'. induction fuel' as [|fuel' IH]; intros st Hr Hrel; [done|].
    cbn [relax] in Hrel.
    destruct (ready_facts k st Hr Hk) as (_ & _ & _ & _ & Hin).
    destruct (decide _) as [Hz|Hnz]; [by simplify_eq|].
    apply (IH (round N aq st)); [|done]. by right. }
  apply (inner_potentials N aq lo hi a_range (inject_Z A) A_lo A_hi k); [|done].
  apply (Hloop fuel (enter N (S k) sq)); [|done]. left. by exists sq.
Qed.

(** The outer loop, in the two arithmetics. *)
Lemma outer_sim (fuel c k : nat) (sf : state float) (sq : state Q) :
  outer_inv N aq lo hi k sq → k + c ≤ N → N ≤ fuel → sim sf sq → rest_ok N k sf →
  ∃ sf' sq',
    outer fuel N af (seq (S k) c) sf = Some sf' ∧
    outer fuel N aq (seq (S k) c) sq = Some sq' ∧
    sim sf' sq' ∧ outer_inv N aq lo hi (k + c) sq'.
Proof.
  revert k sf sq. induction c as [|c IH]; intros k sf sq Hinv Hkc Hfuel Hsim Hrest.
  - exists sf, sq. rewrite Nat.add_0_r. done.
  - cbn [seq outer].
    destruct (iteration_inv N aq lo hi a_range room_inf room_gap fuel k sq Hinv
                ltac:(lia) Hfuel) as (sq1 & Hitq & Hinv1).
    pose proof (iteration_sim fuel k sf sq Hinv ltac:(lia) Hsim Hrest) as Hit.
    rewrite Hitq in Hit.
    destruct (iteration fuel N af (S k) sf) as [sf1|] eqn:Hitf; [|done].
    rewrite Hitq. cbn [mbind option_bind].
    destruct (IH (S k) sf1 sq1 Hinv1 ltac:(lia) Hfuel Hit
                (iteration_rest_ok fuel N af k sf sf1 Hrest Hitf))
      as (sf' & sq' & Hof & Hoq & Hs' & Hinv').
    exists sf', sq'. replace (k + S c) with (S k + c) by lia. done.
Qed.

(** The states of a run, in the two arithmetics. *)
Lemma outer_points_sim (fuel c k : nat) (sf : state float) (sq : state Q) :
  outer_inv N aq lo hi k sq → k + c ≤ N → N ≤ fuel → sim sf sq → rest_ok N k sf →
  Forall2 sim_within (outer_points fuel N af (seq (S k) c) sf)
                     (outer_points fuel N aq (seq (S k) c) sq).
Proof.
  revert k sf sq. induction c as [|c IH]; intros k sf sq Hinv Hkc Hfuel Hsim Hrest;
    [constructor|].
  cbn [seq outer_points]. constructor.
  { split; [by apply enter_sim|].
    apply (entered_potentials N aq lo hi a_range (inject_Z A) A_lo A_hi k); [done|lia]. }
  apply Forall2_app.
  { apply (relax_trace_sim fuel k);
      [left; by exists sq|lia|by apply enter_sim|by apply (enter_search_ok N k)]. }
  destruct (iteration_inv N aq lo hi a_range room_inf room_gap fuel k sq Hinv
              ltac:(lia) Hfuel) as (sq1 & Hitq & Hinv1).
  pose proof (iteration_sim fuel k sf sq Hinv ltac:(lia) Hsim Hrest) as Hit.
  rewrite Hitq in Hit. rewrite Hitq.
  destruct (iteration fuel N af (S k) sf) as [sf1|] eqn:Hitf; [|done].
  constructor.
  { split; [done|]. apply (iteration_potentials fuel k sq sq1 Hinv); [lia|done]. }
  apply (IH (S k) sf1 sq1 Hinv1); [lia|done|done|].
  apply (iteration_rest_ok fuel N af k sf sf1 Hrest Hitf).
Qed.

Lemma init_sim : sim (init_state N) (init_state N).
Proof.
  split; cbn [init_state u v p way minv used j0]; try done.
  - intros i Hi. rewrite !lookup_total_replicate_2 by lia. apply same_int_zero.
  - intros j Hj. rewrite !lookup_total_replicate_2 by lia. apply same_int_zero.
  - intros j Hj. rewrite !lookup_total_nil. left. apply same_int_zero.
Qed.

Lemma solve_points_sim (fuel : nat) :
  N ≤ fuel → Forall2 sim_within (solve_points fuel N af) (solve_points fuel N aq).
Proof.
  intros Hfuel. unfold solve_points. constructor.
  - split; [apply init_sim|]. intros i Hi. cbn [init_state u v].
    rewrite !lookup_total_replicate_2 by lia.
    pose proof (A_nonneg ltac:(lia)) as HA.
    assert (0 <= inject_Z A)%Q by (change 0%Q with (inject_Z 0); by rewrite <- Zle_Qle).
    cbn [num_zero Q_num]. split; split; lra.
  - apply (outer_points_sim fuel N 0 (init_state N) (init_state N));
      [apply init_outer_inv|lia|done|apply init_sim|apply init_rest_ok].
Qed.

(** The whole of lines 34-67: with the same matrix of integers the binary64
    run and the exact run return, with the same matching. *)
Lemma solve_sim (fuel : nat) :
  N ≤ fuel →
  ∃ sf sq, solve fuel N af = Some sf ∧ solve fuel N aq = Some sq ∧
           sim sf sq ∧ outer_inv N aq lo hi N sq.
Proof.
  intros Hfuel. unfold solve.
  apply (outer_sim fuel N 0 (init_state N) (init_state N));
    [apply init_outer_inv|lia|done|apply init_sim|apply init_rest_ok].
Qed.

End Simulation.

(** ** Matrices of integers

    A cost matrix whose entries are integers is handed to the solver as
    doubles; the same matrix handed over as rationals gives the exact run
    to compare with. *)

Definition doubles (cz : list (list Z)) : list (list float) :=
  (λ row : list Z, fz <$> row) <$> cz.

Definition rationals (cz : list (list Z)) : list (list Q) :=
  (λ row : list Z, inject_Z <$> row) <$> cz.

(** For instance, in the notation of the doubles: *)
Lemma doubles_literals :
  doubles [ [ 4; 1; 3 ]; [ 2; 0; -5 ] ]%Z = [ [ 4; 1; 3 ]; [ 2; 0; -5 ] ]%float.
Proof. vm_compute. reflexivity. Qed.

(** All entries lie in [[lo, hi]]. *)
Definition entries_in (lo hi : Z) (n m : nat) (cz : list (list Z)) : Prop :=
  ∀ i j, i < n → j < m → (lo ≤ (cz !!! i) !!! j ≤ hi)%Z.

(** The largest magnitude of a cost. *)
Definition magnitude (lo hi : Z) : Z := Z.max (Z.abs lo) (Z.abs hi).

(** The range is small enough for a square of size [N]: every number the
    solver computes is an integer of at most 53 bits, which binary64
    holds exactly. *)
Definition exact_range (N : nat) (lo hi : Z) : Prop :=
  ((Z.of_nat N + 8) * magnitude lo hi < 2 ^ 53)%Z.

Lemma row_length {A : Type} `{Inhabited A} (n m : nat) (c : list (list A)) (i : nat) :
  cost_wf n m c → i < n → length (c !!! i) = m.
Proof.
  intros [Hl Hr] Hi. apply Hr. apply list_elem_of_lookup. exists i.
  apply list_lookup_lookup_total_lt. lia.
Qed.

Lemma doubles_lookup (n m : nat) (cz : list (list Z)) (i j : nat) :
  cost_wf n m cz → i < n → j < m →
  (doubles cz !!! i) !!! j = fz ((cz !!! i) !!! j).
Proof.
  intros Hwf Hi Hj. pose proof (row_length n m cz i Hwf Hi) as Hrow.
  unfold doubles. destruct Hwf as [Hl _].
  rewrite (list_lookup_total_fmap (λ row : list Z, fz <$> row) cz i) by lia.
  rewrite (list_lookup_total_fmap fz (cz !!! i) j) by lia. done.
Qed.

Lemma rationals_lookup (n m : nat) (cz : list (list Z)) (i j : nat) :
  cost_wf n m cz → i < n → j < m →
  (rationals cz !!! i) !!! j = inject_Z ((cz !!! i) !!! j).
Proof.
  intros Hwf Hi Hj. pose proof (row_length n m cz i Hwf Hi) as Hrow.
  unfold rationals. destruct Hwf as [Hl _].
  rewrite (list_lookup_total_fmap (λ row : list Z, inject_Z <$> row) cz i) by lia.
  rewrite (list_lookup_total_fmap inject_Z (cz !!! i) j) by lia. done.
Qed.

Lemma doubles_wf (n m : nat) (cz : list (list Z)) :
  cost_wf n m cz → cost_wf n m (doubles cz).
Proof.
  intros [Hl Hr]. split; unfold doubles; [by rewrite length_fmap|].
  intros row Hrow. apply list_elem_of_fmap in Hrow as (r & -> & Hin).
  rewrite length_fmap. by apply Hr.
Qed.

Lemma rationals_wf (n m : nat) (cz : list (list Z)) :
  cost_wf n m cz → cost_wf n m (rationals cz).
Proof.
  intros [Hl Hr]. split; unfold rationals; [by rewrite length_fmap|].
  intros row Hrow. apply list_elem_of_fmap in Hrow as (r & -> & Hin).
  rewrite length_fmap. by apply Hr.
Qed.

Lemma rationals_range (lo hi : Z) (n m : nat) (cz : list (list Z)) :
  cost_wf n m cz → entries_in lo hi n m cz →
  in_range (inject_Z lo) (inject_Z hi) n m (rationals cz).
Proof.
  intros Hwf Hin i j Hi Hj. rewrite (rationals_lookup n m) by done.
  rewrite <- !Zle_Qle. by apply Hin.
Qed.

Lemma magnitude_bounds (lo hi : Z) :
  (0 ≤ magnitude lo hi ∧ - magnitude lo hi ≤ lo ∧ hi ≤ magnitude lo hi)%Z.
Proof. unfold magnitude. lia. Qed.

Lemma exact_narrow (N : nat) (lo hi : Z) :
  exact_range N lo hi → narrow N (inject_Z lo) (inject_Z hi).
Proof.
  unfold exact_range. intros Hex.
  pose proof (magnitude_bounds lo hi) as (HA & Hlo & Hhi).
  assert (2 ^ 54 < 10 ^ 18)%Z as Hp by (vm_compute; reflexivity).
  replace (2 ^ 54)%Z with (2 * 2 ^ 53)%Z in Hp by (vm_compute; reflexivity).
  assert (Z.of_nat N * (hi - lo) ≤ Z.of_nat N * (2 * magnitude lo hi))%Z as Hn
    by (apply Z.mul_le_mono_nonneg_l; lia).
  assert (Z.of_nat N * (hi - lo) < 10 ^ 18 ∧
          hi + Z.of_nat N * (hi - lo) < 10 ^ 18)%Z as [H1 H2] by lia.
  unfold narrow, room, natQ. cbn [num_inf Q_num].
  rewrite !inject_Z_sub_eq, !inject_Z_mul_eq, !inject_Z_add_eq, <- !Zlt_Qlt.
  split; [exact H2|exact H1].
Qed.

Lemma small_magnitude (N : nat) (lo hi z : Z) :
  exact_range N lo hi → (lo ≤ z ≤ hi)%Z → small z.
Proof.
  unfold exact_range, small. intros Hex Hz.
  pose proof (magnitude_bounds lo hi) as (HA & Hlo & Hhi).
  assert (0 ≤ Z.of_nat N * magnitude lo hi)%Z by (apply Z.mul_nonneg_nonneg; lia).
  lia.
Qed.

(** The setting of the comparison: an [n × m] matrix of integers in
    [[lo, hi]], padded to the square of size [N = max n m]. *)
Section Integers.
Variables n m : nat.
Variable cz : list (list Z).
Variables lo hi : Z.
Hypothesis cz_wf : cost_wf n m cz.
Hypothesis cz_in : entries_in lo hi n m cz.
Hypothesis pad_in : n ≠ m → (lo ≤ 10 ^ 9 ≤ hi)%Z.
Hypothesis cz_exact : exact_range (n `max` m) lo hi.

Local Abbreviation N := (n `max` m).
Local Abbreviation af := (pad_matrix N (Z.of_nat n) (Z.of_nat m) (doubles cz)).
Local Abbreviation aq := (pad_matrix N (Z.of_nat n) (Z.of_nat m) (rationals cz)).

Lemma square_range (i j : nat) :
  1 ≤ i ≤ N → 1 ≤ j ≤ N → (inject_Z lo <= (aq !!! i) !!! j <= inject_Z hi)%Q.
Proof.
  intros Hi Hj. apply padded_range; [by apply rationals_range| |done|done].
  intros Hnm. cbn [num_pad Q_num]. rewrite <- !Zle_Qle. by apply pad_in.
Qed.

Lemma square_cells (i j : nat) :
  1 ≤ i ≤ N → 1 ≤ j ≤ N → same_int ((af !!! i) !!! j) ((aq !!! i) !!! j).
Proof.
  intros Hi Hj. rewrite !pad_matrix_lookup by lia. unfold pad_cell.
  case_bool_decide as Hc.
  - rewrite (doubles_lookup n m), (rationals_lookup n m) by (done || lia).
    eexists. split_and!; [|reflexivity|reflexivity].
    apply (small_magnitude N lo hi); [done|]. apply cz_in; lia.
  - exists (10 ^ 9)%Z. split_and!; [|vm_compute; reflexivity|reflexivity].
    unfold small. vm_compute. reflexivity.
Qed.

Lemma square_lo : (- inject_Z (magnitude lo hi) <= inject_Z lo)%Q.
Proof.
  rewrite <- inject_Z_opp, <- Zle_Qle. apply magnitude_bounds.
Qed.

Lemma square_hi : (inject_Z hi <= inject_Z (magnitude lo hi))%Q.
Proof. rewrite <- Zle_Qle. apply magnitude_bounds. Qed.

Lemma square_small : (8 * magnitude lo hi < 2 ^ 53)%Z.
Proof.
  pose proof cz_exact as Hex. unfold exact_range in Hex.
  pose proof (magnitude_bounds lo hi) as (HA & _ & _).
  assert (0 ≤ Z.of_nat N * magnitude lo hi)%Z by (apply Z.mul_nonneg_nonneg; lia).
  lia.
Qed.

(** Lines 34-67 on the integer matrix: the binary64 run and the exact run
    return, in states that hold the same integers. *)
Lemma solve_exact (fuel : nat) :
  N ≤ fuel →
  ∃ sf sq, solve fuel N af = Some sf ∧ solve fuel N aq = Some sq ∧
           sim N sf sq ∧
           outer_inv N aq (inject_Z lo) (inject_Z hi) N sq.
Proof.
  intros Hfuel. destruct (exact_narrow N lo hi cz_exact) as [Hr1 Hr2].
  apply (solve_sim N af aq (inject_Z lo) (inject_Z hi) (magnitude lo hi)
           square_range Hr1 Hr2 square_lo square_hi square_small square_cells fuel Hfuel).
Qed.

(** The states of the run, one by one. *)
Lemma points_exact (fuel : nat) :
  N ≤ fuel →
  Forall2 (sim_within N (magnitude lo hi))
          (solve_points fuel N af) (solve_points fuel N aq).
Proof.
  intros Hfuel. destruct (exact_narrow N lo hi cz_exact) as [Hr1 Hr2].
  apply (solve_points_sim N af aq (inject_Z lo) (inject_Z hi) (magnitude lo hi)
           square_range Hr1 Hr2 square_lo square_hi square_small square_cells fuel Hfuel).
Qed.

(** The first [k] outer iterations. *)
Lemma outer_exact (fuel k : nat) :
  k ≤ N → N ≤ fuel →
  ∃ sf sq, outer fuel N af (seq 1 k) (init_state N) = Some sf ∧
           outer fuel N aq (seq 1 k) (init_state N) = Some sq ∧
           sim N sf sq ∧ rest_ok N k sf ∧
           outer_inv N aq (inject_Z lo) (inject_Z hi) k sq.
Proof.
  intros Hk Hfuel. destruct (exact_narrow N lo hi cz_exact) as [Hr1 Hr2].
  destruct (outer_sim N af aq (inject_Z lo) (inject_Z hi) (magnitude lo hi)
              square_range Hr1 Hr2 square_lo square_hi square_small square_cells
              fuel k 0 (init_state N) (init_state N))
    as (sf & sq & Hf & Hq & Hsim & Hinv);
    [apply init_outer_inv|lia|done|apply init_sim|apply init_rest_ok|].
  exists sf, sq. split_and!; try done.
  apply (outer_rest_ok fuel N af k 0 _ _ (init_rest_ok N) Hf).
Qed.

(** The loop of lines 41-56 in the outer iteration for row [k + 1]: it
    ends within [k + 1] passes, at a job without a row, the same in the two
    arithmetics. *)
Lemma relax_exact (fuel k : nat) (sf : state float) (sq : state Q) :
  outer_inv N aq (inject_Z lo) (inject_Z hi) k sq → k < N →
  sim N sf sq → rest_ok N k sf → k < fuel →
  ∃ sf' sq', relax fuel N af (enter N (S k) sf) = Some sf' ∧
             relax fuel N aq (enter N (S k) sq) = Some sq' ∧
             sim N sf' sq' ∧ search_ok N sf' ∧
             inner_inv N aq (inject_Z lo) (inject_Z hi) k sq' ∧
             p sq' !!! j0 sq' = 0.
Proof.
  intros Hinv Hk Hsim Hrest Hfuel. destruct (exact_narrow N lo hi cz_exact) as [Hr1 Hr2].
  destruct (relax_first N aq (inject_Z lo) (inject_Z hi) square_range Hr1 Hr2
              fuel k sq Hinv Hk Hfuel) as (sq' & Hq & Hin & Hz).
  pose proof (relax_sim N af aq (inject_Z lo) (inject_Z hi) (magnitude lo hi)
                square_range Hr1 Hr2 square_lo square_hi square_small square_cells
                fuel k (enter N (S k) sf) (enter N (S k) sq)) as Hrel.
  rewrite Hq in Hrel.
  destruct (relax fuel N af (enter N (S k) sf)) as [sf'|].
  - destruct Hrel as [Hs' Hok'];
      [left; by exists sq|done|by apply enter_sim|by apply (enter_search_ok N k)|].
    exists sf', sq'. split_and!; done.
  - exfalso. apply Hrel;
      [left; by exists sq|done|by apply enter_sim|by apply (enter_search_ok N k)].
Qed.

(** Lines 69-73: the sum of at most [N] costs stays within 53 bits. *)
Lemma total_exact (ps : list nat) :
  same_int (total N (Z.of_nat n) (Z.of_nat m) (doubles cz) ps)
      (total N (Z.of_nat n) (Z.of_nat m) (rationals cz) ps).
Proof.
  pose proof cz_exact as Hex. unfold exact_range in Hex.
  pose proof (magnitude_bounds lo hi) as (HA & Hlo & Hhi).
  unfold total.
  assert (∀ k, k ≤ N →
            same_int (foldl (total_step (Z.of_nat n) (Z.of_nat m) (doubles cz) ps)
                       num_zero (seq 1 k))
                (foldl (total_step (Z.of_nat n) (Z.of_nat m) (rationals cz) ps)
                       num_zero (seq 1 k)) ∧
            within (Z.of_nat k * magnitude lo hi)
                   (foldl (total_step (Z.of_nat n) (Z.of_nat m) (rationals cz) ps)
                          num_zero (seq 1 k))) as Hloop; [|by apply Hloop].
  induction k as [|k IH]; intros Hk.
  - cbn [seq foldl]. split; [apply same_int_zero|].
    unfold within. cbn [Z.of_nat]. rewrite Z.mul_0_l.
    split; vm_compute; discriminate.
  - destruct IH as [Hr Hw]; [lia|]. rewrite !seq_S, !foldl_snoc. cbn [Nat.add].
    set (xf := foldl (total_step (Z.of_nat n) (Z.of_nat m) (doubles cz) ps)
                     num_zero (seq 1 k)) in *.
    set (xq := foldl (total_step (Z.of_nat n) (Z.of_nat m) (rationals cz) ps)
                     num_zero (seq 1 k)) in *.
    assert (within (Z.of_nat (S k) * magnitude lo hi) xq) as Hw'.
    { apply (within_le _ _ _ Hw). apply Z.mul_le_mono_nonneg_r; lia. }
    unfold total_step. case_bool_decide as Hc; [|done].
    assert (same_int ((doubles cz !!! (ps !!! S k - 1)) !!! (S k - 1))
                ((rationals cz !!! (ps !!! S k - 1)) !!! (S k - 1)) ∧
            within (magnitude lo hi) ((rationals cz !!! (ps !!! S k - 1)) !!! (S k - 1)))
      as [Hcr Hcw].
    { rewrite (doubles_lookup n m), (rationals_lookup n m) by (done || lia).
      pose proof (cz_in (ps !!! S k - 1) (S k - 1) ltac:(lia) ltac:(lia)) as Hz.
      split.
      - eexists. split_and!; [|reflexivity|reflexivity].
        by apply (small_magnitude N lo hi).
      - unfold within. rewrite <- !Zle_Qle. lia. }
    assert (within (Z.of_nat (S k) * magnitude lo hi)
              (Qplus xq ((rationals cz !!! (ps !!! S k - 1)) !!! (S k - 1)))) as Hsum.
    { replace (Z.of_nat (S k) * magnitude lo hi)%Z
        with (Z.of_nat k * magnitude lo hi + magnitude lo hi)%Z by lia.
      by apply within_add. }
    split; [|done].
    apply (same_int_add (Z.of_nat (S k) * magnitude lo hi)); [done|done|done|].
    assert (Z.of_nat (S k) * magnitude lo hi ≤ Z.of_nat N * magnitude lo hi)%Z
      by (apply Z.mul_le_mono_nonneg_r; lia).
    lia.
Qed.

(** The call on a matrix of integers within the exact range: in binary64 it
    returns the double of the integer that the exact run returns, with the
    same assignment. *)
Lemma hungarian_exact (out0 : list Z) (fuel : nat) :
  N ≤ fuel →
  ∃ t out,
    hungarian fuel (Z.of_nat n) (Z.of_nat m) (doubles cz) out0 = Some (fz t, out) ∧
    hungarian fuel (Z.of_nat n) (Z.of_nat m) (rationals cz) out0
    = Some (inject_Z t, out) ∧
    small t.
Proof.
  intros Hfuel. destruct (solve_exact fuel Hfuel) as (sf & sq & Hsf & Hsq & Hsim & _).
  destruct (total_exact (p sq)) as (t & Ht & Hf & Hq).
  exists t, (write_matches (Z.of_nat n) (Z.of_nat m) (p sq) out0).
  unfold hungarian.
  replace (Z.to_nat (Z.of_nat n `max` Z.of_nat m)) with N by lia.
  rewrite Hsf, Hsq. cbn [mbind option_bind].
  rewrite (sim_p _ _ _ Hsim), Hf, Hq. done.
Qed.

End Integers.

(** * The properties of the specification *)

(** ** Optimality on square matrices *)

(** Two by two, with costs beyond [INF]: the matrix of the bound's
    necessity. *)
Definition huge_costs : list (list Q) :=
  [ [ 0; 0 ]; [ 2000000000000000000; 3000000000000000000 ] ]%Q.

(** The same matrix in binary64. *)
Definition huge_costs_float : list (list float) :=
  [ [ 0; 0 ]; [ 2e18; 3e18 ] ]%float.

(** Costs in tenths, as binary64 numbers. *)
Definition tenths_d : list (list float) := [ [ 0.7; 0.0 ]; [ 0.9; 0.2 ] ]%float.

(** Integers of 54 bits, as binary64 numbers: [2^53], [2^53 + 2]. *)
Definition wide_costs : list (list float) :=
  [ [ 9007199254740992; 0 ]; [ 9007199254740994; 1 ] ]%float.

(** C1, as stated, fails.  On [huge_costs] the solver returns the total
    [3e18] with the identity assignment, while giving job 0 to worker 1 and
    job 1 to worker 0 costs [2e18]; in exact arithmetic and in binary64
    alike.  In binary64 it fails for small costs too: on [tenths_d] the call
    returns [0.9] with job 0 given to worker 1, while the numbers that the
    doubles [0.7] and [0.2] stand for add up to less than the one [0.9]
    stands for.  And it fails for integers that need more than 53 bits: on
    [wide_costs] the call returns [2^53 + 2], while the other assignment
    costs [2^53 + 1]. *)
Lemma hungarian_not_always_optimal :
  (∃ res out σ,
     hungarian 3 2 2 huge_costs [0; 0]%Z = Some (res, out) ∧
     σ ≡ₚ seq 0 2 ∧ (assignment_cost huge_costs σ < res)%Q) ∧
  (∃ res out,
     hungarian 3 2 2 huge_costs_float [0; 0]%Z = Some (res, out) ∧
     out = [0; 1]%Z ∧
     num_ltb (num_add ((huge_costs_float !!! 1) !!! 0)
                      ((huge_costs_float !!! 0) !!! 1)) res = true) ∧
  (∃ res,
     hungarian 2 2 2 tenths_d [0; 0]%Z = Some (res, [1; 0]%Z) ∧
     (float_value res == assignment_cost (exact_values tenths_d) [1; 0]%nat)%Q ∧
     (assignment_cost (exact_values tenths_d) [0; 1]%nat < float_value res)%Q) ∧
  (∃ res,
     hungarian 2 2 2 wide_costs [0; 0]%Z = Some (res, [1; 0]%Z) ∧
     (float_value res == assignment_cost (exact_values wide_costs) [1; 0]%nat)%Q ∧
     (assignment_cost (exact_values wide_costs) [0; 1]%nat < float_value res)%Q).
Proof.
  split_and!.
  - exists 3000000000000000000%Q, [0; 1]%Z, [1; 0].
    split_and!.
    + vm_compute. reflexivity.
    + apply perm_swap.
    + vm_compute. reflexivity.
  - exists 3e18%float, [0; 1]%Z. split_and!; vm_compute; reflexivity.
  - exists 0.9%float. split_and!; vm_compute; reflexivity.
  - exists 9007199254740994%float. split_and!; vm_compute; reflexivity.
Qed.

(** Over the rationals, where the arithmetic of the solver is exact: for
    every square [n × n] matrix whose costs lie in a range [[lo, hi]] with
    [hi + n (hi - lo) < 1e18] and [n (hi - lo) < 1e18], the solver returns;
    the total it returns is the cost of the assignment it returns, which
    gives every job a worker of its own; no assignment of that kind is
    cheaper; and when one assignment is strictly cheaper than all others,
    it is the one returned. *)
Lemma hungarian_square_optimal (n : nat) (cost : list (list Q)) (lo hi : Q)
    (out0 : list Z) :
  cost_wf n n cost → in_range lo hi n n cost → narrow n lo hi → length out0 = n →
  ∃ res σ,
    hungarian n (Z.of_nat n) (Z.of_nat n) cost out0 = Some (res, Z.of_nat <$> σ) ∧
    σ ≡ₚ seq 0 n ∧
    (res == assignment_cost cost σ)%Q ∧
    (∀ σ', σ' ≡ₚ seq 0 n → (res <= assignment_cost cost σ')%Q) ∧
    (∀ σ', σ' ≡ₚ seq 0 n →
       (∀ σ'', σ'' ≡ₚ seq 0 n → σ'' ≠ σ' →
               (assignment_cost cost σ' < assignment_cost cost σ'')%Q) →
       σ = σ').
Proof.
  intros _ Hin Hnarrow Hlen.
  pose proof (hungarian_run n n cost lo hi out0 n) as Hrun.
  cbv zeta in Hrun. rewrite Nat.max_id in Hrun.
  destruct Hrun as (st & Hs & Hinv & Hopt & Hrun); [done|done|done|done|].
  pose proof (r_match _ _ _ (o_rest _ _ _ _ _ _ Hinv)) as Hm.
  assert (total n (Z.of_nat n) (Z.of_nat n) cost (p st)
          == assignment_cost cost (lower n (p st)))%Q as Hres.
  { rewrite (total_square n cost (p st) Hm).
    apply square_cost_assignment.
    - apply lower_length.
    - intros j Hj. by apply perm_bound; [apply lower_perm|].
    - intros j Hj. rewrite lower_lookup by done.
      pose proof (matching_full n (p st) (S j) Hm ltac:(lia)). lia. }
  assert (∀ σ', σ' ≡ₚ seq 0 n →
            (total n (Z.of_nat n) (Z.of_nat n) cost (p st)
             <= assignment_cost cost σ')%Q) as Hmin.
  { intros σ' Hp. rewrite (total_square n cost (p st) Hm).
    assert (length σ' = n) as Hl by (by rewrite Hp, length_seq).
    rewrite <- (square_cost_assignment n cost σ' (lift σ')).
    - apply Hopt. by apply lift_matching.
    - done.
    - intros j Hj. by apply perm_bound.
    - intros j Hj. apply lift_lookup. lia. }
  exists (total n (Z.of_nat n) (Z.of_nat n) cost (p st)), (lower n (p st)).
  split_and!.
  - rewrite Hrun. do 2 f_equal.
    rewrite write_matches_eq by lia. rewrite Nat2Z.id. by apply answer_lower.
  - by apply lower_perm.
  - done.
  - done.
  - intros σ' Hp Hstrict.
    destruct (decide (lower n (p st) = σ')) as [|Hne]; [done|].
    exfalso. specialize (Hstrict (lower n (p st)) (lower_perm n (p st) Hm) Hne).
    specialize (Hmin σ' Hp). lra.
Qed.

(** C1, amended: the program, computing in binary64, is optimal on
    matrices of integers that leave the arithmetic exact.  For every square
    [n × n] matrix of integers in [[lo, hi]] with
    [(n + 8) max(|lo|, |hi|) < 2^53], handed over as doubles, the call
    returns; the total it returns is the double of an integer [t]; [t] is
    the cost of the assignment returned, which gives every job a worker of
    its own; no assignment of that kind costs less than [t]; and when one
    assignment is strictly cheaper than all others, it is the one
    returned. *)
Theorem hungarian_square_optimal_binary64 (n : nat) (cz : list (list Z))
    (lo hi : Z) (out0 : list Z) :
  cost_wf n n cz → entries_in lo hi n n cz → exact_range n lo hi → length out0 = n →
  ∃ t σ,
    hungarian n (Z.of_nat n) (Z.of_nat n) (doubles cz) out0
    = Some (fz t, Z.of_nat <$> σ) ∧
    small t ∧
    σ ≡ₚ seq 0 n ∧
    (inject_Z t == assignment_cost (rationals cz) σ)%Q ∧
    (∀ σ', σ' ≡ₚ seq 0 n → (inject_Z t <= assignment_cost (rationals cz) σ')%Q) ∧
    (∀ σ', σ' ≡ₚ seq 0 n →
       (∀ σ'', σ'' ≡ₚ seq 0 n → σ'' ≠ σ' →
               (assignment_cost (rationals cz) σ'
                < assignment_cost (rationals cz) σ'')%Q) →
       σ = σ').
Proof.
  intros Hwf Hin Hex Hlen.
  assert (exact_range (n `max` n) lo hi) as Hex' by (by rewrite Nat.max_id).
  destruct (hungarian_exact n n cz lo hi Hwf Hin ltac:(done) Hex' out0 n)
    as (t & out & Hf & Hq & Ht); [lia|].
  destruct (hungarian_square_optimal n (rationals cz) (inject_Z lo) (inject_Z hi) out0)
    as (res & σ & Hrun & Hperm & Hres & Hmin & Huniq);
    [by apply rationals_wf|by apply rationals_range|by apply exact_narrow|done|].
  rewrite Hq in Hrun. injection Hrun as <- ->.
  exists t, σ. split_and!; done.
Qed.

Lemma hungarian_square_optimal_binary64_witness :
  ∃ t σ,
    hungarian 2 2 2 (doubles [ [ 4; 1 ]; [ 2; 3 ] ]%Z) [0; 0]%Z
    = Some (fz t, Z.of_nat <$> σ) ∧
    small t ∧
    σ ≡ₚ seq 0 2 ∧
    (inject_Z t == assignment_cost (rationals [ [ 4; 1 ]; [ 2; 3 ] ]%Z) σ)%Q ∧
    (∀ σ', σ' ≡ₚ seq 0 2 →
           (inject_Z t <= assignment_cost (rationals [ [ 4; 1 ]; [ 2; 3 ] ]%Z) σ')%Q) ∧
    (∀ σ', σ' ≡ₚ seq 0 2 →
       (∀ σ'', σ'' ≡ₚ seq 0 2 → σ'' ≠ σ' →
               (assignment_cost (rationals [ [ 4; 1 ]; [ 2; 3 ] ]%Z) σ'
                < assignment_cost (rationals [ [ 4; 1 ]; [ 2; 3 ] ]%Z) σ'')%Q) →
       σ = σ').
Proof.
  apply (hungarian_square_optimal_binary64 2 [ [ 4; 1 ]; [ 2; 3 ] ]%Z 1 4 [0; 0]%Z).
  - split; [reflexivity|]. intros row Hrow.
    repeat (apply elem_of_cons in Hrow as [->|Hrow]; [reflexivity|]).
    by apply elem_of_nil in Hrow.
  - intros [|[|i]] [|[|j]] Hi Hj; try lia; vm_compute; split; discriminate.
  - vm_compute. reflexivity.
  - reflexivity.
Defined.

(** ** The example of [main] *)

(** The ways to give the workers [0 .. k-1] jobs of their own out of
    [jobs]: the list holds the job of each worker. *)
Fixpoint choices (k : nat) (jobs : list nat) : list (list nat) :=
  match k with
  | O => [[]]
  | S k => j ← jobs; (cons j) <$> choices k (filter (λ x, x ≠ j) jobs)
  end.

(** The total cost when worker [i] takes the job [js !!! i]. *)
Definition choice_cost (cost : list (list Q)) (js : list nat) : Q :=
  Qsum ((λ i, (cost !!! i) !!! (js !!! i)) <$> seq 0 (length js)).

(** C2, as stated, fails: the total returned on the matrix of [main] is not
    [9.3], neither with exact arithmetic nor in binary64. *)
Lemma main_example_total_is_not_9_3 :
  (∃ res out, hungarian 4 3 4 main_data [0; 0; 0; 0]%Z = Some (res, out) ∧
              ¬ (res == 93 # 10)%Q) ∧
  (∃ res out, hungarian 4 3 4 main_data_float [0; 0; 0; 0]%Z = Some (res, out) ∧
              PrimFloat.eqb res 9.3%float = false).
Proof.
  split.
  - eexists _, _. split; [vm_compute; reflexivity|]. vm_compute. discriminate.
  - eexists _, _. split; [vm_compute; reflexivity|]. vm_compute. reflexivity.
Qed.

(** C2, amended: on the 3×4 matrix of [main] the solver returns the total
    [10.2], with job 0 given to worker 1 (cost 6.2), job 1 to worker 0 (cost
    2.5), job 2 to worker 2 (cost 1.5) and job 3 left unassigned, whatever
    the buffer [match_out] held; [10.2] is the least total over the 24 ways
    to give the three workers jobs of their own; and in binary64 the call
    returns the same assignment and the double nearest to [10.2]. *)
Theorem main_example (z0 z1 z2 z3 : Z) :
  (∃ res, hungarian 4 3 4 main_data [z0; z1; z2; z3] = Some (res, [1; 0; 2; -1]%Z) ∧
          (res == 102 # 10)%Q ∧
          (res == (62 # 10) + (25 # 10) + (15 # 10))%Q) ∧
  forallb (λ js, Qle_bool (102 # 10) (choice_cost main_data js))
          (choices 3 (seq 0 4)) = true ∧
  length (choices 3 (seq 0 4)) = 24 ∧
  hungarian 4 3 4 main_data_float [z0; z1; z2; z3]
  = Some (0x1.4666666666666p+3%float, [1; 0; 2; -1]%Z).
Proof.
  split_and!.
  - eexists. split_and!; vm_compute; reflexivity.
  - vm_compute. reflexivity.
  - vm_compute. reflexivity.
  - vm_compute. reflexivity.
Qed.

(** ** The shape of the assignment returned *)

(** The buffer holds [m] entries; each is the marker [-1] or a worker in
    [[0, n)]; no worker occurs twice. *)
Definition valid_assignment (n : Z) (m : nat) (out : list Z) : Prop :=
  length out = m ∧
  (∀ j x, out !! j = Some x → x = (-1)%Z ∨ (0 ≤ x < n)%Z) ∧
  (∀ j j' x, out !! j = Some x → out !! j' = Some x → x ≠ (-1)%Z → j = j').

Section Assignment.
Context {R : Type} `{NumR : Num R}.

(** What a call that returns has computed. *)
Lemma hungarian_answer (fuel : nat) (n m : Z) (cost : list (list R))
    (out0 : list Z) (res : R) (out : list Z) :
  hungarian fuel n m cost out0 = Some (res, out) →
  ∃ ps, matching (Z.to_nat (n `max` m)) (Z.to_nat (n `max` m)) ps ∧
        res = total (Z.to_nat (n `max` m)) n m cost ps ∧
        out = write_matches n m ps out0.
Proof.
  unfold hungarian. intros Hrun.
  destruct (solve fuel _ _) as [st|] eqn:Hs; [|done].
  simpl in Hrun. simplify_eq. exists (p st). split_and!; [|done..].
  by eapply solve_matching.
Qed.

Lemma answer_cases (n : Z) (ps : list nat) (j : nat) :
  (answer n ps j = (-1)%Z ∧ ¬ (0 < ps !!! S j ∧ (Z.of_nat (ps !!! S j) ≤ n)%Z)) ∨
  (answer n ps j = (Z.of_nat (ps !!! S j) - 1)%Z ∧
   0 < ps !!! S j ∧ (Z.of_nat (ps !!! S j) ≤ n)%Z).
Proof. unfold answer. case_bool_decide; [right|left]; tauto. Qed.

Lemma answers_valid (N : nat) (n m : Z) (ps : list nat) :
  matching N N ps → Z.to_nat m ≤ N →
  valid_assignment n (Z.to_nat m) (answer n ps <$> seq 0 (Z.to_nat m)).
Proof.
  intros Hm HmN.
  assert (∀ j x, (answer n ps <$> seq 0 (Z.to_nat m)) !! j = Some x →
                 j < Z.to_nat m ∧ x = answer n ps j) as Hlk.
  { intros j x Hx. rewrite list_lookup_fmap in Hx.
    destruct (seq 0 (Z.to_nat m) !! j) as [i|] eqn:Hi; [|done].
    apply lookup_seq in Hi as [-> Hi]. simpl in Hx. by simplify_eq. }
  split_and!.
  - by rewrite length_fmap, length_seq.
  - intros j x Hx. destruct (Hlk j x Hx) as [Hj ->].
    destruct (answer_cases n ps j) as [[-> _]|(-> & ? & ?)]; [by left|right; lia].
  - intros j j' x Hx Hx' Hne.
    destruct (Hlk j x Hx) as [Hj ->]. destruct (Hlk j' _ Hx') as [Hj' Heq].
    destruct (answer_cases n ps j) as [[E _]|(E & ? & ?)]; [congruence|].
    destruct (answer_cases n ps j') as [[E' _]|(E' & ? & ?)]; [congruence|].
    assert (S j = S j'); [|lia].
    apply (m_inj _ _ _ Hm); lia.
Qed.

End Assignment.

(** C3: every entry of the assignment returned is the marker [-1] or a
    worker in [[0, n)], and no worker occurs at two positions.  This holds
    of every call that returns, for every instance of the arithmetic
    (binary64 included) and costs of any size; and for exact costs within
    range the call does return, with the fuel [max n m]. *)
Theorem assignment_valid :
  (∀ (R : Type) (NumR : Num R) (fuel : nat) (n m : Z) (cost : list (list R))
     (out0 : list Z) (res : R) (out : list Z),
     (0 ≤ n)%Z → (0 ≤ m)%Z → length out0 = Z.to_nat m →
     hungarian fuel n m cost out0 = Some (res, out) →
     valid_assignment n (Z.to_nat m) out) ∧
  (∀ (n m : nat) (cost : list (list Q)) (lo hi : Q) (out0 : list Z),
     cost_wf n m cost → in_range lo hi n m cost →
     (n ≠ m → (lo <= PAD <= hi)%Q) → narrow (n `max` m) lo hi →
     length out0 = m →
     ∃ res out,
       hungarian (n `max` m) (Z.of_nat n) (Z.of_nat m) cost out0 = Some (res, out) ∧
       valid_assignment (Z.of_nat n) m out).
Proof.
  assert (∀ (R : Type) (NumR : Num R) (fuel : nat) (n m : Z) (cost : list (list R))
     (out0 : list Z) (res : R) (out : list Z),
     (0 ≤ n)%Z → (0 ≤ m)%Z → length out0 = Z.to_nat m →
     hungarian fuel n m cost out0 = Some (res, out) →
     valid_assignment n (Z.to_nat m) out) as Hpartial.
  { intros R NumR fuel n m cost out0 res out Hn Hm Hlen Hrun.
    destruct (hungarian_answer _ _ _ _ _ _ _ Hrun) as (ps & Hmatch & _ & ->).
    rewrite write_matches_eq by done.
    eapply answers_valid; [done|lia]. }
  split; [done|].
  intros n m cost lo hi out0 _ Hin Hpad Hnar Hlen.
  destruct (hungarian_run n m cost lo hi out0 (n `max` m) Hin Hpad Hnar (le_n _))
    as (st & _ & _ & _ & Hrun).
  eexists _, _. split; [done|].
  rewrite <- (Nat2Z.id m) at 1.
  apply (Hpartial Q Q_num (n `max` m) (Z.of_nat n) (Z.of_nat m) cost out0
           (total (n `max` m) (Z.of_nat n) (Z.of_nat m) cost (p st)));
    [lia|lia|by rewrite Nat2Z.id|done].
Qed.

Lemma assignment_valid_witness :
  valid_assignment 3 (Z.to_nat 4) [1; 0; 2; -1]%Z.
Proof.
  eapply (proj1 assignment_valid Q Q_num 4 3%Z 4%Z main_data [0; 0; 0; 0]%Z).
  - lia.
  - lia.
  - reflexivity.
  - vm_compute. reflexivity.
Defined.

(** ** How many jobs and workers are served *)

Definition jobs_with_worker (out : list Z) : nat :=
  length (filter (λ x, x ≠ (-1)%Z) out).

Definition jobs_without_worker (out : list Z) : nat :=
  length (filter (λ x, x = (-1)%Z) out).

Definition idle_workers (n : nat) (out : list Z) : nat :=
  length (filter (λ i, Z.of_nat i ∉ out) (seq 0 n)).

(** The smaller side is served in full: [min n m] jobs have a worker, the
    other [m - min n m] jobs carry the marker, and [n - min n m] workers
    have no job; the excess [|n - m|] of the larger side is what is left
    out. *)
Definition serves_smaller_side (n m : nat) (out : list Z) : Prop :=
  jobs_with_worker out = n `min` m ∧
  jobs_without_worker out = m - n `min` m ∧
  idle_workers n out = n - n `min` m.

Lemma filter_fmap_length {A B : Type} (f : A → B) (P : B → Prop)
    `{∀ x, Decision (P x)} (l : list A) :
  length (filter P (f <$> l)) = length (filter (λ x, P (f x)) l).
Proof.
  induction l as [|x l IH]; [done|].
  rewrite fmap_cons, !filter_cons. destruct (decide (P (f x))); simpl; lia.
Qed.

Lemma filter_compl_length {A : Type} (P : A → Prop) `{∀ x, Decision (P x)}
    (l : list A) :
  length (filter P l) + length (filter (λ x, ¬ P x) l) = length l.
Proof.
  induction l as [|x l IH]; [done|].
  rewrite !filter_cons. destruct (decide (P x)).
  - rewrite decide_False by tauto. simpl. lia.
  - rewrite decide_True by tauto. simpl. lia.
Qed.

Lemma filter_le_seq (n N : nat) :
  n ≤ N → length (filter (λ x, x ≤ n) (seq 1 N)) = n.
Proof.
  intros Hn. replace N with (n + (N - n)) by lia.
  rewrite seq_app, list.filter_app, length_app.
  rewrite (filter_ext_elem _ (λ _, True) (seq 1 n)).
  2:{ intros x Hx. apply elem_of_seq in Hx. split; [done|lia]. }
  rewrite (filter_ext_elem _ (λ _, False) (seq (1 + n) (N - n))).
  2:{ intros x Hx. apply elem_of_seq in Hx. split; [lia|done]. }
  assert (∀ l : list nat, filter (λ _, True) l = l) as ->.
  { induction l as [|x l IH]; [done|]. rewrite filter_cons. simpl. by rewrite IH. }
  assert (∀ l : list nat, filter (λ _, False) l = []) as ->.
  { induction l as [|x l IH]; [done|]. by rewrite filter_cons. }
  rewrite length_seq. simpl. lia.
Qed.

(** In a full matching of the square of size [max n m], exactly [min n m]
    of the first [m] jobs hold one of the first [n] rows. *)
Lemma real_cells_count (n m : nat) (ps : list nat) :
  matching (n `max` m) (n `max` m) ps →
  length (filter (λ j, 0 < ps !!! S j ∧ (Z.of_nat (ps !!! S j) ≤ Z.of_nat n)%Z)
                 (seq 0 m)) = n `min` m.
Proof.
  intros Hm. destruct (decide (n ≤ m)) as [Hle|Hgt].
  - replace (n `max` m) with m in Hm by lia. replace (n `min` m) with n by lia.
    trans (length (filter (λ x, x ≤ n) ((λ j, ps !!! j) <$> (S <$> seq 0 m)))).
    + rewrite !filter_fmap_length.
      f_equal. apply filter_ext_elem. intros j Hj. apply elem_of_seq in Hj.
      pose proof (matching_full m ps (S j) Hm ltac:(lia)). lia.
    + rewrite fmap_S_seq, (matching_perm m ps Hm). by apply filter_le_seq.
  - replace (n `max` m) with n in Hm by lia. replace (n `min` m) with m by lia.
    trans (length (seq 0 m)); [|by rewrite length_seq]. f_equal.
    rewrite (filter_ext_elem _ (λ _, True) (seq 0 m)).
    + generalize (seq 0 m). induction l as [|x l IH]; [done|].
      rewrite filter_cons. simpl. by rewrite IH.
    + intros j Hj. apply elem_of_seq in Hj.
      pose proof (matching_full n ps (S j) Hm ltac:(lia)). split; [done|lia].
Qed.

Lemma jobs_without_count (m : nat) (out : list Z) :
  length out = m → jobs_without_worker out = m - jobs_with_worker out.
Proof.
  intros Hl. unfold jobs_without_worker, jobs_with_worker.
  pose proof (filter_compl_length (λ x, x = (-1)%Z) out) as Hc.
  rewrite Hl in Hc. lia.
Qed.

Lemma assigned_NoDup (out : list Z) :
  (∀ j j' x, out !! j = Some x → out !! j' = Some x → x ≠ (-1)%Z → j = j') →
  NoDup (filter (λ x, x ≠ (-1)%Z) out).
Proof.
  induction out as [|y out IH]; intros Hinj; [constructor|].
  assert (NoDup (filter (λ x, x ≠ (-1)%Z) out)) as IH'.
  { apply IH. intros j j' z Hz Hz' Hne.
    assert (S j = S j'); [|lia]. by apply (Hinj _ _ z). }
  rewrite filter_cons. destruct (decide (y ≠ (-1)%Z)) as [Hy|]; [|done].
  constructor; [|done].
  intros Hin. apply list_elem_of_filter in Hin as [_ Hin].
  apply list_elem_of_lookup_1 in Hin as [j Hj].
  assert (0 = S j); [|lia]. by apply (Hinj _ _ y).
Qed.

(** The workers that occur in a valid assignment are as many as the jobs
    that have one. *)
Lemma idle_workers_count (n m : nat) (out : list Z) :
  valid_assignment (Z.of_nat n) m out →
  idle_workers n out = n - jobs_with_worker out.
Proof.
  intros (Hl & Hrange & Hinj). unfold idle_workers, jobs_with_worker.
  pose proof (filter_compl_length (λ i, Z.of_nat i ∈ out) (seq 0 n)) as Hc.
  rewrite length_seq in Hc.
  assert (length (filter (λ i, Z.of_nat i ∈ out) (seq 0 n))
          = length (filter (λ x, x ≠ (-1)%Z) out)); [|lia].
  rewrite <- (length_fmap Z.to_nat (filter (λ x, x ≠ (-1)%Z) out)).
  apply Permutation_length, NoDup_Permutation.
  - apply list.NoDup_filter, NoDup_seq.
  - apply NoDup_fmap_2_strong; [|by apply assigned_NoDup].
    intros x y Hx Hy Heq.
    apply list_elem_of_filter in Hx as [Hx1 Hx2], Hy as [Hy1 Hy2].
    apply list_elem_of_lookup_1 in Hx2 as [i Hi], Hy2 as [j Hj].
    pose proof (Hrange _ _ Hi). pose proof (Hrange _ _ Hj). lia.
  - intros i. rewrite list_elem_of_filter, elem_of_seq, list_elem_of_fmap. split.
    + intros [Hin Hi]. exists (Z.of_nat i). split; [lia|].
      apply list_elem_of_filter. split; [lia|done].
    + intros (x & -> & Hx). apply list_elem_of_filter in Hx as [Hx1 Hx2].
      pose proof Hx2 as Hx3.
      apply list_elem_of_lookup_1 in Hx3 as [j Hj].
      pose proof (Hrange _ _ Hj). split; [|lia].
      by replace (Z.of_nat (Z.to_nat x)) with x by lia.
Qed.

(** The counts for the buffer written from a full matching. *)
Lemma answers_serve (n m : nat) (ps : list nat) :
  matching (n `max` m) (n `max` m) ps →
  serves_smaller_side n m (answer (Z.of_nat n) ps <$> seq 0 m).
Proof.
  intros Hm.
  pose proof (answers_valid (n `max` m) (Z.of_nat n) (Z.of_nat m) ps Hm ltac:(lia))
    as Hvalid.
  rewrite Nat2Z.id in Hvalid.
  assert (jobs_with_worker (answer (Z.of_nat n) ps <$> seq 0 m) = n `min` m) as Hcount.
  { unfold jobs_with_worker. rewrite filter_fmap_length.
    rewrite <- (real_cells_count n m ps Hm). f_equal.
    apply filter_ext_elem. intros j _.
    destruct (answer_cases (Z.of_nat n) ps j) as [[-> ?]|(-> & ? & ?)]; [tauto|].
    split; [tauto|lia]. }
  split_and!.
  - done.
  - rewrite (jobs_without_count m), Hcount; [done|apply Hvalid].
  - rewrite (idle_workers_count n m), Hcount; [done|done].
Qed.

(** C4: a padded cell is never reported, whatever the size of the costs
    relative to the padding cost [1e9]: the buffer returned holds only the
    marker and workers in [[0, n)], and the smaller side is served in full,
    the [|n - m|] excess jobs (when [n < m]) or workers (when [n > m])
    being the only ones left out.  This holds of every call that returns,
    for every instance of the arithmetic; and for exact costs in a narrow
    range, which need not lie below [1e9], the call does return. *)
Theorem padding_never_assigned :
  (∀ (R : Type) (NumR : Num R) (fuel n m : nat) (cost : list (list R))
     (out0 : list Z) (res : R) (out : list Z),
     cost_wf n m cost → length out0 = m →
     hungarian fuel (Z.of_nat n) (Z.of_nat m) cost out0 = Some (res, out) →
     valid_assignment (Z.of_nat n) m out ∧ serves_smaller_side n m out) ∧
  (∀ (n m : nat) (cost : list (list Q)) (lo hi : Q) (out0 : list Z),
     cost_wf n m cost → in_range lo hi n m cost →
     (n ≠ m → (lo <= PAD <= hi)%Q) → narrow (n `max` m) lo hi →
     length out0 = m →
     ∃ res out,
       hungarian (n `max` m) (Z.of_nat n) (Z.of_nat m) cost out0 = Some (res, out) ∧
       valid_assignment (Z.of_nat n) m out ∧ serves_smaller_side n m out).
Proof.
  assert (∀ (R : Type) (NumR : Num R) (fuel n m : nat) (cost : list (list R))
     (out0 : list Z) (res : R) (out : list Z),
     length out0 = m →
     hungarian fuel (Z.of_nat n) (Z.of_nat m) cost out0 = Some (res, out) →
     valid_assignment (Z.of_nat n) m out ∧ serves_smaller_side n m out) as Hpartial.
  { intros R NumR fuel n m cost out0 res out Hlen Hrun.
    destruct (hungarian_answer _ _ _ _ _ _ _ Hrun) as (ps & Hmatch & _ & ->).
    replace (Z.to_nat (Z.of_nat n `max` Z.of_nat m)) with (n `max` m) in Hmatch by lia.
    rewrite write_matches_eq by lia. split.
    - pose proof (answers_valid (n `max` m) (Z.of_nat n) (Z.of_nat m) ps Hmatch
                    ltac:(lia)) as Hv.
      rewrite !Nat2Z.id in Hv |- *. done.
    - rewrite Nat2Z.id. by apply answers_serve. }
  split; [intros; by eapply Hpartial|].
  intros n m cost lo hi out0 _ Hin Hpad Hnar Hlen.
  destruct (hungarian_run n m cost lo hi out0 (n `max` m) Hin Hpad Hnar (le_n _))
    as (st & _ & _ & _ & Hrun).
  eexists _, _. split; [done|].
  by apply (Hpartial Q Q_num (n `max` m) n m cost out0
              (total (n `max` m) (Z.of_nat n) (Z.of_nat m) cost (p st))).
Qed.

Lemma padding_never_assigned_witness :
  valid_assignment 3 4 [1; 0; 2; -1]%Z ∧ serves_smaller_side 3 4 [1; 0; 2; -1]%Z.
Proof.
  eapply (proj1 padding_never_assigned Q Q_num 4 3 4 main_data [0; 0; 0; 0]%Z).
  - split; [reflexivity|]. intros row Hrow.
    repeat (apply elem_of_cons in Hrow as [->|Hrow]; [reflexivity|]).
    by apply elem_of_nil in Hrow.
  - reflexivity.
  - vm_compute. reflexivity.
Defined.

(** ** Degenerate and negative dimensions *)

Lemma pad_below_inf : (PAD < INF)%Q.
Proof. vm_compute. reflexivity. Qed.

(** Without a real cell -- no worker, or no job in the buffer's range -- the
    solver works on a square filled with the padding cost, returns the total
    0 and marks every job of the buffer.  The matrix [cost] is not read. *)
Lemma hungarian_no_real_cell (n m : Z) (cost : list (list Q)) (out0 : list Z) :
  (n ≤ 0 ∨ m ≤ 0)%Z → length out0 = Z.to_nat m →
  hungarian (Z.to_nat (n `max` m)) n m cost out0
  = Some (0%Q, replicate (Z.to_nat m) (-1)%Z).
Proof.
  intros Hnm Hlen. set (N := Z.to_nat (n `max` m)).
  destruct (solve_inv N (pad_matrix N n m cost) PAD PAD) with (fuel := N)
    as (st & Hs & Hinv).
  - intros i j Hi Hj. rewrite pad_matrix_lookup by lia. unfold pad_cell.
    rewrite bool_decide_eq_false_2 by lia. lra.
  - unfold room. pose proof pad_below_inf. lra.
  - unfold room. pose proof pad_below_inf.
    assert (INF == inject_Z (10 ^ 18))%Q as -> by reflexivity.
    assert (0 < inject_Z (10 ^ 18))%Q by (vm_compute; reflexivity). lra.
  - done.
  - unfold hungarian. fold N. rewrite Hs. cbn [mbind option_bind]. do 2 f_equal.
    + change 0%Q with (num_zero (R:=Q)). apply total_zero. intros j Hj. lia.
    + rewrite write_matches_eq by done.
      destruct Hnm as [Hn|Hm].
      * apply list_eq_same_length with (Z.to_nat m);
          [by rewrite length_replicate|by rewrite length_fmap, length_seq|].
        intros i x y Hi Hx Hy.
        apply lookup_replicate in Hy as [-> _].
        rewrite list_lookup_fmap, lookup_seq_lt in Hx by done.
        simpl in Hx. simplify_eq. unfold answer.
        rewrite bool_decide_eq_false_2; [done|lia].
      * by replace (Z.to_nat m) with 0 by lia.
Qed.

(** C5: when [n = 0] the solver returns the total 0 with all [m] jobs
    marked unassigned, and when [m = 0] it returns the total 0 and an empty
    assignment; both calls return (with fuel [max n m]) and do not read the
    cost matrix. *)
Theorem degenerate_dimensions :
  (∀ (m : nat) (cost : list (list Q)) (out0 : list Z),
     length out0 = m →
     hungarian m 0 (Z.of_nat m) cost out0 = Some (0%Q, replicate m (-1)%Z)) ∧
  (∀ (n : nat) (cost : list (list Q)),
     hungarian n (Z.of_nat n) 0 cost [] = Some (0%Q, [])).
Proof.
  split.
  - intros m cost out0 Hlen.
    pose proof (hungarian_no_real_cell 0 (Z.of_nat m) cost out0) as H.
    replace (Z.to_nat (0 `max` Z.of_nat m)) with m in H by lia.
    rewrite Nat2Z.id in H. apply H; [lia|done].
  - intros n cost.
    pose proof (hungarian_no_real_cell (Z.of_nat n) 0 cost []) as H.
    replace (Z.to_nat (Z.of_nat n `max` 0)) with n in H by lia.
    apply H; [lia|done].
Qed.

Lemma degenerate_dimensions_witness :
  hungarian 2 0 2 [] [5; 7]%Z = Some (0%Q, [-1; -1]%Z).
Proof.
  apply (proj1 degenerate_dimensions 2 [] [5; 7]%Z). reflexivity.
Defined.

(** C9, as stated, fails: with [n = -1] and [m = 1] nothing is rejected.
    The outer loop runs once on the padded square and matches row 1 to job
    1, and the call returns the total 0 and the buffer [[-1]]: the same as
    the valid call with [n = 0]. *)
Lemma negative_dimension_not_rejected :
  (∃ st, solve 1 1 (pad_matrix 1 (-1) 1 ([] : list (list Q))) = Some st ∧
         p st = [1; 1]) ∧
  hungarian 1 (-1) 1 ([] : list (list Q)) [7]%Z = Some (0%Q, [-1]%Z) ∧
  hungarian 1 (-1) 1 ([] : list (list Q)) [7]%Z
  = hungarian 1 0 1 ([] : list (list Q)) [7]%Z.
Proof.
  split_and!.
  - eexists. split; vm_compute; reflexivity.
  - vm_compute. reflexivity.
  - vm_compute. reflexivity.
Qed.

(** C9, amended: if [n < 0] or [m < 0] the solver reports no error, having
    no check of the dimensions and no way to report one: it runs on the
    square of size [max n m] (no loop runs when that is negative) filled
    with the padding cost, does not read the cost matrix, and returns the
    total 0 with every job of the buffer, if any, marked unassigned. *)
Theorem negative_dimensions_run (n m : Z) (cost : list (list Q)) (out0 : list Z) :
  (n < 0 ∨ m < 0)%Z → length out0 = Z.to_nat m →
  hungarian (Z.to_nat (n `max` m)) n m cost out0
  = Some (0%Q, replicate (Z.to_nat m) (-1)%Z).
Proof. intros Hnm Hlen. apply hungarian_no_real_cell; [lia|done]. Qed.

Lemma negative_dimensions_run_witness :
  hungarian 2 (-3) 2 [] [5; 7]%Z = Some (0%Q, [-1; -1]%Z).
Proof.
  apply (negative_dimensions_run (-3) 2 [] [5; 7]%Z); [lia|reflexivity].
Defined.

(** ** The output buffer *)

(** C10: a call with [m ≥ 1] that returns has written every position of
    [match_out] -- what the buffer held before has no part in what it holds
    on return -- and each of the [m] entries is the integer [-1] or a worker
    in [[0, n)]; this for every instance of the arithmetic.  For exact costs
    within range the call does return. *)
Theorem match_out_written :
  (∀ (R : Type) (NumR : Num R) (fuel : nat) (n m : Z) (cost : list (list R))
     (out0 out0' : list Z) (res : R) (out : list Z),
     (1 ≤ m)%Z → length out0 = Z.to_nat m → length out0' = Z.to_nat m →
     hungarian fuel n m cost out0 = Some (res, out) →
     hungarian fuel n m cost out0' = Some (res, out) ∧
     length out = Z.to_nat m ∧
     ∀ j, j < Z.to_nat m →
          ∃ x, out !! j = Some x ∧ (x = (-1)%Z ∨ (0 ≤ x < n)%Z)) ∧
  (∀ (n m : nat) (cost : list (list Q)) (lo hi : Q) (out0 : list Z),
     1 ≤ m → cost_wf n m cost → in_range lo hi n m cost →
     (n ≠ m → (lo <= PAD <= hi)%Q) → narrow (n `max` m) lo hi →
     length out0 = m →
     ∃ res out,
       hungarian (n `max` m) (Z.of_nat n) (Z.of_nat m) cost out0 = Some (res, out) ∧
       length out = m ∧
       ∀ j, j < m →
            ∃ x, out !! j = Some x ∧ (x = (-1)%Z ∨ (0 ≤ x < Z.of_nat n)%Z)).
Proof.
  assert (∀ (R : Type) (NumR : Num R) (fuel : nat) (n m : Z) (cost : list (list R))
     (out0 out0' : list Z) (res : R) (out : list Z),
     length out0 = Z.to_nat m → length out0' = Z.to_nat m →
     hungarian fuel n m cost out0 = Some (res, out) →
     hungarian fuel n m cost out0' = Some (res, out) ∧
     length out = Z.to_nat m ∧
     ∀ j, j < Z.to_nat m →
          ∃ x, out !! j = Some x ∧ (x = (-1)%Z ∨ (0 ≤ x < n)%Z)) as Hpartial.
  { intros R NumR fuel n m cost out0 out0' res out Hlen Hlen' Hrun.
    destruct (hungarian_answer _ _ _ _ _ _ _ Hrun) as (ps & Hmatch & -> & ->).
    destruct (answers_valid _ n m ps Hmatch ltac:(lia)) as (Hl & Hrange & _).
    rewrite write_matches_eq in Hrun |- * by done.
    split_and!.
    - unfold hungarian in *.
      destruct (solve fuel _ _) as [st|]; [|done]. simpl in *.
      injection Hrun as Ht Hw. rewrite Ht. do 2 f_equal.
      rewrite write_matches_eq in Hw |- * by done. done.
    - done.
    - intros j Hj. destruct (lookup_lt_is_Some_2 _ j ltac:(by rewrite Hl)) as [x Hx].
      exists x. split; [done|]. by apply (Hrange j). }
  split.
  { intros R NumR fuel n m cost out0 out0' res out _ Hl Hl' Hrun.
    by apply (Hpartial R NumR fuel n m cost out0 out0'). }
  intros n m cost lo hi out0 _ _ Hin Hpad Hnar Hlen.
  destruct (hungarian_run n m cost lo hi out0 (n `max` m) Hin Hpad Hnar (le_n _))
    as (st & _ & _ & _ & Hrun).
  eexists _, _. split; [done|].
  destruct (Hpartial Q Q_num (n `max` m) (Z.of_nat n) (Z.of_nat m) cost out0 out0
              (total (n `max` m) (Z.of_nat n) (Z.of_nat m) cost (p st))
              (write_matches (Z.of_nat n) (Z.of_nat m) (p st) out0))
    as (_ & Hl & Hall); [by rewrite Nat2Z.id..|done|].
  rewrite !Nat2Z.id in Hl, Hall. done.
Qed.

Lemma match_out_written_witness :
  hungarian 4 3 4 main_data [8; 8; 8; 8]%Z = Some (10200 # 1000, [1; 0; 2; -1]%Z) ∧
  length [1; 0; 2; -1]%Z = Z.to_nat 4 ∧
  ∀ j, j < Z.to_nat 4 →
       ∃ x, [1; 0; 2; -1]%Z !! j = Some x ∧ (x = (-1)%Z ∨ (0 ≤ x < 3)%Z).
Proof.
  apply (proj1 match_out_written Q Q_num 4 3%Z 4%Z main_data
           [0; 0; 0; 0]%Z [8; 8; 8; 8]%Z).
  - lia.
  - reflexivity.
  - reflexivity.
  - vm_compute. reflexivity.
Defined.

(** ** Termination *)






(** Over the rationals: for every [n × m] matrix whose costs (and the
    padding cost [1e9], when [n ≠ m]) lie in a range [[lo, hi]] with
    [hi + N (hi - lo) < 1e18] and [N (hi - lo) < 1e18], [N = max n m], the
    run ends: in each of the [N] outer iterations the first loop reaches a
    job without a row within [N] rounds, the rewiring of the path ends
    within [N] steps, and after the [N] iterations every row of the padded
    square is matched to a job of its own. *)
Lemma solver_terminates (n m : nat) (cost : list (list Q)) (lo hi : Q)
    (out0 : list Z) :
  let N := n `max` m in
  let a := pad_matrix N (Z.of_nat n) (Z.of_nat m) cost in
  cost_wf n m cost → in_range lo hi n m cost →
  (n ≠ m → (lo <= PAD <= hi)%Q) → narrow N lo hi →
  (∀ k, k < N →
     ∃ st st',
       outer N N a (seq 1 k) (init_state N) = Some st ∧
       relax N N a (enter N (S k) st) = Some st' ∧
       1 ≤ j0 st' ≤ N ∧ p st' !!! j0 st' = 0) ∧
  (∃ st, solve N N a = Some st ∧ matching N N (p st)) ∧
  (∃ res out, hungarian N (Z.of_nat n) (Z.of_nat m) cost out0 = Some (res, out)).
Proof.
  intros N a _ Hin Hpad Hnar.
  assert (∀ i j, 1 ≤ i ≤ N → 1 ≤ j ≤ N → (lo <= (a !!! i) !!! j <= hi)%Q) as Hrange.
  { intros i j Hi Hj. by apply padded_range. }
  destruct Hnar as [Hr1 Hr2]. split_and!.
  - intros k Hk.
    destruct (outer_inv_run N a lo hi Hrange Hr1 Hr2 N k 0 (init_state N))
      as (st & Hout & Hinv); [by apply init_outer_inv|lia|done|].
    destruct (relax_first N a lo hi Hrange Hr1 Hr2 N k st Hinv Hk Hk)
      as (st' & Hrelax & Hin' & Hz).
    exists st, st'. split_and!; try done.
    + apply (i_j0 _ _ _ _ _ _ Hin').
    + apply (i_ok _ _ _ _ _ _ Hin').
  - destruct (solve_inv N a lo hi Hrange Hr1 Hr2 N (le_n _)) as (st & Hs & Hinv).
    exists st. split; [done|]. apply (o_rest _ _ _ _ _ _ Hinv).
  - destruct (hungarian_run n m cost lo hi out0 N Hin Hpad (conj Hr1 Hr2) (le_n _))
      as (st & _ & _ & _ & Hrun).
    eauto.
Qed.



(** ** Dual feasibility along the run *)

(** The trace ends in the state the loop returns. *)
Lemma relax_trace_last {R : Type} `{NumR : Num R} (fuel N : nat)
    (a : list (list R)) (st st' : state R) :
  relax fuel N a st = Some st' → list.last (relax_trace fuel N a st) = Some st'.
Proof.
  revert st. induction fuel as [|fuel IH]; intros st Hrelax; [done|].
  cbn [relax relax_trace] in *. destruct (decide _) as [Hz|Hnz].
  - by simplify_eq.
  - specialize (IH _ Hrelax).
    destruct (relax_trace fuel N a (round N a st)) as [|s l] eqn:E; [done|].
    by rewrite list.last_cons, IH.
Qed.

Lemma outer_points_last {R : Type} `{NumR : Num R} (fuel N : nat)
    (a : list (list R)) (rows : list nat) (st st' : state R) :
  outer fuel N a rows st = Some st' →
  list.last (st :: outer_points fuel N a rows st) = Some st'.
Proof.
  revert st. induction rows as [|i rows IH]; intros st Hout.
  - simpl in Hout. by simplify_eq.
  - cbn [outer outer_points] in *.
    destruct (iteration fuel N a i st) as [st1|] eqn:Hit; [|done].
    simpl in Hout. specialize (IH _ Hout).
    rewrite (app_comm_cons _ _ (enter N i st)), (app_comm_cons _ _ st).
    rewrite list.last_app, IH. done.
Qed.

(** The rewiring never writes [p[0]]. *)
Lemma augment_root (fuel : nat) (wy ps ps' : list nat) (h : nat) :
  h ≠ 0 → augment fuel wy ps h = Some ps' → ps' !!! 0 = ps !!! 0.
Proof.
  revert ps h. induction fuel as [|fuel IH]; intros ps h Hh Ha; [done|].
  cbn [augment] in Ha. destruct (decide _) as [Hz|Hnz].
  - simplify_eq. by rewrite list_lookup_total_insert_ne.
  - rewrite (IH _ _ Hnz Ha). by rewrite list_lookup_total_insert_ne.
Qed.

Lemma iteration_root {R : Type} `{NumR : Num R} (fuel N k : nat)
    (a : list (list R)) (st st' : state R) :
  rest_ok N k st → iteration fuel N a (S k) st = Some st' →
  p st' !!! 0 = S k ∧ used st' !!! 0 = true.
Proof.
  intros Hrest Hit. unfold iteration in Hit.
  destruct (relax fuel N a (enter N (S k) st)) as [st1|] eqn:Hrelax; [|done].
  simpl in Hit.
  destruct (augment fuel (way st1) (p st1) (j0 st1)) as [ps|] eqn:Haug; [|done].
  simpl in Hit. simplify_eq. cbn [p used].
  destruct (relax_search_ok _ _ _ _ _ (enter_search_ok N k st Hrest) Hrelax)
    as (Hok & Hp & Hz).
  assert (p st1 !!! 0 = S k) as Hp0.
  { rewrite Hp. cbn [p enter]. apply list_lookup_total_insert_eq.
    rewrite (m_len _ _ _ (r_match _ _ _ Hrest)). lia. }
  assert (j0 st1 ≠ 0) as Hne by (intros E; rewrite E in Hz; congruence).
  split; [by rewrite (augment_root _ _ _ _ _ Hne Haug)|].
  assert (∀ fuel' s, search_ok N s → (j0 s ≠ 0 → used s !!! 0 = true) →
            relax fuel' N a s = Some st1 → used st1 !!! 0 = true) as Hloop.
  { intros fuel'. induction fuel' as [|fuel' IH]; intros s Hoks Hs Hrel; [done|].
    cbn [relax] in Hrel.
    assert (used (round N a s) !!! 0 = true) as Hu0.
    { rewrite round_used, (mark_used N); [|apply Hoks..].
      destruct (decide (0 = j0 s)) as [|Hn]; [done|]. apply Hs. lia. }
    destruct (decide _) as [Hz'|Hnz']; [by simplify_eq|].
    apply (IH (round N a s)); [by apply round_search_ok|done|done]. }
  apply (Hloop fuel (enter N (S k) st)); [by apply enter_search_ok| |done].
  cbn [enter j0]. done.
Qed.

(** The rows whose potential [u] has been set: the rows before [p[0]],
    and row [p[0]] itself once the search for it has made its first pass,
    which line 43 records in [used[0]]. *)
Definition rows_set {R : Type} (st : state R) : nat :=
  if (used st !!! 0 : bool) then p st !!! 0 else p st !!! 0 - 1.

(** The potentials are feasible on the rows [1..r]. *)
Definition dual_feasible (N : nat) (a : list (list Q)) (r : nat) (st : state Q) : Prop :=
  ∀ i j, 1 ≤ i ≤ r → 1 ≤ j ≤ N →
         (u st !!! i + v st !!! j <= (a !!! i) !!! j)%Q.

(** Every matched cell has reduced cost zero. *)
Definition matched_tight (N : nat) (a : list (list Q)) (st : state Q) : Prop :=
  ∀ j, 1 ≤ j ≤ N →
       (u st !!! (p st !!! j) + v st !!! j == (a !!! (p st !!! j)) !!! j)%Q.

(** The same two properties of a state of the program, with the sum and
    the comparison of binary64. *)
Definition feasible_binary64 (N : nat) (a : list (list float)) (r : nat)
    (st : state float) : Prop :=
  ∀ i j, 1 ≤ i ≤ r → 1 ≤ j ≤ N →
         PrimFloat.leb (u st !!! i + v st !!! j) ((a !!! i) !!! j) = true.

Definition tight_binary64 (N : nat) (a : list (list float)) (st : state float) : Prop :=
  ∀ j, 1 ≤ j ≤ N →
       PrimFloat.eqb (u st !!! (p st !!! j) + v st !!! j)
                     ((a !!! (p st !!! j)) !!! j) = true.

Section Trace.
Variable N : nat.
Variable a : list (list Q).
Variables lo hi : Q.
Hypothesis a_range :
  ∀ i j, 1 ≤ i ≤ N → 1 ≤ j ≤ N → (lo <= (a !!! i) !!! j <= hi)%Q.
Hypothesis room_inf : (hi + room N (hi - lo) < INF)%Q.
Hypothesis room_gap : (room N (hi - lo) < INF)%Q.

(** What holds at every point of the run: feasibility on the rows whose
    potential has been set; and on the whole square when no cost is
    negative. *)
Definition snapshot_ok (st : state Q) : Prop :=
  rows_set st ≤ N ∧
  dual_feasible N a (rows_set st) st ∧ ((0 <= lo)%Q → dual_feasible N a N st).

Lemma inner_snapshot (k : nat) (st : state Q) :
  inner_inv N a lo hi k st → k < N → snapshot_ok st.
Proof.
  intros Hinv Hk. split_and!.
  - unfold rows_set.
    rewrite (i_used0 _ _ _ _ _ _ Hinv), (i_p0 _ _ _ _ _ _ Hinv). lia.
  - intros i j Hi Hj. unfold rows_set in Hi.
    rewrite (i_used0 _ _ _ _ _ _ Hinv), (i_p0 _ _ _ _ _ _ Hinv) in Hi.
    pose proof (i_feas _ _ _ _ _ _ Hinv i j Hi Hj) as Hf. unfold sl in Hf. qarith.
  - intros Hlo i j Hi Hj. destruct (decide (i ≤ S k)) as [Hle|Hgt].
    + pose proof (i_feas _ _ _ _ _ _ Hinv i j ltac:(lia) Hj) as Hf.
      unfold sl in Hf. qarith.
    + pose proof (i_ufresh _ _ _ _ _ _ Hinv i ltac:(lia)).
      pose proof (i_vneg _ _ _ _ _ _ Hinv j Hj).
      pose proof (a_range i j Hi Hj). lra.
Qed.

Lemma outer_snapshot (k : nat) (st st' : state Q) :
  outer_inv N a lo hi k st → k ≤ N → u st' = u st → v st' = v st → rows_set st' ≤ k →
  snapshot_ok st'.
Proof.
  intros Hinv Hk Hu Hv Hp0. unfold snapshot_ok, dual_feasible. rewrite Hu, Hv.
  split_and!.
  - lia.
  - intros i j Hi Hj.
    pose proof (o_feas _ _ _ _ _ _ Hinv i j ltac:(lia) Hj) as Hf.
    unfold sl in Hf. qarith.
  - intros Hlo i j Hi Hj. destruct (decide (i ≤ k)) as [Hle|Hgt].
    + pose proof (o_feas _ _ _ _ _ _ Hinv i j ltac:(lia) Hj) as Hf.
      unfold sl in Hf. qarith.
    + pose proof (o_ufresh _ _ _ _ _ _ Hinv i ltac:(lia)).
      pose proof (o_vneg _ _ _ _ _ _ Hinv j Hj).
      pose proof (a_range i j Hi Hj). lra.
Qed.

Lemma relax_trace_next (fuel k : nat) (st : state Q) :
  inner_inv N a lo hi k st → p st !!! j0 st ≠ 0 → k < N →
  ∀ st', st' ∈ relax_trace fuel N a st → inner_inv N a lo hi k st'.
Proof.
  revert st. induction fuel as [|fuel IH]; intros st Hinv Hcont Hk st' Hin.
  - by apply elem_of_nil in Hin.
  - cbn [relax_trace] in Hin.
    destruct (round_inner N a lo hi a_range room_gap k st Hinv Hcont Hk) as [Hinv' _].
    apply elem_of_cons in Hin as [->|Hin]; [done|].
    destruct (decide _) as [Hz|Hnz]; [by apply elem_of_nil in Hin|].
    by apply (IH (round N a st)).
Qed.

Lemma relax_trace_first (fuel k : nat) (st : state Q) :
  outer_inv N a lo hi k st → k < N →
  ∀ st', st' ∈ relax_trace fuel N a (enter N (S k) st) → inner_inv N a lo hi k st'.
Proof.
  intros Hinv Hk st' Hin. destruct fuel as [|fuel]; [by apply elem_of_nil in Hin|].
  cbn [relax_trace] in Hin.
  pose proof (round_first N a lo hi a_range room_inf k st Hinv Hk) as Hinv'.
  apply elem_of_cons in Hin as [->|Hin]; [done|].
  destruct (decide _) as [Hz|Hnz]; [by apply elem_of_nil in Hin|].
  by apply (relax_trace_next fuel k (round N a (enter N (S k) st))).
Qed.

Lemma outer_points_ok (fuel c k : nat) (st : state Q) :
  outer_inv N a lo hi k st → k + c ≤ N → N ≤ fuel →
  ∀ st', st' ∈ outer_points fuel N a (seq (S k) c) st → snapshot_ok st'.
Proof.
  revert k st. induction c as [|c IH]; intros k st Hinv Hkc Hfuel st' Hin.
  - by apply elem_of_nil in Hin.
  - cbn [seq outer_points] in Hin. apply elem_of_cons in Hin as [->|Hin].
    { apply (outer_snapshot k st); [done|lia|done|done|].
      unfold rows_set. cbn [enter used p].
      rewrite lookup_total_replicate_2 by lia.
      rewrite list_lookup_total_insert_eq; [lia|].
      rewrite (m_len _ _ _ (r_match _ _ _ (o_rest _ _ _ _ _ _ Hinv))). lia. }
    apply elem_of_app in Hin as [Hin|Hin].
    + apply (inner_snapshot k); [|lia].
      by apply (relax_trace_first fuel k st); [|lia|].
    + destruct (iteration_inv N a lo hi a_range room_inf room_gap fuel k st Hinv
                  ltac:(lia) Hfuel) as (st1 & Hit & Hinv1).
      rewrite Hit in Hin. apply elem_of_cons in Hin as [->|Hin].
      * apply (outer_snapshot (S k) st1); [done|lia|done|done|].
        unfold rows_set.
        destruct (iteration_root fuel N k a st st1) as [-> ->]; [|done|done].
        apply (o_rest _ _ _ _ _ _ Hinv).
      * apply (IH (S k) st1); [done|lia|done|done].
Qed.

(** All along a run within range the potentials are feasible, and on
    return the matched cells are tight. *)
Lemma solve_points_ok :
  (∀ st, st ∈ solve_points N N a → snapshot_ok st) ∧
  (∃ st, solve N N a = Some st ∧ list.last (solve_points N N a) = Some st ∧
         dual_feasible N a N st ∧ matched_tight N a st).
Proof.
  pose proof (init_outer_inv N a lo hi) as Hinit.
  split.
  - intros st Hin. unfold solve_points in Hin.
    apply elem_of_cons in Hin as [->|Hin].
    + apply (outer_snapshot 0 (init_state N)); [done|lia|done|done|].
      unfold rows_set, init_state. cbn [p used].
      destruct (_ !!! 0 : bool); rewrite lookup_total_replicate_2; lia.
    + by apply (outer_points_ok N N 0 (init_state N)).
  - destruct (solve_inv N a lo hi a_range room_inf room_gap N (le_n _))
      as (st & Hs & Hinv).
    exists st. split_and!.
    + done.
    + by apply outer_points_last.
    + intros i j Hi Hj. pose proof (o_feas _ _ _ _ _ _ Hinv i j Hi Hj) as Hf.
      unfold sl in Hf. qarith.
    + intros j Hj.
      pose proof (matching_full N (p st) j
                    (r_match _ _ _ (o_rest _ _ _ _ _ _ Hinv)) Hj).
      pose proof (o_tight _ _ _ _ _ _ Hinv j Hj ltac:(lia)) as Ht.
      unfold sl in Ht. qarith.
Qed.

End Trace.

(** [a[i][j] < u[i] + v[j]], decided in the arithmetic of the solver. *)
Definition exceeds {R : Type} `{NumR : Num R} (a : list (list R)) (st : state R)
    (i j : nat) : bool :=
  num_ltb ((a !!! i) !!! j) (num_add (u st !!! i) (v st !!! j)).

(** [u[i] + v[j] < a[i][j]], decided in the arithmetic of the solver. *)
Definition slack_left {R : Type} `{NumR : Num R} (a : list (list R)) (st : state R)
    (i j : nat) : bool :=
  num_ltb (num_add (u st !!! i) (v st !!! j)) ((a !!! i) !!! j).

Lemma exceeds_infeasible (N r : nat) (a : list (list Q)) (st : state Q) (i j : nat) :
  exceeds a st i j = true → 1 ≤ i ≤ r → 1 ≤ j ≤ N → ¬ dual_feasible N a r st.
Proof.
  intros He Hi Hj Hf. specialize (Hf i j Hi Hj).
  unfold exceeds in He. apply Qltb_lt in He. qarith.
Qed.

Lemma slack_left_not_tight (N : nat) (a : list (list Q)) (st : state Q) (j : nat) :
  slack_left a st (p st !!! j) j = true → 1 ≤ j ≤ N → ¬ matched_tight N a st.
Proof.
  intros Hs Hj Ht. specialize (Ht j Hj).
  unfold slack_left in Hs. apply Qltb_lt in Hs. qarith.
Qed.

(** A state of the run picked out by a decidable test. *)
Lemma trace_find {R : Type} (f : state R → bool) (l : list (state R)) :
  existsb f l = true → ∃ st, st ∈ l ∧ f st = true.
Proof.
  intros H. apply existsb_exists in H as (st & Hin & Hf).
  exists st. split; [by apply list_elem_of_In|done].
Qed.

(** Negative costs: row 2 is cheaper than the zero potentials allow. *)
Definition negative_costs : list (list Q) := [ [ 0; 0 ]; [ -5; -5 ] ]%Q.

(** Costs in tenths, as binary64 numbers. *)
Definition tenths_a : list (list float) := [ [ 0.1; 0.5 ]; [ 0.3; 0.6 ] ]%float.
Definition tenths_b : list (list float) := [ [ 0.1; 0.7 ]; [ 0.6; 0.9 ] ]%float.

(** C6, as stated, fails.  With a negative cost, a row that has not entered
    yet is infeasible after the first pass of the loop of lines 41-56, and
    the row that [p[0]] names is infeasible before its first pass, in exact
    arithmetic.  In binary64, with costs in tenths, a pass of that loop
    leaves [u[1] + v[1]] strictly above [a[1][1]] for a row whose potential
    has been set; and on return a matched cell is left with [u + v]
    strictly below its cost.  With an exact cost of [2e18] the matched cell
    is not tight on return either. *)
Lemma potentials_not_always_feasible :
  (∃ st, st ∈ solve_points 2 2 (pad_matrix 2 2 2 negative_costs) ∧
         rows_set st = 1 ∧
         ¬ dual_feasible 2 (pad_matrix 2 2 2 negative_costs) 2 st) ∧
  (∃ st, st ∈ solve_points 2 2 (pad_matrix 2 2 2 negative_costs) ∧
         used st !!! 0 = false ∧ p st !!! 0 = 2 ∧
         ¬ dual_feasible 2 (pad_matrix 2 2 2 negative_costs) (p st !!! 0) st) ∧
  (∃ st, st ∈ solve_points 2 2 (pad_matrix 2 2 2 tenths_a) ∧
         rows_set st = 2 ∧
         exceeds (pad_matrix 2 2 2 tenths_a) st 1 1 = true ∧
         ¬ feasible_binary64 2 (pad_matrix 2 2 2 tenths_a) (rows_set st) st) ∧
  (∃ st, solve 2 2 (pad_matrix 2 2 2 tenths_b) = Some st ∧
         p st !!! 1 = 1 ∧
         slack_left (pad_matrix 2 2 2 tenths_b) st 1 1 = true ∧
         ¬ tight_binary64 2 (pad_matrix 2 2 2 tenths_b) st) ∧
  (∃ st, solve 2 1 (pad_matrix 1 1 1 [ [ 2000000000000000000%Q ] ]) = Some st ∧
         ¬ matched_tight 1 (pad_matrix 1 1 1 [ [ 2000000000000000000%Q ] ]) st).
Proof.
  split_and!.
  - destruct (trace_find
                (λ st, bool_decide (rows_set st = 1)
                       && exceeds (pad_matrix 2 2 2 negative_costs) st 2 1)
                (solve_points 2 2 (pad_matrix 2 2 2 negative_costs)))
      as (st & Hin & Hst); [vm_compute; reflexivity|].
    apply andb_true_iff in Hst as [Hp He]. apply bool_decide_eq_true in Hp.
    exists st. split_and!; [done|done|].
    apply (exceeds_infeasible 2 2 _ st 2 1); [done|lia|lia].
  - destruct (trace_find
                (λ st, negb (used st !!! 0) && bool_decide (p st !!! 0 = 2)
                       && exceeds (pad_matrix 2 2 2 negative_costs) st 2 1)
                (solve_points 2 2 (pad_matrix 2 2 2 negative_costs)))
      as (st & Hin & Hst); [vm_compute; reflexivity|].
    apply andb_true_iff in Hst as [Hst He].
    apply andb_true_iff in Hst as [Hu Hp].
    apply bool_decide_eq_true in Hp. apply negb_true_iff in Hu.
    exists st. split_and!; [done|done|done|]. rewrite Hp.
    apply (exceeds_infeasible 2 2 _ st 2 1); [done|lia|lia].
  - destruct (trace_find
                (λ st, bool_decide (rows_set st = 2)
                       && exceeds (pad_matrix 2 2 2 tenths_a) st 1 1
                       && negb (PrimFloat.leb (u st !!! 1 + v st !!! 1)
                                  ((pad_matrix 2 2 2 tenths_a !!! 1) !!! 1)))
                (solve_points 2 2 (pad_matrix 2 2 2 tenths_a)))
      as (st & Hin & Hst); [vm_compute; reflexivity|].
    apply andb_true_iff in Hst as [Hst Hl].
    apply andb_true_iff in Hst as [Hp He].
    apply bool_decide_eq_true in Hp. apply negb_true_iff in Hl.
    exists st. split_and!; [done|done|done|].
    intros Hf. rewrite (Hf 1 1) in Hl; [done|lia|lia].
  - destruct (solve 2 2 (pad_matrix 2 2 2 tenths_b)) as [st|] eqn:Hs;
      [|vm_compute in Hs; discriminate].
    exists st. split; [done|].
    assert (Some st = solve 2 2 (pad_matrix 2 2 2 tenths_b)) as Hs' by done.
    vm_compute in Hs'. injection Hs' as ->.
    split_and!; [vm_compute; reflexivity|vm_compute; reflexivity|].
    intros Ht. specialize (Ht 1 ltac:(lia)). vm_compute in Ht. discriminate.
  - destruct (solve 2 1 (pad_matrix 1 1 1 [ [ 2000000000000000000%Q ] ]))
      as [st|] eqn:Hs; [|vm_compute in Hs; discriminate].
    exists st. split; [done|].
    assert (Some st = solve 2 1 (pad_matrix 1 1 1 [ [ 2000000000000000000%Q ] ]))
      as Hs' by done.
    vm_compute in Hs'. injection Hs' as ->.
    apply (slack_left_not_tight 1 _ _ 1); [vm_compute; reflexivity|lia].
Qed.

(** Over the rationals: for every [n × m] matrix whose costs (and the
    padding cost [1e9], when [n ≠ m]) lie in a range [[lo, hi]] with
    [hi + N (hi - lo) < 1e18] and [N (hi - lo) < 1e18], [N = max n m]: at the
    start, at the head of every outer iteration, after every pass of the
    loop of lines 41-56 and after every rewiring of lines 59-63,
    [u[i] + v[j] ≤ a[i][j]] holds for every column [j] and every row [i]
    whose potential has been set, and for every row of the padded square
    when no cost is negative ([0 ≤ lo]); the run returns, and on return the
    inequality holds on the whole square, with equality on every matched
    cell [(p[j], j)]. *)
Lemma dual_feasible_exact (n m : nat) (cost : list (list Q)) (lo hi : Q) :
  let N := n `max` m in
  let a := pad_matrix N (Z.of_nat n) (Z.of_nat m) cost in
  in_range lo hi n m cost → (n ≠ m → (lo <= PAD <= hi)%Q) → narrow N lo hi →
  (∀ st, st ∈ solve_points N N a →
         rows_set st ≤ N ∧
         dual_feasible N a (rows_set st) st ∧
         ((0 <= lo)%Q → dual_feasible N a N st)) ∧
  (∃ st, solve N N a = Some st ∧ list.last (solve_points N N a) = Some st ∧
         dual_feasible N a N st ∧ matched_tight N a st).
Proof.
  intros N a Hin Hpad [Hr1 Hr2].
  assert (∀ i j, 1 ≤ i ≤ N → 1 ≤ j ≤ N → (lo <= (a !!! i) !!! j <= hi)%Q) as Hrange.
  { intros i j Hi Hj. by apply padded_range. }
  apply (solve_points_ok N a lo hi Hrange Hr1 Hr2).
Qed.

(** Feasibility and tightness pass from the exact state to the binary64
    state that holds the same integers. *)
Lemma feasible_transfer (N : nat) (af : list (list float)) (aq : list (list Q))
    (A : Z) (r : nat) (sf : state float) (sq : state Q) :
  (∀ i j, 1 ≤ i ≤ N → 1 ≤ j ≤ N → same_int ((af !!! i) !!! j) ((aq !!! i) !!! j)) →
  (8 * A < 2 ^ 53)%Z → sim_within N A sf sq → r ≤ N →
  dual_feasible N aq r sq → feasible_binary64 N af r sf.
Proof.
  intros Hcells HA [Hsim Hpot] Hr Hf i j Hi Hj.
  destruct (Hpot i ltac:(lia)) as [Hu _]. destruct (Hpot j Hj) as [_ Hv].
  assert (0 <= inject_Z A)%Q as HA0 by lra.
  apply (same_int_leb _ _ (u sq !!! i + v sq !!! j)%Q ((aq !!! i) !!! j)).
  - apply (same_int_add (A + 2 * A));
      [apply Hsim; lia|by apply Hsim| |change 0%Q with (inject_Z 0) in HA0;
                                       rewrite <- Zle_Qle in HA0; lia].
    apply within_add; [by apply within_iff|].
    apply within_scaled. change (inject_Z 2) with 2%Q. split; lra.
  - by apply Hcells; lia.
  - by apply Hf.
Qed.

Lemma tight_transfer (N : nat) (af : list (list float)) (aq : list (list Q))
    (A : Z) (sf : state float) (sq : state Q) :
  (∀ i j, 1 ≤ i ≤ N → 1 ≤ j ≤ N → same_int ((af !!! i) !!! j) ((aq !!! i) !!! j)) →
  (8 * A < 2 ^ 53)%Z → sim_within N A sf sq → matching N N (p sq) →
  matched_tight N aq sq → tight_binary64 N af sf.
Proof.
  intros Hcells HA [Hsim Hpot] Hm Ht j Hj. rewrite (sim_p _ _ _ Hsim).
  pose proof (matching_full N (p sq) j Hm Hj) as Hi.
  destruct (Hpot (p sq !!! j) Hi) as [Hu _]. destruct (Hpot j Hj) as [_ Hv].
  assert (0 <= inject_Z A)%Q as HA0 by lra.
  apply (same_int_eqb _ _ (u sq !!! (p sq !!! j) + v sq !!! j)%Q
           ((aq !!! (p sq !!! j)) !!! j)).
  - apply (same_int_add (A + 2 * A));
      [by apply Hsim|by apply Hsim| |change 0%Q with (inject_Z 0) in HA0;
                                     rewrite <- Zle_Qle in HA0; lia].
    apply within_add; [by apply within_iff|].
    apply within_scaled. change (inject_Z 2) with 2%Q. split; lra.
  - by apply Hcells.
  - by apply Ht.
Qed.

(** C6, amended: the program, computing in binary64, keeps the potentials
    feasible on matrices of integers that leave the arithmetic exact.  For
    every [n × m] matrix of integers in [[lo, hi]] (the padding cost [10^9]
    included, when [n ≠ m]) with [(N + 8) max(|lo|, |hi|) < 2^53],
    [N = max n m], handed over as doubles: at the start, at the head of
    every outer iteration (line 41), after every pass of the loop of lines
    41-56 and after every rewiring of lines 59-63, [u[i] + v[j] <= a[i][j]]
    holds in binary64 for every column [j] and every row [i] whose potential
    has been set -- the rows before [p[0]], and row [p[0]] once its search
    has made a pass -- and for every row of the padded square when no cost
    is negative ([0 ≤ lo]); the run returns, and on return the inequality
    holds on the whole square, with [u[p[j]] + v[j] == a[p[j]][j]] on every
    matched cell. *)
Theorem dual_feasible_throughout_binary64 (n m : nat) (cz : list (list Z))
    (lo hi : Z) :
  let N := n `max` m in
  let a := pad_matrix N (Z.of_nat n) (Z.of_nat m) (doubles cz) in
  cost_wf n m cz → entries_in lo hi n m cz →
  (n ≠ m → (lo ≤ 10 ^ 9 ≤ hi)%Z) → exact_range N lo hi →
  (∀ st, st ∈ solve_points N N a →
         feasible_binary64 N a (rows_set st) st ∧
         ((0 ≤ lo)%Z → feasible_binary64 N a N st)) ∧
  (∃ st, solve N N a = Some st ∧ list.last (solve_points N N a) = Some st ∧
         feasible_binary64 N a N st ∧ tight_binary64 N a st).
Proof.
  intros N a Hwf Hin Hpad Hex.
  pose proof (points_exact n m cz lo hi Hwf Hin Hpad Hex N (le_n _)) as Hpts.
  fold N a in Hpts.
  set (aq := pad_matrix N (Z.of_nat n) (Z.of_nat m) (rationals cz)) in *.
  pose proof (square_cells n m cz lo hi Hwf Hin Hpad Hex) as Hcells.
  fold N a aq in Hcells.
  pose proof (square_small n m lo hi Hpad Hex) as Hsmall.
  destruct (dual_feasible_exact n m (rationals cz) (inject_Z lo) (inject_Z hi))
    as [Hall (sq & Hsq & Hlastq & Hfq & Htq)];
    [by apply rationals_range| |by apply exact_narrow|].
  { intros Hnm. cbn [num_pad Q_num]. rewrite <- !Zle_Qle. by apply Hpad. }
  fold N aq in Hall, Hsq, Hlastq, Hfq, Htq.
  split.
  - intros sf Hsf. apply list_elem_of_lookup in Hsf as [i Hi].
    destruct (Forall2_lookup_l _ _ _ _ _ Hpts Hi) as (sq' & Hi' & Hsw).
    destruct (Hall sq' (list_elem_of_lookup_2 _ _ _ Hi')) as (Hrows & Hf1 & Hf2).
    assert (rows_set sf = rows_set sq') as Hrs.
    { unfold rows_set. destruct Hsw as [Hsim _].
      by rewrite (sim_p _ _ _ Hsim), (sim_used _ _ _ Hsim). }
    split.
    + rewrite Hrs. by apply (feasible_transfer N a aq (magnitude lo hi) _ sf sq').
    + intros Hlo. apply (feasible_transfer N a aq (magnitude lo hi) N sf sq');
        [done|done|done|done|].
      apply Hf2. change 0%Q with (inject_Z 0). by rewrite <- Zle_Qle.
  - destruct (solve_exact n m cz lo hi Hwf Hin Hpad Hex N (le_n _))
      as (sf & sq' & Hsf & Hsq' & Hsim & Hinv).
    fold N a aq in Hsf, Hsq', Hinv. rewrite Hsq in Hsq'. injection Hsq' as <-.
    assert (list.last (solve_points N N a) = Some sf) as Hlastf
      by (by apply outer_points_last).
    assert (sim_within N (magnitude lo hi) sf sq) as Hsw.
    { rewrite last_lookup in Hlastf. rewrite last_lookup in Hlastq.
      destruct (Forall2_lookup_l _ _ _ _ _ Hpts Hlastf) as (sq' & Hi' & Hsw).
      rewrite (Forall2_length Hpts) in Hi'. rewrite Hlastq in Hi'.
      by injection Hi' as <-. }
    exists sf. split_and!; [done|done| |].
    + by apply (feasible_transfer N a aq (magnitude lo hi) N sf sq).
    + apply (tight_transfer N a aq (magnitude lo hi) sf sq); [done|done|done| |done].
      apply (r_match _ _ _ (o_rest _ _ _ _ _ _ Hinv)).
Qed.

Lemma dual_feasible_throughout_binary64_witness :
  (∀ st, st ∈ solve_points 3 3 (pad_matrix 3 2 3 (doubles [ [ 4; 1; 3 ]; [ 2; 0; 5 ] ]%Z)) →
         feasible_binary64 3 (pad_matrix 3 2 3 (doubles [ [ 4; 1; 3 ]; [ 2; 0; 5 ] ]%Z))
                           (rows_set st) st ∧
         ((0 ≤ 0)%Z →
          feasible_binary64 3 (pad_matrix 3 2 3 (doubles [ [ 4; 1; 3 ]; [ 2; 0; 5 ] ]%Z))
                            3 st)) ∧
  (∃ st, solve 3 3 (pad_matrix 3 2 3 (doubles [ [ 4; 1; 3 ]; [ 2; 0; 5 ] ]%Z)) = Some st ∧
         list.last (solve_points 3 3
                      (pad_matrix 3 2 3 (doubles [ [ 4; 1; 3 ]; [ 2; 0; 5 ] ]%Z)))
         = Some st ∧
         feasible_binary64 3 (pad_matrix 3 2 3 (doubles [ [ 4; 1; 3 ]; [ 2; 0; 5 ] ]%Z))
                           3 st ∧
         tight_binary64 3 (pad_matrix 3 2 3 (doubles [ [ 4; 1; 3 ]; [ 2; 0; 5 ] ]%Z)) st).
Proof.
  apply (dual_feasible_throughout_binary64 2 3 [ [ 4; 1; 3 ]; [ 2; 0; 5 ] ]%Z 0 (10 ^ 9)).
  - split; [reflexivity|]. intros row Hrow.
    repeat (apply elem_of_cons in Hrow as [->|Hrow]; [reflexivity|]).
    by apply elem_of_nil in Hrow.
  - intros [|[|i]] [|[|[|j]]] Hi Hj; try lia; vm_compute; split; discriminate.
  - intros _. vm_compute. split; discriminate.
  - vm_compute. reflexivity.
Defined.

(** ** Relabelling workers and jobs *)

(** A list without repetition that fills a range is an enumeration of it. *)
Lemma NoDup_range_perm (l : list nat) (s N : nat) :
  NoDup l → length l = N → (∀ x, x ∈ l → s ≤ x < s + N) → l ≡ₚ seq s N.
Proof.
  intros Hnd Hlen Hr. apply submseteq_length_Permutation.
  - apply NoDup_submseteq; [done|]. intros x Hx. apply elem_of_seq.
    specialize (Hr x Hx). lia.
  - rewrite length_seq. lia.
Qed.

(** The position of [i] in [σ]. *)
Definition position (σ : list nat) (i : nat) : nat :=
  default 0 (fst <$> list_find (λ x, x = i) σ).

(** The inverse of the permutation [σ]. *)
Definition inverse (σ : list nat) : list nat :=
  position σ <$> seq 0 (length σ).

Lemma position_spec (σ : list nat) (n i : nat) :
  σ ≡ₚ seq 0 n → i < n → position σ i < n ∧ σ !!! position σ i = i.
Proof.
  intros Hp Hi.
  assert (i ∈ σ) as Hin by (rewrite Hp; apply elem_of_seq; lia).
  destruct (list_find_elem_of (λ x, x = i) σ i Hin eq_refl) as [[k x] Hf].
  unfold position. rewrite Hf. simpl.
  apply list_find_Some in Hf as (Hk & -> & _).
  split.
  - apply lookup_lt_Some in Hk. rewrite Hp, length_seq in Hk. done.
  - by apply list_lookup_total_correct.
Qed.

Lemma inverse_length (σ : list nat) : length (inverse σ) = length σ.
Proof. unfold inverse. by rewrite length_fmap, length_seq. Qed.

Lemma inverse_lookup (σ : list nat) (n i : nat) :
  σ ≡ₚ seq 0 n → i < n → inverse σ !!! i = position σ i.
Proof.
  intros Hp Hi. unfold inverse.
  assert (length σ = n) as Hlen by (rewrite Hp; apply length_seq).
  rewrite list_lookup_total_alt, list_lookup_fmap, lookup_seq_lt by lia. done.
Qed.

Lemma inverse_right (σ : list nat) (n i : nat) :
  σ ≡ₚ seq 0 n → i < n → inverse σ !!! i < n ∧ σ !!! (inverse σ !!! i) = i.
Proof.
  intros Hp Hi. rewrite (inverse_lookup σ n i Hp Hi). by apply position_spec.
Qed.

Lemma perm_lookup_inj (σ : list nat) (n i k : nat) :
  σ ≡ₚ seq 0 n → i < n → k < n → σ !!! i = σ !!! k → i = k.
Proof.
  intros Hp Hi Hk Heq.
  assert (length σ = n) as Hlen by (rewrite Hp; apply length_seq).
  assert (NoDup σ) as Hnd by (rewrite Hp; apply NoDup_seq).
  apply (NoDup_lookup σ i k (σ !!! i)); [done| |].
  - apply list_lookup_lookup_total_lt. lia.
  - rewrite Heq. apply list_lookup_lookup_total_lt. lia.
Qed.

Lemma inverse_left (σ : list nat) (n i : nat) :
  σ ≡ₚ seq 0 n → i < n → inverse σ !!! (σ !!! i) = i.
Proof.
  intros Hp Hi. pose proof (perm_bound n σ i Hp Hi) as Hb.
  destruct (inverse_right σ n (σ !!! i) Hp Hb) as [Hlt Heq].
  by apply (perm_lookup_inj σ n).
Qed.

Lemma inverse_perm (σ : list nat) (n : nat) :
  σ ≡ₚ seq 0 n → inverse σ ≡ₚ seq 0 n.
Proof.
  intros Hp.
  assert (length σ = n) as Hlen by (rewrite Hp; apply length_seq).
  apply NoDup_range_perm.
  - unfold inverse. apply NoDup_fmap_2_strong; [|apply NoDup_seq].
    intros x y Hx Hy Heq. apply elem_of_seq in Hx, Hy.
    destruct (position_spec σ n x Hp ltac:(lia)) as [_ Ex].
    destruct (position_spec σ n y Hp ltac:(lia)) as [_ Ey].
    rewrite Heq in Ex. congruence.
  - by rewrite inverse_length.
  - intros x Hx. unfold inverse in Hx.
    apply list_elem_of_fmap in Hx as (i & -> & Hi). apply elem_of_seq in Hi.
    destruct (position_spec σ n i Hp ltac:(lia)). lia.
Qed.

(** The matrix whose row [i] is the row [σ[i]] of [cost] and whose column
    [j] is its column [τ[j]]. *)
Definition permute {A : Type} `{Inhabited A} (σ τ : list nat)
    (cost : list (list A)) : list (list A) :=
  (λ i, (λ j, (cost !!! i) !!! j) <$> τ) <$> σ.

Lemma permute_lookup {A : Type} `{Inhabited A} (σ τ : list nat)
    (cost : list (list A)) (i j : nat) :
  i < length σ → j < length τ →
  (permute σ τ cost !!! i) !!! j = (cost !!! (σ !!! i)) !!! (τ !!! j).
Proof.
  intros Hi Hj. unfold permute.
  rewrite (list_lookup_total_alt _ i), list_lookup_fmap.
  rewrite (list_lookup_lookup_total_lt σ i Hi). simpl.
  rewrite (list_lookup_total_alt _ j), list_lookup_fmap.
  rewrite (list_lookup_lookup_total_lt τ j Hj). done.
Qed.

Lemma permute_wf {A : Type} `{Inhabited A} (σ τ : list nat) (cost : list (list A)) :
  cost_wf (length σ) (length τ) (permute σ τ cost).
Proof.
  split.
  - unfold permute. by rewrite length_fmap.
  - intros row Hrow. unfold permute in Hrow.
    apply list_elem_of_fmap in Hrow as (i & -> & _). by rewrite length_fmap.
Qed.

(** [cost'] is [cost] with rows relabelled by [σ] and columns by [τ]. *)
Definition relabelled (n m : nat) (σ τ : list nat) (cost cost' : list (list Q)) : Prop :=
  ∀ i j, i < n → j < m → (cost' !!! i) !!! j = (cost !!! (σ !!! i)) !!! (τ !!! j).

Lemma relabelled_inverse (n m : nat) (σ τ : list nat) (cost cost' : list (list Q)) :
  σ ≡ₚ seq 0 n → τ ≡ₚ seq 0 m → relabelled n m σ τ cost cost' →
  relabelled n m (inverse σ) (inverse τ) cost' cost.
Proof.
  intros Hσ Hτ Hrel i j Hi Hj.
  destruct (inverse_right σ n i Hσ Hi) as [Hbi Hei].
  destruct (inverse_right τ m j Hτ Hj) as [Hbj Hej].
  rewrite (Hrel _ _ Hbi Hbj), Hei, Hej. done.
Qed.

Lemma relabelled_range (n m : nat) (σ τ : list nat) (cost cost' : list (list Q))
    (lo hi : Q) :
  σ ≡ₚ seq 0 n → τ ≡ₚ seq 0 m → relabelled n m σ τ cost cost' →
  in_range lo hi n m cost → in_range lo hi n m cost'.
Proof.
  intros Hσ Hτ Hrel Hin i j Hi Hj. rewrite (Hrel i j Hi Hj).
  apply Hin; by apply perm_bound.
Qed.

(** The relabelling on the padded square: the real rows follow [σ], the
    padding rows stay where they are. *)
Definition pad_label (σ : list nat) (i : nat) : nat :=
  if decide (1 ≤ i ≤ length σ) then S (σ !!! (i - 1)) else i.

Lemma pad_label_bound (σ : list nat) (n N i : nat) :
  σ ≡ₚ seq 0 n → n ≤ N → 1 ≤ i ≤ N →
  1 ≤ pad_label σ i ≤ N ∧ (pad_label σ i ≤ n ↔ i ≤ n).
Proof.
  intros Hp Hn Hi.
  assert (length σ = n) as Hlen by (rewrite Hp; apply length_seq).
  unfold pad_label. rewrite Hlen. destruct (decide _) as [Hd|Hd].
  - pose proof (perm_bound n σ (i - 1) Hp ltac:(lia)). lia.
  - lia.
Qed.

Lemma pad_label_perm (σ : list nat) (n N : nat) :
  σ ≡ₚ seq 0 n → n ≤ N → pad_label σ <$> seq 1 N ≡ₚ seq 1 N.
Proof.
  intros Hp Hn.
  assert (length σ = n) as Hlen by (rewrite Hp; apply length_seq).
  apply NoDup_range_perm.
  - apply NoDup_fmap_2_strong; [|apply NoDup_seq].
    intros x y Hx Hy Heq. apply elem_of_seq in Hx, Hy.
    destruct (pad_label_bound σ n N x Hp Hn ltac:(lia)) as [_ Hxn].
    destruct (pad_label_bound σ n N y Hp Hn ltac:(lia)) as [_ Hyn].
    unfold pad_label in *. rewrite Hlen in *.
    destruct (decide (1 ≤ x ≤ n)) as [Hdx|Hdx];
      destruct (decide (1 ≤ y ≤ n)) as [Hdy|Hdy]; try lia.
    assert (x - 1 = y - 1); [|lia].
    apply (perm_lookup_inj σ n); [done|lia|lia|lia].
  - by rewrite length_fmap, length_seq.
  - intros x Hx. apply list_elem_of_fmap in Hx as (i & -> & Hi).
    apply elem_of_seq in Hi.
    destruct (pad_label_bound σ n N i Hp Hn ltac:(lia)). lia.
Qed.

(** The padded square of the relabelled matrix is the relabelled padded
    square. *)
Lemma padded_relabelled (n m : nat) (σ τ : list nat) (cost cost' : list (list Q))
    (i j : nat) :
  σ ≡ₚ seq 0 n → τ ≡ₚ seq 0 m → relabelled n m σ τ cost cost' →
  1 ≤ i ≤ n `max` m → 1 ≤ j ≤ n `max` m →
  (pad_matrix (n `max` m) (Z.of_nat n) (Z.of_nat m) cost' !!! i) !!! j
  = (pad_matrix (n `max` m) (Z.of_nat n) (Z.of_nat m) cost !!! pad_label σ i)
      !!! pad_label τ j.
Proof.
  intros Hσ Hτ Hrel Hi Hj.
  destruct (pad_label_bound σ n (n `max` m) i Hσ ltac:(lia) Hi) as [Hbi Hni].
  destruct (pad_label_bound τ m (n `max` m) j Hτ ltac:(lia) Hj) as [Hbj Hmj].
  rewrite !pad_matrix_lookup by lia. unfold pad_cell.
  assert (length σ = n) as Hlσ by (rewrite Hσ; apply length_seq).
  assert (length τ = m) as Hlτ by (rewrite Hτ; apply length_seq).
  repeat case_bool_decide; try lia; try reflexivity.
  rewrite (Hrel (i - 1) (j - 1)) by lia.
  unfold pad_label. rewrite Hlσ, Hlτ.
  rewrite !decide_True by lia. simpl. by rewrite !Nat.sub_0_r.
Qed.

(** Weak duality, for any feasible pair of potentials. *)
Lemma weak_duality (N : nat) (a : list (list Q)) (f g : nat → Q) (ps : list nat) :
  (∀ i j, 1 ≤ i ≤ N → 1 ≤ j ≤ N → (f i + g j <= (a !!! i) !!! j)%Q) →
  matching N N ps →
  (Qsum (f <$> seq 1 N) + Qsum (g <$> seq 1 N) <= square_cost N a ps)%Q.
Proof.
  intros Hf Hm.
  assert (Qsum (f <$> seq 1 N) == Qsum ((λ j, f (ps !!! j)) <$> seq 1 N))%Q as ->.
  { trans (Qsum (f <$> ((λ j, ps !!! j) <$> seq 1 N))).
    - apply Qsum_perm, fmap_Permutation. symmetry. by apply matching_perm.
    - by rewrite <- list_fmap_compose. }
  rewrite <- Qsum_fmap_plus. unfold square_cost.
  apply Qsum_fmap_le. intros j Hj. apply elem_of_seq in Hj.
  pose proof (matching_full N ps j Hm ltac:(lia)).
  apply Hf; lia.
Qed.

(** The least cost on the square is not above the cost of any matching of
    the relabelled square. *)
Lemma relabelled_optimum_le (n m : nat) (σ τ : list nat)
    (cost cost' : list (list Q)) (lo hi : Q) (st : state Q) (ps : list nat) :
  let N := n `max` m in
  σ ≡ₚ seq 0 n → τ ≡ₚ seq 0 m → relabelled n m σ τ cost cost' →
  outer_inv N (pad_matrix N (Z.of_nat n) (Z.of_nat m) cost) lo hi N st →
  matching N N ps →
  (square_cost N (pad_matrix N (Z.of_nat n) (Z.of_nat m) cost) (p st)
   <= square_cost N (pad_matrix N (Z.of_nat n) (Z.of_nat m) cost') ps)%Q.
Proof.
  intros N Hσ Hτ Hrel Hinv Hm.
  rewrite (dual_reached _ _ _ _ _ Hinv). unfold dual_value.
  assert (Qsum ((λ i, u st !!! i) <$> seq 1 N)
          == Qsum ((λ i, u st !!! pad_label σ i) <$> seq 1 N))%Q as ->.
  { trans (Qsum ((λ i, u st !!! i) <$> (pad_label σ <$> seq 1 N))).
    - apply Qsum_perm, fmap_Permutation. symmetry.
      apply (pad_label_perm σ n); [done|lia].
    - by rewrite <- list_fmap_compose. }
  assert (Qsum ((λ j, v st !!! j) <$> seq 1 N)
          == Qsum ((λ j, v st !!! pad_label τ j) <$> seq 1 N))%Q as ->.
  { trans (Qsum ((λ j, v st !!! j) <$> (pad_label τ <$> seq 1 N))).
    - apply Qsum_perm, fmap_Permutation. symmetry.
      apply (pad_label_perm τ m); [done|lia].
    - by rewrite <- list_fmap_compose. }
  apply weak_duality; [|done].
  intros i j Hi Hj. unfold N.
  rewrite (padded_relabelled n m σ τ cost cost' i j Hσ Hτ Hrel Hi Hj).
  destruct (pad_label_bound σ n N i Hσ ltac:(lia) Hi) as [Hbi _].
  destruct (pad_label_bound τ m N j Hτ ltac:(lia) Hj) as [Hbj _].
  pose proof (o_feas _ _ _ _ _ _ Hinv _ _ Hbi Hbj) as Hfe.
  unfold sl in Hfe. unfold N in *. qarith.
Qed.

Lemma Qsum_app (l l' : list Q) : (Qsum (l ++ l') == Qsum l + Qsum l')%Q.
Proof. induction l as [|x l IH]; cbn [app Qsum]; [lra|]. rewrite IH. lra. Qed.

Lemma Qsum_indicator {A : Type} (P : A → Prop) `{∀ x, Decision (P x)} (c : Q)
    (l : list A) :
  (Qsum ((λ x, if bool_decide (P x) then 0 else c) <$> l)
   == natQ (length (filter (λ x, ¬ P x) l)) * c)%Q.
Proof.
  induction l as [|x l IH].
  - cbn. unfold natQ. simpl. ring.
  - rewrite fmap_cons, filter_cons. cbn [Qsum]. rewrite IH.
    case_bool_decide as HP.
    + rewrite decide_False by tauto. lra.
    + rewrite decide_True by done. cbn [length]. rewrite natQ_S. lra.
Qed.

Lemma filter_none_length {A : Type} (P : A → Prop) `{∀ x, Decision (P x)}
    (l : list A) :
  (∀ x, x ∈ l → ¬ P x) → length (filter P l) = 0.
Proof.
  induction l as [|x l IH]; intros Hn; [done|].
  rewrite filter_cons, decide_False by (apply Hn; left).
  apply IH. intros y Hy. apply Hn. by right.
Qed.

Lemma fmap_lookup_seq {A : Type} `{Inhabited A} (l : list A) :
  (λ i, l !!! i) <$> seq 0 (length l) = l.
Proof.
  apply list_eq_same_length with (length l);
    [done|by rewrite length_fmap, length_seq|].
  intros i x y Hi Hx Hy.
  rewrite list_lookup_fmap, lookup_seq_lt in Hx by done. simpl in Hx.
  rewrite (list_lookup_total_correct _ _ _ Hy) in Hx. congruence.
Qed.

(** A cell [(p[j], j)] of the original rectangle. *)
Definition real_cell (n m : nat) (ps : list nat) (j : nat) : Prop :=
  0 < ps !!! j ∧ (Z.of_nat (ps !!! j) ≤ Z.of_nat n)%Z ∧ (Z.of_nat j ≤ Z.of_nat m)%Z.

#[local] Instance real_cell_dec n m ps j : Decision (real_cell n m ps j).
Proof. unfold real_cell. apply _. Defined.

(** Every full matching of the padded square has [min n m] real cells. *)
Lemma real_cell_count (n m : nat) (ps : list nat) :
  matching (n `max` m) (n `max` m) ps →
  length (filter (real_cell n m ps) (seq 1 (n `max` m))) = n `min` m.
Proof.
  intros Hm. rewrite <- (fmap_S_seq 0), filter_fmap_length.
  replace (seq 0 (n `max` m)) with (seq 0 (m + (n `max` m - m)))
    by (f_equal; lia).
  rewrite seq_app, list.filter_app, length_app.
  rewrite (filter_none_length _ (seq (0 + m) _)).
  - rewrite Nat.add_0_r, <- (real_cells_count n m ps Hm). f_equal.
    apply filter_ext_elem. intros j Hj. apply elem_of_seq in Hj.
    unfold real_cell. split; [tauto|]. intros [? ?]. split_and!; [done|done|lia].
  - intros j Hj. apply elem_of_seq in Hj. unfold real_cell. lia.
Qed.

(** The cost of a full matching of the padded square is the total of lines
    69-73 plus one padding cost for each of the [N - min n m] other cells. *)
Lemma padded_total (n m : nat) (cost : list (list Q)) (ps : list nat) :
  matching (n `max` m) (n `max` m) ps →
  (square_cost (n `max` m)
     (pad_matrix (n `max` m) (Z.of_nat n) (Z.of_nat m) cost) ps
   == total (n `max` m) (Z.of_nat n) (Z.of_nat m) cost ps
      + natQ (n `max` m - n `min` m) * PAD)%Q.
Proof.
  intros Hm. rewrite total_sum. unfold square_cost.
  trans (Qsum ((λ j, cell_value (Z.of_nat n) (Z.of_nat m) cost ps j
                     + (if bool_decide (real_cell n m ps j) then 0 else PAD))%Q
               <$> seq 1 (n `max` m))).
  - apply Qsum_fmap_eq. intros j Hj. apply elem_of_seq in Hj.
    pose proof (matching_full _ ps j Hm ltac:(lia)).
    rewrite pad_matrix_lookup by lia.
    unfold pad_cell, cell_value, real_cell.
    repeat case_bool_decide; try lia; qarith.
  - rewrite Qsum_fmap_plus, Qsum_indicator.
    pose proof (filter_compl_length (real_cell n m ps) (seq 1 (n `max` m))) as Hc.
    rewrite length_seq, (real_cell_count n m ps Hm) in Hc.
    replace (length (filter (λ x, ¬ real_cell n m ps x) (seq 1 (n `max` m))))
      with (n `max` m - n `min` m) by lia.
    lra.
Qed.

(** The cost of an assignment: what the caller adds up from [match_out],
    [cost[match[j]][j]] over the jobs [j] with [match[j] ≠ -1]. *)
Definition assigned_cost (cost : list (list Q)) (out : list Z) : Q :=
  Qsum ((λ j, if bool_decide (out !!! j = (-1)%Z) then 0%Q
              else (cost !!! Z.to_nat (out !!! j)) !!! j) <$> seq 0 (length out)).

Lemma answers_lookup (n : Z) (ps : list nat) (m j : nat) :
  j < m → (answer n ps <$> seq 0 m) !!! j = answer n ps j.
Proof.
  intros Hj. by rewrite list_lookup_total_alt, list_lookup_fmap, lookup_seq_lt.
Qed.

(** The total returned is the cost of the assignment returned. *)
Lemma total_assigned (n m : nat) (cost : list (list Q)) (ps : list nat) :
  (total (n `max` m) (Z.of_nat n) (Z.of_nat m) cost ps
   == assigned_cost cost (answer (Z.of_nat n) ps <$> seq 0 m))%Q.
Proof.
  rewrite total_sum. unfold assigned_cost. rewrite length_fmap, length_seq.
  rewrite <- (fmap_S_seq 0), <- list_fmap_compose.
  replace (seq 0 (n `max` m)) with (seq 0 (m + (n `max` m - m)))
    by (f_equal; lia).
  rewrite seq_app, fmap_app, Qsum_app.
  assert (Qsum (cell_value (Z.of_nat n) (Z.of_nat m) cost ps ∘ S
                <$> seq (0 + m) (n `max` m - m)) == 0)%Q as ->.
  { rewrite (Qsum_fmap_eq _ (λ _, 0%Q)), Qsum_fmap_const; [ring|].
    intros j Hj. apply elem_of_seq in Hj. simpl. unfold cell_value.
    rewrite bool_decide_eq_false_2 by lia. lra. }
  rewrite Qplus_0_r. apply Qsum_fmap_eq. intros j Hj. apply elem_of_seq in Hj.
  simpl. rewrite answers_lookup by lia. unfold cell_value, answer.
  repeat case_bool_decide; try lia; try lra.
  replace (Z.to_nat (Z.of_nat (ps !!! S j) - 1)) with (ps !!! S j - 1) by lia.
  replace (S j - 1) with j by lia. lra.
Qed.

(** The original name of a worker of the relabelled matrix. *)
Definition relabel_worker (σ : list nat) (x : Z) : Z :=
  if bool_decide (x = (-1)%Z) then (-1)%Z else Z.of_nat (σ !!! Z.to_nat x).

(** The assignment of the original matrix that an assignment [out'] of the
    relabelled one stands for: the job [τ[j]] gets the worker
    [σ[out'[j]]]. *)
Definition transport_back (σ τ : list nat) (out' : list Z) : list Z :=
  (λ j, relabel_worker σ (out' !!! (inverse τ !!! j))) <$> seq 0 (length τ).

Lemma relabel_worker_none (σ : list nat) (x : Z) :
  relabel_worker σ x = (-1)%Z ↔ x = (-1)%Z.
Proof. unfold relabel_worker. case_bool_decide; [done|lia]. Qed.

Lemma transport_back_lookup (σ τ : list nat) (out' : list Z) (m j : nat) :
  τ ≡ₚ seq 0 m → j < m →
  transport_back σ τ out' !!! j = relabel_worker σ (out' !!! (inverse τ !!! j)).
Proof.
  intros Hτ Hj. unfold transport_back.
  assert (length τ = m) as -> by (rewrite Hτ; apply length_seq).
  by rewrite list_lookup_total_alt, list_lookup_fmap, lookup_seq_lt.
Qed.

Lemma transport_back_length (σ τ : list nat) (out' : list Z) :
  length (transport_back σ τ out') = length τ.
Proof. unfold transport_back. by rewrite length_fmap, length_seq. Qed.

Lemma valid_lookup (n : Z) (m : nat) (out : list Z) (j : nat) :
  valid_assignment n m out → j < m →
  out !! j = Some (out !!! j) ∧ (out !!! j = (-1)%Z ∨ (0 ≤ out !!! j < n)%Z).
Proof.
  intros (Hlen & Hr & _) Hj.
  assert (out !! j = Some (out !!! j)) as Hl
    by (apply list_lookup_lookup_total_lt; lia).
  split; [done|]. by apply (Hr j).
Qed.

Lemma filter_lookup_length {A : Type} `{Inhabited A} (P : A → Prop)
    `{∀ x, Decision (P x)} (l : list A) :
  length (filter P l) = length (filter (λ i, P (l !!! i)) (seq 0 (length l))).
Proof.
  by rewrite <- (filter_fmap_length (λ i, l !!! i) P (seq 0 (length l))),
       fmap_lookup_seq.
Qed.

Lemma Qsum_lookup {A : Type} `{Inhabited A} (F : A → Q) (l : list A) :
  Qsum (F <$> l) = Qsum ((λ i, F (l !!! i)) <$> seq 0 (length l)).
Proof.
  trans (Qsum (F <$> ((λ i, l !!! i) <$> seq 0 (length l)))).
  - by rewrite fmap_lookup_seq.
  - by rewrite <- list_fmap_compose.
Qed.

Section Transport.
Variables n m : nat.
Variables σ τ : list nat.
Hypothesis σ_perm : σ ≡ₚ seq 0 n.
Hypothesis τ_perm : τ ≡ₚ seq 0 m.
Variable out' : list Z.
Hypothesis out'_valid : valid_assignment (Z.of_nat n) m out'.

Lemma transport_back_valid :
  valid_assignment (Z.of_nat n) m (transport_back σ τ out').
Proof.
  assert (length τ = m) as Hlτ by (rewrite τ_perm; apply length_seq).
  assert (∀ j x, transport_back σ τ out' !! j = Some x →
                 j < m ∧ x = relabel_worker σ (out' !!! (inverse τ !!! j))) as Hget.
  { intros j x Hx. pose proof (lookup_lt_Some _ _ _ Hx) as Hj.
    rewrite transport_back_length, Hlτ in Hj. split; [done|].
    rewrite <- (transport_back_lookup σ τ out' m j τ_perm Hj).
    symmetry. by apply list_lookup_total_correct. }
  split_and!.
  - by rewrite transport_back_length.
  - intros j x Hx. destruct (Hget j x Hx) as [Hj ->].
    destruct (inverse_right τ m j τ_perm Hj) as [Hk _].
    destruct (valid_lookup _ _ _ _ out'_valid Hk) as [_ [Hy|Hy]].
    + left. by apply relabel_worker_none.
    + right. unfold relabel_worker. rewrite bool_decide_eq_false_2 by lia.
      pose proof (perm_bound n σ (Z.to_nat (out' !!! (inverse τ !!! j))) σ_perm
                    ltac:(lia)). lia.
  - intros j j' x Hx Hx' Hne.
    destruct (Hget j x Hx) as [Hj Ex]. destruct (Hget j' x Hx') as [Hj' Ex'].
    destruct (inverse_right τ m j τ_perm Hj) as [Hk Hτk].
    destruct (inverse_right τ m j' τ_perm Hj') as [Hk' Hτk'].
    destruct (valid_lookup _ _ _ _ out'_valid Hk) as [Hl [Hy|Hy]].
    { apply (relabel_worker_none σ) in Hy. congruence. }
    destruct (valid_lookup _ _ _ _ out'_valid Hk') as [Hl' [Hy'|Hy']].
    { apply (relabel_worker_none σ) in Hy'. congruence. }
    unfold relabel_worker in Ex, Ex'.
    rewrite bool_decide_eq_false_2 in Ex, Ex' by lia.
    assert (Z.to_nat (out' !!! (inverse τ !!! j))
            = Z.to_nat (out' !!! (inverse τ !!! j'))) as Heq.
    { apply (perm_lookup_inj σ n); [done|lia|lia|lia]. }
    assert (out' !!! (inverse τ !!! j) = out' !!! (inverse τ !!! j')) as Heq'
      by lia.
    destruct out'_valid as (_ & _ & Hinj).
    assert (inverse τ !!! j = inverse τ !!! j') as Hkk.
    { apply (Hinj _ _ (out' !!! (inverse τ !!! j))); [done|by rewrite Heq'|lia]. }
    rewrite <- Hτk, <- Hτk', Hkk. done.
Qed.

Lemma transport_back_served :
  jobs_with_worker (transport_back σ τ out') = jobs_with_worker out'.
Proof.
  assert (length τ = m) as Hlτ by (rewrite τ_perm; apply length_seq).
  assert (length out' = m) as Hlo by apply out'_valid.
  unfold jobs_with_worker, transport_back.
  rewrite filter_fmap_length, Hlτ.
  trans (length (filter (λ k, out' !!! k ≠ (-1)%Z) (inverse τ))).
  - rewrite (filter_lookup_length _ (inverse τ)), inverse_length, Hlτ. f_equal.
    apply filter_ext_elem. intros j _. by rewrite relabel_worker_none.
  - rewrite (inverse_perm τ m τ_perm).
    by rewrite (filter_lookup_length (λ x, x ≠ (-1)%Z) out'), Hlo.
Qed.

Lemma transport_back_cost (cost cost' : list (list Q)) :
  relabelled n m σ τ cost cost' →
  (assigned_cost cost (transport_back σ τ out') == assigned_cost cost' out')%Q.
Proof.
  intros Hrel.
  assert (length τ = m) as Hlτ by (rewrite τ_perm; apply length_seq).
  assert (length out' = m) as Hlo by apply out'_valid.
  unfold assigned_cost. rewrite transport_back_length, Hlτ, Hlo.
  set (F := λ k, if bool_decide (out' !!! k = (-1)%Z) then 0%Q
                 else (cost' !!! Z.to_nat (out' !!! k)) !!! k).
  trans (Qsum (F <$> inverse τ)).
  - rewrite (Qsum_lookup F (inverse τ)), inverse_length, Hlτ.
    apply Qsum_fmap_eq. intros j Hj. apply elem_of_seq in Hj. simpl.
    rewrite (transport_back_lookup σ τ out' m j τ_perm) by lia.
    destruct (inverse_right τ m j τ_perm ltac:(lia)) as [Hk Hτk].
    destruct (valid_lookup _ _ _ _ out'_valid Hk) as [_ Hy].
    unfold F, relabel_worker. repeat case_bool_decide; try lia; try lra.
    assert (Z.to_nat (out' !!! (inverse τ !!! j)) < n) as Hw by lia.
    rewrite Nat2Z.id, (Hrel _ _ Hw Hk), Hτk. lra.
  - apply Qsum_perm, fmap_Permutation. by apply inverse_perm.
Qed.

Lemma transport_back_eq (out : list Z) (j : nat) :
  transport_back σ τ out' = out → j < m →
  out !!! (τ !!! j) = relabel_worker σ (out' !!! j).
Proof.
  intros <- Hj. pose proof (perm_bound m τ j τ_perm Hj) as Hb.
  rewrite (transport_back_lookup σ τ out' m _ τ_perm Hb).
  by rewrite (inverse_left τ m j τ_perm Hj).
Qed.

End Transport.

(** ** Permutation of the rows and columns *)

(** [out] is the one cheapest assignment: every other valid assignment
    that serves [min n m] jobs costs strictly more. *)
Definition sole_optimum (n m : nat) (cost : list (list Q)) (out : list Z) : Prop :=
  ∀ o, valid_assignment (Z.of_nat n) m o → jobs_with_worker o = n `min` m →
       o ≠ out → (assigned_cost cost out < assigned_cost cost o)%Q.

(** Two assignments of the same cost. *)
Definition tied_costs : list (list Q) := [ [ 1; 2 ]; [ 2; 3 ] ]%Q.

(** Costs in tenths, as binary64 numbers, with one cheapest assignment. *)
Definition tenths_c : list (list float) :=
  [ [ 0.5; 0.6; 0.9 ]; [ 0.1; 0.8; 0.4 ]; [ 0.1; 0.3; 0.2 ] ]%float.

(** Small costs, as binary64 numbers: beside the padding cost [1e9] they
    are lost in the rounding of the potentials. *)
Definition tiny_costs : list (list float) :=
  [ [ 2.1e-7; 1.4e-7 ]; [ 4e-7; 4.7e-7 ]; [ 4.7e-7; 1.8e-7 ] ]%float.

(** C8, as stated, fails.  With two assignments of the same cost, swapping
    the two rows of [tied_costs] leaves the assignment returned as it was,
    not relabelled.  With costs beyond [INF], swapping the two columns of
    [huge_costs] changes the total from [3e18] to [2e18].  In binary64,
    swapping the last two columns of [tenths_c] changes the total returned,
    by the order of the additions of lines 69-73; and on the 3×2 matrix
    [tiny_costs] moving the last row to the front changes the total from
    [5.4e-7] to [3.9e-7], the assignment found being no longer a cheapest
    one. *)
Lemma permutation_changes_result :
  (∃ res out res' out',
     hungarian 2 2 2 tied_costs [0; 0]%Z = Some (res, out) ∧
     hungarian 2 2 2 (permute [1; 0] [0; 1] tied_costs) [0; 0]%Z
     = Some (res', out') ∧
     out !!! ([0; 1] !!! 0) ≠ relabel_worker [1; 0] (out' !!! 0)) ∧
  (∃ res out res' out',
     hungarian 3 2 2 huge_costs [0; 0]%Z = Some (res, out) ∧
     hungarian 3 2 2 (permute [0; 1] [1; 0] huge_costs) [0; 0]%Z
     = Some (res', out') ∧
     (res' < res)%Q) ∧
  (∃ res out res' out',
     hungarian 3 3 3 tenths_c [0; 0; 0]%Z = Some (res, out) ∧
     hungarian 3 3 3 (permute [0; 1; 2] [0; 2; 1] tenths_c) [0; 0; 0]%Z
     = Some (res', out') ∧
     num_ltb res res' = true) ∧
  (∃ res out res' out',
     hungarian 3 3 2 tiny_costs [0; 0]%Z = Some (res, out) ∧
     hungarian 3 3 2 (permute [2; 0; 1] [0; 1] tiny_costs) [0; 0]%Z
     = Some (res', out') ∧
     num_ltb res' res = true ∧
     num_ltb (num_add res' 1e-7%float) res = true).
Proof.
  split_and!.
  - exists 4%Q, [0; 1]%Z, 4%Q, [0; 1]%Z.
    split_and!; [vm_compute; reflexivity|vm_compute; reflexivity|].
    vm_compute. discriminate.
  - exists 3000000000000000000%Q, [0; 1]%Z, 2000000000000000000%Q, [0; 1]%Z.
    split_and!; vm_compute; reflexivity.
  - destruct (hungarian 3 3 3 tenths_c [0; 0; 0]%Z) as [[res out]|] eqn:H1;
      [|vm_compute in H1; discriminate].
    destruct (hungarian 3 3 3 (permute [0; 1; 2] [0; 2; 1] tenths_c) [0; 0; 0]%Z)
      as [[res' out']|] eqn:H2; [|vm_compute in H2; discriminate].
    exists res, out, res', out'. split_and!; [done|done|].
    vm_compute in H1, H2. injection H1 as <- _. injection H2 as <- _.
    vm_compute. reflexivity.
  - destruct (hungarian 3 3 2 tiny_costs [0; 0]%Z) as [[res out]|] eqn:H1;
      [|vm_compute in H1; discriminate].
    destruct (hungarian 3 3 2 (permute [2; 0; 1] [0; 1] tiny_costs) [0; 0]%Z)
      as [[res' out']|] eqn:H2; [|vm_compute in H2; discriminate].
    exists res, out, res', out'. split_and!; [done|done|..];
      vm_compute in H1, H2; injection H1 as <- _; injection H2 as <- _;
      vm_compute; reflexivity.
Qed.

(** Over the rationals: for every [n × m] matrix whose costs (and the
    padding cost [1e9], when [n ≠ m]) lie in a range [[lo, hi]] with
    [hi + N (hi - lo) < 1e18] and [N (hi - lo) < 1e18], [N = max n m], and
    for all permutations [σ] of its rows and [τ] of its columns, the solver
    returns on both matrices, with the same total; and when the assignment
    returned for the original matrix is strictly cheaper than every other
    assignment serving [min n m] jobs, the assignment returned for the
    permuted matrix is that one relabelled: job [τ[j]] of the original has
    the worker [σ[w]] exactly when job [j] of the permuted matrix has the
    worker [w]. *)
Lemma permutation_invariance (n m : nat) (cost : list (list Q)) (lo hi : Q)
    (σ τ : list nat) (out0 : list Z) :
  in_range lo hi n m cost → (n ≠ m → (lo <= PAD <= hi)%Q) →
  narrow (n `max` m) lo hi → length out0 = m →
  σ ≡ₚ seq 0 n → τ ≡ₚ seq 0 m →
  ∃ res out res' out',
    hungarian (n `max` m) (Z.of_nat n) (Z.of_nat m) cost out0 = Some (res, out) ∧
    hungarian (n `max` m) (Z.of_nat n) (Z.of_nat m) (permute σ τ cost) out0
    = Some (res', out') ∧
    (res' == res)%Q ∧
    (sole_optimum n m cost out →
     ∀ j, j < m → out !!! (τ !!! j) = relabel_worker σ (out' !!! j)).
Proof.
  intros Hin Hpad Hnar Hlen Hσ Hτ.
  assert (length σ = n) as Hlσ by (rewrite Hσ; apply length_seq).
  assert (length τ = m) as Hlτ by (rewrite Hτ; apply length_seq).
  assert (relabelled n m σ τ cost (permute σ τ cost)) as Hrel.
  { intros i j Hi Hj. apply permute_lookup; lia. }
  pose proof (relabelled_range n m σ τ cost _ lo hi Hσ Hτ Hrel Hin) as Hin'.
  destruct (hungarian_run n m cost lo hi out0 (n `max` m) Hin Hpad Hnar (le_n _))
    as (st & _ & Hinv & _ & Hh).
  destruct (hungarian_run n m (permute σ τ cost) lo hi out0 (n `max` m)
              Hin' Hpad Hnar (le_n _)) as (st' & _ & Hinv' & _ & Hh').
  pose proof (r_match _ _ _ (o_rest _ _ _ _ _ _ Hinv)) as Hm.
  pose proof (r_match _ _ _ (o_rest _ _ _ _ _ _ Hinv')) as Hm'.
  rewrite write_matches_eq in Hh, Hh' by (rewrite Nat2Z.id; done).
  rewrite Nat2Z.id in Hh, Hh'.
  eexists _, _, _, _. split; [exact Hh|]. split; [exact Hh'|].
  assert (total (n `max` m) (Z.of_nat n) (Z.of_nat m) (permute σ τ cost) (p st')
          == total (n `max` m) (Z.of_nat n) (Z.of_nat m) cost (p st))%Q as Htot.
  { pose proof (relabelled_optimum_le n m σ τ cost _ lo hi st (p st')
                  Hσ Hτ Hrel Hinv Hm') as Hle.
    pose proof (relabelled_optimum_le n m (inverse σ) (inverse τ) _ cost lo hi
                  st' (p st) (inverse_perm σ n Hσ) (inverse_perm τ m Hτ)
                  (relabelled_inverse n m σ τ cost _ Hσ Hτ Hrel) Hinv' Hm) as Hge.
    rewrite (padded_total n m cost (p st) Hm) in Hle, Hge.
    rewrite (padded_total n m (permute σ τ cost) (p st') Hm') in Hle, Hge.
    lra. }
  split; [exact Htot|].
  intros Hsole j Hj.
  pose proof (answers_valid (n `max` m) (Z.of_nat n) (Z.of_nat m) (p st') Hm'
                ltac:(lia)) as Hval.
  rewrite Nat2Z.id in Hval.
  pose proof (answers_serve n m (p st') Hm') as (Hserve & _ & _).
  set (out' := answer (Z.of_nat n) (p st') <$> seq 0 m) in *.
  set (out := answer (Z.of_nat n) (p st) <$> seq 0 m) in *.
  destruct (decide (transport_back σ τ out' = out)) as [Heq|Hne].
  - by apply (transport_back_eq m σ τ Hτ out' out j).
  - exfalso.
    pose proof (Hsole (transport_back σ τ out')
                  (transport_back_valid n m σ τ Hσ Hτ out' Hval)
                  ltac:(by rewrite (transport_back_served n m σ τ Hτ out' Hval))
                  Hne) as Hlt.
    rewrite (transport_back_cost n m σ τ Hτ out' Hval cost _ Hrel) in Hlt.
    unfold out, out' in Hlt. rewrite <- !total_assigned in Hlt. lra.
Qed.

(** Permuting a matrix of integers and handing it over, or handing it over
    and permuting it, is the same. *)
Lemma permute_doubles (n m : nat) (cz : list (list Z)) (σ τ : list nat) :
  cost_wf n m cz → σ ≡ₚ seq 0 n → τ ≡ₚ seq 0 m →
  permute σ τ (doubles cz) = doubles (permute σ τ cz).
Proof.
  intros Hwf Hσ Hτ. unfold permute. unfold doubles at 2.
  rewrite <- list_fmap_compose. apply list_fmap_ext. intros k i Hi.
  cbn [compose]. rewrite <- list_fmap_compose. apply list_fmap_ext. intros l j Hj.
  cbn [compose]. apply (doubles_lookup n m); [done|..].
  - apply list_elem_of_lookup_2 in Hi. rewrite Hσ in Hi. apply elem_of_seq in Hi. lia.
  - apply list_elem_of_lookup_2 in Hj. rewrite Hτ in Hj. apply elem_of_seq in Hj. lia.
Qed.

Lemma permute_rationals (n m : nat) (cz : list (list Z)) (σ τ : list nat) :
  cost_wf n m cz → σ ≡ₚ seq 0 n → τ ≡ₚ seq 0 m →
  permute σ τ (rationals cz) = rationals (permute σ τ cz).
Proof.
  intros Hwf Hσ Hτ. unfold permute. unfold rationals at 2.
  rewrite <- list_fmap_compose. apply list_fmap_ext. intros k i Hi.
  cbn [compose]. rewrite <- list_fmap_compose. apply list_fmap_ext. intros l j Hj.
  cbn [compose]. apply (rationals_lookup n m); [done|..].
  - apply list_elem_of_lookup_2 in Hi. rewrite Hσ in Hi. apply elem_of_seq in Hi. lia.
  - apply list_elem_of_lookup_2 in Hj. rewrite Hτ in Hj. apply elem_of_seq in Hj. lia.
Qed.

Lemma permute_entries (n m : nat) (cz : list (list Z)) (lo hi : Z) (σ τ : list nat) :
  σ ≡ₚ seq 0 n → τ ≡ₚ seq 0 m → entries_in lo hi n m cz →
  cost_wf n m (permute σ τ cz) ∧ entries_in lo hi n m (permute σ τ cz).
Proof.
  intros Hσ Hτ Hin.
  assert (length σ = n) as Hlσ by (rewrite Hσ; apply length_seq).
  assert (length τ = m) as Hlτ by (rewrite Hτ; apply length_seq).
  split.
  - rewrite <- Hlσ, <- Hlτ. apply permute_wf.
  - intros i j Hi Hj. rewrite permute_lookup by lia.
    apply Hin; by apply perm_bound.
Qed.

(** C8, amended: the program, computing in binary64, gives the same total
    for a permuted matrix when the costs are integers that leave the
    arithmetic exact.  For every [n × m] matrix of integers in [[lo, hi]]
    (the padding cost [10^9] included, when [n ≠ m]) with
    [(N + 8) max(|lo|, |hi|) < 2^53], [N = max n m], handed over as doubles,
    and for all permutations [σ] of its rows and [τ] of its columns, the
    call returns on both matrices, with the same double as the total; and
    when the assignment returned for the original matrix is strictly cheaper
    than every other assignment serving [min n m] jobs, the assignment
    returned for the permuted matrix is that one relabelled: job [τ[j]] of
    the original has the worker [σ[w]] exactly when job [j] of the permuted
    matrix has the worker [w]. *)
Theorem permutation_invariance_binary64 (n m : nat) (cz : list (list Z))
    (lo hi : Z) (σ τ : list nat) (out0 : list Z) :
  cost_wf n m cz → entries_in lo hi n m cz →
  (n ≠ m → (lo ≤ 10 ^ 9 ≤ hi)%Z) → exact_range (n `max` m) lo hi →
  length out0 = m → σ ≡ₚ seq 0 n → τ ≡ₚ seq 0 m →
  ∃ res out out',
    hungarian (n `max` m) (Z.of_nat n) (Z.of_nat m) (doubles cz) out0
    = Some (res, out) ∧
    hungarian (n `max` m) (Z.of_nat n) (Z.of_nat m) (permute σ τ (doubles cz)) out0
    = Some (res, out') ∧
    (sole_optimum n m (rationals cz) out →
     ∀ j, j < m → out !!! (τ !!! j) = relabel_worker σ (out' !!! j)).
Proof.
  intros Hwf Hin Hpad Hex Hlen Hσ Hτ.
  destruct (permute_entries n m cz lo hi σ τ Hσ Hτ Hin) as [Hwf' Hin'].
  destruct (hungarian_exact n m cz lo hi Hwf Hin Hpad Hex out0 (n `max` m) (le_n _))
    as (t & out & Hf & Hq & _).
  destruct (hungarian_exact n m (permute σ τ cz) lo hi Hwf' Hin' Hpad Hex out0
              (n `max` m) (le_n _)) as (t' & out' & Hf' & Hq' & _).
  rewrite <- (permute_doubles n m) in Hf' by done.
  rewrite <- (permute_rationals n m) in Hq' by done.
  destruct (permutation_invariance n m (rationals cz) (inject_Z lo) (inject_Z hi)
              σ τ out0) as (res & o & res' & o' & H1 & H2 & Heq & Hsole);
    [by apply rationals_range| |by apply exact_narrow|done|done|done|].
  { intros Hnm. cbn [num_pad Q_num]. rewrite <- !Zle_Qle. by apply Hpad. }
  rewrite Hq in H1. injection H1 as <- <-.
  rewrite Hq' in H2. injection H2 as <- <-.
  apply (proj1 (inject_Z_injective t' t)) in Heq. subst t'.
  exists (fz t), out, out'. split_and!; done.
Qed.

Lemma permutation_invariance_binary64_witness :
  ∃ res out out',
    hungarian 3 2 3 (doubles [ [ 4; 1; 3 ]; [ 2; 0; 5 ] ]%Z) [0; 0; 0]%Z
    = Some (res, out) ∧
    hungarian 3 2 3 (permute [1; 0] [2; 0; 1] (doubles [ [ 4; 1; 3 ]; [ 2; 0; 5 ] ]%Z))
              [0; 0; 0]%Z
    = Some (res, out') ∧
    (sole_optimum 2 3 (rationals [ [ 4; 1; 3 ]; [ 2; 0; 5 ] ]%Z) out →
     ∀ j, j < 3 → out !!! ([2; 0; 1] !!! j) = relabel_worker [1; 0] (out' !!! j)).
Proof.
  apply (permutation_invariance_binary64 2 3 [ [ 4; 1; 3 ]; [ 2; 0; 5 ] ]%Z 0 (10 ^ 9)
           [1; 0] [2; 0; 1] [0; 0; 0]%Z).
  - split; [reflexivity|]. intros row Hrow.
    repeat (apply elem_of_cons in Hrow as [->|Hrow]; [reflexivity|]).
    by apply elem_of_nil in Hrow.
  - intros [|[|i]] [|[|[|j]]] Hi Hj; try lia; vm_compute; split; discriminate.
  - intros _. vm_compute. split; discriminate.
  - vm_compute. reflexivity.
  - reflexivity.
  - apply (bool_decide_unpack _). vm_compute. exact I.
  - apply (bool_decide_unpack _). vm_compute. exact I.
Defined.

(** An instance with one cheapest assignment: on [[1, 3], [3, 1]] the
    identity costs 2, the other assignment 6. *)
Lemma sole_optimum_example :
  sole_optimum 2 2 [ [ 1; 3 ]; [ 3; 1 ] ]%Q [0; 1]%Z.
Proof.
  intros o (Hlen & Hr & Hinj) Hs Hne.
  destruct o as [|x [|y [|z o]]]; try discriminate.
  pose proof (Hr 0 x eq_refl) as Hx. pose proof (Hr 1 y eq_refl) as Hy.
  unfold jobs_with_worker in Hs. rewrite !filter_cons, filter_nil in Hs.
  assert (x ≠ y) as Hxy.
  { intros ->. destruct (decide (y ≠ (-1)%Z)) as [Hd|Hd]; [|simpl in Hs; lia].
    specialize (Hinj 0 1 y eq_refl eq_refl Hd). lia. }
  repeat destruct (decide _); try (simpl in Hs; lia).
  assert ((x = 0 ∧ y = 1)%Z ∨ (x = 1 ∧ y = 0)%Z) as [[-> ->]|[-> ->]] by lia.
  - done.
  - vm_compute. reflexivity.
Qed.

(** * Further properties of the solver *)

(** ** What the call reads and writes *)

Lemma foldl_ext_in {A B : Type} (f g : A → B → A) (l : list B) (x : A) :
  (∀ y b, b ∈ l → f y b = g y b) → foldl f x l = foldl g x l.
Proof.
  revert x. induction l as [|b l IH]; intros x Hfg; [done|].
  cbn [foldl]. rewrite (Hfg x b) by left.
  apply IH. intros y c Hc. apply Hfg. by right.
Qed.

Lemma foldl_id_in {A B : Type} (f : A → B → A) (l : list B) (x : A) :
  (∀ y b, b ∈ l → f y b = y) → foldl f x l = x.
Proof.
  revert x. induction l as [|b l IH]; intros x Hf; [done|].
  cbn [foldl]. rewrite (Hf x b) by left.
  apply IH. intros y c Hc. apply Hf. by right.
Qed.

(** What a caller adds up from the answer, job after job: the cost
    [cost[match[j]][j]] of each job [j] with [match[j] != -1], the cells
    that [main] prints at lines 118-121. *)
Definition reported_step {R : Type} `{NumR : Num R} (cost : list (list R))
    (out : list Z) (res : R) (j : nat) : R :=
  if bool_decide (out !!! j = (-1)%Z) then res
  else num_add res ((cost !!! Z.to_nat (out !!! j)) !!! j).

Definition reported_total {R : Type} `{NumR : Num R} (cost : list (list R))
    (out : list Z) : R :=
  foldl (reported_step cost out) num_zero (seq 0 (length out)).

(** X1: the total returned is the sum, taken in job order, of the costs
    [cost[match_out[j]][j]] of the jobs that [match_out] reports as
    assigned; the two are the same number of the arithmetic, bit for bit in
    binary64.  This for every call that returns, with a buffer of [m]
    entries. *)
Theorem total_matches_report {R : Type} `{NumR : Num R} (fuel : nat) (n m : Z)
    (cost : list (list R)) (out0 : list Z) (res : R) (out : list Z) :
  length out0 = Z.to_nat m →
  hungarian fuel n m cost out0 = Some (res, out) →
  res = reported_total cost out.
Proof.
  intros Hlen Hrun.
  destruct (hungarian_answer fuel n m cost out0 res out Hrun) as (ps & _ & -> & ->).
  rewrite write_matches_eq by done.
  unfold reported_total, total. rewrite length_fmap, length_seq.
  set (M := Z.to_nat m). set (N := Z.to_nat (n `max` m)).
  replace (seq 1 N) with (seq 1 (M + (N - M))) by (f_equal; lia).
  rewrite seq_app, foldl_app.
  rewrite (foldl_id_in _ (seq (1 + M) (N - M))).
  - rewrite <- (fmap_S_seq 0 M), foldl_fmap.
    apply foldl_ext_in. intros y j Hj. apply elem_of_seq in Hj.
    unfold total_step, reported_step. fold M.
    rewrite answers_lookup by lia. unfold answer.
    repeat case_bool_decide; try lia; try done.
    replace (Z.to_nat (Z.of_nat (ps !!! S j) - 1)) with (ps !!! S j - 1) by lia.
    by replace (S j - 1) with j by lia.
  - intros y j Hj. apply elem_of_seq in Hj. unfold total_step.
    rewrite bool_decide_eq_false_2; [done|lia].
Qed.

Lemma total_matches_report_witness :
  (0x1.4666666666666p+3)%float
  = reported_total main_data_float [1; 0; 2; -1]%Z.
Proof.
  apply (total_matches_report 4 3%Z 4%Z main_data_float [0; 0; 0; 0]%Z).
  - reflexivity.
  - vm_compute. reflexivity.
Defined.

(** X2: the call reads the cost matrix inside the [n × m] rectangle only:
    two matrices that agree there give the same result, whatever they hold
    (or lack) elsewhere. *)
Theorem cost_read_in_rectangle {R : Type} `{NumR : Num R} (fuel : nat) (n m : Z)
    (cost cost' : list (list R)) (out0 : list Z) :
  (∀ i j : nat, (Z.of_nat i < n)%Z → (Z.of_nat j < m)%Z →
                (cost !!! i) !!! j = (cost' !!! i) !!! j) →
  hungarian fuel n m cost out0 = hungarian fuel n m cost' out0.
Proof.
  intros Hsame. unfold hungarian.
  assert (∀ N, pad_matrix N n m cost = pad_matrix N n m cost') as ->.
  { intros N. unfold pad_matrix.
    apply list_fmap_ext. intros _ i _. apply list_fmap_ext. intros _ j _.
    unfold pad_cell. case_bool_decide; [|done]. apply Hsame; lia. }
  destruct (solve fuel _ _) as [st|]; [|done]. simpl. do 2 f_equal.
  unfold total. apply foldl_ext_in. intros y j Hj. apply elem_of_seq in Hj.
  unfold total_step. case_bool_decide; [|done]. f_equal. apply Hsame; lia.
Qed.

Lemma cost_read_in_rectangle_witness :
  hungarian 2 1 2 [ [ 3; 4 ] ]%Q [0; 0]%Z
  = hungarian 2 1 2 [ [ 3; 4; 9 ]; [ 7; 7; 7 ] ]%Q [0; 0]%Z.
Proof.
  apply (cost_read_in_rectangle 2 1%Z 2%Z).
  intros [|i] [|[|j]] Hi Hj; try lia; reflexivity.
Defined.

(** X3: the call writes the first [m] entries of [match_out] and no other:
    the buffer keeps its length, and what it holds from position [m] on is
    what it held before the call. *)
Theorem match_out_rest_untouched {R : Type} `{NumR : Num R} (fuel : nat) (n m : Z)
    (cost : list (list R)) (out0 : list Z) (res : R) (out : list Z) :
  hungarian fuel n m cost out0 = Some (res, out) →
  length out = length out0 ∧
  ∀ k, Z.to_nat m ≤ k → out !! k = out0 !! k.
Proof.
  intros Hrun.
  destruct (hungarian_answer fuel n m cost out0 res out Hrun) as (ps & _ & _ & ->).
  destruct (write_matches_lookup n m ps out0) as [Hlen Hget].
  split; [done|]. intros k Hk.
  destruct (decide (k < length out0)) as [Hlt|Hge].
  - rewrite !list_lookup_lookup_total_lt by lia. f_equal.
    rewrite Hget. rewrite decide_False by lia. done.
  - rewrite !lookup_ge_None_2 by lia. done.
Qed.

Lemma match_out_rest_untouched_witness :
  length [1; 0; 2; -1; 8; 9]%Z = length [5; 5; 5; 5; 8; 9]%Z ∧
  ∀ k, Z.to_nat 4 ≤ k → [1; 0; 2; -1; 8; 9]%Z !! k = [5; 5; 5; 5; 8; 9]%Z !! k.
Proof.
  apply (match_out_rest_untouched 4 3%Z 4%Z main_data [5; 5; 5; 5; 8; 9]%Z
           (10200 # 1000)%Q).
  vm_compute. reflexivity.
Defined.

(** ** The outer loop *)

(** X4: after the first [k] outer iterations (lines 34-67) the array [p]
    holds a matching of exactly the rows [1..k]: every column carries 0 or
    one of these rows, no row is on two columns, and each of the rows is on
    some column.  This for every arithmetic and any costs, whenever the [k]
    iterations come to an end. *)
Theorem rows_matched_in_order {R : Type} `{NumR : Num R} (fuel N k : nat)
    (a : list (list R)) (st : state R) :
  k ≤ N →
  outer fuel N a (seq 1 k) (init_state N) = Some st →
  length (p st) = S N ∧
  (∀ j, 1 ≤ j ≤ N → p st !!! j ≤ k) ∧
  (∀ j j', 1 ≤ j ≤ N → 1 ≤ j' ≤ N →
           p st !!! j = p st !!! j' → p st !!! j ≠ 0 → j = j') ∧
  (∀ r, 1 ≤ r ≤ k → ∃ j, 1 ≤ j ≤ N ∧ p st !!! j = r).
Proof.
  intros _ Hout.
  pose proof (outer_rest_ok fuel N a k 0 (init_state N) st (init_rest_ok N) Hout)
    as Hrest.
  destruct (r_match _ _ _ Hrest) as [Hlen Hrange Hinj Hsurj].
  split_and!; [done|exact Hrange|exact Hinj|exact Hsurj].
Qed.

Lemma rows_matched_in_order_witness :
  ∃ st, outer 4 4 (pad_matrix 4 3 4 main_data_float) (seq 1 2) (init_state 4)
        = Some st ∧
        length (p st) = 5 ∧
        (∀ j, 1 ≤ j ≤ 4 → p st !!! j ≤ 2) ∧
        (∀ j j', 1 ≤ j ≤ 4 → 1 ≤ j' ≤ 4 →
                 p st !!! j = p st !!! j' → p st !!! j ≠ 0 → j = j') ∧
        (∀ r, 1 ≤ r ≤ 2 → ∃ j, 1 ≤ j ≤ 4 ∧ p st !!! j = r).
Proof.
  destruct (outer 4 4 (pad_matrix 4 3 4 main_data_float) (seq 1 2) (init_state 4))
    as [st|] eqn:Hout; [|vm_compute in Hout; discriminate].
  exists st. split; [reflexivity|].
  apply (rows_matched_in_order 4 4 2 (pad_matrix 4 3 4 main_data_float) st);
    [lia|exact Hout].
Defined.

(** Over the rationals: in the outer iteration for row [i] the loop of lines
    41-56 makes at most [i] passes before it reaches a free job -- one for
    the root and one for each row matched so far, at most -- so that a call
    makes at most [N (N + 1) / 2] passes in all. This in exact arithmetic,
    for costs within range.*)
Lemma passes_bounded_by_row (n m : nat) (cost : list (list Q)) (lo hi : Q)
    (k : nat) :
  let N := n `max` m in
  let a := pad_matrix N (Z.of_nat n) (Z.of_nat m) cost in
  in_range lo hi n m cost → (n ≠ m → (lo <= PAD <= hi)%Q) → narrow N lo hi →
  k < N →
  ∃ st st',
    outer N N a (seq 1 k) (init_state N) = Some st ∧
    relax (S k) N a (enter N (S k) st) = Some st' ∧
    1 ≤ j0 st' ≤ N ∧ p st' !!! j0 st' = 0.
Proof.
  intros N a Hin Hpad [Hr1 Hr2] Hk.
  assert (∀ i j, 1 ≤ i ≤ N → 1 ≤ j ≤ N → (lo <= (a !!! i) !!! j <= hi)%Q) as Hrange.
  { intros i j Hi Hj. by apply padded_range. }
  destruct (outer_inv_run N a lo hi Hrange Hr1 Hr2 N k 0 (init_state N))
    as (st & Hout & Hinv); [by apply init_outer_inv|lia|done|].
  destruct (relax_first N a lo hi Hrange Hr1 Hr2 (S k) k st Hinv Hk (le_n _))
    as (st' & Hrelax & Hin' & Hz).
  exists st, st'. split_and!; try done.
  - apply (i_j0 _ _ _ _ _ _ Hin').
  - apply (i_ok _ _ _ _ _ _ Hin').
Qed.

(** X5: in binary64, on a matrix of integers that leaves the arithmetic
    exact -- entries in [[lo, hi]], the padding cost [10^9] included when
    [n ≠ m], and [(N + 8) max(|lo|, |hi|) < 2^53] -- the loop of lines 41-56
    makes, in the outer iteration for row [i], at most [i] passes before it
    reaches a free job: one for the root and one for each row matched so
    far, at most; so that a call makes at most [N (N + 1) / 2] passes in
    all. *)
Theorem passes_bounded_by_row_binary64 (n m : nat) (cz : list (list Z))
    (lo hi : Z) (k : nat) :
  let N := n `max` m in
  let a := pad_matrix N (Z.of_nat n) (Z.of_nat m) (doubles cz) in
  cost_wf n m cz → entries_in lo hi n m cz →
  (n ≠ m → (lo ≤ 10 ^ 9 ≤ hi)%Z) → exact_range N lo hi →
  k < N →
  ∃ st st',
    outer N N a (seq 1 k) (init_state N) = Some st ∧
    relax (S k) N a (enter N (S k) st) = Some st' ∧
    1 ≤ j0 st' ≤ N ∧ p st' !!! j0 st' = 0.
Proof.
  intros N a Hwf Hin Hpad Hex Hk.
  destruct (outer_exact n m cz lo hi Hwf Hin Hpad Hex N k ltac:(lia) (le_n _))
    as (sf & sq & Hf & Hq & Hsim & Hrest & Hinv).
  destruct (relax_exact n m cz lo hi Hwf Hin Hpad Hex (S k) k sf sq Hinv Hk Hsim Hrest
              (le_n _)) as (sf' & sq' & Hrf & Hrq & Hsim' & Hok' & Hin' & Hz).
  exists sf, sf'. rewrite (sim_p _ _ _ Hsim'), (sim_j0 _ _ _ Hsim').
  split_and!; try done.
  - apply (i_j0 _ _ _ _ _ _ Hin').
  - apply (i_ok _ _ _ _ _ _ Hin').
Qed.

Lemma passes_bounded_by_row_binary64_witness :
  ∃ st st',
    outer 3 3 (pad_matrix 3 2 3 (doubles [ [ 4; 1; 3 ]; [ 2; 0; 5 ] ]%Z)) (seq 1 1) (init_state 3) = Some st ∧
    relax 2 3 (pad_matrix 3 2 3 (doubles [ [ 4; 1; 3 ]; [ 2; 0; 5 ] ]%Z)) (enter 3 2 st) = Some st' ∧
    1 ≤ j0 st' ≤ 3 ∧ p st' !!! j0 st' = 0.
Proof.
  apply (passes_bounded_by_row_binary64 2 3 [ [ 4; 1; 3 ]; [ 2; 0; 5 ] ]%Z 0 (10 ^ 9) 1).
  - split; [reflexivity|]. intros row Hrow.
    repeat (apply elem_of_cons in Hrow as [->|Hrow]; [reflexivity|]).
    by apply elem_of_nil in Hrow.
  - intros [|[|i]] [|[|[|j]]] Hi Hj; try lia; vm_compute; split; discriminate.
  - intros _. vm_compute. split; discriminate.
  - vm_compute. reflexivity.
  - vm_compute. lia.
Defined.

(** ** The choice of the next job *)

(** Among the jobs at the least distance, the first loop of a round keeps
    the one it met first: every unused job before [j1] is strictly
    farther. *)
Lemma scan_first (N k : nat) a us vs usd i0 j0 mv wy mv' wy' d j1 :
  length mv = S N → length wy = S N → k ≤ N →
  scan k a us vs usd i0 j0 mv wy = (mv', wy', d, j1) →
  ∀ j, 1 ≤ j < j1 → usd !!! j = false → (d < mv' !!! j)%Q.
Proof.
  intros Hmv Hwy. revert mv' wy' d j1.
  induction k as [|k IH]; intros mv' wy' d j1 Hk Hscan.
  - unfold scan in Hscan. simpl in Hscan. simplify_eq. intros; lia.
  - pose proof (scan_arrays N (S k) _ _ _ _ _ _ _ _ _ _ _ _ Hmv Hwy Hk Hscan)
      as (_ & _ & Hm' & _).
    rewrite scan_S in Hscan.
    destruct (scan k a us vs usd i0 j0 mv wy) as [[[mv1 wy1] d1] j2] eqn:Hprev.
    pose proof (scan_arrays N k _ _ _ _ _ _ _ _ _ _ _ _ Hmv Hwy (Nat.lt_le_incl _ _ Hk) Hprev)
      as (_ & _ & Hm1 & _ & Hj2 & _).
    pose proof (scan_min N k _ _ _ _ _ _ _ _ _ _ _ _ Hmv Hwy (Nat.lt_le_incl _ _ Hk) Hprev)
      as Hmin.
    assert (∀ j, j ≤ k → mv' !!! j = mv1 !!! j) as Hstable.
    { intros j Hj. rewrite Hm', Hm1. apply decide_ext.
      split; intros [? ?]; (split; [lia|done]). }
    specialize (IH mv1 wy1 d1 j2 (Nat.lt_le_incl _ _ Hk) eq_refl).
    unfold scan_step in Hscan.
    destruct (usd !!! S k) eqn:Husd.
    { simplify_eq. intros j Hj Hu. by apply IH. }
    assert (∃ mv2 wy2, (if num_ltb (mv2 !!! S k) d1
                        then (mv2, wy2, mv2 !!! S k, S k) else (mv2, wy2, d1, j2))
                       = (mv', wy', d, j1)) as (mv2 & wy2 & Hfin).
    { destruct (num_ltb _ (mv1 !!! S k)); eauto. }
    clear Hscan.
    destruct (num_ltb (mv2 !!! S k) d1) eqn:Hcmp; simplify_eq.
    + apply Qltb_lt in Hcmp. intros j Hj Hu. rewrite (Hstable j) by lia.
      destruct Hmin as [(_ & Hd & Hall)|(_ & _ & _ & _ & Hall)];
        specialize (Hall j ltac:(lia) Hu).
      * rewrite Hd in Hcmp. lra.
      * lra.
    + intros j Hj Hu. rewrite (Hstable j) by lia. by apply IH.
Qed.

(** Over the rationals: the first loop of a round (lines 46-50) leaves in
    [delta] the least [minv] of the unused jobs when that is below [INF],
    and in [j1] the first job that has it: no unused job has a smaller
    [minv], and every unused job before [j1] has a strictly larger one. When
    no unused job is below [INF], [j1] stays 0 and [delta] stays [INF].*)
Lemma scan_picks_first_minimum (N : nat) (a : list (list Q)) (us vs : list Q)
    (usd : list bool) (i0 j0 : nat) (mv : list Q) (wy : list nat)
    (mv' : list Q) (wy' : list nat) (d : Q) (j1 : nat) :
  length mv = S N → length wy = S N →
  scan N a us vs usd i0 j0 mv wy = (mv', wy', d, j1) →
  (j1 = 0 ∧ d = INF ∧
     ∀ j, 1 ≤ j ≤ N → usd !!! j = false → (INF <= mv' !!! j)%Q) ∨
  (1 ≤ j1 ≤ N ∧ usd !!! j1 = false ∧ d = mv' !!! j1 ∧ (d < INF)%Q ∧
     (∀ j, 1 ≤ j ≤ N → usd !!! j = false → (d <= mv' !!! j)%Q) ∧
     (∀ j, 1 ≤ j < j1 → usd !!! j = false → (d < mv' !!! j)%Q)).
Proof.
  intros Hmv Hwy Hscan.
  destruct (scan_min N N _ _ _ _ _ _ _ _ _ _ _ _ Hmv Hwy (le_n _) Hscan)
    as [Hnone|(Hj1 & Hu & Hd & Hlt & Hall)]; [by left|right].
  split_and!; try done; try lia.
  apply (scan_first N N _ _ _ _ _ _ _ _ _ _ _ _ Hmv Hwy (le_n _) Hscan).
Qed.

(** An entry of [minv]: the double of an integer, or [INF]. *)
Definition entry (o : option Z) : float :=
  match o with Some z => fz z | None => num_inf end.

Definition entry_exact (o : option Z) : Q :=
  match o with Some z => inject_Z z | None => num_inf end.

Lemma same_or_inf_eq (f1 f2 : float) (q : Q) :
  same_or_inf f1 q → same_or_inf f2 q → f1 = f2.
Proof.
  assert (∀ z, small z → inject_Z z ≠ num_inf) as Hne.
  { intros z Hz E. cbn [num_inf Q_num] in E. injection E as ->.
    unfold small in Hz. revert Hz. vm_compute. discriminate. }
  intros [(z1 & Hs1 & -> & ->)|[-> ->]] [(z2 & Hs2 & -> & E)|[-> E]].
  - injection E as ->. done.
  - by apply Hne in E.
  - symmetry in E. by apply Hne in E.
  - done.
Qed.

(** X6: in binary64, on arrays that hold integers -- the costs of the row
    within [A], [u[i0]] within [A], the [v[j]] within [2 A], the entries of
    [minv] integers of at most 53 bits or [INF], with [8 A < 2^53] -- the
    first loop of a round (lines 46-50) leaves in [delta] the least [minv]
    of the unused jobs when that is below [INF], and in [j1] the first job
    that has it: no unused job has a smaller [minv], and every unused job
    before [j1] has a strictly larger one.  When no unused job is below
    [INF], [j1] stays 0 and [delta] stays [INF]. *)
Theorem scan_picks_first_minimum_binary64 (N : nat) (za : list (list Z))
    (zus zvs : list Z) (usd : list bool) (i0 j0 : nat) (zmv : list (option Z))
    (wy : list nat) (A : Z)
    (mv' : list float) (wy' : list nat) (d : float) (j1 : nat) :
  cost_wf (S N) (S N) za → length zus = S N → length zvs = S N →
  length zmv = S N → length wy = S N → 1 ≤ i0 ≤ N → (8 * A < 2 ^ 53)%Z →
  (∀ i j, 1 ≤ i ≤ N → 1 ≤ j ≤ N → (- A ≤ (za !!! i) !!! j ≤ A)%Z) →
  (- A ≤ zus !!! i0 ≤ A)%Z →
  (∀ j, 1 ≤ j ≤ N → (- (2 * A) ≤ zvs !!! j ≤ 2 * A)%Z) →
  (∀ j z, zmv !! j = Some (Some z) → small z) →
  scan N (doubles za) (fz <$> zus) (fz <$> zvs) usd i0 j0 (entry <$> zmv) wy
  = (mv', wy', d, j1) →
  (j1 = 0 ∧ d = num_inf ∧
     ∀ j, 1 ≤ j ≤ N → usd !!! j = false →
          PrimFloat.ltb (mv' !!! j) num_inf = false) ∨
  (1 ≤ j1 ≤ N ∧ usd !!! j1 = false ∧ d = mv' !!! j1 ∧
   PrimFloat.ltb d num_inf = true ∧
     (∀ j, 1 ≤ j ≤ N → usd !!! j = false → PrimFloat.ltb (mv' !!! j) d = false) ∧
     (∀ j, 1 ≤ j < j1 → usd !!! j = false → PrimFloat.ltb d (mv' !!! j) = true)).
Proof.
  intros Hwf Hlu Hlv Hlm Hlw Hi0 HA Hza Hzu Hzv Hzm Hscan.
  assert (0 ≤ A)%Z as HA0 by lia.
  assert (∀ z, (- A ≤ z ≤ A)%Z → small z) as Hsmall1 by (unfold small; lia).
  assert (∀ z, (- (2 * A) ≤ z ≤ 2 * A)%Z → small z) as Hsmall2 by (unfold small; lia).
  destruct (scan_sim N (doubles za) (rationals za) (inject_Z (- A)) (inject_Z A) A)
    with (k := N) (usf := fz <$> zus) (vsf := fz <$> zvs)
         (usq := inject_Z <$> zus) (vsq := inject_Z <$> zvs)
         (usd := usd) (i0 := i0) (j0 := j0)
         (mvf := entry <$> zmv) (mvq := entry_exact <$> zmv) (wy := wy)
    as (mvf' & mvq' & wy1 & df & dq & j2 & Hsf & Hsq & _ & _ & Hm' & Hd).
  - intros i j Hi Hj. rewrite (rationals_lookup (S N) (S N)) by (done || lia).
    rewrite <- !Zle_Qle. by apply Hza.
  - rewrite inject_Z_opp. lra.
  - lra.
  - done.
  - intros i j Hi Hj.
    rewrite (doubles_lookup (S N) (S N)), (rationals_lookup (S N) (S N))
      by (done || lia).
    eexists. split_and!; [|reflexivity|reflexivity]. apply Hsmall1. by apply Hza.
  - done.
  - done.
  - rewrite (list_lookup_total_fmap fz zus i0) by lia.
    rewrite (list_lookup_total_fmap inject_Z zus i0) by lia.
    eexists. split_and!; [|reflexivity|reflexivity]. by apply Hsmall1.
  - rewrite (list_lookup_total_fmap inject_Z zus i0) by lia.
    unfold within. by rewrite <- !Zle_Qle.
  - intros j Hj. rewrite (list_lookup_total_fmap fz zvs j) by lia.
    rewrite (list_lookup_total_fmap inject_Z zvs j) by lia. split.
    + eexists. split_and!; [|reflexivity|reflexivity]. apply Hsmall2. by apply Hzv.
    + unfold within. rewrite <- !Zle_Qle. specialize (Hzv j Hj). lia.
  - by rewrite length_fmap.
  - by rewrite length_fmap.
  - intros j Hj. rewrite (list_lookup_total_fmap entry zmv j) by lia.
    rewrite (list_lookup_total_fmap entry_exact zmv j) by lia.
    destruct (zmv !!! j) as [z|] eqn:E; [|by right].
    left. eexists. split_and!; [|reflexivity|reflexivity].
    apply (Hzm j). rewrite <- E. apply list_lookup_lookup_total_lt. lia.
  - rewrite Hscan in Hsf. injection Hsf as <- <- <- <-.
    assert (same_or_inf num_inf num_inf) as Hinf by apply same_or_inf_inf.
    destruct (scan_picks_first_minimum N (rationals za) (inject_Z <$> zus)
                (inject_Z <$> zvs) usd i0 j0 (entry_exact <$> zmv) wy
                mvq' wy' dq j1)
      as [(Hj1 & Hdq & Hall)|(Hj1 & Hu & Hdq & Hlt & Hall & Hfirst)];
      [by rewrite length_fmap|done|done|left|right].
    + split_and!; [done| |].
      * apply (same_or_inf_eq d num_inf dq); [done|by rewrite Hdq].
      * intros j Hj Hused.
        rewrite (same_or_inf_ltb _ _ _ _ (Hm' j Hj) Hinf : PrimFloat.ltb _ _ = Qltb _ _).
        apply Qltb_ge. by apply Hall.
    + split_and!; [lia|lia|done|..].
      * apply (same_or_inf_eq d (mv' !!! j1) dq); [done|].
        rewrite Hdq. apply Hm'. lia.
      * rewrite (same_or_inf_ltb _ _ _ _ Hd Hinf : PrimFloat.ltb _ _ = Qltb _ _). by apply Qltb_lt.
      * intros j Hj Hused.
        rewrite (same_or_inf_ltb _ _ _ _ (Hm' j Hj) Hd : PrimFloat.ltb _ _ = Qltb _ _).
        apply Qltb_ge. by apply Hall.
      * intros j Hj Hused.
        rewrite (same_or_inf_ltb _ _ _ _ Hd (Hm' j ltac:(lia)) : PrimFloat.ltb _ _ = Qltb _ _).
        apply Qltb_lt. by apply Hfirst.
Qed.

Lemma scan_picks_first_minimum_binary64_witness :
  (2 = 0 ∧ fz 1 = num_inf ∧
     ∀ j, 1 ≤ j ≤ 3 → [false; true; false; false] !!! j = false →
          PrimFloat.ltb ([num_inf; num_inf; fz 1; fz 1] !!! j) num_inf = false) ∨
  (1 ≤ 2 ≤ 3 ∧ [false; true; false; false] !!! 2 = false ∧
   fz 1 = [num_inf; num_inf; fz 1; fz 1] !!! 2 ∧
   PrimFloat.ltb (fz 1) num_inf = true ∧
     (∀ j, 1 ≤ j ≤ 3 → [false; true; false; false] !!! j = false →
           PrimFloat.ltb ([num_inf; num_inf; fz 1; fz 1] !!! j) (fz 1) = false) ∧
     (∀ j, 1 ≤ j < 2 → [false; true; false; false] !!! j = false →
           PrimFloat.ltb (fz 1) ([num_inf; num_inf; fz 1; fz 1] !!! j) = true)).
Proof.
  apply (scan_picks_first_minimum_binary64 3
           [ [0; 0; 0; 0]; [0; 0; 1; 1]; [0; 0; 0; 0]; [0; 0; 0; 0] ]%Z
           [0; 0; 0; 0]%Z [0; 0; 0; 0]%Z [false; true; false; false] 1 0
           [None; None; None; None] [0; 0; 0; 0] 1
           [num_inf; num_inf; fz 1; fz 1] [0; 0; 0; 0]).
  - split; [reflexivity|]. intros row Hrow.
    repeat (apply elem_of_cons in Hrow as [->|Hrow]; [reflexivity|]).
    by apply elem_of_nil in Hrow.
  - reflexivity.
  - reflexivity.
  - reflexivity.
  - reflexivity.
  - lia.
  - vm_compute. reflexivity.
  - intros [|[|[|[|i]]]] [|[|[|[|j]]]] Hi Hj; try lia; vm_compute; split; discriminate.
  - vm_compute. split; discriminate.
  - intros [|[|[|[|j]]]] Hj; try lia; vm_compute; split; discriminate.
  - intros [|[|[|[|j]]]] z Hz; discriminate.
  - vm_compute. reflexivity.
Defined.

(** ** Optimality on rectangular matrices *)

Lemma position_elem (l : list nat) (x : nat) :
  x ∈ l → position l x < length l ∧ l !!! position l x = x.
Proof.
  intros Hin.
  destruct (list_find_elem_of (λ y, y = x) l x Hin eq_refl) as [[k y] Hf].
  unfold position. rewrite Hf. simpl.
  apply list_find_Some in Hf as (Hk & -> & _).
  split; [by apply lookup_lt_Some in Hk|by apply list_lookup_total_correct].
Qed.

Lemma lookup_total_elem (l : list nat) (k : nat) : k < length l → l !!! k ∈ l.
Proof.
  intros Hk. apply list_elem_of_lookup. exists k.
  by apply list_lookup_lookup_total_lt.
Qed.

Section Completion.
Variables n m : nat.
Variable o : list Z.
Hypothesis o_valid : valid_assignment (Z.of_nat n) m o.
Hypothesis o_serves : jobs_with_worker o = n `min` m.

(** The job [j] of the padded square has a worker in [o]. *)
Definition served (j : nat) : Prop := j < m ∧ o !!! j ≠ (-1)%Z.

#[local] Instance served_dec j : Decision (served j).
Proof. unfold served. apply _. Defined.

(** The columns and the rows of the padded square that [o] leaves free. *)
Definition free_columns : list nat :=
  filter (λ j, ¬ served j) (seq 0 (n `max` m)).

Definition free_rows : list nat :=
  filter (λ i, Z.of_nat i ∉ o) (seq 0 (n `max` m)).

(** The full matching of the padded square that extends [o]: the free
    columns take the free rows in order. *)
Definition completion_row (j : nat) : nat :=
  if decide (served j) then Z.to_nat (o !!! j)
  else free_rows !!! position free_columns j.

Definition completion : list nat := completion_row <$> seq 0 (n `max` m).

Lemma served_count :
  length (filter served (seq 0 (n `max` m))) = jobs_with_worker o.
Proof.
  assert (length o = m) as Hlen by apply o_valid.
  replace (seq 0 (n `max` m)) with (seq 0 (m + (n `max` m - m)))
    by (f_equal; lia).
  rewrite seq_app, list.filter_app, length_app.
  rewrite (filter_none_length _ (seq (0 + m) _)).
  - unfold jobs_with_worker.
    rewrite (filter_lookup_length (λ x, x ≠ (-1)%Z) o), Hlen, Nat.add_0_r.
    f_equal. apply filter_ext_elem. intros j Hj. apply elem_of_seq in Hj.
    unfold served. split; [tauto|]. intros ?. split; [lia|done].
  - intros j Hj. apply elem_of_seq in Hj. unfold served. lia.
Qed.

Lemma free_columns_length : length free_columns = n `max` m - n `min` m.
Proof.
  pose proof (filter_compl_length served (seq 0 (n `max` m))) as Hc.
  rewrite length_seq, served_count, o_serves in Hc.
  unfold free_columns. lia.
Qed.

Lemma worker_bound (j : nat) :
  served j → (0 ≤ o !!! j < Z.of_nat n)%Z.
Proof.
  intros [Hj Hne].
  destruct (valid_lookup _ _ _ _ o_valid Hj) as [_ [He|Hr]]; [done|lia].
Qed.

Lemma free_rows_length : length free_rows = n `max` m - n `min` m.
Proof.
  pose proof (idle_workers_count n m o o_valid) as Hidle.
  rewrite o_serves in Hidle. unfold idle_workers in Hidle.
  unfold free_rows.
  replace (seq 0 (n `max` m)) with (seq 0 (n + (n `max` m - n)))
    by (f_equal; lia).
  rewrite seq_app, list.filter_app, length_app, Hidle.
  assert (length (filter (λ i, Z.of_nat i ∉ o) (seq (0 + n) (n `max` m - n)))
          = n `max` m - n) as ->; [|lia].
  pose proof (filter_compl_length (λ i, Z.of_nat i ∉ o)
                (seq (0 + n) (n `max` m - n))) as Hc.
  rewrite length_seq in Hc.
  rewrite (filter_none_length (λ i, ¬ (Z.of_nat i ∉ o))) in Hc; [lia|].
  intros i Hi Hnn. apply elem_of_seq in Hi. apply Hnn.
  intros Hin. apply list_elem_of_lookup in Hin as [j Hj].
  destruct o_valid as (_ & Hr & _). specialize (Hr j _ Hj). lia.
Qed.

Lemma free_row_spec (r : nat) :
  r ∈ free_rows → r < n `max` m ∧ Z.of_nat r ∉ o.
Proof.
  unfold free_rows. intros Hr. apply list_elem_of_filter in Hr as [Hno Hr].
  apply elem_of_seq in Hr. split; [lia|done].
Qed.

Lemma completion_free (j : nat) :
  j < n `max` m → ¬ served j →
  position free_columns j < length free_rows ∧
  free_columns !!! position free_columns j = j.
Proof.
  intros Hj Hns.
  assert (j ∈ free_columns) as Hin.
  { unfold free_columns. apply list_elem_of_filter. split; [done|].
    apply elem_of_seq. lia. }
  destruct (position_elem free_columns j Hin) as [Hlt Heq].
  rewrite free_rows_length, <- free_columns_length. done.
Qed.

Lemma completion_row_served (j : nat) :
  served j →
  completion_row j = Z.to_nat (o !!! j) ∧ completion_row j < n.
Proof.
  intros Hs. unfold completion_row. rewrite decide_True by done.
  pose proof (worker_bound j Hs). split; [done|lia].
Qed.

Lemma completion_row_free (j : nat) :
  j < n `max` m → ¬ served j →
  completion_row j ∈ free_rows.
Proof.
  intros Hj Hns. unfold completion_row. rewrite decide_False by done.
  apply lookup_total_elem.
  apply (completion_free j Hj Hns).
Qed.

Lemma completion_perm : completion ≡ₚ seq 0 (n `max` m).
Proof.
  apply NoDup_range_perm.
  - unfold completion. apply NoDup_fmap_2_strong; [|apply NoDup_seq].
    intros j j' Hj Hj' Heq. apply elem_of_seq in Hj, Hj'.
    destruct (decide (served j)) as [Hs|Hns];
      destruct (decide (served j')) as [Hs'|Hns'].
    + destruct (completion_row_served j Hs) as [E _].
      destruct (completion_row_served j' Hs') as [E' _].
      pose proof (worker_bound j Hs).
      pose proof (worker_bound j' Hs').
      assert (o !!! j = o !!! j') as Ho by lia.
      destruct Hs as [Hjm Hne]. destruct Hs' as [Hjm' _].
      destruct (valid_lookup _ _ _ _ o_valid Hjm) as [Hl _].
      destruct (valid_lookup _ _ _ _ o_valid Hjm') as [Hl' _].
      destruct o_valid as (_ & _ & Hinj).
      apply (Hinj j j' (o !!! j)); [done|by rewrite Ho|done].
    + exfalso. destruct (completion_row_served j Hs) as [E _].
      pose proof (completion_row_free j' ltac:(lia) Hns') as Hfr.
      apply free_row_spec in Hfr as [_ Hno]. apply Hno.
      rewrite <- Heq, E.
      pose proof (worker_bound j Hs). rewrite Z2Nat.id by lia.
      destruct Hs as [Hjm _].
      destruct (valid_lookup _ _ _ _ o_valid Hjm) as [Hl _].
      by eapply list_elem_of_lookup_2.
    + exfalso. destruct (completion_row_served j' Hs') as [E' _].
      pose proof (completion_row_free j ltac:(lia) Hns) as Hfr.
      apply free_row_spec in Hfr as [_ Hno]. apply Hno.
      rewrite Heq, E'.
      pose proof (worker_bound j' Hs'). rewrite Z2Nat.id by lia.
      destruct Hs' as [Hjm' _].
      destruct (valid_lookup _ _ _ _ o_valid Hjm') as [Hl' _].
      by eapply list_elem_of_lookup_2.
    + destruct (completion_free j ltac:(lia) Hns)
        as [Hp Hc].
      destruct (completion_free j' ltac:(lia) Hns')
        as [Hp' Hc'].
      unfold completion_row in Heq. rewrite !decide_False in Heq by done.
      assert (NoDup (free_rows)) as Hnd
        by (apply list.NoDup_filter, NoDup_seq).
      assert (position (free_columns) j = position (free_columns) j')
        as Hpos.
      { apply (NoDup_lookup _ _ _ (free_rows !!! position (free_columns) j) Hnd).
        - by apply list_lookup_lookup_total_lt.
        - rewrite Heq. by apply list_lookup_lookup_total_lt. }
      rewrite <- Hc, <- Hc', Hpos. done.
  - unfold completion. by rewrite length_fmap, length_seq.
  - intros r Hr. unfold completion in Hr.
    apply list_elem_of_fmap in Hr as (j & -> & Hj). apply elem_of_seq in Hj.
    destruct (decide (served j)) as [Hs|Hns].
    + destruct (completion_row_served j Hs). lia.
    + pose proof (completion_row_free j ltac:(lia) Hns) as Hfr.
      apply free_row_spec in Hfr. lia.
Qed.

(** A free row given to a job of the rectangle is a padding row. *)
Lemma completion_row_padding (j : nat) :
  j < m → ¬ served j → n ≤ completion_row j.
Proof.
  intros Hj Hns.
  pose proof (completion_row_free j ltac:(lia) Hns) as Hfr.
  apply free_row_spec in Hfr as [_ Hno].
  destruct (decide (n ≤ completion_row j)) as [|Hlt]; [done|exfalso].
  assert (length o = m) as Hlen by apply o_valid.
  assert (0 < idle_workers n o) as Hidle.
  { unfold idle_workers.
    assert (completion_row j
            ∈ filter (λ i, Z.of_nat i ∉ o) (seq 0 n)) as Hin.
    { apply list_elem_of_filter. split; [done|]. apply elem_of_seq. lia. }
    destruct (filter _ (seq 0 n)); [by apply elem_of_nil in Hin|simpl; lia]. }
  rewrite (idle_workers_count n m o o_valid), o_serves in Hidle.
  assert (jobs_with_worker o = length o) as Hall by lia.
  pose proof (filter_length_all (λ x, x ≠ (-1)%Z) o Hall (o !!! j)) as Hne.
  apply Hns. split; [done|]. apply Hne.
  apply list_elem_of_lookup. exists j. apply list_lookup_lookup_total_lt. lia.
Qed.

(** The matching that extends [o] is read back as [o]. *)
Lemma completion_answer :
  answer (Z.of_nat n) (lift (completion)) <$> seq 0 m = o.
Proof.
  assert (length o = m) as Hlen by apply o_valid.
  apply list_eq_same_length with m; [done|by rewrite length_fmap, length_seq|].
  intros j x y Hj Hx Hy.
  rewrite list_lookup_fmap, lookup_seq_lt in Hx by done. simpl in Hx.
  apply (list_lookup_total_correct _ _ _) in Hy. simplify_eq.
  unfold answer.
  rewrite lift_lookup
    by (unfold completion; rewrite length_fmap, length_seq; lia).
  assert (completion !!! j = completion_row j) as ->.
  { unfold completion.
    rewrite list_lookup_total_alt, list_lookup_fmap, lookup_seq_lt by lia. done. }
  destruct (decide (served j)) as [Hs|Hns].
  - destruct (completion_row_served j Hs) as [E Hb].
    pose proof (worker_bound j Hs).
    rewrite bool_decide_eq_true_2 by lia. rewrite E. lia.
  - pose proof (completion_row_padding j Hj Hns).
    rewrite bool_decide_eq_false_2 by lia.
    unfold served in Hns. destruct (decide (o !!! j = (-1)%Z)); [done|].
    exfalso. apply Hns. by split.
Qed.

End Completion.

(** The run on a rectangular matrix within range: the assignment returned
    serves [min n m] jobs, costs the total returned, and is a cheapest
    one. *)
Lemma rectangular_run (n m : nat) (cost : list (list Q))
    (lo hi : Q) (out0 : list Z) :
  in_range lo hi n m cost → (n ≠ m → (lo <= PAD <= hi)%Q) →
  narrow (n `max` m) lo hi → length out0 = m →
  ∃ res out,
    hungarian (n `max` m) (Z.of_nat n) (Z.of_nat m) cost out0 = Some (res, out) ∧
    valid_assignment (Z.of_nat n) m out ∧
    jobs_with_worker out = n `min` m ∧
    (res == assigned_cost cost out)%Q ∧
    ∀ o, valid_assignment (Z.of_nat n) m o → jobs_with_worker o = n `min` m →
         (res <= assigned_cost cost o)%Q.
Proof.
  intros Hin Hpad Hnar Hlen.
  destruct (hungarian_run n m cost lo hi out0 (n `max` m) Hin Hpad Hnar (le_n _))
    as (st & _ & Hinv & Hopt & Hh).
  pose proof (r_match _ _ _ (o_rest _ _ _ _ _ _ Hinv)) as Hm.
  rewrite write_matches_eq in Hh by (rewrite Nat2Z.id; done).
  rewrite Nat2Z.id in Hh.
  eexists _, _. split; [exact Hh|].
  pose proof (answers_valid (n `max` m) (Z.of_nat n) (Z.of_nat m) (p st) Hm
                ltac:(lia)) as Hval.
  rewrite Nat2Z.id in Hval.
  pose proof (answers_serve n m (p st) Hm) as (Hserve & _ & _).
  split_and!; [done|done|apply total_assigned|].
  intros o Ho Hso.
  pose proof (lift_matching (n `max` m) (completion n m o)
                (completion_perm n m o Ho Hso)) as Hmo.
  specialize (Hopt _ Hmo).
  rewrite (padded_total n m cost (p st) Hm) in Hopt.
  rewrite (padded_total n m cost _ Hmo) in Hopt.
  rewrite (total_assigned n m cost (lift (completion n m o))) in Hopt.
  rewrite (completion_answer n m o Ho Hso) in Hopt. lra.
Qed.

(** Over the rationals: on a rectangular matrix the solver is optimal. In
    exact arithmetic, for every [n × m] matrix whose costs (and the padding
    cost [1e9], when [n ≠ m]) lie in a range [[lo, hi]] with [hi + N (hi -
    lo) < 1e18] and [N (hi - lo) < 1e18], [N = max n m], the call returns an
    assignment that gives [min n m] jobs a worker of their own, the total
    returned is the cost of that assignment, and no assignment that gives
    [min n m] jobs a worker of their own is cheaper.*)
Lemma hungarian_rectangular_optimal (n m : nat) (cost : list (list Q))
    (lo hi : Q) (out0 : list Z) :
  in_range lo hi n m cost → (n ≠ m → (lo <= PAD <= hi)%Q) →
  narrow (n `max` m) lo hi → length out0 = m →
  ∃ res out,
    hungarian (n `max` m) (Z.of_nat n) (Z.of_nat m) cost out0 = Some (res, out) ∧
    valid_assignment (Z.of_nat n) m out ∧
    jobs_with_worker out = n `min` m ∧
    (res == assigned_cost cost out)%Q ∧
    ∀ o, valid_assignment (Z.of_nat n) m o → jobs_with_worker o = n `min` m →
         (res <= assigned_cost cost o)%Q.
Proof.
  intros Hin Hpad Hnar Hlen.
  destruct (rectangular_run n m cost lo hi out0 Hin Hpad Hnar Hlen)
    as (res & out & Hrun & Hval & Hserve & Hcost & Hopt).
  exists res, out. split_and!; [exact Hrun|exact Hval|exact Hserve|exact Hcost|].
  intros o Ho Hso. by apply Hopt.
Qed.

(** X7: in binary64 the call is optimal on rectangular matrices of
    integers that leave the arithmetic exact.  For every [n × m] matrix of
    integers in [[lo, hi]] (the padding cost [10^9] included, when [n ≠ m])
    with [(N + 8) max(|lo|, |hi|) < 2^53], [N = max n m], handed over as
    doubles, the call returns an assignment that gives [min n m] jobs a
    worker of their own; the total returned is the double of an integer
    [t], the cost of that assignment; and no assignment that gives
    [min n m] jobs a worker of their own costs less than [t]. *)
Theorem hungarian_rectangular_optimal_binary64 (n m : nat) (cz : list (list Z))
    (lo hi : Z) (out0 : list Z) :
  cost_wf n m cz → entries_in lo hi n m cz →
  (n ≠ m → (lo ≤ 10 ^ 9 ≤ hi)%Z) → exact_range (n `max` m) lo hi →
  length out0 = m →
  ∃ t out,
    hungarian (n `max` m) (Z.of_nat n) (Z.of_nat m) (doubles cz) out0
    = Some (fz t, out) ∧
    small t ∧
    valid_assignment (Z.of_nat n) m out ∧
    jobs_with_worker out = n `min` m ∧
    (inject_Z t == assigned_cost (rationals cz) out)%Q ∧
    ∀ o, valid_assignment (Z.of_nat n) m o → jobs_with_worker o = n `min` m →
         (inject_Z t <= assigned_cost (rationals cz) o)%Q.
Proof.
  intros Hwf Hin Hpad Hex Hlen.
  destruct (hungarian_exact n m cz lo hi Hwf Hin Hpad Hex out0 (n `max` m) (le_n _))
    as (t & out & Hf & Hq & Ht).
  destruct (hungarian_rectangular_optimal n m (rationals cz) (inject_Z lo)
              (inject_Z hi) out0)
    as (res & o & Hrun & Hval & Hserve & Hcost & Hopt);
    [by apply rationals_range| |by apply exact_narrow|done|].
  { intros Hnm. cbn [num_pad Q_num]. rewrite <- !Zle_Qle. by apply Hpad. }
  rewrite Hq in Hrun. injection Hrun as <- <-.
  exists t, out. split_and!; done.
Qed.

Lemma hungarian_rectangular_optimal_binary64_witness :
  ∃ t out,
    hungarian 3 2 3 (doubles [ [ 4; 1; 3 ]; [ 2; 0; 5 ] ]%Z) [0; 0; 0]%Z = Some (fz t, out) ∧
    small t ∧
    valid_assignment 2 3 out ∧
    jobs_with_worker out = 2 ∧
    (inject_Z t == assigned_cost (rationals [ [ 4; 1; 3 ]; [ 2; 0; 5 ] ]%Z) out)%Q ∧
    ∀ o, valid_assignment 2 3 o → jobs_with_worker o = 2 →
         (inject_Z t <= assigned_cost (rationals [ [ 4; 1; 3 ]; [ 2; 0; 5 ] ]%Z) o)%Q.
Proof.
  apply (hungarian_rectangular_optimal_binary64 2 3 [ [ 4; 1; 3 ]; [ 2; 0; 5 ] ]%Z 0 (10 ^ 9) [0; 0; 0]%Z).
  - split; [reflexivity|]. intros row Hrow.
    repeat (apply elem_of_cons in Hrow as [->|Hrow]; [reflexivity|]).
    by apply elem_of_nil in Hrow.
  - intros [|[|i]] [|[|[|j]]] Hi Hj; try lia; vm_compute; split; discriminate.
  - intros _. vm_compute. split; discriminate.
  - vm_compute. reflexivity.
  - reflexivity.
Defined.

(** ** Raising every cost, and exchanging workers and jobs *)






(** [cost'] is the transpose of [cost]: workers and jobs change places. *)
Definition transposed (n m : nat) (cost cost' : list (list Q)) : Prop :=
  ∀ i j, i < n → j < m → (cost' !!! j) !!! i = (cost !!! i) !!! j.

(** The job that has the worker [i] in [o]. *)
Definition job_of (o : list Z) (i : nat) : nat :=
  default 0 (fst <$> list_find (λ x, x = Z.of_nat i) o).

(** The assignment [o] read from the workers' side: worker [i] has the job
    [job_of o i], or none. *)
Definition flip (n : nat) (o : list Z) : list Z :=
  (λ i, if decide (Z.of_nat i ∈ o) then Z.of_nat (job_of o i) else (-1)%Z)
    <$> seq 0 n.

Lemma Qsum_filter {A : Type} (P : A → Prop) `{∀ x, Decision (P x)} (f : A → Q)
    (l : list A) :
  (Qsum ((λ x, if bool_decide (P x) then f x else 0) <$> l)
   == Qsum (f <$> filter P l))%Q.
Proof.
  induction l as [|x l IH]; [reflexivity|].
  rewrite fmap_cons, filter_cons. cbn [Qsum]. rewrite IH.
  case_bool_decide as HP.
  - rewrite decide_True by done. rewrite fmap_cons. cbn [Qsum]. lra.
  - rewrite decide_False by done. lra.
Qed.

Lemma job_of_spec (o : list Z) (i : nat) :
  Z.of_nat i ∈ o → job_of o i < length o ∧ o !!! job_of o i = Z.of_nat i.
Proof.
  intros Hin.
  destruct (list_find_elem_of (λ y, y = Z.of_nat i) o _ Hin eq_refl) as [[k y] Hf].
  unfold job_of. rewrite Hf. simpl.
  apply list_find_Some in Hf as (Hk & -> & _).
  split; [by apply lookup_lt_Some in Hk|by apply list_lookup_total_correct].
Qed.

Section Flip.
Variables n m : nat.
Variable o : list Z.
Hypothesis o_valid : valid_assignment (Z.of_nat n) m o.

Lemma job_of_worker (i j : nat) :
  j < m → o !!! j = Z.of_nat i → job_of o i = j.
Proof.
  intros Hj Ho.
  destruct (valid_lookup _ _ _ _ o_valid Hj) as [Hl _].
  assert (Z.of_nat i ∈ o) as Hin
    by (rewrite <- Ho; by eapply list_elem_of_lookup_2).
  destruct (job_of_spec o i Hin) as [Hlt Heq].
  destruct o_valid as (Hlen & _ & Hinj).
  apply (Hinj _ _ (Z.of_nat i)); [|by rewrite <- Ho|lia].
  rewrite <- Heq. apply list_lookup_lookup_total_lt. lia.
Qed.

Lemma flip_lookup (i : nat) :
  i < n →
  flip n o !!! i
  = if decide (Z.of_nat i ∈ o) then Z.of_nat (job_of o i) else (-1)%Z.
Proof.
  intros Hi. unfold flip.
  by rewrite list_lookup_total_alt, list_lookup_fmap, lookup_seq_lt.
Qed.

Lemma flip_valid : valid_assignment (Z.of_nat m) n (flip n o).
Proof.
  assert (length o = m) as Hlen by apply o_valid.
  assert (length (flip n o) = n) as Hlf
    by (unfold flip; by rewrite length_fmap, length_seq).
  assert (∀ i x, flip n o !! i = Some x → i < n ∧ x = flip n o !!! i) as Hget.
  { intros i x Hx. pose proof (lookup_lt_Some _ _ _ Hx) as Hi.
    split; [lia|]. symmetry. by apply list_lookup_total_correct. }
  split_and!; [done| |].
  - intros i x Hx. destruct (Hget i x Hx) as [Hi ->].
    rewrite (flip_lookup i Hi). destruct (decide _) as [Hin|]; [|by left].
    destruct (job_of_spec o i Hin). right. lia.
  - intros i i' x Hx Hx' Hne.
    destruct (Hget i x Hx) as [Hi E]. destruct (Hget i' x Hx') as [Hi' E'].
    rewrite (flip_lookup i Hi) in E. rewrite (flip_lookup i' Hi') in E'.
    destruct (decide (Z.of_nat i ∈ o)) as [Hin|]; [|done].
    destruct (decide (Z.of_nat i' ∈ o)) as [Hin'|]; [|done].
    destruct (job_of_spec o i Hin) as [_ Ho].
    destruct (job_of_spec o i' Hin') as [_ Ho'].
    assert (job_of o i = job_of o i') as Hj by lia.
    rewrite Hj in Ho. lia.
Qed.

(** The workers that [o] uses, listed by job and listed by number. *)
Lemma workers_perm :
  (λ j, Z.to_nat (o !!! j)) <$> filter (λ j, o !!! j ≠ (-1)%Z) (seq 0 m)
  ≡ₚ filter (λ i, Z.of_nat i ∈ o) (seq 0 n).
Proof.
  assert (length o = m) as Hlen by apply o_valid.
  apply NoDup_Permutation.
  - apply NoDup_fmap_2_strong; [|apply list.NoDup_filter, NoDup_seq].
    intros j j' Hj Hj' Heq.
    apply list_elem_of_filter in Hj as [Hne Hj], Hj' as [Hne' Hj'].
    apply elem_of_seq in Hj, Hj'.
    assert (j < m) as Hbj by lia.
    destruct (valid_lookup _ _ _ _ o_valid Hbj) as [Hl Hv].
    assert (j' < m) as Hbjp by lia.
    destruct (valid_lookup _ _ _ _ o_valid Hbjp) as [Hl' Hv'].
    destruct o_valid as (_ & _ & Hinj).
    apply (Hinj j j' (o !!! j)); [done| |done].
    rewrite Hl'. f_equal. lia.
  - apply list.NoDup_filter, NoDup_seq.
  - intros x. rewrite list_elem_of_fmap, list_elem_of_filter, elem_of_seq. split.
    + intros (j & -> & Hj). apply list_elem_of_filter in Hj as [Hne Hj].
      apply elem_of_seq in Hj.
      assert (j < m) as Hbj by lia.
      destruct (valid_lookup _ _ _ _ o_valid Hbj) as [Hl Hv].
      split; [|lia]. rewrite Z2Nat.id by lia. by eapply list_elem_of_lookup_2.
    + intros [Hin Hx]. apply list_elem_of_lookup in Hin as [j Hj].
      pose proof (lookup_lt_Some _ _ _ Hj) as Hjm.
      apply (list_lookup_total_correct _ _ _) in Hj.
      exists j. split; [rewrite Hj; lia|].
      apply list_elem_of_filter. split; [lia|]. apply elem_of_seq. lia.
Qed.

Lemma flip_served : jobs_with_worker (flip n o) = jobs_with_worker o.
Proof.
  assert (length o = m) as Hlen by apply o_valid.
  unfold jobs_with_worker.
  rewrite (filter_lookup_length (λ x, x ≠ (-1)%Z) o), Hlen.
  rewrite <- (length_fmap (λ j : nat, Z.to_nat (o !!! j))), workers_perm.
  rewrite (filter_lookup_length (λ x, x ≠ (-1)%Z) (flip n o)).
  assert (length (flip n o) = n) as ->
    by (unfold flip; by rewrite length_fmap, length_seq).
  f_equal. apply filter_ext_elem. intros i Hi. apply elem_of_seq in Hi.
  rewrite flip_lookup by lia. destruct (decide _); [|tauto].
  split; [done|lia].
Qed.

Lemma flip_cost (cost cost' : list (list Q)) :
  transposed n m cost cost' →
  (assigned_cost cost' (flip n o) == assigned_cost cost o)%Q.
Proof.
  intros Ht. assert (length o = m) as Hlen by apply o_valid.
  unfold assigned_cost.
  assert (length (flip n o) = n) as ->
    by (unfold flip; by rewrite length_fmap, length_seq).
  rewrite Hlen.
  set (h := λ i : nat, (cost !!! i) !!! job_of o i).
  trans (Qsum ((λ i, if bool_decide (Z.of_nat i ∈ o) then h i else 0%Q)
               <$> seq 0 n)).
  { apply Qsum_fmap_eq. intros i Hi. apply elem_of_seq in Hi.
    rewrite flip_lookup by lia.
    destruct (decide (Z.of_nat i ∈ o)) as [Hin|Hnin].
    - destruct (job_of_spec o i Hin) as [Hj _].
      rewrite (bool_decide_eq_true_2 (Z.of_nat i ∈ o)) by done.
      rewrite bool_decide_eq_false_2 by lia.
      rewrite Nat2Z.id. unfold h. rewrite (Ht i (job_of o i)) by lia. lra.
    - rewrite (bool_decide_eq_false_2 (Z.of_nat i ∈ o)) by done.
      rewrite bool_decide_eq_true_2 by done. lra. }
  rewrite Qsum_filter.
  rewrite (Qsum_perm _ (h <$> ((λ j : nat, Z.to_nat (o !!! j))
                               <$> filter (λ j, o !!! j ≠ (-1)%Z) (seq 0 m))))
    by (apply fmap_Permutation; symmetry; apply workers_perm).
  rewrite <- list_fmap_compose.
  trans (Qsum ((λ j, if bool_decide (o !!! j ≠ (-1)%Z)
                     then (cost !!! Z.to_nat (o !!! j)) !!! j else 0%Q)
               <$> seq 0 m)).
  - rewrite Qsum_filter. apply Qsum_fmap_eq. intros j Hj.
    apply list_elem_of_filter in Hj as [Hne Hj]. apply elem_of_seq in Hj.
    assert (j < m) as Hbj by lia.
    destruct (valid_lookup _ _ _ _ o_valid Hbj) as [_ Hv].
    simpl. unfold h.
    rewrite (job_of_worker (Z.to_nat (o !!! j)) j) by lia. lra.
  - apply Qsum_fmap_eq. intros j _. repeat case_bool_decide; try done; lra.
Qed.

End Flip.

(** Over the rationals: workers and jobs can change places: in exact
    arithmetic, for costs within range, the call on the transposed [m × n]
    matrix returns the same total as the call on the [n × m] matrix.*)
Lemma total_of_transposed_costs (n m : nat) (cost cost' : list (list Q))
    (lo hi : Q) (out0 out0' : list Z) :
  in_range lo hi n m cost → (n ≠ m → (lo <= PAD <= hi)%Q) →
  narrow (n `max` m) lo hi → transposed n m cost cost' →
  length out0 = m → length out0' = n →
  ∃ res out res' out',
    hungarian (n `max` m) (Z.of_nat n) (Z.of_nat m) cost out0 = Some (res, out) ∧
    hungarian (n `max` m) (Z.of_nat m) (Z.of_nat n) cost' out0' = Some (res', out') ∧
    (res' == res)%Q.
Proof.
  intros Hin Hpad Hnar Ht Hlen Hlen'.
  assert (in_range lo hi m n cost') as Hin'.
  { intros j i Hj Hi. rewrite (Ht i j Hi Hj). by apply Hin. }
  assert (transposed m n cost' cost) as Ht'.
  { intros j i Hj Hi. symmetry. by apply Ht. }
  destruct (rectangular_run n m cost lo hi out0 Hin Hpad Hnar Hlen)
    as (res & out & Hrun & Hval & Hserve & Hcost & Hopt).
  destruct (rectangular_run m n cost' lo hi out0' Hin'
              ltac:(intros ?; apply Hpad; lia)
              ltac:(by rewrite Nat.max_comm) Hlen')
    as (res' & out' & Hrun' & Hval' & Hserve' & Hcost' & Hopt').
  rewrite (Nat.max_comm m n) in Hrun'.
  exists res, out, res', out'. split_and!; [done|done|].
  pose proof (Hopt (flip m out') (flip_valid m n out' Hval')
                ltac:(by rewrite (flip_served m n out' Hval'), Hserve',
                        Nat.min_comm)) as H1.
  pose proof (Hopt' (flip n out) (flip_valid n m out Hval)
                ltac:(by rewrite (flip_served n m out Hval), Hserve,
                        Nat.min_comm)) as H2.
  rewrite (flip_cost m n out' Hval' cost' cost Ht') in H1.
  rewrite (flip_cost n m out Hval cost cost' Ht) in H2. lra.
Qed.

(** X9: workers and jobs can change places.  In binary64, on a matrix of
    integers that leaves the arithmetic exact, the call on the transposed
    [m × n] matrix returns the same double as the call on the [n × m]
    matrix. *)
Theorem total_of_transposed_costs_binary64 (n m : nat) (cz cz' : list (list Z))
    (lo hi : Z) (out0 out0' : list Z) :
  cost_wf n m cz → entries_in lo hi n m cz →
  (n ≠ m → (lo ≤ 10 ^ 9 ≤ hi)%Z) → exact_range (n `max` m) lo hi →
  cost_wf m n cz' →
  (∀ i j, i < n → j < m → (cz' !!! j) !!! i = (cz !!! i) !!! j) →
  length out0 = m → length out0' = n →
  ∃ res out out',
    hungarian (n `max` m) (Z.of_nat n) (Z.of_nat m) (doubles cz) out0
    = Some (res, out) ∧
    hungarian (n `max` m) (Z.of_nat m) (Z.of_nat n) (doubles cz') out0'
    = Some (res, out').
Proof.
  intros Hwf Hin Hpad Hex Hwf' Ht Hlen Hlen'.
  assert (entries_in lo hi m n cz') as Hin'.
  { intros j i Hj Hi. rewrite (Ht i j Hi Hj). by apply Hin. }
  destruct (hungarian_exact n m cz lo hi Hwf Hin Hpad Hex out0 (n `max` m) (le_n _))
    as (t & out & Hf & Hq & _).
  destruct (hungarian_exact m n cz' lo hi Hwf' Hin' ltac:(intros ?; apply Hpad; lia)
              ltac:(by rewrite Nat.max_comm) out0' (n `max` m) ltac:(lia))
    as (t' & out' & Hf' & Hq' & _).
  destruct (total_of_transposed_costs n m (rationals cz) (rationals cz')
              (inject_Z lo) (inject_Z hi) out0 out0')
    as (res & o & res' & o' & H1 & H2 & Heq);
    [by apply rationals_range| |by apply exact_narrow| |done|done|].
  { intros Hnm. cbn [num_pad Q_num]. rewrite <- !Zle_Qle. by apply Hpad. }
  { intros i j Hi Hj.
    rewrite (rationals_lookup n m cz i j), (rationals_lookup m n cz' j i) by done.
    by rewrite (Ht i j Hi Hj). }
  rewrite Hq in H1. injection H1 as <- <-.
  rewrite Hq' in H2. injection H2 as <- <-.
  apply (proj1 (inject_Z_injective _ _)) in Heq. subst t'.
  exists (fz t), out, out'. split; done.
Qed.

Lemma total_of_transposed_costs_binary64_witness :
  ∃ res out out',
    hungarian 3 2 3 (doubles [ [ 4; 1; 3 ]; [ 2; 0; 5 ] ]%Z) [0; 0; 0]%Z = Some (res, out) ∧
    hungarian 3 3 2 (doubles [ [ 4; 2 ]; [ 1; 0 ]; [ 3; 5 ] ]%Z) [0; 0]%Z
    = Some (res, out').
Proof.
  apply (total_of_transposed_costs_binary64 2 3 [ [ 4; 1; 3 ]; [ 2; 0; 5 ] ]%Z [ [ 4; 2 ]; [ 1; 0 ]; [ 3; 5 ] ]%Z
           0 (10 ^ 9)).
  - split; [reflexivity|]. intros row Hrow.
    repeat (apply elem_of_cons in Hrow as [->|Hrow]; [reflexivity|]).
    by apply elem_of_nil in Hrow.
  - intros [|[|i]] [|[|[|j]]] Hi Hj; try lia; vm_compute; split; discriminate.
  - intros _. vm_compute. split; discriminate.
  - vm_compute. reflexivity.
  - split; [reflexivity|]. intros row Hrow.
    repeat (apply elem_of_cons in Hrow as [->|Hrow]; [reflexivity|]).
    by apply elem_of_nil in Hrow.
  - intros [|[|i]] [|[|[|j]]] Hi Hj; try lia; reflexivity.
  - reflexivity.
  - reflexivity.
Defined.

(** ** The indices stay inside the arrays *)

Section Bounds.
Context {R : Type} `{NumR : Num R}.

(** The arrays have their [N + 1] cells, and every index that the state
    holds -- the job [j0], the rows in [p], the jobs in [way] -- addresses
    one of them. *)
Definition indices_in_bounds (N : nat) (st : state R) : Prop :=
  length (u st) = S N ∧ length (v st) = S N ∧
  length (p st) = S N ∧ length (way st) = S N ∧
  j0 st ≤ N ∧ (∀ j, p st !!! j ≤ N) ∧ (∀ j, way st !!! j ≤ N).

Lemma insert_bounded (N j x : nat) (l : list nat) :
  x ≤ N → (∀ k, l !!! k ≤ N) → ∀ k, (<[j := x]> l) !!! k ≤ N.
Proof.
  intros Hx Hl k. destruct (decide (j < length l)) as [Hj|Hj].
  - rewrite list_lookup_total_insert by done. case_decide; [done|apply Hl].
  - rewrite list_insert_ge by lia. apply Hl.
Qed.

Lemma zeros_bounded (N k j : nat) : replicate k 0 !!! j ≤ N.
Proof.
  destruct (decide (j < k)) as [Hj|Hj].
  - rewrite lookup_total_replicate_2 by done. lia.
  - rewrite list_lookup_total_alt, lookup_ge_None_2; [simpl; lia|].
    rewrite length_replicate. lia.
Qed.

(** What the search keeps, beside [search_ok]. *)
Definition links_bounded (N : nat) (st : state R) : Prop :=
  (∀ j, p st !!! j ≤ N) ∧ (∀ j, way st !!! j ≤ N).

Lemma search_in_bounds (N : nat) (st : state R) :
  search_ok N st → links_bounded N st → indices_in_bounds N st.
Proof.
  intros [Hu Hv Hp Hm Hus [Hwl _ _] Hj] [Hpb Hwb].
  unfold indices_in_bounds. split_and!; done.
Qed.

Lemma round_links_bounded (N : nat) (a : list (list R)) (st : state R) :
  search_ok N st → links_bounded N st → links_bounded N (round N a st).
Proof.
  intros [Hu Hv Hp Hm Hus [Hwl Hwr Hwi] Hj] [Hpb Hwb].
  destruct (scan N a (u st) (v st) (<[j0 st := true]> (used st)) (p st !!! j0 st)
              (j0 st) (minv st) (way st)) as [[[mv wy] d] j1] eqn:Hscan.
  destruct (shift N (p st) (<[j0 st := true]> (used st)) d (u st) (v st) mv)
    as [[us vs] mv2] eqn:Hshift.
  rewrite (round_eq _ _ _ _ _ _ _ _ _ _ Hscan Hshift).
  destruct (scan_arrays N N _ _ _ _ _ _ _ _ _ _ _ _ Hm Hwl (le_n _) Hscan)
    as (_ & _ & _ & Hw & _ & _).
  split; cbn [p way]; [done|].
  intros j. rewrite Hw. case_decide; [done|apply Hwb].
Qed.

Lemma relax_trace_bounds (fuel N : nat) (a : list (list R)) (st : state R) :
  search_ok N st → links_bounded N st →
  ∀ st', st' ∈ relax_trace fuel N a st → indices_in_bounds N st'.
Proof.
  revert st. induction fuel as [|fuel IH]; intros st Hok Hb st' Hin.
  - by apply elem_of_nil in Hin.
  - cbn [relax_trace] in Hin.
    pose proof (round_search_ok N a st Hok) as Hok'.
    pose proof (round_links_bounded N a st Hok Hb) as Hb'.
    apply elem_of_cons in Hin as [->|Hin]; [by apply search_in_bounds|].
    destruct (decide _); [by apply elem_of_nil in Hin|].
    by apply (IH (round N a st)).
Qed.

Lemma relax_links_bounded (fuel N : nat) (a : list (list R)) (st st' : state R) :
  search_ok N st → links_bounded N st → relax fuel N a st = Some st' →
  links_bounded N st'.
Proof.
  revert st. induction fuel as [|fuel IH]; intros st Hok Hb Hrelax; [done|].
  cbn [relax] in Hrelax.
  pose proof (round_search_ok N a st Hok) as Hok'.
  pose proof (round_links_bounded N a st Hok Hb) as Hb'.
  destruct (decide _); [by simplify_eq|]. by apply (IH (round N a st)).
Qed.

Lemma augment_bounded (fuel N : nat) (wy ps ps' : list nat) (j : nat) :
  (∀ k, ps !!! k ≤ N) → augment fuel wy ps j = Some ps' → ∀ k, ps' !!! k ≤ N.
Proof.
  revert ps j. induction fuel as [|fuel IH]; intros ps j Hb Ha; [done|].
  cbn [augment] in Ha.
  pose proof (insert_bounded N j (ps !!! (wy !!! j)) ps (Hb _) Hb) as Hb'.
  destruct (decide _); [by simplify_eq|]. by apply (IH _ _ Hb' Ha).
Qed.

Lemma enter_links_bounded (N i : nat) (st : state R) :
  i ≤ N → links_bounded N st → links_bounded N (enter N i st).
Proof.
  intros Hi [Hpb Hwb]. split; cbn [p way enter]; [|done].
  by apply insert_bounded.
Qed.

Lemma iteration_links_bounded (fuel N k : nat) (a : list (list R))
    (st st' : state R) :
  rest_ok N k st → k < N → links_bounded N st →
  iteration fuel N a (S k) st = Some st' →
  links_bounded N st' ∧ j0 st' = 0.
Proof.
  intros Hrest Hk Hb Hit. unfold iteration in Hit.
  destruct (relax fuel N a (enter N (S k) st)) as [st1|] eqn:Hrelax; [|done].
  simpl in Hit.
  destruct (augment fuel (way st1) (p st1) (j0 st1)) as [ps|] eqn:Haug; [|done].
  simpl in Hit. simplify_eq. cbn [j0]. split; [|done].
  destruct (relax_links_bounded fuel N a _ st1 (enter_search_ok N k st Hrest)
              (enter_links_bounded N (S k) st ltac:(lia) Hb) Hrelax) as [Hpb Hwb].
  split; cbn [p way]; [|done]. by apply (augment_bounded fuel N _ _ _ _ Hpb Haug).
Qed.

Lemma outer_trace_bounds (fuel N c k : nat) (a : list (list R)) (st : state R) :
  rest_ok N k st → links_bounded N st → k + c ≤ N →
  ∀ st', st' ∈ outer_trace fuel N a (seq (S k) c) st → indices_in_bounds N st'.
Proof.
  revert k st. induction c as [|c IH]; intros k st Hrest Hb Hkc st' Hin.
  - by apply elem_of_nil in Hin.
  - cbn [seq outer_trace] in Hin. apply elem_of_app in Hin as [Hin|Hin].
    + apply (relax_trace_bounds fuel N a (enter N (S k) st)); [| |done].
      * by apply enter_search_ok.
      * apply enter_links_bounded; [lia|done].
    + destruct (iteration fuel N a (S k) st) as [st1|] eqn:Hit;
        [|by apply elem_of_nil in Hin].
      pose proof (iteration_rest_ok fuel N a k st st1 Hrest Hit) as Hrest1.
      destruct (iteration_links_bounded fuel N k a st st1 Hrest ltac:(lia) Hb Hit)
        as [Hb1 Hj1].
      apply elem_of_cons in Hin as [->|Hin].
      * destruct Hrest1 as [Hmatch [Hwl _ _] Hlu Hlv]. destruct Hb1 as [Hpb Hwb].
        unfold indices_in_bounds. rewrite Hj1.
        split_and!; try done; [apply (m_len _ _ _ Hmatch)|lia].
      * apply (IH (S k) st1); [done|done|lia|done].
Qed.

End Bounds.

(** X10: the call never leaves its arrays.  At the start, after every pass
    of the loop of lines 41-56 and after every rewiring of lines 59-63, the
    arrays [u], [v], [p], [way] have their [N + 1] cells and every index
    stored in [j0], [p] and [way] is at most [N] -- so that the reads and
    writes [a[p[j0]][j]], [u[p[j]]], [way[j0]], [p[way[j0]]] of the next
    pass address allocated cells.  This for every arithmetic and any costs,
    not-a-number included, along a run of any length. *)
Theorem indices_stay_in_bounds {R : Type} `{NumR : Num R} (fuel N : nat)
    (a : list (list R)) (st : state R) :
  st ∈ solve_trace fuel N a →
  length (u st) = S N ∧ length (v st) = S N ∧
  length (p st) = S N ∧ length (way st) = S N ∧
  j0 st ≤ N ∧ (∀ j, p st !!! j ≤ N) ∧ (∀ j, way st !!! j ≤ N).
Proof.
  intros Hin. unfold solve_trace in Hin.
  assert (links_bounded N (init_state (R:=R) N)) as Hb.
  { split; intros j; cbn [p way init_state]; apply zeros_bounded. }
  apply elem_of_cons in Hin as [->|Hin].
  - cbn [u v p way j0 init_state]. rewrite !length_replicate.
    split_and!; try done; [lia|apply Hb..].
  - apply (outer_trace_bounds fuel N N 0 a (init_state N)); try done.
    apply init_rest_ok.
Qed.

Lemma indices_stay_in_bounds_witness :
  ∃ st, list.last (solve_trace 4 4 (pad_matrix 4 3 4 main_data_float)) = Some st ∧
        length (u st) = 5 ∧ length (v st) = 5 ∧
        length (p st) = 5 ∧ length (way st) = 5 ∧
        j0 st ≤ 4 ∧ (∀ j, p st !!! j ≤ 4) ∧ (∀ j, way st !!! j ≤ 4).
Proof.
  destruct (list.last (solve_trace 4 4 (pad_matrix 4 3 4 main_data_float)))
    as [st|] eqn:Hl; [|vm_compute in Hl; discriminate].
  exists st. split; [reflexivity|].
  apply (indices_stay_in_bounds 4 4 (pad_matrix 4 3 4 main_data_float) st).
  apply last_Some_elem_of. exact Hl.
Defined.

(** ** The update of the potentials *)

(** Over the rationals: what the second loop of a round (lines 51-54) does
    to the sums [u[i] + v[j]], in exact arithmetic, when the used jobs carry
    distinct rows (the rows of the tree): between a row of the tree and a
    used job the sum is unchanged, so that a tight cell stays tight; between
    a row of the tree and an unused job it grows by [delta], and [minv] of
    that job shrinks by [delta]; between another row and a used job it
    shrinks by [delta]; and between another row and an unused job it is
    unchanged.*)
Lemma shift_moves_sums (N : nat) (ps : list nat) (usd : list bool) (delta : Q)
    (us vs mv us' vs' mv' : list Q) :
  length us = S N → length vs = S N → length mv = S N →
  (∀ j j', j ≤ N → j' ≤ N → usd !!! j = true → usd !!! j' = true →
           ps !!! j = ps !!! j' → j = j') →
  (∀ j, j ≤ N → usd !!! j = true → ps !!! j ≤ N) →
  shift N ps usd delta us vs mv = (us', vs', mv') →
  (∀ j' j, j' ≤ N → j ≤ N → usd !!! j' = true →
     (usd !!! j = true →
        us' !!! (ps !!! j') + vs' !!! j == us !!! (ps !!! j') + vs !!! j)%Q ∧
     (usd !!! j = false →
        (us' !!! (ps !!! j') + vs' !!! j
         == us !!! (ps !!! j') + vs !!! j + delta)%Q ∧
        (mv' !!! j == mv !!! j - delta)%Q)) ∧
  (∀ i j, (∀ j', j' ≤ N → usd !!! j' = true → ps !!! j' ≠ i) → j ≤ N →
     (usd !!! j = true →
        us' !!! i + vs' !!! j == us !!! i + vs !!! j - delta)%Q ∧
     (usd !!! j = false → us' !!! i + vs' !!! j == us !!! i + vs !!! j)%Q).
Proof.
  intros Hu Hv Hm Hinj Hrange Hshift. unfold shift in Hshift.
  destruct (shift_arrays N (S N) ps usd delta us vs mv us' vs' mv'
              Hu Hv Hm (le_n _) Hshift)
    as (_ & _ & _ & Hvs & Hmv & Hus).
  destruct (Hus Hinj Hrange) as [Hin Hout].
  split.
  - intros j' j Hj' Hj Hu'.
    rewrite (Hin j' ltac:(lia) Hu'), (Hvs j), (Hmv j).
    split.
    + intros Hu1. rewrite decide_True by (split; [lia|done]). qarith.
    + intros Hu0. rewrite decide_False by (intros [_ E]; congruence).
      rewrite decide_True by (split; [lia|done]). split; qarith.
  - intros i j Hfree Hj.
    rewrite (Hout i), (Hvs j);
      [|intros j' Hj' Hu'; apply Hfree; [lia|done]].
    split.
    + intros Hu1. rewrite decide_True by (split; [lia|done]). qarith.
    + intros Hu0. rewrite decide_False by (intros [_ E]; congruence). qarith.
Qed.

(** X11: what the second loop of a round (lines 51-54) does to the sums
    [u[i] + v[j]] in binary64, on arrays that hold integers within [B] with
    [4 B < 2^53], when the used jobs carry distinct rows (the rows of the
    tree): between a row of the tree and a used job the sum is unchanged,
    so that a tight cell stays tight; between a row of the tree and an
    unused job it grows by [delta], and [minv] of that job shrinks by
    [delta]; between another row and a used job it shrinks by [delta]; and
    between another row and an unused job it is unchanged. *)
Theorem shift_moves_sums_binary64 (N : nat) (ps : list nat) (usd : list bool)
    (zd : Z) (zus zvs zmv : list Z) (B : Z) (us' vs' mv' : list float) :
  length zus = S N → length zvs = S N → length zmv = S N →
  (4 * B < 2 ^ 53)%Z → (- B ≤ zd ≤ B)%Z →
  (∀ i, i ≤ N → (- B ≤ zus !!! i ≤ B)%Z ∧ (- B ≤ zvs !!! i ≤ B)%Z) →
  (∀ j j', j ≤ N → j' ≤ N → usd !!! j = true → usd !!! j' = true →
           ps !!! j = ps !!! j' → j = j') →
  (∀ j, j ≤ N → usd !!! j = true → ps !!! j ≤ N) →
  shift N ps usd (fz zd) (fz <$> zus) (fz <$> zvs) (fz <$> zmv) = (us', vs', mv') →
  (∀ j' j, j' ≤ N → j ≤ N → usd !!! j' = true →
     (usd !!! j = true →
        (us' !!! (ps !!! j') + vs' !!! j
         = (fz <$> zus) !!! (ps !!! j') + (fz <$> zvs) !!! j)%float) ∧
     (usd !!! j = false →
        (us' !!! (ps !!! j') + vs' !!! j
         = (fz <$> zus) !!! (ps !!! j') + (fz <$> zvs) !!! j + fz zd)%float ∧
        (mv' !!! j = (fz <$> zmv) !!! j - fz zd)%float)) ∧
  (∀ i j, i ≤ N → (∀ j', j' ≤ N → usd !!! j' = true → ps !!! j' ≠ i) → j ≤ N →
     (usd !!! j = true →
        (us' !!! i + vs' !!! j
         = (fz <$> zus) !!! i + (fz <$> zvs) !!! j - fz zd)%float) ∧
     (usd !!! j = false →
        (us' !!! i + vs' !!! j = (fz <$> zus) !!! i + (fz <$> zvs) !!! j)%float)).
Proof.
  intros Hu Hv Hm HB Hd Hb Hinj Hrange Hshift. unfold shift in Hshift.
  destruct (shift_arrays N (S N) ps usd (fz zd) (fz <$> zus) (fz <$> zvs)
              (fz <$> zmv) us' vs' mv')
    as (_ & _ & _ & Hvs & Hmv & Hus);
    [by rewrite length_fmap|by rewrite length_fmap|by rewrite length_fmap|done|done|].
  destruct (Hus Hinj Hrange) as [Hin Hout].
  cbn [num_add num_sub float_num] in *.
  assert (∀ i, i ≤ N → (fz <$> zus) !!! i = fz (zus !!! i)) as Eu
    by (intros i Hi; apply list_lookup_total_fmap; lia).
  assert (∀ i, i ≤ N → (fz <$> zvs) !!! i = fz (zvs !!! i)) as Ev
    by (intros i Hi; apply list_lookup_total_fmap; lia).
  assert (∀ x y, (- B ≤ x ≤ B)%Z → (- B ≤ y ≤ B)%Z →
            (fz x + fz y)%float = fz (x + y) ∧ (fz x - fz y)%float = fz (x - y)) as H2.
  { intros x y Hx Hy. split; [apply fz_add|apply fz_sub]; unfold small; lia. }
  assert (∀ x y, (- (2 * B) ≤ x ≤ 2 * B)%Z → (- (2 * B) ≤ y ≤ 2 * B)%Z →
            (fz x + fz y)%float = fz (x + y)) as H4.
  { intros x y Hx Hy. apply fz_add; unfold small; lia. }
  assert (∀ x y, (- (2 * B) ≤ x ≤ 2 * B)%Z → (- B ≤ y ≤ B)%Z →
            (fz x + fz y)%float = fz (x + y) ∧ (fz x - fz y)%float = fz (x - y)) as H3.
  { intros x y Hx Hy. split; [apply fz_add|apply fz_sub]; unfold small; lia. }
  split.
  - intros j' j Hj' Hj Hu'.
    pose proof (Hrange j' Hj' Hu') as Hr.
    destruct (Hb (ps !!! j') Hr) as [Hbu _]. destruct (Hb j Hj) as [_ Hbv].
    rewrite (Hin j' ltac:(lia) Hu'), (Hvs j), (Hmv j), (Eu _ Hr), (Ev _ Hj).
    split.
    + intros Hu1. rewrite decide_True by (split; [lia|done]).
      rewrite (proj1 (H2 _ _ Hbu Hd)), (proj2 (H2 _ _ Hbv Hd)).
      assert (- (2 * B) ≤ zus !!! (ps !!! j') + zd ≤ 2 * B)%Z as Hs1 by lia.
      assert (- (2 * B) ≤ zvs !!! j - zd ≤ 2 * B)%Z as Hs2 by lia.
      rewrite (H4 _ _ Hs1 Hs2), (proj1 (H2 _ _ Hbu Hbv)). f_equal. lia.
    + intros Hu0. rewrite decide_False by (intros [_ E]; congruence).
      rewrite decide_True by (split; [lia|done]). split; [|done].
      rewrite (proj1 (H2 _ _ Hbu Hd)), (proj1 (H2 _ _ Hbu Hbv)).
      assert (- (2 * B) ≤ zus !!! (ps !!! j') + zd ≤ 2 * B)%Z as Hs1 by lia.
      assert (- (2 * B) ≤ zus !!! (ps !!! j') + zvs !!! j ≤ 2 * B)%Z as Hs2 by lia.
      rewrite (proj1 (H3 _ _ Hs1 Hbv)), (proj1 (H3 _ _ Hs2 Hd)).
      f_equal. lia.
  - intros i j Hi Hfree Hj.
    destruct (Hb i Hi) as [Hbu _]. destruct (Hb j Hj) as [_ Hbv].
    rewrite (Hout i), (Hvs j), (Eu _ Hi), (Ev _ Hj);
      [|intros j' Hj' Hu'; apply Hfree; [lia|done]].
    split.
    + intros Hu1. rewrite decide_True by (split; [lia|done]).
      rewrite (proj2 (H2 _ _ Hbv Hd)), (proj1 (H2 _ _ Hbu Hbv)).
      assert (- (2 * B) ≤ zus !!! i ≤ 2 * B)%Z as Hs1 by lia.
      assert (- (2 * B) ≤ zvs !!! j - zd ≤ 2 * B)%Z as Hs2 by lia.
      assert (- (2 * B) ≤ zus !!! i + zvs !!! j ≤ 2 * B)%Z as Hs3 by lia.
      rewrite (H4 _ _ Hs1 Hs2), (proj2 (H3 _ _ Hs3 Hd)). f_equal. lia.
    + intros Hu0. rewrite decide_False by (intros [_ E]; congruence). done.
Qed.

Lemma shift_moves_sums_binary64_witness :
  (∀ j' j, j' ≤ 2 → j ≤ 2 → [true; true; false] !!! j' = true →
     ([true; true; false] !!! j = true →
        ([fz 0; fz 3; fz 5] !!! ([2; 1; 0]%nat !!! j') + [fz (-3); fz (-2); fz 0] !!! j
         = (fz <$> [0; 1; 3]%Z) !!! ([2; 1; 0]%nat !!! j')
           + (fz <$> [-1; 0; 0]%Z) !!! j)%float) ∧
     ([true; true; false] !!! j = false →
        ([fz 0; fz 3; fz 5] !!! ([2; 1; 0]%nat !!! j') + [fz (-3); fz (-2); fz 0] !!! j
         = (fz <$> [0; 1; 3]%Z) !!! ([2; 1; 0]%nat !!! j')
           + (fz <$> [-1; 0; 0]%Z) !!! j + fz 2)%float ∧
        ([fz 9; fz 9; fz 5] !!! j = (fz <$> [9; 9; 7]%Z) !!! j - fz 2)%float)) ∧
  (∀ i j, i ≤ 2 →
     (∀ j', j' ≤ 2 → [true; true; false] !!! j' = true → [2; 1; 0] !!! j' ≠ i) →
     j ≤ 2 →
     ([true; true; false] !!! j = true →
        ([fz 0; fz 3; fz 5] !!! i + [fz (-3); fz (-2); fz 0] !!! j
         = (fz <$> [0; 1; 3]%Z) !!! i + (fz <$> [-1; 0; 0]%Z) !!! j - fz 2)%float) ∧
     ([true; true; false] !!! j = false →
        ([fz 0; fz 3; fz 5] !!! i + [fz (-3); fz (-2); fz 0] !!! j
         = (fz <$> [0; 1; 3]%Z) !!! i + (fz <$> [-1; 0; 0]%Z) !!! j)%float)).
Proof.
  apply (shift_moves_sums_binary64 2 [2; 1; 0] [true; true; false] 2
           [0; 1; 3]%Z [-1; 0; 0]%Z [9; 9; 7]%Z 9
           [fz 0; fz 3; fz 5] [fz (-3); fz (-2); fz 0] [fz 9; fz 9; fz 5]).
  - reflexivity.
  - reflexivity.
  - reflexivity.
  - vm_compute. reflexivity.
  - lia.
  - intros [|[|[|i]]] Hi; try lia; vm_compute; split; split; discriminate.
  - intros [|[|[|j]]] [|[|[|j']]] Hj Hj' H1 H2 E; try lia; try done.
  - intros [|[|[|j]]] Hj H1; try lia; vm_compute; try lia; done.
  - vm_compute. reflexivity.
Defined.

(** ** Bounds on the total *)

Lemma assigned_cost_bounds (n m : nat) (cost : list (list Q)) (lo hi : Q)
    (o : list Z) :
  valid_assignment (Z.of_nat n) m o → in_range lo hi n m cost →
  (natQ (jobs_with_worker o) * lo <= assigned_cost cost o
   <= natQ (jobs_with_worker o) * hi)%Q.
Proof.
  intros Ho Hin. assert (length o = m) as Hlen by apply Ho.
  unfold assigned_cost, jobs_with_worker.
  rewrite (filter_lookup_length (λ x, x ≠ (-1)%Z) o), Hlen.
  rewrite <- !(Qsum_indicator (λ j, o !!! j = (-1)%Z) _ (seq 0 m)).
  split; apply Qsum_fmap_le; intros j Hj; apply elem_of_seq in Hj;
    (assert (j < m) as Hjm by lia);
    destruct (valid_lookup _ _ _ _ Ho Hjm) as [_ Hv];
    (case_bool_decide as Hd; [lra|]);
    apply (Hin (Z.to_nat (o !!! j)) j); lia.
Qed.

(** Over the rationals: the total returned lies between [min n m] times the
    least cost and [min n m] times the greatest: in exact arithmetic, for
    costs within a range [[lo, hi]] narrow enough for the square.*)
Lemma total_within_bounds (n m : nat) (cost : list (list Q)) (lo hi : Q)
    (out0 : list Z) :
  in_range lo hi n m cost → (n ≠ m → (lo <= PAD <= hi)%Q) →
  narrow (n `max` m) lo hi → length out0 = m →
  ∃ res out,
    hungarian (n `max` m) (Z.of_nat n) (Z.of_nat m) cost out0 = Some (res, out) ∧
    (natQ (n `min` m) * lo <= res <= natQ (n `min` m) * hi)%Q.
Proof.
  intros Hin Hpad Hnar Hlen.
  destruct (rectangular_run n m cost lo hi out0 Hin Hpad Hnar Hlen)
    as (res & out & Hrun & Hval & Hserve & Hcost & _).
  exists res, out. split; [done|].
  pose proof (assigned_cost_bounds n m cost lo hi out Hval Hin) as Hb.
  rewrite Hserve in Hb. rewrite Hcost. exact Hb.
Qed.

(** X12: in binary64, on a matrix of integers in [[lo, hi]] that leaves the
    arithmetic exact, the total returned is the double of an integer
    between [min n m] times [lo] and [min n m] times [hi]. *)
Theorem total_within_bounds_binary64 (n m : nat) (cz : list (list Z)) (lo hi : Z)
    (out0 : list Z) :
  cost_wf n m cz → entries_in lo hi n m cz →
  (n ≠ m → (lo ≤ 10 ^ 9 ≤ hi)%Z) → exact_range (n `max` m) lo hi →
  length out0 = m →
  ∃ t out,
    hungarian (n `max` m) (Z.of_nat n) (Z.of_nat m) (doubles cz) out0
    = Some (fz t, out) ∧
    (Z.of_nat (n `min` m) * lo ≤ t ≤ Z.of_nat (n `min` m) * hi)%Z.
Proof.
  intros Hwf Hin Hpad Hex Hlen.
  destruct (hungarian_exact n m cz lo hi Hwf Hin Hpad Hex out0 (n `max` m) (le_n _))
    as (t & out & Hf & Hq & _).
  destruct (total_within_bounds n m (rationals cz) (inject_Z lo) (inject_Z hi) out0)
    as (res & o & Hrun & Hb);
    [by apply rationals_range| |by apply exact_narrow|done|].
  { intros Hnm. cbn [num_pad Q_num]. rewrite <- !Zle_Qle. by apply Hpad. }
  rewrite Hq in Hrun. injection Hrun as <- <-.
  exists t, out. split; [done|].
  unfold natQ in Hb. rewrite !inject_Z_mul_eq, <- !Zle_Qle in Hb. exact Hb.
Qed.

Lemma total_within_bounds_binary64_witness :
  ∃ t out,
    hungarian 2 2 2 (doubles [ [ 1; 3 ]; [ 3; 1 ] ]%Z) [0; 0]%Z = Some (fz t, out) ∧
    (Z.of_nat 2 * 1 ≤ t ≤ Z.of_nat 2 * 3)%Z.
Proof.
  apply (total_within_bounds_binary64 2 2 [ [ 1; 3 ]; [ 3; 1 ] ]%Z 1 3 [0; 0]%Z).
  - split; [reflexivity|]. intros row Hrow.
    repeat (apply elem_of_cons in Hrow as [->|Hrow]; [reflexivity|]).
    by apply elem_of_nil in Hrow.
  - intros [|[|i]] [|[|j]] Hi Hj; try lia; vm_compute; split; discriminate.
  - intros H. by destruct H.
  - vm_compute. reflexivity.
  - reflexivity.
Defined.
